(** * Todoist project widget: store, snapshot, render scheduling, event reordering

    A shallow embedding of the TypeScript sources of the project widget
    ([TaskStore] and [TaskTree] of TaskTree.mts, [EventQueue] of
    EventQueue.mts and the event dispatcher of [ProjectWidgetScript])
    together with the properties established about them.

    Conventions of the embedding

    - A JavaScript [Map] keeps its entries in insertion order and the
      sources iterate over it, so a [Map<string, V>] is an association
      list ([JsMap.t V]) whose operations follow the [Map] methods.
    - [child_order], [section_order] and the values of [Date.parse] are
      JavaScript numbers holding integers; they are integers ([Z]) here and
      the [NaN] of [Date.parse] is [None].
    - [Date.parse] and [String.prototype.localeCompare] belong to the host;
      definitions take them as parameters ([Date_parse], [localeCompare]).
    - A method that may [throw] is a function from the state to a
      completion ([Normal] or [Throw]) and the state at that point.
    - [Array.prototype.sort] is stable.  Where the comparator is
      consistent on the array (a total preorder, as the difference of two
      numbers is) the result is the one stable sorted arrangement, which
      the insertion sort [js_sort] computes.  Where it is not (a timestamp
      that is [NaN] beside timestamps that are numbers) the order is left
      to the engine; [js_sort] is then one possible outcome, and no
      property below states an order for that case.
    - [querySelector] is given a selector text built from an id.  The
      TaskTree model covers the ids that text represents as they are
      ([plain_id]); with a double quote, a backslash, a line break or a
      NUL character in the id the selector is malformed or means something
      else, and the properties about look-ups assume ids without them.
    - Time is the millisecond clock of the host. A timer set with
      [window.setTimeout] is kept with its deadline and fires at the tick
      that reaches it; timers fire in the order they were set.
    - [console.warn] / [console.error] output is not part of the state.

    The definitions come first (sources, then the notions the statements
    use and the data of the examples), the properties after them. *)

From Stdlib Require Import ZArith List String Bool Arith Lia.
From Stdlib Require Import Sorted Permutation OrderedTypeEx.
From Stdlib Require Import DecimalString.
Import ListNotations.
Open Scope string_scope.
Open Scope list_scope.

Set Implicit Arguments.
Set Warnings "-register-all".

(* ------------------------------------------------------------------ *)
(** ** JavaScript values used by the sources *)

(** Truthiness of a [string | null] value: [null] and the empty string
    are falsy. *)
Definition truthy (o : option string) : bool :=
  match o with
  | Some s => negb (String.eqb s "")
  | None => false
  end.

(** Strict equality [o === k] of a [string | null] value with a string. *)
Definition strict_eq (o : option string) (k : string) : bool :=
  match o with
  | Some s => String.eqb s k
  | None => false
  end.

(** Completion of a call: normal return or a thrown [Error] (its message). *)
Inductive Completion (A : Type) : Type :=
| Normal (a : A)
| Throw (message : string).
Arguments Normal {A} a.
Arguments Throw {A} message.

Definition is_throw {A} (c : Completion A) : bool :=
  match c with Throw _ => true | Normal _ => false end.

(** Insertion-ordered [Map<string, V>]. *)
Module JsMap.
Section WithValue.
Variable V : Type.

Definition t := list (string * V).

Definition empty : t := [].

Fixpoint get (m : t) (k : string) : option V :=
  match m with
  | [] => None
  | (k', v) :: m' => if String.eqb k k' then Some v else get m' k
  end.

Definition has (m : t) (k : string) : bool :=
  match get m k with Some _ => true | None => false end.

(** [set] overwrites in place (the key keeps its position) or appends. *)
Fixpoint set (m : t) (k : string) (v : V) : t :=
  match m with
  | [] => [(k, v)]
  | (k', v') :: m' =>
      if String.eqb k k' then (k, v) :: m' else (k', v') :: set m' k v
  end.

Definition delete (m : t) (k : string) : t :=
  filter (fun e => negb (String.eqb k (fst e))) m.

Definition keys (m : t) : list string := map fst m.
Definition values (m : t) : list V := map snd m.
End WithValue.
Arguments empty {V}.
End JsMap.

(** [Array.prototype.sort(cmp)]: stable, ordered by the sign of [cmp].
    It is the result of the original for every comparator that is
    consistent on the list; for another comparator the original's order
    depends on the engine. *)
Section JsSort.
Variable A : Type.
Variable cmp : A -> A -> Z.

Fixpoint sort_insert (x : A) (l : list A) : list A :=
  match l with
  | [] => [x]
  | y :: l' => if (cmp x y <=? 0)%Z then x :: y :: l' else y :: sort_insert x l'
  end.

Fixpoint js_sort (l : list A) : list A :=
  match l with
  | [] => []
  | x :: l' => sort_insert x (js_sort l')
  end.

(** The order a comparator induces. *)
Definition cmp_le (x y : A) : Prop := (cmp x y <= 0)%Z.
End JsSort.

(* ------------------------------------------------------------------ *)
(** ** Data model (TaskTree.mts) *)

Module TodoistTask.
Record t := mk {
  id : string;
  parent_id : option string;
  section_id : option string;
  child_order : Z;
  content : string;
  updated_at : string
}.
End TodoistTask.

Module SectionRecord.
Record t := mk {
  id : string;
  name : string;
  section_order : Z;
  updated_at : string
}.
End SectionRecord.

(** [TodoistSectionInput] has the fields of the stored record. *)
Definition TodoistSectionInput := SectionRecord.t.

Module TodoistProject.
(** [{ name: string; [key: string]: unknown }]: the name and the opaque
    remaining properties. *)
Record t := mk {
  name : string;
  extra : list (string * string)
}.
End TodoistProject.

Record TodoistProjectResponse := mkResponse {
  resp_project : option TodoistProject.t;
  resp_sections : list SectionRecord.t;
  resp_tasks : list TodoistTask.t
}.

Inductive TodoistTaskNode : Type :=
| mkNode (node_task : TodoistTask.t) (children : list TodoistTaskNode) (depth : nat).

Definition node_task (n : TodoistTaskNode) : TodoistTask.t :=
  match n with mkNode t _ _ => t end.
Definition children (n : TodoistTaskNode) : list TodoistTaskNode :=
  match n with mkNode _ c _ => c end.
Definition depth (n : TodoistTaskNode) : nat :=
  match n with mkNode _ _ d => d end.

Record TodoistSection := mkSection {
  section_record : SectionRecord.t;
  section_tasks : list TodoistTaskNode
}.

Record OrganizedProjectData := mkData {
  data_project : option TodoistProject.t;
  data_sections : list TodoistSection;
  data_unsectioned : list TodoistTaskNode
}.

(* ------------------------------------------------------------------ *)
(** ** TaskStore *)

Record TaskStore := mkStore {
  project : option TodoistProject.t;
  sections : JsMap.t SectionRecord.t;
  tasks : JsMap.t TodoistTask.t
}.

Definition emptyStore : TaskStore := mkStore None JsMap.empty JsMap.empty.

Definition with_tasks (st : TaskStore) (m : JsMap.t TodoistTask.t) : TaskStore :=
  mkStore (project st) (sections st) m.
Definition with_sections (st : TaskStore) (m : JsMap.t SectionRecord.t) : TaskStore :=
  mkStore (project st) m (tasks st).

(** A store method: state in, completion and state out. *)
Definition Method (S A : Type) := S -> Completion A * S.

Section Store.
Variable Date_parse : string -> option Z.

(** TaskStore.isStale *)
Definition isStale (incoming current : string) : bool :=
  match Date_parse incoming, Date_parse current with
  | Some incomingTime, Some currentTime => (incomingTime <? currentTime)%Z
  | _, _ => false
  end.

(** TaskStore.organize *)
Definition organize (data : TodoistProjectResponse) (st : TaskStore) : TaskStore :=
  mkStore (resp_project data)
    (fold_left (fun m s => JsMap.set m (SectionRecord.id s) s) (resp_sections data) JsMap.empty)
    (fold_left (fun m t => JsMap.set m (TodoistTask.id t) t) (resp_tasks data) JsMap.empty).

(** TaskStore.updateTask *)
Definition updateTask (updatedTask : TodoistTask.t) : Method TaskStore unit :=
  fun st =>
    match JsMap.get (tasks st) (TodoistTask.id updatedTask) with
    | None =>
        (Throw ("Task with ID " ++ TodoistTask.id updatedTask ++ " does not exist.")%string, st)
    | Some existing =>
        if isStale (TodoistTask.updated_at updatedTask) (TodoistTask.updated_at existing)
        then (Normal tt, st)
        else (Normal tt,
              with_tasks st (JsMap.set (tasks st) (TodoistTask.id updatedTask) updatedTask))
    end.

(** TaskStore.addTask *)
Definition addTask (task : TodoistTask.t) : Method TaskStore unit :=
  fun st =>
    if JsMap.has (tasks st) (TodoistTask.id task)
    then (Throw ("Task with ID " ++ TodoistTask.id task ++ " already exists.")%string, st)
    else (Normal tt, with_tasks st (JsMap.set (tasks st) (TodoistTask.id task) task)).

(** TaskStore.addSection *)
Definition addSection (section : TodoistSectionInput) : Method TaskStore unit :=
  fun st =>
    (Normal tt, with_sections st (JsMap.set (sections st) (SectionRecord.id section) section)).

(** TaskStore.updateSection; the result is the [skipped] flag. *)
Definition updateSection (section : TodoistSectionInput) : Method TaskStore bool :=
  fun st =>
    match JsMap.get (sections st) (SectionRecord.id section) with
    | None =>
        (Throw ("Section with ID " ++ SectionRecord.id section ++ " does not exist.")%string, st)
    | Some existing =>
        if isStale (SectionRecord.updated_at section) (SectionRecord.updated_at existing)
        then (Normal true, st)
        else (Normal false,
              with_sections st (JsMap.set (sections st) (SectionRecord.id section) section))
    end.

(** The ids [removeTask] pushes after deleting [current]: those of the
    stored tasks with [task.parent_id === current], in [Map] order. *)
Definition pushed_ids (m' : JsMap.t TodoistTask.t) (current : string) : list string :=
  map TodoistTask.id
      (filter (fun task => strict_eq (TodoistTask.parent_id task) current) (JsMap.values m')).

(** The loop of TaskStore.removeTask: [queue.shift()], delete, then push
    the ids of the stored tasks whose [parent_id] is the deleted id.
    [None] when [fuel] iterations do not empty the queue. *)
Fixpoint removeLoop (fuel : nat) (queue : list string) (m : JsMap.t TodoistTask.t)
  : option (JsMap.t TodoistTask.t) :=
  match queue with
  | [] => Some m
  | current :: rest =>
      match fuel with
      | O => None
      | S fuel' =>
          let m' := JsMap.delete m current in
          removeLoop fuel' (rest ++ pushed_ids m' current) m'
      end
  end.

(** TaskStore.removeTask. Every iteration deletes a stored task, so as
    many iterations as there are tasks empty the queue
    ([removeTask_loop_returns]); the [None] branch is never taken. *)
Definition removeTask (taskId : string) (st : TaskStore) : TaskStore :=
  if negb (JsMap.has (tasks st) taskId) then st
  else
    match removeLoop (List.length (tasks st)) [taskId] (tasks st) with
    | Some m => with_tasks st m
    | None => st
    end.

(** The local [roots] of TaskStore.removeSection:
    [Array.from(this.tasks.values()).filter(task => task.section_id === sectionId)]. *)
Definition removeSection_roots (sectionId : string) (st : TaskStore) : list TodoistTask.t :=
  filter (fun task => strict_eq (TodoistTask.section_id task) sectionId)
         (JsMap.values (tasks st)).

(** TaskStore.removeSection *)
Definition removeSection (sectionId : string) (st : TaskStore) : TaskStore :=
  if negb (JsMap.has (sections st) sectionId) then st
  else
    let roots := removeSection_roots sectionId st in
    let st' := fold_left (fun s task => removeTask (TodoistTask.id task) s) roots st in
    with_sections st' (JsMap.delete (sections st') sectionId).

(** The selection as the specification words it: the stored tasks with
    [section_id == id] that are also root tasks (no parent); and
    removeSection cascading over that selection. *)
Definition spec_removeSection_roots (sectionId : string) (st : TaskStore)
  : list TodoistTask.t :=
  filter (fun task =>
            strict_eq (TodoistTask.section_id task) sectionId
            && match TodoistTask.parent_id task with None => true | Some _ => false end)
         (JsMap.values (tasks st)).

Definition spec_removeSection (sectionId : string) (st : TaskStore) : TaskStore :=
  if negb (JsMap.has (sections st) sectionId) then st
  else
    let roots := spec_removeSection_roots sectionId st in
    let st' := fold_left (fun s task => removeTask (TodoistTask.id task) s) roots st in
    with_sections st' (JsMap.delete (sections st') sectionId).
End Store.

(* ------------------------------------------------------------------ *)
(** ** TaskStore.snapshot *)

Section Snapshot.
Variable localeCompare : string -> string -> Z.

Definition sortByOrder (a b : TodoistTaskNode) : Z :=
  if (TodoistTask.child_order (node_task a) =? TodoistTask.child_order (node_task b))%Z
  then localeCompare (TodoistTask.id (node_task a)) (TodoistTask.id (node_task b))
  else (TodoistTask.child_order (node_task a) - TodoistTask.child_order (node_task b))%Z.

(** The [nodes] map: one node per stored task, under the task's id. *)
Definition snapshot_nodes (st : TaskStore) : JsMap.t TodoistTask.t :=
  fold_left (fun m task => JsMap.set m (TodoistTask.id task) task)
            (JsMap.values (tasks st)) JsMap.empty.

(** [node.parent_id ? nodes.get(node.parent_id) : undefined], as the key
    under which the parent node is stored. *)
Definition parent_key (nodes : JsMap.t TodoistTask.t) (task : TodoistTask.t)
  : option string :=
  match TodoistTask.parent_id task with
  | Some p => if truthy (Some p) && JsMap.has nodes p then Some p else None
  | None => None
  end.

Definition is_root (nodes : JsMap.t TodoistTask.t) (task : TodoistTask.t) : bool :=
  match parent_key nodes task with Some _ => false | None => true end.

(** The entries pushed to the [children] of the node stored under [k],
    in the iteration order of [nodes]. *)
Definition linked_children (nodes : JsMap.t TodoistTask.t) (k : string)
  : list (string * TodoistTask.t) :=
  filter (fun e => match parent_key nodes (snd e) with
                   | Some p => String.eqb p k
                   | None => false
                   end) nodes.

(** The node stored under [k] once linked, given its depth and with its
    children sorted. A tree hanging from a root has fewer levels than
    there are nodes, which is the [fuel] [snapshot] passes
    ([buildNode_fuel_stable]). *)
Fixpoint buildNode (fuel : nat) (nodes : JsMap.t TodoistTask.t) (d : nat)
         (k : string) (task : TodoistTask.t) : TodoistTaskNode :=
  match fuel with
  | O => mkNode task [] d
  | S fuel' =>
      mkNode task
        (js_sort sortByOrder
           (map (fun e => buildNode fuel' nodes (S d) (fst e) (snd e))
                (linked_children nodes k)))
        d
  end.

Definition root_entries (nodes : JsMap.t TodoistTask.t) : list (string * TodoistTask.t) :=
  filter (fun e => is_root nodes (snd e)) nodes.

Definition snapshot_roots (st : TaskStore) : list TodoistTaskNode :=
  let nodes := snapshot_nodes st in
  map (fun e => buildNode (List.length nodes) nodes 0 (fst e) (snd e)) (root_entries nodes).

(** [sectionTasks.get(k) ?? []]: the roots pushed under key [k]. *)
Definition sectionTasks (st : TaskStore) (k : string) : list TodoistTaskNode :=
  filter (fun root =>
            match TodoistTask.section_id (node_task root) with
            | Some s => truthy (Some s) && JsMap.has (sections st) s && String.eqb s k
            | None => false
            end) (snapshot_roots st).

Definition snapshot (st : TaskStore) : OrganizedProjectData :=
  let roots := snapshot_roots st in
  let unsectioned :=
    js_sort sortByOrder
      (filter (fun root => negb (truthy (TodoistTask.section_id (node_task root)))) roots) in
  let sections :=
    map (fun section =>
           mkSection section (js_sort sortByOrder (sectionTasks st (SectionRecord.id section))))
        (js_sort (fun a b => (SectionRecord.section_order a - SectionRecord.section_order b)%Z)
                 (JsMap.values (sections st))) in
  mkData (project st) sections unsectioned.
End Snapshot.

(** The ids of a tree and of everything a snapshot shows. *)
Fixpoint node_ids (n : TodoistTaskNode) : list string :=
  match n with
  | mkNode t cs _ => TodoistTask.id t :: flat_map node_ids cs
  end.

Definition snapshot_ids (s : OrganizedProjectData) : list string :=
  flat_map node_ids (data_unsectioned s)
  ++ flat_map (fun sec => flat_map node_ids (section_tasks sec)) (data_sections s).

(** The sibling lists of a tree and of a snapshot. *)
Fixpoint sibling_lists (n : TodoistTaskNode) : list (list TodoistTaskNode) :=
  match n with
  | mkNode _ cs _ => cs :: flat_map sibling_lists cs
  end.

Definition snapshot_sibling_lists (s : OrganizedProjectData) : list (list TodoistTaskNode) :=
  (data_unsectioned s :: flat_map sibling_lists (data_unsectioned s))
  ++ flat_map (fun sec => section_tasks sec :: flat_map sibling_lists (section_tasks sec))
              (data_sections s).

(* ------------------------------------------------------------------ *)
(** ** Host functions used in the examples *)

(** Comparison of strings by character codes, with the sign convention of
    [localeCompare]; on the lower-case ASCII ids of the examples every
    locale orders the same way. *)
Definition codeCompare (a b : string) : Z :=
  match String.compare a b with
  | Lt => (-1)%Z
  | Eq => 0%Z
  | Gt => 1%Z
  end.

(** A stand-in for [Date.parse] in the examples: a string of decimal
    digits is that number of milliseconds, anything else is [NaN]. *)
Fixpoint digitsParse (acc : Z) (s : string) : option Z :=
  match s with
  | EmptyString => Some acc
  | String c s' =>
      let n := Ascii.nat_of_ascii c in
      if (48 <=? n)%nat && (n <=? 57)%nat
      then digitsParse (acc * 10 + Z.of_nat (n - 48)) s'
      else None
  end.

Definition exampleParse (s : string) : option Z :=
  match s with
  | EmptyString => None
  | _ => digitsParse 0 s
  end.

(* ------------------------------------------------------------------ *)
(** ** Well-formed stores and the descendants of a task *)

(** Every method stores a record under its own id and a [Map] has no
    duplicate keys. *)
Definition wf_tasks (m : JsMap.t TodoistTask.t) : Prop :=
  NoDup (JsMap.keys m) /\ Forall (fun e => TodoistTask.id (snd e) = fst e) m.

Definition wf_sections (m : JsMap.t SectionRecord.t) : Prop :=
  NoDup (JsMap.keys m) /\ Forall (fun e => SectionRecord.id (snd e) = fst e) m.

Definition wf_store (st : TaskStore) : Prop :=
  wf_tasks (tasks st) /\ wf_sections (sections st).

(** [Descends m Q x]: the stored task [x] is in [Q] or its chain of
    [parent_id] references, followed through stored tasks, reaches [Q]. *)
Inductive Descends (m : JsMap.t TodoistTask.t) (Q : list string) : string -> Prop :=
| Descends_start x :
    In x Q -> In x (JsMap.keys m) -> Descends m Q x
| Descends_child x t p :
    JsMap.get m x = Some t -> TodoistTask.parent_id t = Some p ->
    Descends m Q p -> Descends m Q x.

(** The queue of [removeTask] between iterations: distinct stored ids, and
    all but the first were pushed as children of an id deleted since. *)
Definition queue_ok (m : JsMap.t TodoistTask.t) (Q : list string) : Prop :=
  NoDup Q
  /\ (forall x, In x Q -> In x (JsMap.keys m))
  /\ (forall x, In x (tl Q) ->
       forall t p, JsMap.get m x = Some t -> TodoistTask.parent_id t = Some p ->
                   ~ In p (JsMap.keys m)).

(** Stores and records of the examples. *)
Definition exTask (i : string) (p s : option string) (o : Z) (u : string) : TodoistTask.t :=
  TodoistTask.mk i p s o ("task " ++ i)%string u.

Definition exSection (i : string) (o : Z) (u : string) : SectionRecord.t :=
  SectionRecord.mk i ("section " ++ i)%string o u.

Definition exStoreA : TaskStore :=
  mkStore (Some (TodoistProject.mk "Home" []))
          [("s1", exSection "s1" 0 "200")]
          [("a", exTask "a" None (Some "s1") 1 "200"); ("b", exTask "b" (Some "a") (Some "s1") 1 "x")].

(** Root [p] with child [c] and grandchild [g], next to a root [q] with
    child [r]. *)
Definition exStoreFamily : TaskStore :=
  mkStore None []
          [("g", exTask "g" (Some "c") None 1 "1");
           ("q", exTask "q" None None 2 "1");
           ("c", exTask "c" (Some "p") None 1 "1");
           ("r", exTask "r" (Some "q") None 1 "1");
           ("p", exTask "p" None None 1 "1")].

(** A section [s1] named by the subtask [c] only: its parent [p] is
    unsectioned. *)
Definition exStoreStray : TaskStore :=
  mkStore None
          [("s1", exSection "s1" 0 "1")]
          [("p", exTask "p" None None 1 "1");
           ("c", exTask "c" (Some "p") (Some "s1") 1 "1")].

(* ------------------------------------------------------------------ *)
(** ** The sibling order and the comparator of the host *)

(** [(child_order ascending, id ascending)], the id compared by
    [localeCompare]. *)
Definition sibling_le (localeCompare : string -> string -> Z) (a b : TodoistTaskNode) : Prop :=
  (TodoistTask.child_order (node_task a) < TodoistTask.child_order (node_task b))%Z
  \/ (TodoistTask.child_order (node_task a) = TodoistTask.child_order (node_task b)
      /\ (localeCompare (TodoistTask.id (node_task a)) (TodoistTask.id (node_task b)) <= 0)%Z).

(** ECMAScript requires [localeCompare] to be a consistent comparator: of
    two strings one is not after the other, and the order is transitive. *)
Definition consistent_comparator (localeCompare : string -> string -> Z) : Prop :=
  (forall x y, (0 < localeCompare x y)%Z -> (localeCompare y x <= 0)%Z)
  /\ (forall x y z, (localeCompare x y <= 0)%Z -> (localeCompare y z <= 0)%Z ->
                    (localeCompare x z <= 0)%Z).

(** Different ids are never ranked equal (true of a collation on plain
    alphanumeric ids; a locale may rank canonically equivalent strings
    equal). *)
Definition separates_ids (localeCompare : string -> string -> Z) : Prop :=
  forall x y, (localeCompare x y <= 0)%Z -> (localeCompare y x <= 0)%Z -> x = y.

(** A chain of links from a node up to a root of [nodes], the node first. *)
Inductive RootPath (nodes : JsMap.t TodoistTask.t) : list string -> Prop :=
| RootPath_root k t :
    JsMap.get nodes k = Some t -> parent_key nodes t = None -> RootPath nodes [k]
| RootPath_link k t p rest :
    JsMap.get nodes k = Some t -> parent_key nodes t = Some p ->
    RootPath nodes (p :: rest) -> RootPath nodes (k :: p :: rest).

(** Three unsectioned roots with child_order 3, 1, 2, added as a, b, c and
    as c, a, b; and two roots of equal child_order added as y, x. *)
Definition exStoreOrderABC : TaskStore :=
  mkStore None []
          [("a", exTask "a" None None 3 "1");
           ("b", exTask "b" None None 1 "1");
           ("c", exTask "c" None None 2 "1")].

Definition exStoreOrderCAB : TaskStore :=
  mkStore None []
          [("c", exTask "c" None None 2 "1");
           ("a", exTask "a" None None 3 "1");
           ("b", exTask "b" None None 1 "1")].

Definition exStoreTie : TaskStore :=
  mkStore None []
          [("y", exTask "y" None None 5 "1");
           ("x", exTask "x" None None 5 "1")].

(** A root task naming a section [s9] that is not stored, next to a root
    of the stored section [s1] and an unsectioned root. *)
Definition exStoreOrphanSection : TaskStore :=
  mkStore None
          [("s1", exSection "s1" 0 "1")]
          [("t1", exTask "t1" None (Some "s9") 1 "1");
           ("t2", exTask "t2" None (Some "s1") 1 "1");
           ("t3", exTask "t3" None None 1 "1")].

(* ------------------------------------------------------------------ *)
(** ** TaskTree: the store, the view and the render scheduling

    Time is the millisecond clock of the host; [now] is its value when a
    method or a timer callback runs. TaskTree keeps at most one timer,
    whose handle is [renderTimer]: the handle is modelled by the deadline
    and the callback given to [window.setTimeout].  The view is the last
    snapshot rendered into the root element ([dom]); the hooks are the
    host's, and what the view and the hooks are asked to do is recorded in
    [trace].  The completion callback [done] handed to a remove hook is the
    later call [animationDone]. *)

Inductive TimerCallback : Type :=
| DebounceCallback   (* () => { this.flushRender(); this.renderTimer = null; } *)
| PollCallback.      (* () => { this.renderTimer = null; this.flushRender(); } *)

Record RenderTimer := mkTimer {
  timer_deadline : nat;
  timer_callback : TimerCallback
}.

(** The closures pushed on [afterRenderCallbacks]. *)
Inductive AfterRender : Type :=
| AfterTaskAdd (taskId : string)
| AfterSectionAdd (sectionId : string).

Inductive ViewEvent : Type :=
| Render (data : OrganizedProjectData) (pendingTaskAdds pendingSectionAdds : list string)
| OnTaskAdd (taskId : string)
| OnSectionAdd (sectionId : string)
| OnTaskRemove (taskId : string)
| OnSectionRemove (sectionId : string)
| OnTreeChange.

(** Which of the optional hooks the host supplies. *)
Record TaskTreeHooks := mkHooks {
  onTaskAdd : bool;
  onTaskRemove : bool;
  onSectionAdd : bool;
  onSectionRemove : bool;
  onTreeChange : bool
}.

Record TaskTree := mkTree {
  store : TaskStore;
  dom : option OrganizedProjectData;
  renderTimer : option RenderTimer;
  pendingSnapshot : option OrganizedProjectData;
  afterRenderCallbacks : list AfterRender;
  pendingTaskAddIds : list string;
  pendingSectionAddIds : list string;
  animationsInProgress : Z;
  isRendering : bool;
  trace : list ViewEvent
}.

Definition newTaskTree : TaskTree :=
  mkTree emptyStore None None None [] [] [] 0 false [].

Definition set_store (s : TaskStore) (t : TaskTree) : TaskTree :=
  mkTree s (dom t) (renderTimer t) (pendingSnapshot t) (afterRenderCallbacks t)
         (pendingTaskAddIds t) (pendingSectionAddIds t) (animationsInProgress t)
         (isRendering t) (trace t).
Definition set_dom (d : option OrganizedProjectData) (t : TaskTree) : TaskTree :=
  mkTree (store t) d (renderTimer t) (pendingSnapshot t) (afterRenderCallbacks t)
         (pendingTaskAddIds t) (pendingSectionAddIds t) (animationsInProgress t)
         (isRendering t) (trace t).
Definition set_renderTimer (r : option RenderTimer) (t : TaskTree) : TaskTree :=
  mkTree (store t) (dom t) r (pendingSnapshot t) (afterRenderCallbacks t)
         (pendingTaskAddIds t) (pendingSectionAddIds t) (animationsInProgress t)
         (isRendering t) (trace t).
Definition set_pendingSnapshot (p : option OrganizedProjectData) (t : TaskTree) : TaskTree :=
  mkTree (store t) (dom t) (renderTimer t) p (afterRenderCallbacks t)
         (pendingTaskAddIds t) (pendingSectionAddIds t) (animationsInProgress t)
         (isRendering t) (trace t).
Definition set_afterRenderCallbacks (c : list AfterRender) (t : TaskTree) : TaskTree :=
  mkTree (store t) (dom t) (renderTimer t) (pendingSnapshot t) c
         (pendingTaskAddIds t) (pendingSectionAddIds t) (animationsInProgress t)
         (isRendering t) (trace t).
Definition set_pendingTaskAddIds (s : list string) (t : TaskTree) : TaskTree :=
  mkTree (store t) (dom t) (renderTimer t) (pendingSnapshot t) (afterRenderCallbacks t)
         s (pendingSectionAddIds t) (animationsInProgress t) (isRendering t) (trace t).
Definition set_pendingSectionAddIds (s : list string) (t : TaskTree) : TaskTree :=
  mkTree (store t) (dom t) (renderTimer t) (pendingSnapshot t) (afterRenderCallbacks t)
         (pendingTaskAddIds t) s (animationsInProgress t) (isRendering t) (trace t).
Definition set_animationsInProgress (n : Z) (t : TaskTree) : TaskTree :=
  mkTree (store t) (dom t) (renderTimer t) (pendingSnapshot t) (afterRenderCallbacks t)
         (pendingTaskAddIds t) (pendingSectionAddIds t) n (isRendering t) (trace t).
Definition set_isRendering (b : bool) (t : TaskTree) : TaskTree :=
  mkTree (store t) (dom t) (renderTimer t) (pendingSnapshot t) (afterRenderCallbacks t)
         (pendingTaskAddIds t) (pendingSectionAddIds t) (animationsInProgress t) b (trace t).
Definition emit (e : ViewEvent) (t : TaskTree) : TaskTree :=
  mkTree (store t) (dom t) (renderTimer t) (pendingSnapshot t) (afterRenderCallbacks t)
         (pendingTaskAddIds t) (pendingSectionAddIds t) (animationsInProgress t)
         (isRendering t) (trace t ++ [e]).

(** [Set<string>]: add and delete. *)
Definition set_add (x : string) (s : list string) : list string :=
  if existsb (String.eqb x) s then s else s ++ [x].
Definition set_delete (x : string) (s : list string) : list string :=
  filter (fun y => negb (String.eqb x y)) s.

(** The string a quoted attribute selector denotes when [value] is
    written between its quotes as it is, which is what the template
    strings of findTaskElement and findSectionElement do: [value] itself,
    unless it holds a double quote (code 34), a backslash (92) or a line
    break (10, 12, 13): the selector is then malformed, or denotes another
    string. *)
Definition selector_value (value : string) : option string :=
  if existsb (fun c => existsb (Nat.eqb (Ascii.nat_of_ascii c)) [34; 92; 10; 12; 13]%nat)
             (list_ascii_of_string value)
  then None
  else Some value.

(** The id can be written into the selector as it is: the selector
    denotes it, and it has no NUL character (code 0), which the CSS parser
    replaces before it reads the selector. *)
Definition plain_id (id : string) : bool :=
  match selector_value id with
  | Some _ =>
      negb (existsb (fun c => Nat.eqb (Ascii.nat_of_ascii c) 0) (list_ascii_of_string id))
  | None => false
  end.

(** TaskView.findTaskElement / findSectionElement for a [plain_id]: is
    there an element with that id under the root element.  For another id
    [querySelector] throws a SyntaxError or looks for something else; the
    methods below that look an element up are those of calls with plain
    ids, and the properties about them say so. *)
Definition findTaskElement (taskId : string) (t : TaskTree) : bool :=
  match dom t with
  | Some data => existsb (String.eqb taskId) (snapshot_ids data)
  | None => false
  end.

Definition findSectionElement (sectionId : string) (t : TaskTree) : bool :=
  match dom t with
  | Some data =>
      existsb (fun sec => String.eqb sectionId (SectionRecord.id (section_record sec)))
              (data_sections data)
  | None => false
  end.

Definition renderDelayMs : nat := 150.
Definition animationPollMs : nat := 50.

Section TaskTreeMethods.
Variable Date_parse : string -> option Z.
Variable localeCompare : string -> string -> Z.
Variable hooks : TaskTreeHooks.

(** TaskTree.queueRender, with [this.flushRender] for its immediate
    branch passed in ([flush]). *)
Definition queueRender_with (flush : TaskTree -> TaskTree) (now : nat)
           (snapshot : OrganizedProjectData) (immediate : bool)
           (afterRender : option AfterRender) (t : TaskTree) : TaskTree :=
  let t := set_pendingSnapshot (Some snapshot) t in
  let t := match afterRender with
           | Some cb => set_afterRenderCallbacks (afterRenderCallbacks t ++ [cb]) t
           | None => t
           end in
  if isRendering t || (0 <? animationsInProgress t)%Z then t
  else if immediate then flush (set_renderTimer None t)
  else match renderTimer t with
       | Some _ => t
       | None => set_renderTimer (Some (mkTimer (now + renderDelayMs) DebounceCallback)) t
       end.

(** The closures given to queueRender by addTask and addSection (of an
    item with a [plain_id], see [findTaskElement]). *)
Definition runAfterRender (cb : AfterRender) (t : TaskTree) : TaskTree :=
  match cb with
  | AfterTaskAdd taskId =>
      let t := if findTaskElement taskId t && onTaskAdd hooks
               then emit (OnTaskAdd taskId) t else t in
      set_pendingTaskAddIds (set_delete taskId (pendingTaskAddIds t)) t
  | AfterSectionAdd sectionId =>
      let t := if findSectionElement sectionId t && onSectionAdd hooks
               then emit (OnSectionAdd sectionId) t else t in
      set_pendingSectionAddIds (set_delete sectionId (pendingSectionAddIds t)) t
  end.

(** TaskTree.flushRender *)
Definition flushRender (now : nat) (t : TaskTree) : TaskTree :=
  match pendingSnapshot t with
  | None => t
  | Some snapshot =>
      if (0 <? animationsInProgress t)%Z then
        match renderTimer t with
        | None => set_renderTimer (Some (mkTimer (now + animationPollMs) PollCallback)) t
        | Some _ => t
        end
      else
        let t := set_isRendering true t in
        let t := emit (Render snapshot (pendingTaskAddIds t) (pendingSectionAddIds t))
                      (set_dom (Some snapshot) t) in
        let t := set_pendingSnapshot None t in
        let callbacks := afterRenderCallbacks t in
        let t := set_afterRenderCallbacks [] t in
        let t := fold_left (fun t cb => runAfterRender cb t) callbacks t in
        let t := set_isRendering false t in
        let t := if onTreeChange hooks then emit OnTreeChange t else t in
        match pendingSnapshot t with
        | Some again => queueRender_with (fun t => t) now again false None t
        | None => t
        end
  end.

Definition queueRender (now : nat) (snapshot : OrganizedProjectData) (immediate : bool)
           (afterRender : option AfterRender) (t : TaskTree) : TaskTree :=
  queueRender_with (flushRender now) now snapshot immediate afterRender t.

(** The callback of the timer held in [renderTimer]. *)
Definition runTimerCallback (cb : TimerCallback) (now : nat) (t : TaskTree) : TaskTree :=
  match cb with
  | DebounceCallback => set_renderTimer None (flushRender now t)
  | PollCallback => flushRender now (set_renderTimer None t)
  end.

Definition snapshotOf (t : TaskTree) : OrganizedProjectData :=
  snapshot localeCompare (store t).

(** TaskTree.organize *)
Definition tree_organize (data : TodoistProjectResponse) (now : nat) (t : TaskTree) : TaskTree :=
  let t := set_store (organize data (store t)) t in
  queueRender now (snapshotOf t) false None t.

(** The [done] callback handed to onTaskRemove / onSectionRemove. *)
Definition animationDone (now : nat) (t : TaskTree) : TaskTree :=
  let t := set_animationsInProgress (animationsInProgress t - 1)%Z t in
  queueRender now (snapshotOf t) false None t.

(** TaskTree.removeTask (of a [plain_id], see [findTaskElement]) *)
Definition tree_removeTask (taskId : string) (now : nat) (t : TaskTree) : TaskTree :=
  let element := findTaskElement taskId t in
  let t := set_store (removeTask taskId (store t)) t in
  if element && onTaskRemove hooks
  then emit (OnTaskRemove taskId) (set_animationsInProgress (animationsInProgress t + 1)%Z t)
  else queueRender now (snapshotOf t) false None t.

(** TaskTree.addTask *)
Definition tree_addTask (task : TodoistTask.t) (now : nat) : Method TaskTree unit :=
  fun t =>
    match addTask task (store t) with
    | (Throw e, _) => (Throw e, t)
    | (Normal _, s) =>
        let t := set_store s t in
        let t := set_pendingTaskAddIds (set_add (TodoistTask.id task) (pendingTaskAddIds t)) t in
        (Normal tt,
         queueRender now (snapshotOf t) false (Some (AfterTaskAdd (TodoistTask.id task))) t)
    end.

(** TaskTree.addSection *)
Definition tree_addSection (section : TodoistSectionInput) (now : nat) : Method TaskTree unit :=
  fun t =>
    match addSection section (store t) with
    | (Throw e, _) => (Throw e, t)
    | (Normal _, s) =>
        let t := set_store s t in
        let t := set_pendingSectionAddIds
                   (set_add (SectionRecord.id section) (pendingSectionAddIds t)) t in
        (Normal tt,
         queueRender now (snapshotOf t) false
                     (Some (AfterSectionAdd (SectionRecord.id section))) t)
    end.

(** TaskTree.updateSection *)
Definition tree_updateSection (section : TodoistSectionInput) (now : nat)
  : Method TaskTree unit :=
  fun t =>
    match updateSection Date_parse section (store t) with
    | (Throw e, _) => (Throw e, t)
    | (Normal skipped, s) =>
        let t := set_store s t in
        if skipped then (Normal tt, t)
        else (Normal tt, queueRender now (snapshotOf t) false None t)
    end.

(** TaskTree.removeSection (of a [plain_id], see [findTaskElement]) *)
Definition tree_removeSection (sectionId : string) (now : nat) (t : TaskTree) : TaskTree :=
  let element := findSectionElement sectionId t in
  let t := set_store (removeSection sectionId (store t)) t in
  if element && onSectionRemove hooks
  then emit (OnSectionRemove sectionId)
            (set_animationsInProgress (animationsInProgress t + 1)%Z t)
  else queueRender now (snapshotOf t) false None t.

(** TaskTree.updateTask *)
Definition tree_updateTask (updatedTask : TodoistTask.t) (now : nat) : Method TaskTree unit :=
  fun t =>
    match updateTask Date_parse updatedTask (store t) with
    | (Throw e, _) => (Throw e, t)
    | (Normal _, s) =>
        let t := set_store s t in
        (Normal tt, queueRender now (snapshotOf t) false None t)
    end.
End TaskTreeMethods.

(* ------------------------------------------------------------------ *)
(** ** Mutations of a TaskTree in time *)

Inductive Mutation : Type :=
| Organize (data : TodoistProjectResponse)
| AddTask (task : TodoistTask.t)
| UpdateTask (task : TodoistTask.t)
| RemoveTask (taskId : string)
| AddSection (section : TodoistSectionInput)
| UpdateSection (section : TodoistSectionInput)
| RemoveSection (sectionId : string).

(** The ids the mutation hands to findTaskElement or findSectionElement,
    at once (removals) or after the next render (additions), are plain. *)
Definition plain_mutation (m : Mutation) : bool :=
  match m with
  | AddTask task => plain_id (TodoistTask.id task)
  | RemoveTask taskId => plain_id taskId
  | AddSection section => plain_id (SectionRecord.id section)
  | RemoveSection sectionId => plain_id sectionId
  | Organize _ | UpdateTask _ | UpdateSection _ => true
  end.

Definition plain_callback (cb : AfterRender) : bool :=
  match cb with
  | AfterTaskAdd taskId => plain_id taskId
  | AfterSectionAdd sectionId => plain_id sectionId
  end.

(** A render can be scheduled: no animation in flight, no render running. *)
Definition schedulable (t : TaskTree) : Prop :=
  (animationsInProgress t <= 0)%Z /\ isRendering t = false.

(** The timer after a deferred render request. *)
Definition timer_after (now : nat) (t : TaskTree) : RenderTimer :=
  match renderTimer t with
  | Some timer => timer
  | None => mkTimer (now + renderDelayMs) DebounceCallback
  end.

(** The data of the renders performed so far, oldest first. *)
Definition renders (t : TaskTree) : list OrganizedProjectData :=
  flat_map (fun e => match e with Render data _ _ => [data] | _ => [] end) (trace t).

(** A TaskTree and the clock of its host. *)
Record Clocked := mkClocked {
  clock : nat;
  tree : TaskTree
}.

Section TaskTreeTime.
Variable Date_parse : string -> option Z.
Variable localeCompare : string -> string -> Z.
Variable hooks : TaskTreeHooks.

(** A public method of TaskTree called at time [now]. *)
Definition mutate (m : Mutation) (now : nat) : Method TaskTree unit :=
  fun t =>
    match m with
    | Organize data => (Normal tt, tree_organize localeCompare hooks data now t)
    | AddTask task => tree_addTask localeCompare hooks task now t
    | UpdateTask task => tree_updateTask Date_parse localeCompare hooks task now t
    | RemoveTask taskId => (Normal tt, tree_removeTask localeCompare hooks taskId now t)
    | AddSection section => tree_addSection localeCompare hooks section now t
    | UpdateSection section => tree_updateSection Date_parse localeCompare hooks section now t
    | RemoveSection sectionId =>
        (Normal tt, tree_removeSection localeCompare hooks sectionId now t)
    end.

(** The store after the corresponding TaskStore method, whether it
    returned or threw. *)
Definition store_mutate (m : Mutation) (s : TaskStore) : TaskStore :=
  match m with
  | Organize data => organize data s
  | AddTask task => snd (addTask task s)
  | UpdateTask task => snd (updateTask Date_parse task s)
  | RemoveTask taskId => removeTask taskId s
  | AddSection section => snd (addSection section s)
  | UpdateSection section => snd (updateSection Date_parse section s)
  | RemoveSection sectionId => removeSection sectionId s
  end.

(** The mutation finds its element displayed and a remove hook to
    animate it: the render is left to [animationDone]. *)
Definition starts_animation (m : Mutation) (t : TaskTree) : bool :=
  match m with
  | RemoveTask taskId => findTaskElement taskId t && onTaskRemove hooks
  | RemoveSection sectionId => findSectionElement sectionId t && onSectionRemove hooks
  | _ => false
  end.


(** One millisecond passes; the timer whose deadline is reached fires. *)
Definition tick (w : Clocked) : Clocked :=
  let now := S (clock w) in
  match renderTimer (tree w) with
  | Some timer =>
      if (timer_deadline timer <=? now)%nat
      then mkClocked now (runTimerCallback hooks (timer_callback timer) now (tree w))
      else mkClocked now (tree w)
  | None => mkClocked now (tree w)
  end.

Fixpoint advance (n : nat) (w : Clocked) : Clocked :=
  match n with
  | O => w
  | S n' => advance n' (tick w)
  end.

Definition call (m : Mutation) (w : Clocked) : Clocked :=
  mkClocked (clock w) (snd (mutate m (clock w) (tree w))).




(** No render cycle is under way. *)
Definition idle (t : TaskTree) : Prop :=
  renderTimer t = None /\ (animationsInProgress t <= 0)%Z /\ isRendering t = false.

(** The debounce timer is set for [deadline] and holds the snapshot of
    the store as it is now. *)
Definition armed (deadline : nat) (t : TaskTree) : Prop :=
  renderTimer t = Some (mkTimer deadline DebounceCallback)
  /\ pendingSnapshot t = Some (snapshot localeCompare (store t))
  /\ (animationsInProgress t <= 0)%Z
  /\ isRendering t = false.
End TaskTreeTime.

(* ------------------------------------------------------------------ *)
(** ** ProjectWidgetScript.processEvent *)

Module EventData.
(** The properties of [message.event_data] that the widget reads. *)
Record t := mk {
  id : string;
  parent_id : option string;
  section_id : option string;
  child_order : Z;
  content : string;
  updated_at : string;
  name : string;
  section_order : Z
}.
End EventData.

Record Message := mkMessage {
  event_name : string;
  event_data : EventData.t
}.

(** [message.event_data as TodoistTask], [... as TodoistSectionInput]. *)
Definition asTodoistTask (d : EventData.t) : TodoistTask.t :=
  TodoistTask.mk (EventData.id d) (EventData.parent_id d) (EventData.section_id d)
                 (EventData.child_order d) (EventData.content d) (EventData.updated_at d).

Definition asTodoistSectionInput (d : EventData.t) : TodoistSectionInput :=
  SectionRecord.mk (EventData.id d) (EventData.name d) (EventData.section_order d)
                   (EventData.updated_at d).

(** The widget: the text of the title element
    ([domElements.projectTitle.textContent]) and the TaskTree. *)
Record ProjectWidgetScript := mkWidget {
  projectTitle : string;
  taskTree : TaskTree
}.

Definition with_taskTree (w : ProjectWidgetScript) (r : Completion unit * TaskTree)
  : Completion unit * ProjectWidgetScript :=
  (fst r, mkWidget (projectTitle w) (snd r)).

Section Widget.
Variable Date_parse : string -> option Z.
Variable localeCompare : string -> string -> Z.
Variable hooks : TaskTreeHooks.

Definition processEvent (message : Message) (now : nat) : Method ProjectWidgetScript unit :=
  fun w =>
    let name := event_name message in
    let data := event_data message in
    if String.eqb name "item:completed" || String.eqb name "item:deleted" then
      with_taskTree w
        (Normal tt, tree_removeTask localeCompare hooks (EventData.id data) now (taskTree w))
    else if String.eqb name "section:archived" || String.eqb name "section:deleted" then
      with_taskTree w
        (Normal tt, tree_removeSection localeCompare hooks (EventData.id data) now (taskTree w))
    else if String.eqb name "item:updated" then
      with_taskTree w
        (tree_updateTask Date_parse localeCompare hooks (asTodoistTask data) now (taskTree w))
    else if String.eqb name "project:updated" then
      (Normal tt, mkWidget (EventData.name data) (taskTree w))
    else if String.eqb name "item:added" || String.eqb name "item:uncompleted" then
      with_taskTree w
        (tree_addTask localeCompare hooks (asTodoistTask data) now (taskTree w))
    else if String.eqb name "section:added" || String.eqb name "section:unarchived" then
      with_taskTree w
        (tree_addSection localeCompare hooks (asTodoistSectionInput data) now (taskTree w))
    else if String.eqb name "section:updated" then
      with_taskTree w
        (tree_updateSection Date_parse localeCompare hooks (asTodoistSectionInput data) now
                            (taskTree w))
    else (Normal tt, w).
End Widget.

(** A widget showing the project "Old", and a [project:updated] message
    renaming it to "New". *)
Definition exWidget : ProjectWidgetScript :=
  mkWidget "Old"
           (set_store (mkStore (Some (TodoistProject.mk "Old" [("color", "red")]))
                               (sections exStoreA) (tasks exStoreA))
                      newTaskTree).

Definition exRename : Message :=
  mkMessage "project:updated" (EventData.mk "p1" None None 0 "" "300" "New" 0).

Definition allHooks : TaskTreeHooks := mkHooks true true true true true.

(** A burst on a widget showing [exStoreA]: a task is added, and updated
    100 ms later. *)
Definition exClocked : Clocked := mkClocked 1000 (set_store exStoreA newTaskTree).

Definition exAdded : TodoistTask.t := exTask "n" None None 4 "300".

(** A TaskTree that displays [exStoreA], and the same after its task [a]
    was removed while the host animates the exit. *)
Definition exShown : Clocked :=
  mkClocked 1000 (set_dom (Some (snapshot codeCompare exStoreA)) (set_store exStoreA newTaskTree)).

Definition exAnimating : Clocked :=
  call exampleParse codeCompare allHooks (RemoveTask "a") exShown.

(* ------------------------------------------------------------------ *)
(** ** EventQueue

    The queue is written for any handler: [processEvent] acts on a state
    of its own ([Handled]) and returns or throws.  [entityId] and
    [updatedAt] read [event.event_data?.id] and
    [event.event_data?.updated_at].  The host keeps the clock [now] and the
    timers set with [window.setTimeout] and not yet fired or cleared, in
    the order they were set; [tick] lets one millisecond pass.  A
    timestamp is a number or [NaN] ([None]).  Each pass of processPending
    is recorded in [replays] (the line it logs, with what became of each
    event) and each call of [onError] in [errors]. *)

Record Pending (Event : Type) := mkPending {
  pending_event : Event;
  pending_timestamp : option Z
}.

Record WindowTimer := mkWindowTimer {
  handle : nat;
  deadline : nat;
  target : string
}.

Record Replay (Event : Type) := mkReplay {
  replay_entity : string;
  replay_time : nat;
  replay_attempts : list (Event * Completion unit)
}.

Record EventQueue (Event Handled : Type) := mkQueue {
  pendingEvents : JsMap.t (list (Pending Event));
  pendingEventTimers : JsMap.t nat;
  handled : Handled;
  errors : list (string * string);
  replays : list (Replay Event);
  now : nat;
  timers : list WindowTimer;
  nextHandle : nat
}.

Section EventQueueMethods.
Variable Event : Type.
Variable Handled : Type.
Variable processEvent : Event -> Handled -> Completion unit * Handled.
Variable entityId : Event -> option string.
Variable updatedAt : Event -> option string.
Variable Date_parse : string -> option Z.
Variable reorderDelayMs : nat.

(** [(a, b) => a.timestamp - b.timestamp]; a [NaN] result counts as 0. *)
Definition byTimestamp (a b : Pending Event) : Z :=
  match pending_timestamp a, pending_timestamp b with
  | Some x, Some y => (x - y)%Z
  | _, _ => 0%Z
  end.

Definition clearTimeout (h : nat) (ts : list WindowTimer) : list WindowTimer :=
  filter (fun t => negb (handle t =? h)%nat) ts.

(** EventQueue.queueForReorder *)
Definition queueForReorder (entity : string) (event : Event) (timestamp : option Z)
           (q : EventQueue Event Handled) : EventQueue Event Handled :=
  let pe := if JsMap.has (pendingEvents q) entity then pendingEvents q
            else JsMap.set (pendingEvents q) entity [] in
  let buffered := match JsMap.get pe entity with Some l => l | None => [] end in
  let pe := JsMap.set pe entity (buffered ++ [mkPending event timestamp]) in
  let cleared := match JsMap.get (pendingEventTimers q) entity with
                 | Some h => clearTimeout h (timers q)
                 | None => timers q
                 end in
  let timer := nextHandle q in
  mkQueue pe
          (JsMap.set (pendingEventTimers q) entity timer)
          (handled q) (errors q) (replays q) (now q)
          (cleared ++ [mkWindowTimer timer (now q + reorderDelayMs) entity])
          (S (nextHandle q)).

(** EventQueue.process *)
Definition process (event : Event) (q : EventQueue Event Handled) : EventQueue Event Handled :=
  match processEvent event (handled q) with
  | (Normal _, h) =>
      mkQueue (pendingEvents q) (pendingEventTimers q) h (errors q) (replays q)
              (now q) (timers q) (nextHandle q)
  | (Throw message, h) =>
      let q := mkQueue (pendingEvents q) (pendingEventTimers q) h (errors q) (replays q)
                       (now q) (timers q) (nextHandle q) in
      if truthy (entityId event) then
        match entityId event with
        | Some entity =>
            let timestamp :=
              if truthy (updatedAt event)
              then match updatedAt event with Some u => Date_parse u | None => None end
              else Some (Z.of_nat (now q)) in
            queueForReorder entity event timestamp q
        | None => q
        end
      else
        mkQueue (pendingEvents q) (pendingEventTimers q) (handled q)
                (errors q ++ [("Error while handling event", message)]) (replays q)
                (now q) (timers q) (nextHandle q)
  end.

(** The loop of processPending over the sorted events: each is handed to
    the handler; what each attempt came to, in order. *)
Fixpoint replayEvents (events : list (Pending Event)) (h : Handled)
  : Handled * list (Event * Completion unit) :=
  match events with
  | [] => (h, [])
  | p :: rest =>
      let r := processEvent (pending_event p) h in
      let rs := replayEvents rest (snd r) in
      (fst rs, (pending_event p, fst r) :: snd rs)
  end.

(** The [onError] calls of a pass: one for each attempt that threw. *)
Definition replayErrors (attempts : list (Event * Completion unit)) : list (string * string) :=
  flat_map (fun a => match snd a with
                     | Throw message => [("Error while handling event", message)]
                     | Normal _ => []
                     end) attempts.

(** EventQueue.processPending *)
Definition processPending (entity : string) (q : EventQueue Event Handled)
  : EventQueue Event Handled :=
  match JsMap.get (pendingEvents q) entity with
  | None => q
  | Some [] => q
  | Some events =>
      let sorted := js_sort byTimestamp events in
      let r := replayEvents sorted (handled q) in
      mkQueue (JsMap.delete (pendingEvents q) entity)
              (JsMap.delete (pendingEventTimers q) entity)
              (fst r)
              (errors q ++ replayErrors (snd r))
              (replays q ++ [mkReplay entity (now q) (snd r)])
              (now q) (timers q) (nextHandle q)
  end.

(** EventQueue.clear *)
Definition clear (q : EventQueue Event Handled) : EventQueue Event Handled :=
  mkQueue JsMap.empty JsMap.empty (handled q) (errors q) (replays q) (now q)
          (fold_left (fun ts h => clearTimeout h ts) (JsMap.values (pendingEventTimers q))
                     (timers q))
          (nextHandle q).

(** One millisecond passes: the timers whose deadline is reached fire, in
    the order they were set; each runs processPending for its entity. *)
Definition queue_tick (q : EventQueue Event Handled) : EventQueue Event Handled :=
  let t := S (now q) in
  let due := filter (fun tm => (deadline tm <=? t)%nat) (timers q) in
  let later := filter (fun tm => negb (deadline tm <=? t)%nat) (timers q) in
  fold_left (fun q tm => processPending (target tm) q) due
            (mkQueue (pendingEvents q) (pendingEventTimers q) (handled q) (errors q)
                     (replays q) t later (nextHandle q)).

Fixpoint queue_advance (n : nat) (q : EventQueue Event Handled) : EventQueue Event Handled :=
  match n with
  | O => q
  | S n' => queue_advance n' (queue_tick q)
  end.

(** What is buffered for an entity, its timers, and the passes made for it. *)
Definition buffer (entity : string) (q : EventQueue Event Handled) : list (Pending Event) :=
  match JsMap.get (pendingEvents q) entity with Some l => l | None => [] end.

Definition timers_for (entity : string) (q : EventQueue Event Handled) : list WindowTimer :=
  filter (fun tm => String.eqb (target tm) entity) (timers q).

Definition replays_for (entity : string) (q : EventQueue Event Handled) : list (Replay Event) :=
  filter (fun r => String.eqb (replay_entity r) entity) (replays q).

(** The handler throws on [event] and [event] carries the id [entity]:
    process buffers it for [entity]. *)
Definition fails_for (entity : string) (event : Event) (q : EventQueue Event Handled) : bool :=
  is_throw (fst (processEvent event (handled q))) && strict_eq (entityId event) entity.

(** The timestamp process gives a failed event. *)
Definition timestampOf (event : Event) (q : EventQueue Event Handled) : option Z :=
  if truthy (updatedAt event)
  then match updatedAt event with Some u => Date_parse u | None => None end
  else Some (Z.of_nat (now q)).

(** Events delivered one after the other, each with the time elapsed
    since the previous one. *)
Fixpoint deliver (burst : list (nat * Event)) (q : EventQueue Event Handled)
  : EventQueue Event Handled :=
  match burst with
  | [] => q
  | (d, event) :: rest => deliver rest (process event (queue_advance d q))
  end.

(** The time left on the timer of [entity] after the burst, when
    [budget] was left before it: an event that fails for [entity] arms the
    timer anew, any other event lets it run. *)
Fixpoint budget_after (entity : string) (budget : nat) (burst : list (nat * Event))
         (q : EventQueue Event Handled) : nat :=
  match burst with
  | [] => budget
  | (d, event) :: rest =>
      let q' := queue_advance d q in
      budget_after entity
                   (if fails_for entity event q' then reorderDelayMs else budget - d)
                   rest (process event q')
  end.

(** Every event of the burst comes before the timer of [entity] expires. *)
Fixpoint within_window (entity : string) (budget : nat) (burst : list (nat * Event))
         (q : EventQueue Event Handled) : Prop :=
  match burst with
  | [] => True
  | (d, event) :: rest =>
      let q' := queue_advance d q in
      (d < budget)%nat
      /\ within_window entity
                       (if fails_for entity event q' then reorderDelayMs else budget - d)
                       rest (process event q')
  end.

(** The buffer entries the burst adds for [entity]. *)
Fixpoint burst_entries (entity : string) (burst : list (nat * Event))
         (q : EventQueue Event Handled) : list (Pending Event) :=
  match burst with
  | [] => []
  | (d, event) :: rest =>
      let q' := queue_advance d q in
      (if fails_for entity event q' then [mkPending event (timestampOf event q')] else [])
      ++ burst_entries entity rest (process event q')
  end.

(** The timers in the table are distinct and not yet due; each is the one
    registered for its entity, whose buffer is not empty; and every
    registered handle is that of a timer in the table. *)
Definition wf_queue (q : EventQueue Event Handled) : Prop :=
  NoDup (map handle (timers q))
  /\ (forall tm, In tm (timers q) ->
        (handle tm < nextHandle q)%nat
        /\ (now q < deadline tm)%nat
        /\ JsMap.get (pendingEventTimers q) (target tm) = Some (handle tm)
        /\ buffer (target tm) q <> [])
  /\ (forall entity h,
        JsMap.get (pendingEventTimers q) entity = Some h ->
        exists tm, In tm (timers q) /\ handle tm = h /\ target tm = entity).

(** Ascending timestamps. *)
Definition timestamp_le (a b : Pending Event) : Prop :=
  match pending_timestamp a, pending_timestamp b with
  | Some x, Some y => (x <= y)%Z
  | _, _ => False
  end.

(** The state of the handler after it was given [events] one after the
    other, first to last, starting in [h]. *)
Definition handled_after (events : list (Pending Event)) (h : Handled) : Handled :=
  fold_left (fun h p => snd (processEvent (pending_event p) h)) events h.

(** What [onError] is told for the attempts that threw, in their order. *)
Definition failure_reports (attempts : list (Event * Completion unit))
  : list (string * string) :=
  map (fun a => ("Error while handling event",
                 match snd a with Throw message => message | Normal _ => "" end))
      (filter (fun a => is_throw (snd a)) attempts).
End EventQueueMethods.

(** The comparator on timestamps that are numbers. *)
Definition timestampNumber (Event : Type) (p : Pending Event) : Z :=
  match pending_timestamp p with Some x => x | None => 0%Z end.

Definition byNumber (Event : Type) (a b : Pending Event) : Z :=
  (timestampNumber a - timestampNumber b)%Z.

(** A handler for the examples: task events applied to a store. *)
Definition exHandler (m : Message) (st : TaskStore) : Completion unit * TaskStore :=
  if String.eqb (event_name m) "item:updated"
  then updateTask exampleParse (asTodoistTask (event_data m)) st
  else if String.eqb (event_name m) "item:added"
       then addTask (asTodoistTask (event_data m)) st
       else (Normal tt, st).

Definition exEntityId (m : Message) : option string := Some (EventData.id (event_data m)).
Definition exUpdatedAt (m : Message) : option string :=
  Some (EventData.updated_at (event_data m)).

(** Two updates of a task [x] that is not stored, the later one arriving
    first. *)
Definition exUpdateLate : Message :=
  mkMessage "item:updated" (EventData.mk "x" None None 2 "second" "500" "" 0).
Definition exUpdateEarly : Message :=
  mkMessage "item:updated" (EventData.mk "x" None None 1 "first" "400" "" 0).

Definition exQueue : EventQueue Message TaskStore :=
  mkQueue JsMap.empty JsMap.empty exStoreA [] [] 0 [] 0.

(** An event for another task, which the handler accepts. *)
Definition exAddOther : Message :=
  mkMessage "item:added" (EventData.mk "y" None None 1 "other" "450" "" 0).

(** The bulk load of the specification's scenario. *)
Definition exPayload : TodoistProjectResponse :=
  mkResponse (Some (TodoistProject.mk "P" []))
             [SectionRecord.mk "s1" "S1" 0 "10"]
             [TodoistTask.mk "t1" None (Some "s1") 0 "Buy milk" "10"].

(** The creation of the task [x], which the handler accepts. *)
Definition exAddX : Message :=
  mkMessage "item:added" (EventData.mk "x" None None 1 "created" "450" "" 0).

(* ------------------------------------------------------------------ *)
(** ** Depths of a snapshot tree *)

(** The node has depth [d], its children [d + 1], and so on down. *)
Fixpoint depths_from (d : nat) (n : TodoistTaskNode) : Prop :=
  match n with
  | mkNode _ cs d' =>
      d' = d
      /\ (fix all (l : list TodoistTaskNode) : Prop :=
            match l with
            | [] => True
            | c :: l' => depths_from (S d) c /\ all l'
            end) cs
  end.

(* ------------------------------------------------------------------ *)
(** ** Histories of a TaskTree

    What happens to a TaskTree: a public method is called, a millisecond
    passes, or the host calls the [done] callback of a remove hook. *)

Inductive TreeAction : Type :=
| Call (m : Mutation)
| Tick
| Done.

Definition is_done (a : TreeAction) : bool :=
  match a with Done => true | _ => false end.

Section TaskTreeHistory.
Variable Date_parse : string -> option Z.
Variable localeCompare : string -> string -> Z.
Variable hooks : TaskTreeHooks.

Definition act (w : Clocked) (a : TreeAction) : Clocked :=
  match a with
  | Call m => call Date_parse localeCompare hooks m w
  | Tick => tick hooks w
  | Done => mkClocked (clock w) (animationDone localeCompare hooks (clock w) (tree w))
  end.

Definition run_actions (acts : list TreeAction) (w : Clocked) : Clocked :=
  fold_left act acts w.
End TaskTreeHistory.

(** The mutations called in a history, in order. *)
Definition mutations_of (acts : list TreeAction) : list Mutation :=
  flat_map (fun a => match a with Call m => [m] | _ => [] end) acts.

(** No render is running and the timer, if there is one, is the debounce
    timer of queueRender. *)
Definition debounce_only (t : TaskTree) : Prop :=
  isRendering t = false
  /\ match renderTimer t with
     | Some timer => timer_callback timer = DebounceCallback
     | None => True
     end.

(** The remove hook a mutation calls when it starts an exit animation. *)
Definition exit_events (m : Mutation) : list ViewEvent :=
  match m with
  | RemoveTask taskId => [OnTaskRemove taskId]
  | RemoveSection sectionId => [OnSectionRemove sectionId]
  | _ => []
  end.

(** Two updates of a task [x] that is not stored, carrying the same
    timestamp. *)
Definition exUpdateTieA : Message :=
  mkMessage "item:updated" (EventData.mk "x" None None 1 "one" "400" "" 0).
Definition exUpdateTieB : Message :=
  mkMessage "item:updated" (EventData.mk "x" None None 2 "two" "400" "" 0).

(** The event names processEvent has a case for. *)
Definition handled_event_names : list string :=
  ["item:completed"; "item:deleted"; "section:archived"; "section:deleted";
   "item:updated"; "project:updated"; "item:added"; "item:uncompleted";
   "section:added"; "section:unarchived"; "section:updated"].

(* ------------------------------------------------------------------ *)
(** ** The roots a snapshot lists *)

(** A root task is listed by snapshot when its [section_id] is falsy
    (among the unsectioned tasks) or names a stored section (among the
    tasks of that section). *)
Definition listed_root (st : TaskStore) (t : TodoistTask.t) : bool :=
  negb (truthy (TodoistTask.section_id t))
  || match TodoistTask.section_id t with
     | Some s => JsMap.has (sections st) s
     | None => false
     end.

(** Two tasks that name each other as parent, next to a root [k] with a
    child [m]. *)
Definition exStoreCycle : TaskStore :=
  mkStore None []
          [("u", exTask "u" (Some "v") None 1 "1");
           ("v", exTask "v" (Some "u") None 1 "1");
           ("k", exTask "k" None None 1 "1");
           ("m", exTask "m" (Some "k") None 1 "1")].

(** The root nodes a snapshot lists: the unsectioned ones, then those of
    the sections in their order. *)
Definition listed_nodes (localeCompare : string -> string -> Z) (st : TaskStore)
  : list TodoistTaskNode :=
  data_unsectioned (snapshot localeCompare st)
  ++ flat_map section_tasks (data_sections (snapshot localeCompare st)).

(* ------------------------------------------------------------------ *)
(** ** TaskView: rendering a snapshot into the DOM

    An element of the document: its tag, class list, attributes (the
    [dataset] entries are the [data-*] attributes), inline style
    properties, text, the click listener attached to it (the task id its
    closure holds) and its child elements in document order. *)

Inductive Element : Type :=
| mkElement (tagName : string) (classList : list string)
            (attributes : list (string * string)) (style : list (string * string))
            (textContent : string) (clickListener : option string)
            (childNodes : list Element).

Definition tagName (el : Element) : string :=
  match el with mkElement t _ _ _ _ _ _ => t end.
Definition classList (el : Element) : list string :=
  match el with mkElement _ c _ _ _ _ _ => c end.
Definition attributes (el : Element) : list (string * string) :=
  match el with mkElement _ _ a _ _ _ _ => a end.
Definition style (el : Element) : list (string * string) :=
  match el with mkElement _ _ _ s _ _ _ => s end.
Definition textContent (el : Element) : string :=
  match el with mkElement _ _ _ _ x _ _ => x end.
Definition clickListener (el : Element) : option string :=
  match el with mkElement _ _ _ _ _ l _ => l end.
Definition childNodes (el : Element) : list Element :=
  match el with mkElement _ _ _ _ _ _ k => k end.

(** [document.createElement(tag)] *)
Definition createElement (tag : string) : Element := mkElement tag [] [] [] "" None [].

(** [el.className = c] *)
Definition set_className (c : string) (el : Element) : Element :=
  mkElement (tagName el) [c] (attributes el) (style el) (textContent el)
            (clickListener el) (childNodes el).

(** [el.classList.add(c)] *)
Definition classList_add (c : string) (el : Element) : Element :=
  mkElement (tagName el)
            (if existsb (String.eqb c) (classList el) then classList el else classList el ++ [c])
            (attributes el) (style el) (textContent el) (clickListener el) (childNodes el).

(** [el.setAttribute(name, value)], also what [el.dataset.x = value],
    [el.type = value] and [el.disabled = true] come to. *)
Definition setAttribute (name value : string) (el : Element) : Element :=
  mkElement (tagName el) (classList el) (JsMap.set (attributes el) name value) (style el)
            (textContent el) (clickListener el) (childNodes el).

(** [el.style.setProperty(name, value)] *)
Definition style_setProperty (name value : string) (el : Element) : Element :=
  mkElement (tagName el) (classList el) (attributes el) (JsMap.set (style el) name value)
            (textContent el) (clickListener el) (childNodes el).

(** [el.textContent = text] on an element without children. *)
Definition set_textContent (text : string) (el : Element) : Element :=
  mkElement (tagName el) (classList el) (attributes el) (style el) text
            (clickListener el) [].

(** [el.addEventListener('click', listener)] *)
Definition addClickListener (taskId : string) (el : Element) : Element :=
  mkElement (tagName el) (classList el) (attributes el) (style el) (textContent el)
            (Some taskId) (childNodes el).

(** [el.append(...nodes)] / [el.appendChild(node)] *)
Definition append (nodes : list Element) (el : Element) : Element :=
  mkElement (tagName el) (classList el) (attributes el) (style el) (textContent el)
            (clickListener el) (childNodes el ++ nodes).

(** The descendants of an element in document order. *)
Fixpoint descendants (el : Element) : list Element :=
  match el with
  | mkElement _ _ _ _ _ _ kids => flat_map (fun k => k :: descendants k) kids
  end.

(** The place of the first descendant, in document order, that matches:
    the child indices leading to it. *)
Fixpoint find_path (matches : Element -> bool) (el : Element) : option (list nat) :=
  match el with
  | mkElement _ _ _ _ _ _ kids =>
      (fix scan (i : nat) (l : list Element) : option (list nat) :=
         match l with
         | [] => None
         | k :: l' =>
             if matches k then Some [i]
             else match find_path matches k with
                  | Some path => Some (i :: path)
                  | None => scan (S i) l'
                  end
         end) O kids
  end.


(** The element at [path] replaced by what [f] makes of it. *)
Fixpoint update_at (path : list nat) (f : Element -> Element) (el : Element) : Element :=
  match path with
  | [] => f el
  | i :: path' =>
      mkElement (tagName el) (classList el) (attributes el) (style el) (textContent el)
                (clickListener el)
                (firstn i (childNodes el)
                 ++ match nth_error (childNodes el) i with
                    | Some k => [update_at path' f k]
                    | None => []
                    end
                 ++ skipn (S i) (childNodes el))
  end.


(** The selectors the view uses: [.name] and [[attribute="value"]]. *)
Definition has_class (name : string) (el : Element) : bool :=
  existsb (String.eqb name) (classList el).


(** [Number.prototype.toString()] of a depth. *)
Definition depth_toString (d : nat) : string := NilEmpty.string_of_uint (Nat.to_uint d).

Record TaskView := mkView {
  rootElement : Element;
  view_pendingTaskAddIds : list string;
  view_pendingSectionAddIds : list string;
  view_onTaskCheckboxClick : bool;   (* is the hook supplied *)
  allowCompletingTasks : bool
}.

(** TaskView.setPendingTaskAddIds / setPendingSectionAddIds *)
Definition setPendingTaskAddIds (ids : list string) (v : TaskView) : TaskView :=
  mkView (rootElement v) ids (view_pendingSectionAddIds v) (view_onTaskCheckboxClick v)
         (allowCompletingTasks v).

Definition setPendingSectionAddIds (ids : list string) (v : TaskView) : TaskView :=
  mkView (rootElement v) (view_pendingTaskAddIds v) ids (view_onTaskCheckboxClick v)
         (allowCompletingTasks v).

Section View.
Variable v : TaskView.

(** TaskView.createTaskElement *)
Definition createTaskElement (task : TodoistTaskNode) : Element :=
  let id := TodoistTask.id (node_task task) in
  let el := createElement "div" in
  let el := set_className "task" el in
  let el := style_setProperty "--indent" (depth_toString (depth task)) el in
  let el := setAttribute "data-task-id" id el in
  let el := if existsb (String.eqb id) (view_pendingTaskAddIds v)
            then classList_add "fading-out" el else el in
  let checkbox := createElement "button" in
  let checkbox := setAttribute "type" "button" checkbox in
  let checkbox := set_className "checkbox" checkbox in
  let '(checkbox, el) :=
    if negb (allowCompletingTasks v) then
      let checkbox := classList_add "disabled" checkbox in
      let el := classList_add "disabled" el in
      let checkbox := setAttribute "disabled" "" checkbox in
      let checkbox := setAttribute "aria-disabled" "true" checkbox in
      (checkbox, el)
    else if view_onTaskCheckboxClick v then (addClickListener id checkbox, el)
    else (checkbox, el) in
  let content := createElement "div" in
  let content := set_className "task-content" content in
  let content := set_textContent (TodoistTask.content (node_task task)) content in
  let row := createElement "div" in
  let row := set_className "task-row" row in
  let row := append [checkbox; content] row in
  let subtasks := createElement "div" in
  let subtasks := set_className "subtasks" subtasks in
  append [row; subtasks] el.

(** The element appendTasks adds to a container for one task: the task
    element, with the elements of the children appended to its first
    [.subtasks] descendant when the task has children. *)
Fixpoint taskElement (task : TodoistTaskNode) : Element :=
  match task with
  | mkNode t cs d =>
      let el := createTaskElement (mkNode t cs d) in
      match cs with
      | [] => el
      | _ :: _ =>
          match find_path (has_class "subtasks") el with
          | Some path => update_at path (append (map taskElement cs)) el
          | None => el
          end
      end
  end.

(** TaskView.appendTasks *)
Definition appendTasks (tasks : list TodoistTaskNode) (container : Element) : Element :=
  append (map taskElement tasks) container.

(** TaskView.renderSection *)
Definition renderSection (section : TodoistSection) : Element :=
  let wrapper := createElement "div" in
  let wrapper := set_className "section" wrapper in
  let wrapper := setAttribute "data-section-id" (SectionRecord.id (section_record section))
                              wrapper in
  let wrapper := if existsb (String.eqb (SectionRecord.id (section_record section)))
                            (view_pendingSectionAddIds v)
                 then classList_add "fading-out" wrapper else wrapper in
  let title := createElement "div" in
  let title := set_className "section-title" title in
  let title := set_textContent (SectionRecord.name (section_record section)) title in
  let tasks := createElement "div" in
  let tasks := set_className "tasks" tasks in
  let tasks := appendTasks (section_tasks section) tasks in
  append [title; tasks] wrapper.

(** TaskView.render: the root element emptied and filled anew. *)
Definition render (data : OrganizedProjectData) : TaskView :=
  let root := rootElement v in
  let root := mkElement (tagName root) (classList root) (attributes root) (style root)
                        "" (clickListener root) [] in
  let unsectionedContainer := createElement "div" in
  let unsectionedContainer := set_className "tasks" unsectionedContainer in
  let unsectionedContainer := appendTasks (data_unsectioned data) unsectionedContainer in
  let fragment := unsectionedContainer :: map renderSection (data_sections data) in
  mkView (append fragment root) (view_pendingTaskAddIds v) (view_pendingSectionAddIds v)
         (view_onTaskCheckboxClick v) (allowCompletingTasks v).


End View.

(** What the document shows of the tasks, in document order: for each
    element carrying a task id, the id, its [--indent], whether it is
    drawn hidden ([fading-out]) and the text of its content element. *)
Definition task_row (el : Element) : list (string * string * bool) :=
  match JsMap.get (attributes el) "data-task-id" with
  | Some id =>
      [(id,
        match JsMap.get (style el) "--indent" with Some i => i | None => "" end,
        has_class "fading-out" el)]
  | None => []
  end.

Definition task_rows (root : Element) : list (string * string * bool) :=
  flat_map task_row (descendants root).

(** The same read off a tree of the snapshot, parents before children. *)
Fixpoint node_rows (pending : list string) (n : TodoistTaskNode)
  : list (string * string * bool) :=
  match n with
  | mkNode t cs d =>
      (TodoistTask.id t, depth_toString d, existsb (String.eqb (TodoistTask.id t)) pending)
      :: flat_map (node_rows pending) cs
  end.




(** The section ids the document shows, in document order. *)
Definition section_mark (el : Element) : list string :=
  match JsMap.get (attributes el) "data-section-id" with
  | Some id => [id]
  | None => []
  end.

Definition shown_section_ids (root : Element) : list string :=
  flat_map section_mark (descendants root).

Definition click_mark (el : Element) : list string :=
  match clickListener el with Some id => [id] | None => [] end.

Definition enabled_button (el : Element) : bool :=
  String.eqb (tagName el) "button" && negb (JsMap.has (attributes el) "disabled").


(** The click listeners of the document and its buttons that are not
    disabled, in document order. *)
Definition click_listeners (root : Element) : list string :=
  flat_map click_mark (descendants root).

Definition enabled_buttons (root : Element) : list Element :=
  filter enabled_button (descendants root).

(* ------------------------------------------------------------------ *)
(** ** ProjectWidgetScript.handleRemove

    The closure state of one call of handleRemove: its three flags,
    whether its [transitionend] listener is still attached, how often it
    called [done], and how often it asked for the frame that collapses the
    element. *)

Record Removal := mkRemoval {
  finished : bool;
  collapseStarted : bool;
  heightDone : bool;
  listening : bool;
  doneCalls : nat;
  collapseFrames : nat
}.

(** What the host may deliver after the call: a [transitionend] event
    (whether its target is the element itself, and its property name), the
    300 ms timeout and the fallback timeout ([removalFallbackMs]). *)
Inductive RemovalEvent : Type :=
| TransitionEnd (onElement : bool) (propertyName : string)
| CollapseTimeout
| FallbackTimeout.

Definition removalFallbackMs : nat := 3000.

(** The state when handleRemove returns: the listener attached, nothing
    finished. *)
Definition handleRemove : Removal := mkRemoval false false false true 0 0.

(** [cleanup] *)
Definition removal_cleanup (s : Removal) : Removal :=
  if finished s then s
  else mkRemoval true (collapseStarted s) (heightDone s) false (S (doneCalls s))
                 (collapseFrames s).

(** [onTransitionEnd] *)
Definition removal_onTransitionEnd (onElement : bool) (propertyName : string) (s : Removal)
  : Removal :=
  if negb onElement then s
  else if String.eqb propertyName "height"
       then removal_cleanup (mkRemoval (finished s) (collapseStarted s) true (listening s)
                                       (doneCalls s) (collapseFrames s))
       else s.

(** [startCollapse] *)
Definition removal_startCollapse (s : Removal) : Removal :=
  if collapseStarted s then s
  else mkRemoval (finished s) true (heightDone s) (listening s) (doneCalls s)
                 (S (collapseFrames s)).

Definition removal_step (s : Removal) (e : RemovalEvent) : Removal :=
  match e with
  | TransitionEnd onElement propertyName =>
      if listening s then removal_onTransitionEnd onElement propertyName s else s
  | CollapseTimeout =>
      if negb (collapseStarted s) then removal_startCollapse s else s
  | FallbackTimeout =>
      if finished s then s
      else
        let s := if negb (collapseStarted s) then removal_startCollapse s else s in
        if negb (heightDone s) then removal_cleanup s else s
  end.

Definition removal_run (events : list RemovalEvent) : Removal :=
  fold_left removal_step events handleRemove.

(** The events that end the removal: the end of the element's own height
    transition, and the fallback timeout. *)
Definition ends_removal (e : RemovalEvent) : bool :=
  match e with
  | TransitionEnd onElement propertyName => onElement && String.eqb propertyName "height"
  | CollapseTimeout => false
  | FallbackTimeout => true
  end.

Definition is_collapse_timeout (e : RemovalEvent) : bool :=
  match e with
  | CollapseTimeout => true
  | TransitionEnd _ _ | FallbackTimeout => false
  end.

(* ------------------------------------------------------------------ *)
(** ** ProjectWidgetScript: the error overlay and the height updates

    [showError], [hideError], [scheduleErrorAutoHide], [clearErrorAutoHide],
    [scheduleHeightUpdate] and [updateWidgetHeight] work on a few fields of
    the script, on the overlay's elements and on the window's timers and
    animation frames.  The state below holds exactly these. *)

(** The two callbacks the script passes as [onAutoHide]: the one of the
    event queue's error handler (synchronize again) and the one of
    [handleTaskCheckboxClick] (remove the row's [loading] class, then
    synchronize again). *)
Inductive AutoHideCallback : Type :=
| Resynchronize
| ClearLoadingAndResynchronize (taskId : string).

(** What a pending [window.setTimeout] will run: the auto-hide of the
    overlay, or the delayed [scheduleHeightUpdate] of the progress bar. *)
Inductive UiTimerKind : Type :=
| AutoHideTimer (onDone : AutoHideCallback)
| HeightPokeTimer.

(** What a pending [requestAnimationFrame] will run: the height update, or
    the start of the progress bar. *)
Inductive UiFrameKind : Type :=
| HeightFrame
| BarFrame.

Record UiTimer := mkUiTimer {
  ut_handle : nat;
  ut_deadline : nat;
  ut_kind : UiTimerKind
}.

Record UiFrame := mkUiFrame {
  uf_handle : nat;
  uf_kind : UiFrameKind
}.

(** [autoAdjustHeight] is the setting; the next five fields are the overlay
    ([projectEl.hidden], [errorEl.hidden], the two texts and the [hidden]
    attribute of the technical line), then the progress bar's inline style,
    the script's three fields, the window (clock in milliseconds, pending
    timers and frames in the order they were requested, next handles), and
    what the host has seen: the heights passed to [homey.setHeight] and the
    auto-hide callbacks that were run, oldest first. *)
Record WidgetUi := mkUi {
  autoAdjustHeight : bool;
  projectHidden : bool;
  errorHidden : bool;
  errorMessageText : string;
  errorTechnicalText : string;
  errorTechnicalHidden : bool;
  barTransition : string;
  barWidth : string;
  errorHideTimer : option nat;
  heightAnimationFrame : option nat;
  lastMeasuredHeight : Z;
  ui_now : nat;
  ui_timers : list UiTimer;
  ui_nextTimer : nat;
  ui_frames : list UiFrame;
  ui_nextFrame : nat;
  setHeightCalls : list Z;
  autoHideRuns : list AutoHideCallback
}.


Definition set_projectHidden (x : bool) (u : WidgetUi) : WidgetUi :=
  mkUi (autoAdjustHeight u) x (errorHidden u) (errorMessageText u) (errorTechnicalText u)
       (errorTechnicalHidden u) (barTransition u) (barWidth u) (errorHideTimer u)
       (heightAnimationFrame u) (lastMeasuredHeight u) (ui_now u) (ui_timers u) (ui_nextTimer u)
       (ui_frames u) (ui_nextFrame u) (setHeightCalls u) (autoHideRuns u).

Definition set_errorHidden (x : bool) (u : WidgetUi) : WidgetUi :=
  mkUi (autoAdjustHeight u) (projectHidden u) x (errorMessageText u) (errorTechnicalText u)
       (errorTechnicalHidden u) (barTransition u) (barWidth u) (errorHideTimer u)
       (heightAnimationFrame u) (lastMeasuredHeight u) (ui_now u) (ui_timers u) (ui_nextTimer u)
       (ui_frames u) (ui_nextFrame u) (setHeightCalls u) (autoHideRuns u).

Definition set_errorMessageText (x : string) (u : WidgetUi) : WidgetUi :=
  mkUi (autoAdjustHeight u) (projectHidden u) (errorHidden u) x (errorTechnicalText u)
       (errorTechnicalHidden u) (barTransition u) (barWidth u) (errorHideTimer u)
       (heightAnimationFrame u) (lastMeasuredHeight u) (ui_now u) (ui_timers u) (ui_nextTimer u)
       (ui_frames u) (ui_nextFrame u) (setHeightCalls u) (autoHideRuns u).

Definition set_errorTechnicalText (x : string) (u : WidgetUi) : WidgetUi :=
  mkUi (autoAdjustHeight u) (projectHidden u) (errorHidden u) (errorMessageText u) x
       (errorTechnicalHidden u) (barTransition u) (barWidth u) (errorHideTimer u)
       (heightAnimationFrame u) (lastMeasuredHeight u) (ui_now u) (ui_timers u) (ui_nextTimer u)
       (ui_frames u) (ui_nextFrame u) (setHeightCalls u) (autoHideRuns u).

Definition set_errorTechnicalHidden (x : bool) (u : WidgetUi) : WidgetUi :=
  mkUi (autoAdjustHeight u) (projectHidden u) (errorHidden u) (errorMessageText u)
       (errorTechnicalText u) x (barTransition u) (barWidth u) (errorHideTimer u)
       (heightAnimationFrame u) (lastMeasuredHeight u) (ui_now u) (ui_timers u) (ui_nextTimer u)
       (ui_frames u) (ui_nextFrame u) (setHeightCalls u) (autoHideRuns u).

Definition set_barTransition (x : string) (u : WidgetUi) : WidgetUi :=
  mkUi (autoAdjustHeight u) (projectHidden u) (errorHidden u) (errorMessageText u)
       (errorTechnicalText u) (errorTechnicalHidden u) x (barWidth u) (errorHideTimer u)
       (heightAnimationFrame u) (lastMeasuredHeight u) (ui_now u) (ui_timers u) (ui_nextTimer u)
       (ui_frames u) (ui_nextFrame u) (setHeightCalls u) (autoHideRuns u).

Definition set_barWidth (x : string) (u : WidgetUi) : WidgetUi :=
  mkUi (autoAdjustHeight u) (projectHidden u) (errorHidden u) (errorMessageText u)
       (errorTechnicalText u) (errorTechnicalHidden u) (barTransition u) x (errorHideTimer u)
       (heightAnimationFrame u) (lastMeasuredHeight u) (ui_now u) (ui_timers u) (ui_nextTimer u)
       (ui_frames u) (ui_nextFrame u) (setHeightCalls u) (autoHideRuns u).

Definition set_errorHideTimer (x : option nat) (u : WidgetUi) : WidgetUi :=
  mkUi (autoAdjustHeight u) (projectHidden u) (errorHidden u) (errorMessageText u)
       (errorTechnicalText u) (errorTechnicalHidden u) (barTransition u) (barWidth u) x
       (heightAnimationFrame u) (lastMeasuredHeight u) (ui_now u) (ui_timers u) (ui_nextTimer u)
       (ui_frames u) (ui_nextFrame u) (setHeightCalls u) (autoHideRuns u).

Definition set_heightAnimationFrame (x : option nat) (u : WidgetUi) : WidgetUi :=
  mkUi (autoAdjustHeight u) (projectHidden u) (errorHidden u) (errorMessageText u)
       (errorTechnicalText u) (errorTechnicalHidden u) (barTransition u) (barWidth u)
       (errorHideTimer u) x (lastMeasuredHeight u) (ui_now u) (ui_timers u) (ui_nextTimer u)
       (ui_frames u) (ui_nextFrame u) (setHeightCalls u) (autoHideRuns u).

Definition set_lastMeasuredHeight (x : Z) (u : WidgetUi) : WidgetUi :=
  mkUi (autoAdjustHeight u) (projectHidden u) (errorHidden u) (errorMessageText u)
       (errorTechnicalText u) (errorTechnicalHidden u) (barTransition u) (barWidth u)
       (errorHideTimer u) (heightAnimationFrame u) x (ui_now u) (ui_timers u) (ui_nextTimer u)
       (ui_frames u) (ui_nextFrame u) (setHeightCalls u) (autoHideRuns u).

Definition set_ui_now (x : nat) (u : WidgetUi) : WidgetUi :=
  mkUi (autoAdjustHeight u) (projectHidden u) (errorHidden u) (errorMessageText u)
       (errorTechnicalText u) (errorTechnicalHidden u) (barTransition u) (barWidth u)
       (errorHideTimer u) (heightAnimationFrame u) (lastMeasuredHeight u) x (ui_timers u)
       (ui_nextTimer u) (ui_frames u) (ui_nextFrame u) (setHeightCalls u) (autoHideRuns u).

Definition set_ui_timers (x : list UiTimer) (u : WidgetUi) : WidgetUi :=
  mkUi (autoAdjustHeight u) (projectHidden u) (errorHidden u) (errorMessageText u)
       (errorTechnicalText u) (errorTechnicalHidden u) (barTransition u) (barWidth u)
       (errorHideTimer u) (heightAnimationFrame u) (lastMeasuredHeight u) (ui_now u) x
       (ui_nextTimer u) (ui_frames u) (ui_nextFrame u) (setHeightCalls u) (autoHideRuns u).

Definition set_ui_nextTimer (x : nat) (u : WidgetUi) : WidgetUi :=
  mkUi (autoAdjustHeight u) (projectHidden u) (errorHidden u) (errorMessageText u)
       (errorTechnicalText u) (errorTechnicalHidden u) (barTransition u) (barWidth u)
       (errorHideTimer u) (heightAnimationFrame u) (lastMeasuredHeight u) (ui_now u) (ui_timers
       u) x (ui_frames u) (ui_nextFrame u) (setHeightCalls u) (autoHideRuns u).

Definition set_ui_frames (x : list UiFrame) (u : WidgetUi) : WidgetUi :=
  mkUi (autoAdjustHeight u) (projectHidden u) (errorHidden u) (errorMessageText u)
       (errorTechnicalText u) (errorTechnicalHidden u) (barTransition u) (barWidth u)
       (errorHideTimer u) (heightAnimationFrame u) (lastMeasuredHeight u) (ui_now u) (ui_timers
       u) (ui_nextTimer u) x (ui_nextFrame u) (setHeightCalls u) (autoHideRuns u).

Definition set_ui_nextFrame (x : nat) (u : WidgetUi) : WidgetUi :=
  mkUi (autoAdjustHeight u) (projectHidden u) (errorHidden u) (errorMessageText u)
       (errorTechnicalText u) (errorTechnicalHidden u) (barTransition u) (barWidth u)
       (errorHideTimer u) (heightAnimationFrame u) (lastMeasuredHeight u) (ui_now u) (ui_timers
       u) (ui_nextTimer u) (ui_frames u) x (setHeightCalls u) (autoHideRuns u).

Definition set_setHeightCalls (x : list Z) (u : WidgetUi) : WidgetUi :=
  mkUi (autoAdjustHeight u) (projectHidden u) (errorHidden u) (errorMessageText u)
       (errorTechnicalText u) (errorTechnicalHidden u) (barTransition u) (barWidth u)
       (errorHideTimer u) (heightAnimationFrame u) (lastMeasuredHeight u) (ui_now u) (ui_timers
       u) (ui_nextTimer u) (ui_frames u) (ui_nextFrame u) x (autoHideRuns u).

Definition set_autoHideRuns (x : list AutoHideCallback) (u : WidgetUi) : WidgetUi :=
  mkUi (autoAdjustHeight u) (projectHidden u) (errorHidden u) (errorMessageText u)
       (errorTechnicalText u) (errorTechnicalHidden u) (barTransition u) (barWidth u)
       (errorHideTimer u) (heightAnimationFrame u) (lastMeasuredHeight u) (ui_now u) (ui_timers
       u) (ui_nextTimer u) (ui_frames u) (ui_nextFrame u) (setHeightCalls u) x.

Definition errorAutoHideMs : nat := 8 * 1000.

(** The script as its constructor leaves it: main content shown, no error,
    and one height update requested when [autoAdjustHeight] is set. *)
Definition newWidgetUi (autoAdjust : bool) : WidgetUi :=
  mkUi autoAdjust false true "" "" true "" "" None
       (if autoAdjust then Some 0 else None) 0%Z
       0 [] 0 (if autoAdjust then [mkUiFrame 0 HeightFrame] else [])
       (if autoAdjust then 1 else 0) [] [].

Definition ui_setTimeout (kind : UiTimerKind) (delay : nat) (u : WidgetUi) : nat * WidgetUi :=
  let h := ui_nextTimer u in
  (h, set_ui_nextTimer (S h)
        (set_ui_timers (ui_timers u ++ [mkUiTimer h (ui_now u + delay) kind]) u)).

Definition ui_clearTimeout (h : nat) (u : WidgetUi) : WidgetUi :=
  set_ui_timers (filter (fun t => negb (Nat.eqb (ut_handle t) h)) (ui_timers u)) u.

Definition ui_requestAnimationFrame (kind : UiFrameKind) (u : WidgetUi) : nat * WidgetUi :=
  let h := ui_nextFrame u in
  (h, set_ui_nextFrame (S h) (set_ui_frames (ui_frames u ++ [mkUiFrame h kind]) u)).

Definition scheduleHeightUpdate (u : WidgetUi) : WidgetUi :=
  if negb (autoAdjustHeight u) then u
  else match heightAnimationFrame u with
       | Some _ => u
       | None =>
           let (h, u1) := ui_requestAnimationFrame HeightFrame u in
           set_heightAnimationFrame (Some h) u1
       end.

(** [nextHeight] is what the function computes from the layout:
    [Math.ceil(Math.max(measuredHeight, minimumHeight))], [None] when that
    is not a finite number. *)
Definition updateWidgetHeight (nextHeight : option Z) (u : WidgetUi) : WidgetUi :=
  if negb (autoAdjustHeight u) then u
  else match nextHeight with
       | None => u
       | Some n =>
           if (n <=? 0)%Z then u
           else if (lastMeasuredHeight u =? n)%Z then u
           else set_setHeightCalls (setHeightCalls u ++ [n]) (set_lastMeasuredHeight n u)
       end.

Definition clearErrorAutoHide (u : WidgetUi) : WidgetUi :=
  let u1 := match errorHideTimer u with
            | Some h => set_errorHideTimer None (ui_clearTimeout h u)
            | None => u
            end in
  set_barWidth "0%" (set_barTransition "none" u1).

Definition scheduleErrorAutoHide (onDone : AutoHideCallback) (u : WidgetUi) : WidgetUi :=
  let u1 := clearErrorAutoHide u in
  let u2 := set_barTransition "width 8000ms linear"
              (set_barWidth "0%" (set_barTransition "none" u1)) in
  let u3 := snd (ui_requestAnimationFrame BarFrame u2) in
  let (h, u4) := ui_setTimeout (AutoHideTimer onDone) errorAutoHideMs u3 in
  set_errorHideTimer (Some h) u4.

(** [technical] and [onAutoHide] are optional arguments; an empty
    [technical] is falsy like a missing one. *)
Definition showError (message : string) (technical : option string)
    (onAutoHide : option AutoHideCallback) (u : WidgetUi) : WidgetUi :=
  let u1 := set_errorMessageText message u in
  let u2 := set_errorTechnicalText (match technical with Some t => t | None => "" end) u1 in
  let u3 := set_errorTechnicalHidden
              (match technical with Some t => String.eqb t "" | None => true end) u2 in
  let u4 := set_errorHidden false (set_projectHidden true u3) in
  let u5 := match onAutoHide with
            | Some onDone => scheduleErrorAutoHide onDone u4
            | None => clearErrorAutoHide u4
            end in
  scheduleHeightUpdate u5.

Definition hideError (u : WidgetUi) : WidgetUi :=
  let u1 := set_errorHidden true (set_projectHidden false u) in
  let u2 := set_errorTechnicalHidden true (set_errorTechnicalText "" u1) in
  scheduleHeightUpdate (clearErrorAutoHide u2).

(** The callback of a timer. *)
Definition run_timer (t : UiTimer) (u : WidgetUi) : WidgetUi :=
  match ut_kind t with
  | AutoHideTimer onDone =>
      let u1 := hideError u in
      set_autoHideRuns (autoHideRuns u1 ++ [onDone]) u1
  | HeightPokeTimer => scheduleHeightUpdate u
  end.

(** The callback of an animation frame; [nextHeight] is the layout's answer
    in this frame. *)
Definition run_frame (nextHeight : option Z) (f : UiFrame) (u : WidgetUi) : WidgetUi :=
  match uf_kind f with
  | HeightFrame => updateWidgetHeight nextHeight (set_heightAnimationFrame None u)
  | BarFrame =>
      let u1 := scheduleHeightUpdate (set_barWidth "100%" u) in
      snd (ui_setTimeout HeightPokeTimer 50 u1)
  end.

(** What the window does on its own: a millisecond passes, or an animation
    frame is painted. *)
Inductive HostEvent : Type :=
| Millisecond
| AnimationFrame (nextHeight : option Z).

(** A due timer runs unless an earlier callback of the same tick cleared
    it; a timer that runs is no longer pending. *)
Definition fire_timer (u : WidgetUi) (t : UiTimer) : WidgetUi :=
  if existsb (fun t' => Nat.eqb (ut_handle t') (ut_handle t)) (ui_timers u)
  then run_timer t (ui_clearTimeout (ut_handle t) u)
  else u.

Definition ui_millisecond (u : WidgetUi) : WidgetUi :=
  let u1 := set_ui_now (S (ui_now u)) u in
  fold_left fire_timer
            (filter (fun t => Nat.leb (ut_deadline t) (ui_now u1)) (ui_timers u1)) u1.

(** The frames requested before this one run in order; a frame requested
    by one of them waits for the next. *)
Definition ui_frame (nextHeight : option Z) (u : WidgetUi) : WidgetUi :=
  fold_left (fun u' f => run_frame nextHeight f u') (ui_frames u) (set_ui_frames [] u).

Definition ui_host (u : WidgetUi) (e : HostEvent) : WidgetUi :=
  match e with
  | Millisecond => ui_millisecond u
  | AnimationFrame nextHeight => ui_frame nextHeight u
  end.

Definition ui_run (events : list HostEvent) (u : WidgetUi) : WidgetUi :=
  fold_left ui_host events u.

Definition is_millisecond (e : HostEvent) : bool :=
  match e with Millisecond => true | AnimationFrame _ => false end.

Definition milliseconds (events : list HostEvent) : nat :=
  List.length (filter is_millisecond events).

(** What can happen to the script: the window's events, and the calls the
    rest of the script makes: [showError], and [scheduleHeightUpdate] as
    the task tree's [onTreeChange].  [hideError] is only called by the
    auto-hide timer. *)
Inductive UiAction : Type :=
| Host (e : HostEvent)
| ShowError (message : string) (technical : option string)
            (onAutoHide : option AutoHideCallback)
| TreeChanged.

Definition ui_act (u : WidgetUi) (a : UiAction) : WidgetUi :=
  match a with
  | Host e => ui_host u e
  | ShowError message technical onAutoHide => showError message technical onAutoHide u
  | TreeChanged => scheduleHeightUpdate u
  end.

Definition ui_history (autoAdjust : bool) (actions : list UiAction) : WidgetUi :=
  fold_left ui_act actions (newWidgetUi autoAdjust).

(** No two consecutive heights are equal, [prev] being the one before the
    first, and every height is positive. *)
Fixpoint fresh_heights (prev : Z) (heights : list Z) : bool :=
  match heights with
  | [] => true
  | h :: rest => (0 <? h)%Z && negb (prev =? h)%Z && fresh_heights h rest
  end.

Definition is_height_frame (f : UiFrame) : bool :=
  match uf_kind f with HeightFrame => true | BarFrame => false end.

Definition pending_height_frames (u : WidgetUi) : nat :=
  List.length (filter is_height_frame (ui_frames u)).

(** The parts of the state the proofs follow: what the user sees of the
    overlay, the timers, and the height bookkeeping. *)
Definition visible (u : WidgetUi) : bool * bool * string * list AutoHideCallback :=
  (errorHidden u, projectHidden u, errorMessageText u, autoHideRuns u).

Definition timer_part (u : WidgetUi) : option nat * list UiTimer * nat * nat :=
  (errorHideTimer u, ui_timers u, ui_nextTimer u, ui_now u).

Definition height_part (u : WidgetUi) : bool * option nat * Z * list UiFrame * list Z :=
  (autoAdjustHeight u, heightAnimationFrame u, lastMeasuredHeight u,
   filter is_height_frame (ui_frames u), setHeightCalls u).

Definition poke_below (n : nat) (t : UiTimer) : Prop :=
  ut_kind t = HeightPokeTimer /\ ut_handle t < n.

(** No countdown is running: no handle is kept and no auto-hide timer is
    pending. *)
Definition quiet (u : WidgetUi) : Prop :=
  errorHideTimer u = None /\ Forall (poke_below (ui_nextTimer u)) (ui_timers u).

(** The countdown of handle [h] is running: its timer is pending, once, and
    it is the one the script keeps. *)
Definition counting (h deadline : nat) (onDone : AutoHideCallback) (u : WidgetUi) : Prop :=
  errorHideTimer u = Some h /\ h < ui_nextTimer u /\
  exists pre post,
    ui_timers u = pre ++ mkUiTimer h deadline (AutoHideTimer onDone) :: post
    /\ Forall (fun t => poke_below (ui_nextTimer u) t /\ ut_handle t <> h) pre
    /\ Forall (fun t => poke_below (ui_nextTimer u) t /\ ut_handle t <> h) post.

Definition tracked (u : WidgetUi) : Prop :=
  quiet u \/ exists h deadline onDone, counting h deadline onDone u.

(** The height bookkeeping is in order when [rest] are the frames of the
    current paint still to run. *)
Definition height_ok (autoAdjust : bool) (rest : list UiFrame) (u : WidgetUi) : Prop :=
  autoAdjustHeight u = autoAdjust
  /\ fresh_heights 0 (setHeightCalls u) = true
  /\ lastMeasuredHeight u = last (setHeightCalls u) 0%Z
  /\ List.length (filter is_height_frame rest) + pending_height_frames u
     = match heightAnimationFrame u with Some _ => 1 | None => 0 end
  /\ (autoAdjust = false -> setHeightCalls u = [] /\ heightAnimationFrame u = None).

(** From [u] to [u'] nothing happened to the overlay and the countdown;
    height pokes may have been set. *)
Definition pokes_added (u u' : WidgetUi) : Prop :=
  visible u' = visible u /\ ui_now u' = ui_now u
  /\ errorHideTimer u' = errorHideTimer u
  /\ ui_nextTimer u <= ui_nextTimer u'
  /\ exists extra,
       ui_timers u' = ui_timers u ++ extra
       /\ Forall (fun t => ut_kind t = HeightPokeTimer
                           /\ ui_nextTimer u <= ut_handle t < ui_nextTimer u') extra.

(* ------------------------------------------------------------------ *)
(** ** TodoistClient: paginated requests and the cache of projects *)

Section TodoistClient.

Variable Item : Type.

(** What [this.get] resolves to, as far as [getPaginatedResults] looks at
    it: [results] when it is an array ([None] otherwise, also for a
    response that is [null]), and [next_cursor] when it is neither [null]
    nor [undefined]. *)
Record PageResponse := mkPage {
  page_results : option (list Item);
  page_next_cursor : option string
}.

(** The cursor entry of the query of a request,
    [...(cursor ? { cursor } : {})]: none for [null] and for the empty
    string. *)
Definition get_query (cursor : option string) : option string :=
  match cursor with
  | Some c => if String.eqb c "" then None else Some c
  | None => None
  end.

(** The [do ... while] loop.  [script] are the outcomes of the requests in
    the order in which they are made, a rejected request being a [Throw];
    [sent] are the cursor entries of the requests made so far.  The result
    is [None] while the function is still waiting for a response. *)
Fixpoint getPaginatedResults_loop (script : list (Completion PageResponse))
    (results : list Item) (cursor : option string) (sent : list (option string))
  : option (Completion (list Item)) * list (option string) :=
  match script with
  | [] => (None, sent ++ [get_query cursor])
  | Throw e :: _ => (Some (Throw e), sent ++ [get_query cursor])
  | Normal response :: script' =>
      match page_results response with
      | None => (Some (Normal []), sent ++ [get_query cursor])
      | Some page =>
          match page_next_cursor response with
          | Some c =>
              getPaginatedResults_loop script' (results ++ page) (Some c)
                                       (sent ++ [get_query cursor])
          | None => (Some (Normal (results ++ page)), sent ++ [get_query cursor])
          end
      end
  end.

Definition getPaginatedResults (script : list (Completion PageResponse))
  : option (Completion (list Item)) * list (option string) :=
  getPaginatedResults_loop script [] None [].

(** [getProjects].  [_projects] is [None] for [null], [Some None] for a
    promise that is pending and [Some (Some r)] for one that is settled;
    [client_timers] are the pending timers with their deadlines; [fetches]
    counts the calls of [getPaginatedResults]; [waiting] are the callers
    awaiting the pending promise and [answers] what callers got, oldest
    first. *)
Record Client := mkClient {
  _projects : option (option (Completion (list Item)));
  _timeout : option nat;
  client_timers : list (nat * nat);
  client_nextHandle : nat;
  client_now : nat;
  fetches : nat;
  waiting : list nat;
  answers : list (nat * Completion (list Item))
}.

Definition projectsCacheMs : nat := 60 * 1000.

Definition newClient : Client := mkClient None None [] 0 0 0 [] [].

(** A call of [getProjects] by [caller], up to its first [await] on a
    pending promise. *)
Definition getProjects (caller : nat) (c : Client) : Client :=
  match _projects c with
  | Some (Some r) =>
      mkClient (_projects c) (_timeout c) (client_timers c) (client_nextHandle c)
               (client_now c) (fetches c) (waiting c) (answers c ++ [(caller, r)])
  | Some None =>
      mkClient (_projects c) (_timeout c) (client_timers c) (client_nextHandle c)
               (client_now c) (fetches c) (waiting c ++ [caller]) (answers c)
  | None =>
      mkClient (Some None) (_timeout c) (client_timers c) (client_nextHandle c)
               (client_now c) (S (fetches c)) (waiting c ++ [caller]) (answers c)
  end.

Definition client_clearTimeout (h : option nat) (timers : list (nat * nat))
  : list (nat * nat) :=
  match h with
  | Some h => filter (fun t => negb (Nat.eqb (fst t) h)) timers
  | None => timers
  end.

(** The order in which the callers awaiting the promise are answered.
    The first of them started the fetch.  A rejection is thrown from each
    [await] in the order of the calls.  On fulfilment the call that started
    the fetch goes on first, but it returns [this._projects], a promise,
    which its own promise adopts some microtasks later: by then every
    [return await this._projects] of the other callers has returned. *)
Definition answer_order (outcome : Completion (list Item)) (waiting : list nat) : list nat :=
  match outcome, waiting with
  | Normal _, initiator :: others => others ++ [initiator]
  | _, _ => waiting
  end.

(** The pending promise settles.  Every caller awaiting it gets the
    outcome; when it is fulfilled, the call that started the fetch goes on
    and replaces the timer that clears the cache. *)
Definition settle (outcome : Completion (list Item)) (c : Client) : Client :=
  match _projects c with
  | Some None =>
      let answers' :=
        answers c ++ map (fun w => (w, outcome)) (answer_order outcome (waiting c)) in
      match outcome with
      | Normal _ =>
          let h := client_nextHandle c in
          mkClient (Some (Some outcome)) (Some h)
                   (client_clearTimeout (_timeout c) (client_timers c)
                      ++ [(h, client_now c + projectsCacheMs)])
                   (S h) (client_now c) (fetches c) [] answers'
      | Throw _ =>
          mkClient (Some (Some outcome)) (_timeout c) (client_timers c)
                   (client_nextHandle c) (client_now c) (fetches c) [] answers'
      end
  | _ => c
  end.

(** A millisecond passes; a timer that is due sets [_projects] to [null]. *)
Definition client_millisecond (c : Client) : Client :=
  let now := S (client_now c) in
  let due := filter (fun t => Nat.leb (snd t) now) (client_timers c) in
  let later := filter (fun t => negb (Nat.leb (snd t) now)) (client_timers c) in
  mkClient (match due with [] => _projects c | _ :: _ => None end)
           (_timeout c) later (client_nextHandle c) now (fetches c) (waiting c) (answers c).

Inductive ClientEvent : Type :=
| GetProjects (caller : nat)
| Settled (outcome : Completion (list Item))
| ClientMillisecond.

Definition client_step (c : Client) (e : ClientEvent) : Client :=
  match e with
  | GetProjects caller => getProjects caller c
  | Settled outcome => settle outcome c
  | ClientMillisecond => client_millisecond c
  end.

Definition client_run (events : list ClientEvent) (c : Client) : Client :=
  fold_left client_step events c.

Definition callers (events : list ClientEvent) : list nat :=
  flat_map (fun e => match e with GetProjects caller => [caller] | _ => [] end) events.

Definition client_milliseconds (events : list ClientEvent) : nat :=
  List.length (filter (fun e => match e with ClientMillisecond => true | _ => false end) events).

(** The timer that clears the cache is pending exactly while a fulfilled
    promise is cached. *)
Definition cache_ok (c : Client) : Prop :=
  match _projects c with
  | Some (Some (Normal _)) =>
      exists h deadline, client_timers c = [(h, deadline)] /\ client_now c < deadline
                         /\ deadline <= client_now c + projectsCacheMs
  | _ => client_timers c = []
  end.

End TodoistClient.

(** A client with a fetch in flight, the same after the fetch was
    fulfilled, and a client whose fetch failed. *)
Definition exClientPending : Client nat :=
  client_run [GetProjects nat 1] (newClient nat).

Definition exClientCached : Client nat := settle (Normal [7]) exClientPending.

Definition exClientFailed : Client nat :=
  client_run [GetProjects nat 1; Settled (Throw "Unauthorized")] (newClient nat).

(* ------------------------------------------------------------------ *)
(** ** UserDriver: the realtime event name and the due date *)

(** [`${body.user_id}:${body.event_data.project_id}`] of [onWebhookEvent],
    and [`${this.settings.project.userId}:${this.settings.project.id}`] of
    the widget's [onHomeyReady]; the ids are taken as the strings the
    template literal makes of them. *)
Definition homeyEventName (user_id project_id : string) : string :=
  (user_id ++ ":" ++ project_id)%string.

(** The widget configured for [userId] and [projectId] listens to its own
    event name: it gets the webhook body exactly when the name made of the
    body is that name. *)
Definition widget_receives (userId projectId body_user_id body_project_id : string) : bool :=
  String.eqb (homeyEventName body_user_id body_project_id) (homeyEventName userId projectId).

Definition is_char (n : nat) (c : Ascii.ascii) : bool := Nat.eqb (Ascii.nat_of_ascii c) n.

(** Code 58 is the colon, code 45 the hyphen. *)
Fixpoint free_of (n : nat) (s : string) : bool :=
  match s with
  | EmptyString => true
  | String c s' => negb (is_char n c) && free_of n s'
  end.

(** [s.split('-')]: the pieces between the hyphens, one more than there
    are hyphens. *)
Fixpoint split_hyphen (s : string) : list string :=
  match s with
  | EmptyString => [EmptyString]
  | String c s' =>
      if is_char 45 c then EmptyString :: split_hyphen s'
      else match split_hyphen s' with
           | piece :: pieces => String c piece :: pieces
           | [] => [String c EmptyString]
           end
  end.

(** [parts.join('-')] *)
Fixpoint join_hyphen (parts : list string) : string :=
  match parts with
  | [] => EmptyString
  | [part] => part
  | part :: parts' => (part ++ "-" ++ join_hyphen parts')%string
  end.

(** [args.due_date.split('-').reverse().join('-')] of the due date action. *)
Definition due_date (args_due_date : string) : string :=
  join_hyphen (rev (split_hyphen args_due_date)).

(** [args.due_date.split('-').reverse()] of the due date and time action. *)
Definition due_date_parts (args_due_date : string) : list string :=
  rev (split_hyphen args_due_date).

(* ================================================================== *)
(** * Properties *)

(* ------------------------------------------------------------------ *)
(** ** Map lemmas *)

Section JsMapFacts.
Variable V : Type.
Implicit Types (m : JsMap.t V) (k : string) (v : V).

Lemma get_set_same m k v : JsMap.get (JsMap.set m k v) k = Some v.
Proof.
  induction m as [|[k' v'] m IH]; simpl.
  - now rewrite String.eqb_refl.
  - destruct (String.eqb k k') eqn:E; simpl.
    + now rewrite String.eqb_refl.
    + now rewrite E.
Qed.

Lemma get_set_other m k k' v :
  k <> k' -> JsMap.get (JsMap.set m k v) k' = JsMap.get m k'.
Proof.
  intros Hne. induction m as [|[k0 v0] m IH]; simpl.
  - destruct (String.eqb_spec k' k); congruence.
  - destruct (String.eqb_spec k k0) as [->|Hk]; simpl.
    + destruct (String.eqb_spec k' k0); congruence.
    + destruct (String.eqb_spec k' k0); congruence.
Qed.

Lemma set_absent m k v :
  JsMap.get m k = None -> JsMap.set m k v = m ++ [(k, v)].
Proof.
  induction m as [|[k' v'] m IH]; simpl; intros H; [reflexivity|].
  destruct (String.eqb k k'); [discriminate|]. now rewrite IH.
Qed.

Lemma keys_set_present m k v :
  JsMap.get m k <> None -> JsMap.keys (JsMap.set m k v) = JsMap.keys m.
Proof.
  induction m as [|[k' v'] m IH]; simpl; intros H; [congruence|].
  destruct (String.eqb_spec k k') as [->|Hk]; simpl; [reflexivity|].
  now rewrite IH.
Qed.

Lemma get_In m k v : JsMap.get m k = Some v -> In (k, v) m.
Proof.
  induction m as [|[k' v'] m IH]; simpl; [discriminate|].
  destruct (String.eqb_spec k k') as [->|Hk]; intros H.
  - left. congruence.
  - right. auto.
Qed.

Lemma get_None_keys m k : JsMap.get m k = None <-> ~ In k (JsMap.keys m).
Proof.
  induction m as [|[k' v'] m IH]; simpl; [tauto|].
  destruct (String.eqb_spec k k') as [->|Hk].
  - split; [discriminate|]. intros H. exfalso. apply H. now left.
  - rewrite IH. split; [intros H [E|I]; [congruence|tauto] | tauto].
Qed.

Lemma has_keys m k : JsMap.has m k = true <-> In k (JsMap.keys m).
Proof.
  unfold JsMap.has. destruct (JsMap.get m k) eqn:E.
  - split; [intros _|reflexivity].
    apply get_In in E. change k with (fst (k, v)). now apply in_map.
  - split; [discriminate|]. intros H. now apply get_None_keys in E.
Qed.

Lemma has_false_get m k : JsMap.has m k = false <-> JsMap.get m k = None.
Proof. unfold JsMap.has. destruct (JsMap.get m k); split; congruence. Qed.

Lemma In_get m k v :
  NoDup (JsMap.keys m) -> In (k, v) m -> JsMap.get m k = Some v.
Proof.
  induction m as [|[k' v'] m IH]; simpl; intros ND HI; [tauto|].
  inversion ND as [|? ? Hn ND']; subst.
  destruct HI as [E|HI].
  - inversion E; subst. now rewrite String.eqb_refl.
  - destruct (String.eqb_spec k k') as [->|Hk]; [|auto].
    exfalso. apply Hn. change k' with (fst (k', v)). now apply in_map.
Qed.

Lemma delete_In m k e : In e (JsMap.delete m k) <-> In e m /\ fst e <> k.
Proof.
  unfold JsMap.delete. rewrite filter_In.
  destruct (String.eqb_spec k (fst e)); simpl; intuition congruence.
Qed.

Lemma keys_delete m k :
  JsMap.keys (JsMap.delete m k) = filter (fun x => negb (String.eqb k x)) (JsMap.keys m).
Proof.
  induction m as [|[k' v'] m IH]; simpl; [reflexivity|].
  destruct (String.eqb k k'); simpl; now rewrite IH.
Qed.

Lemma get_delete_same m k : JsMap.get (JsMap.delete m k) k = None.
Proof.
  apply get_None_keys. rewrite keys_delete, filter_In.
  rewrite String.eqb_refl. simpl. intros [_ H]. discriminate.
Qed.

Lemma get_delete_other m k k' :
  k <> k' -> JsMap.get (JsMap.delete m k) k' = JsMap.get m k'.
Proof.
  intros Hne. induction m as [|[k0 v0] m IH]; simpl; [reflexivity|].
  destruct (String.eqb_spec k k0) as [->|Hk]; simpl.
  - destruct (String.eqb_spec k' k0); congruence.
  - now rewrite IH.
Qed.

Lemma NoDup_keys_set m k v : NoDup (JsMap.keys m) -> NoDup (JsMap.keys (JsMap.set m k v)).
Proof.
  intros ND. destruct (JsMap.get m k) eqn:E.
  - rewrite keys_set_present; congruence.
  - rewrite set_absent by assumption. unfold JsMap.keys. rewrite map_app. simpl.
    apply NoDup_app; [assumption | repeat constructor; simpl; tauto |].
    intros x Hx [<-|[]]. now apply get_None_keys in E.
Qed.

Lemma NoDup_keys_delete m k : NoDup (JsMap.keys m) -> NoDup (JsMap.keys (JsMap.delete m k)).
Proof. intros ND. rewrite keys_delete. now apply NoDup_filter. Qed.

Lemma length_delete_present m k :
  In k (JsMap.keys m) -> (List.length (JsMap.delete m k) < List.length m)%nat.
Proof.
  induction m as [|[k' v'] m IH]; simpl; [tauto|].
  destruct (String.eqb_spec k k') as [->|Hk]; simpl; intros H.
  - pose proof (filter_length_le (fun e => negb (String.eqb k' (fst e))) m). 
    unfold JsMap.delete in *. lia.
  - destruct H as [E|H]; [congruence|]. apply IH in H. unfold JsMap.delete in *. lia.
Qed.
End JsMapFacts.

(* ------------------------------------------------------------------ *)
(** ** Errors of the store methods and staleness *)

Section StoreErrors.
Variable Date_parse : string -> option Z.

Lemma isStale_nan incoming current :
  Date_parse incoming = None \/ Date_parse current = None ->
  isStale Date_parse incoming current = false.
Proof.
  unfold isStale. intros [-> | ->]; [reflexivity|].
  now destruct (Date_parse incoming).
Qed.

Lemma isStale_times incoming current ti tc :
  Date_parse incoming = Some ti -> Date_parse current = Some tc ->
  isStale Date_parse incoming current = (ti <? tc)%Z.
Proof. unfold isStale. now intros -> ->. Qed.
End StoreErrors.

(** C8: addTask throws exactly when the task's id is already stored and
    inserts otherwise; updateTask and updateSection throw exactly when the
    id is not stored; addSection never throws and stores the section
    whatever was there; a call that throws leaves the store as it was. *)
Theorem store_methods_throw_iff_and_atomic :
  forall (Date_parse : string -> option Z) (st : TaskStore)
         (task : TodoistTask.t) (section : TodoistSectionInput) (k : string),
    (* addTask *)
    addTask task st =
      (if JsMap.has (tasks st) (TodoistTask.id task)
       then (Throw ("Task with ID " ++ TodoistTask.id task ++ " already exists.")%string, st)
       else (Normal tt, with_tasks st (tasks st ++ [(TodoistTask.id task, task)])))
    (* updateTask *)
    /\ is_throw (fst (updateTask Date_parse task st)) =
         negb (JsMap.has (tasks st) (TodoistTask.id task))
    /\ (if is_throw (fst (updateTask Date_parse task st))
        then updateTask Date_parse task st =
               (Throw ("Task with ID " ++ TodoistTask.id task ++ " does not exist.")%string, st)
        else fst (updateTask Date_parse task st) = Normal tt)
    (* updateSection *)
    /\ is_throw (fst (updateSection Date_parse section st)) =
         negb (JsMap.has (sections st) (SectionRecord.id section))
    /\ (if is_throw (fst (updateSection Date_parse section st))
        then updateSection Date_parse section st =
               (Throw ("Section with ID " ++ SectionRecord.id section
                       ++ " does not exist.")%string, st)
        else exists skipped, fst (updateSection Date_parse section st) = Normal skipped)
    (* addSection *)
    /\ fst (addSection section st) = Normal tt
    /\ JsMap.get (sections (snd (addSection section st))) k =
         (if String.eqb k (SectionRecord.id section) then Some section
          else JsMap.get (sections st) k)
    /\ tasks (snd (addSection section st)) = tasks st
    /\ project (snd (addSection section st)) = project st.
Proof.
  intros Date_parse st task section k.
  repeat split.
  - unfold addTask. destruct (JsMap.has (tasks st) (TodoistTask.id task)) eqn:H;
      [reflexivity|].
    rewrite set_absent; [reflexivity | now apply has_false_get].
  - unfold updateTask, JsMap.has.
    destruct (JsMap.get (tasks st) (TodoistTask.id task)); [|reflexivity].
    now destruct (isStale _ _ _).
  - unfold updateTask.
    destruct (JsMap.get (tasks st) (TodoistTask.id task)); [|reflexivity].
    now destruct (isStale _ _ _).
  - unfold updateSection, JsMap.has.
    destruct (JsMap.get (sections st) (SectionRecord.id section)); [|reflexivity].
    now destruct (isStale _ _ _).
  - unfold updateSection.
    destruct (JsMap.get (sections st) (SectionRecord.id section)); [|reflexivity].
    destruct (isStale _ _ _); simpl; eauto.
  - simpl. destruct (String.eqb_spec k (SectionRecord.id section)) as [->|Hk].
    + apply get_set_same.
    + apply get_set_other. congruence.
Qed.

(** C4: an update of a stored task or section whose [updated_at] parses
    to a time before the stored one changes nothing and completes
    normally; when the two times are equal the stored record is replaced
    by the incoming one. *)
Theorem stale_update_skipped_equal_applied :
  forall (Date_parse : string -> option Z) (st : TaskStore),
    (forall (task existing : TodoistTask.t) (ti te : Z),
        JsMap.get (tasks st) (TodoistTask.id task) = Some existing ->
        Date_parse (TodoistTask.updated_at task) = Some ti ->
        Date_parse (TodoistTask.updated_at existing) = Some te ->
        ((ti < te)%Z -> updateTask Date_parse task st = (Normal tt, st))
        /\ (ti = te ->
            updateTask Date_parse task st
            = (Normal tt, with_tasks st (JsMap.set (tasks st) (TodoistTask.id task) task))
            /\ JsMap.get (tasks (snd (updateTask Date_parse task st))) (TodoistTask.id task)
               = Some task))
    /\ (forall (section existing : TodoistSectionInput) (ti te : Z),
        JsMap.get (sections st) (SectionRecord.id section) = Some existing ->
        Date_parse (SectionRecord.updated_at section) = Some ti ->
        Date_parse (SectionRecord.updated_at existing) = Some te ->
        ((ti < te)%Z -> updateSection Date_parse section st = (Normal true, st))
        /\ (ti = te ->
            updateSection Date_parse section st
            = (Normal false,
               with_sections st (JsMap.set (sections st) (SectionRecord.id section) section))
            /\ JsMap.get (sections (snd (updateSection Date_parse section st)))
                         (SectionRecord.id section)
               = Some section)).
Proof.
  intros Date_parse st. split.
  - intros task existing ti te Hg Hti Hte.
    unfold updateTask. rewrite Hg, (isStale_times _ _ _ Hti Hte). split.
    + intros H. apply Z.ltb_lt in H. now rewrite H.
    + intros ->. rewrite Z.ltb_irrefl. split; [reflexivity|]. simpl. apply get_set_same.
  - intros section existing ti te Hg Hti Hte.
    unfold updateSection. rewrite Hg, (isStale_times _ _ _ Hti Hte). split.
    + intros H. apply Z.ltb_lt in H. now rewrite H.
    + intros ->. rewrite Z.ltb_irrefl. split; [reflexivity|]. simpl. apply get_set_same.
Qed.

Lemma stale_update_skipped_equal_applied_witness :
  (updateTask exampleParse (exTask "a" None None 7 "100") exStoreA = (Normal tt, exStoreA)
   /\ JsMap.get (tasks (snd (updateTask exampleParse (exTask "a" None None 7 "200") exStoreA))) "a"
      = Some (exTask "a" None None 7 "200"))
  /\ (updateSection exampleParse (exSection "s1" 5 "199") exStoreA = (Normal true, exStoreA)
      /\ JsMap.get (sections (snd (updateSection exampleParse (exSection "s1" 5 "200") exStoreA)))
                   "s1"
         = Some (exSection "s1" 5 "200")).
Proof.
  pose proof (stale_update_skipped_equal_applied exampleParse exStoreA) as [HT HS].
  split; split.
  - apply (proj1 (HT (exTask "a" None None 7 "100") (exTask "a" None (Some "s1") 1 "200")
                     100%Z 200%Z eq_refl eq_refl eq_refl)).
    reflexivity.
  - apply (proj2 (HT (exTask "a" None None 7 "200") (exTask "a" None (Some "s1") 1 "200")
                     200%Z 200%Z eq_refl eq_refl eq_refl)).
    reflexivity.
  - apply (proj1 (HS (exSection "s1" 5 "199") (exSection "s1" 0 "200")
                     199%Z 200%Z eq_refl eq_refl eq_refl)).
    reflexivity.
  - apply (proj2 (HS (exSection "s1" 5 "200") (exSection "s1" 0 "200")
                     200%Z 200%Z eq_refl eq_refl eq_refl)).
    reflexivity.
Defined.

(** C10: when the incoming or the stored [updated_at] of an existing task
    or section does not parse ([Date.parse] gives [NaN]), the update is
    not treated as stale: it is applied and replaces the stored record. *)
Theorem unparseable_timestamp_update_applied :
  forall (Date_parse : string -> option Z) (st : TaskStore),
    (forall (task existing : TodoistTask.t),
        JsMap.get (tasks st) (TodoistTask.id task) = Some existing ->
        Date_parse (TodoistTask.updated_at task) = None
        \/ Date_parse (TodoistTask.updated_at existing) = None ->
        isStale Date_parse (TodoistTask.updated_at task) (TodoistTask.updated_at existing) = false
        /\ updateTask Date_parse task st
           = (Normal tt, with_tasks st (JsMap.set (tasks st) (TodoistTask.id task) task))
        /\ JsMap.get (tasks (snd (updateTask Date_parse task st))) (TodoistTask.id task)
           = Some task)
    /\ (forall (section existing : TodoistSectionInput),
        JsMap.get (sections st) (SectionRecord.id section) = Some existing ->
        Date_parse (SectionRecord.updated_at section) = None
        \/ Date_parse (SectionRecord.updated_at existing) = None ->
        isStale Date_parse (SectionRecord.updated_at section) (SectionRecord.updated_at existing)
        = false
        /\ updateSection Date_parse section st
           = (Normal false,
              with_sections st (JsMap.set (sections st) (SectionRecord.id section) section))
        /\ JsMap.get (sections (snd (updateSection Date_parse section st)))
                     (SectionRecord.id section)
           = Some section).
Proof.
  intros Date_parse st. split.
  - intros task existing Hg Hnan.
    pose proof (isStale_nan Date_parse _ _ Hnan) as Hs.
    unfold updateTask. rewrite Hg, Hs. repeat split. simpl. apply get_set_same.
  - intros section existing Hg Hnan.
    pose proof (isStale_nan Date_parse _ _ Hnan) as Hs.
    unfold updateSection. rewrite Hg, Hs. repeat split. simpl. apply get_set_same.
Qed.

Lemma unparseable_timestamp_update_applied_witness :
  (* stored timestamp of "b" is "x"; incoming one is earlier than nothing *)
  JsMap.get (tasks (snd (updateTask exampleParse
                           (exTask "b" (Some "a") None 3 "1") exStoreA))) "b"
  = Some (exTask "b" (Some "a") None 3 "1")
  /\ JsMap.get (sections (snd (updateSection exampleParse
                                 (exSection "s1" 9 "yesterday") exStoreA))) "s1"
     = Some (exSection "s1" 9 "yesterday").
Proof.
  pose proof (unparseable_timestamp_update_applied exampleParse exStoreA) as [HT HS].
  split.
  - apply (HT (exTask "b" (Some "a") None 3 "1") (exTask "b" (Some "a") (Some "s1") 1 "x")
              eq_refl (or_intror eq_refl)).
  - apply (HS (exSection "s1" 9 "yesterday") (exSection "s1" 0 "200")
              eq_refl (or_introl eq_refl)).
Defined.

(* ------------------------------------------------------------------ *)
(** ** Sorting *)

Section JsSortFacts.
Variable A : Type.
Variable cmp : A -> A -> Z.

Lemma sort_insert_perm x l : Permutation (sort_insert cmp x l) (x :: l).
Proof.
  induction l as [|y l IH]; simpl; [reflexivity|].
  destruct (cmp x y <=? 0)%Z; [reflexivity|].
  rewrite IH. apply perm_swap.
Qed.

Lemma js_sort_perm l : Permutation (js_sort cmp l) l.
Proof.
  induction l as [|x l IH]; simpl; [reflexivity|].
  rewrite sort_insert_perm. now constructor.
Qed.

Lemma js_sort_In l x : In x (js_sort cmp l) <-> In x l.
Proof.
  split; apply Permutation_in; [apply js_sort_perm | symmetry; apply js_sort_perm].
Qed.

Lemma js_sort_length l : List.length (js_sort cmp l) = List.length l.
Proof. apply Permutation_length, js_sort_perm. Qed.

Hypothesis cmp_total : forall x y, (0 < cmp x y)%Z -> (cmp y x <= 0)%Z.
Hypothesis cmp_trans :
  forall x y z, (cmp x y <= 0)%Z -> (cmp y z <= 0)%Z -> (cmp x z <= 0)%Z.

Lemma sort_insert_sorted x l :
  StronglySorted (cmp_le cmp) l -> StronglySorted (cmp_le cmp) (sort_insert cmp x l).
Proof.
  induction 1 as [|y l Hs IH Hall]; simpl.
  - repeat constructor.
  - destruct (Z.leb_spec (cmp x y) 0) as [Hle|Hgt].
    + constructor; [now constructor|].
      constructor; [exact Hle|].
      rewrite Forall_forall in *. intros z Hz. eapply cmp_trans; eauto. now apply Hall.
    + constructor; [exact IH|].
      rewrite Forall_forall in *. intros z Hz.
      apply (Permutation_in _ (sort_insert_perm x l)) in Hz.
      destruct Hz as [<-|Hz]; [now apply cmp_total | now apply Hall].
Qed.

Lemma js_sort_sorted l : StronglySorted (cmp_le cmp) (js_sort cmp l).
Proof.
  induction l as [|x l IH]; simpl; [constructor | now apply sort_insert_sorted].
Qed.
End JsSortFacts.

(* ------------------------------------------------------------------ *)
(** ** Well-formed task maps *)

Lemma wf_tasks_delete m k : wf_tasks m -> wf_tasks (JsMap.delete m k).
Proof.
  intros [ND HF]. split.
  - now apply NoDup_keys_delete.
  - unfold JsMap.delete. rewrite Forall_forall in *. intros e He.
    apply filter_In in He. now apply HF.
Qed.

Lemma wf_tasks_set m (t : TodoistTask.t) :
  wf_tasks m -> wf_tasks (JsMap.set m (TodoistTask.id t) t).
Proof.
  intros [ND HF]. split; [now apply NoDup_keys_set|].
  clear ND. induction m as [|[k v] m IH]; simpl.
  - repeat constructor.
  - inversion HF; subst. destruct (String.eqb (TodoistTask.id t) k).
    + constructor; [reflexivity | assumption].
    + constructor; [assumption | now apply IH].
Qed.

Lemma wf_get_id m x t : wf_tasks m -> JsMap.get m x = Some t -> TodoistTask.id t = x.
Proof.
  intros [_ HF] Hg. apply get_In in Hg. rewrite Forall_forall in HF.
  now apply HF in Hg.
Qed.

Lemma wf_values_In m t :
  wf_tasks m -> In t (JsMap.values m) -> In (TodoistTask.id t, t) m.
Proof.
  intros [_ HF] Hin. unfold JsMap.values in Hin. apply in_map_iff in Hin.
  destruct Hin as [[k v] [Hv He]]. simpl in Hv. subst v.
  rewrite Forall_forall in HF. specialize (HF _ He). simpl in HF. now rewrite HF.
Qed.

Lemma wf_values_get m t :
  wf_tasks m -> In t (JsMap.values m) -> JsMap.get m (TodoistTask.id t) = Some t.
Proof.
  intros Hwf Hin. apply In_get; [apply Hwf | now apply wf_values_In].
Qed.

Lemma get_values (V : Type) (m : JsMap.t V) k v : JsMap.get m k = Some v -> In v (JsMap.values m).
Proof.
  intros H. apply get_In in H. unfold JsMap.values.
  change v with (snd (k, v)). now apply in_map.
Qed.

Lemma keys_In_get (V : Type) (m : JsMap.t V) k :
  In k (JsMap.keys m) -> exists v, JsMap.get m k = Some v.
Proof.
  intros H. destruct (JsMap.get m k) eqn:E; [eauto|].
  now apply get_None_keys in E.
Qed.

Lemma get_keys (V : Type) (m : JsMap.t V) k v : JsMap.get m k = Some v -> In k (JsMap.keys m).
Proof.
  intros H. apply get_In in H. unfold JsMap.keys.
  change k with (fst (k, v)). now apply in_map.
Qed.

Lemma NoDup_map_filter (A B : Type) (keep : A -> bool) (key : A -> B) (xs : list A) :
  NoDup (map key xs) -> NoDup (map key (filter keep xs)).
Proof.
  induction xs as [|a xs IH]; simpl; intros ND; [constructor|].
  inversion ND as [|? ? Hn ND']; subst.
  destruct (keep a); simpl; [|auto].
  constructor; [|auto].
  intros Hin. apply Hn. apply in_map_iff in Hin. destruct Hin as [b [Hb Hin]].
  apply filter_In in Hin. rewrite <- Hb. apply in_map. tauto.
Qed.

Lemma wf_ids_keys m : wf_tasks m -> map TodoistTask.id (JsMap.values m) = JsMap.keys m.
Proof.
  intros [_ HF]. unfold JsMap.values, JsMap.keys. rewrite map_map.
  apply map_ext_in. intros e He. rewrite Forall_forall in HF. now apply HF.
Qed.

(* ------------------------------------------------------------------ *)
(** ** The cascade of removeTask *)

Lemma Descends_in_keys m Q x : Descends m Q x -> In x (JsMap.keys m).
Proof. destruct 1; [assumption | eapply get_keys; eauto]. Qed.

Lemma Descends_nil m x : ~ Descends m [] x.
Proof. induction 1; auto. Qed.

Lemma pushed_ids_In m' current x :
  wf_tasks m' ->
  In x (pushed_ids m' current) <->
  exists t, JsMap.get m' x = Some t /\ TodoistTask.parent_id t = Some current.
Proof.
  intros Hwf. unfold pushed_ids. rewrite in_map_iff. split.
  - intros [t [Hid Hin]]. apply filter_In in Hin. destruct Hin as [Hin Hp].
    exists t. split.
    + rewrite <- Hid. now apply wf_values_get.
    + unfold strict_eq in Hp. destruct (TodoistTask.parent_id t) as [p|]; [|discriminate].
      apply String.eqb_eq in Hp. now subst.
  - intros [t [Hg Hp]]. exists t. split; [eapply wf_get_id; eauto|].
    apply filter_In. split; [eapply get_values; eauto|].
    unfold strict_eq. rewrite Hp. apply String.eqb_refl.
Qed.

Lemma Descends_step m current rest x :
  wf_tasks m -> In current (JsMap.keys m) ->
  Descends m (current :: rest) x <->
  x = current
  \/ Descends (JsMap.delete m current) (rest ++ pushed_ids (JsMap.delete m current) current) x.
Proof.
  intros Hwf Hcur.
  assert (Hwf' : wf_tasks (JsMap.delete m current)) by now apply wf_tasks_delete.
  split.
  - induction 1 as [x HQ Hk | x t p Hg Hp HD IH].
    + destruct (String.eqb_spec x current) as [->|Hne]; [now left|right].
      destruct HQ as [E|HQ]; [congruence|].
      apply Descends_start; [apply in_or_app; now left|].
      rewrite keys_delete. apply filter_In. split; [assumption|].
      destruct (String.eqb_spec current x); simpl; congruence.
    + destruct (String.eqb_spec x current) as [->|Hne]; [now left|right].
      assert (Hg' : JsMap.get (JsMap.delete m current) x = Some t)
        by (rewrite get_delete_other; congruence).
      destruct IH as [->|IH].
      * apply Descends_start; [|eapply get_keys; eauto].
        apply in_or_app. right. apply pushed_ids_In; eauto.
      * eapply Descends_child; eauto.
  - intros [->|HD]; [apply Descends_start; simpl; auto|].
    induction HD as [x HQ Hk | x t p Hg Hp HD IH].
    + assert (Hx : In x (JsMap.keys m)).
      { rewrite keys_delete in Hk. now apply filter_In in Hk. }
      apply in_app_or in HQ. destruct HQ as [HQ|HQ].
      * apply Descends_start; simpl; auto.
      * apply pushed_ids_In in HQ; [|assumption]. destruct HQ as [t [Hg Hp]].
        assert (x <> current).
        { intros ->. rewrite get_delete_same in Hg. discriminate. }
        rewrite get_delete_other in Hg by congruence.
        eapply Descends_child; eauto. apply Descends_start; simpl; auto.
    + assert (x <> current).
      { intros ->. rewrite get_delete_same in Hg. discriminate. }
      rewrite get_delete_other in Hg by congruence.
      eapply Descends_child; eauto.
Qed.

Lemma filter_all_true (A : Type) (l : list A) : filter (fun _ => true) l = l.
Proof. induction l; simpl; congruence. Qed.

Lemma In_tl (A : Type) (x : A) (l : list A) : In x (tl l) -> In x l.
Proof. destruct l; simpl; auto. Qed.

Lemma queue_ok_step m current rest :
  wf_tasks m -> queue_ok m (current :: rest) ->
  queue_ok (JsMap.delete m current) (rest ++ pushed_ids (JsMap.delete m current) current).
Proof.
  intros Hwf (ND & HK & HP). simpl in HP.
  assert (Hwf' : wf_tasks (JsMap.delete m current)) by now apply wf_tasks_delete.
  inversion ND as [|? ? Hnotin ND']; subst.
  assert (Hcur : In current (JsMap.keys m)) by (apply HK; simpl; auto).
  split; [|split].
  - apply NoDup_app.
    + assumption.
    + unfold pushed_ids. apply NoDup_map_filter. rewrite wf_ids_keys by assumption.
      apply Hwf'.
    + intros x Hx Hp. apply pushed_ids_In in Hp; [|assumption].
      destruct Hp as [t [Hg Hp]].
      assert (x <> current) by (intros ->; contradiction).
      rewrite get_delete_other in Hg by congruence.
      now apply (HP x Hx _ _ Hg Hp).
  - intros x Hx. apply in_app_or in Hx. destruct Hx as [Hx|Hx].
    + assert (Hne : x <> current) by (intros ->; contradiction).
      rewrite keys_delete. apply filter_In. split; [apply HK; simpl; auto|].
      destruct (String.eqb_spec current x); simpl; congruence.
    + apply pushed_ids_In in Hx; [|assumption]. destruct Hx as [t [Hg Hp]].
      eapply get_keys; eauto.
  - intros x Hx. apply In_tl in Hx. apply in_app_or in Hx. destruct Hx as [Hx|Hx].
    + assert (Hne : x <> current) by (intros ->; contradiction).
      intros t p Hg Hp Hin. rewrite get_delete_other in Hg by congruence.
      apply (HP x Hx _ _ Hg Hp). rewrite keys_delete in Hin. now apply filter_In in Hin.
    + apply pushed_ids_In in Hx; [|assumption]. destruct Hx as [t [Hg Hp]].
      intros t' p Hg' Hp' Hin. rewrite Hg in Hg'. inversion Hg'; subst t'.
      rewrite Hp in Hp'. inversion Hp'; subst p.
      rewrite keys_delete in Hin. apply filter_In in Hin.
      rewrite String.eqb_refl in Hin. destruct Hin; discriminate.
Qed.

(** With as much fuel as there are stored tasks the loop empties its
    queue, and what it leaves are the tasks that do not descend from the
    queue, in their order. *)
Lemma removeLoop_spec fuel :
  forall Q m,
    wf_tasks m -> queue_ok m Q -> (List.length m <= fuel)%nat ->
    exists m',
      removeLoop fuel Q m = Some m'
      /\ (exists f, m' = filter f m)
      /\ forall e, In e m' <-> In e m /\ ~ Descends m Q (fst e).
Proof.
  induction fuel as [|fuel IH]; intros Q m Hwf Hq Hlen.
  - destruct Q as [|current rest].
    + exists m. simpl. split; [reflexivity|]. split.
      * exists (fun _ => true). symmetry. apply filter_all_true.
      * intros e. split; [intros H; split; [assumption | apply Descends_nil] | tauto].
    + exfalso. destruct Hq as (_ & HK & _).
      assert (In current (JsMap.keys m)) by (apply HK; simpl; auto).
      destruct m; simpl in *; [tauto | lia].
  - destruct Q as [|current rest].
    + exists m. simpl. split; [reflexivity|]. split.
      * exists (fun _ => true). symmetry. apply filter_all_true.
      * intros e. split; [intros H; split; [assumption | apply Descends_nil] | tauto].
    + assert (Hcur : In current (JsMap.keys m)) by (apply Hq; simpl; auto).
      pose proof (length_delete_present m current Hcur) as Hlt.
      destruct (IH (rest ++ pushed_ids (JsMap.delete m current) current)
                   (JsMap.delete m current))
        as (m' & Hrun & (f & Hf) & Hin).
      * now apply wf_tasks_delete.
      * now apply queue_ok_step.
      * lia.
      * exists m'. split; [exact Hrun|]. split.
        -- exists (fun e => negb (String.eqb current (fst e)) && f e)%bool.
           rewrite Hf. unfold JsMap.delete.
           clear. induction m as [|e m IHm]; simpl; [reflexivity|].
           destruct (negb (String.eqb current (fst e))); simpl;
             [destruct (f e)|]; now rewrite IHm.
        -- intros e. rewrite Hin, delete_In, (@Descends_step m current rest (fst e) Hwf Hcur).
           tauto.
Qed.

(* ------------------------------------------------------------------ *)
(** ** What a snapshot shows is stored *)

Lemma wf_tasks_filter m f : wf_tasks m -> wf_tasks (filter f m).
Proof.
  intros [ND HF]. split.
  - unfold JsMap.keys. now apply NoDup_map_filter.
  - rewrite Forall_forall in *. intros e He. apply filter_In in He. now apply HF.
Qed.

Lemma fold_set_wf m2 : forall m1,
  wf_tasks (m1 ++ m2) ->
  fold_left (fun m task => JsMap.set m (TodoistTask.id task) task) (JsMap.values m2) m1
  = m1 ++ m2.
Proof.
  induction m2 as [|[k t] m2 IH]; intros m1 Hwf; simpl.
  - now rewrite app_nil_r.
  - assert (Hid : TodoistTask.id t = k).
    { destruct Hwf as [_ HF]. rewrite Forall_forall in HF.
      apply (HF (k, t)). apply in_or_app. right. now left. }
    assert (Hnone : JsMap.get m1 k = None).
    { apply get_None_keys. destruct Hwf as [ND _]. unfold JsMap.keys in *.
      rewrite map_app in ND. simpl in ND. apply NoDup_remove_2 in ND.
      intros Hin. apply ND. apply in_or_app. now left. }
    rewrite Hid, set_absent by assumption.
    change (m1 ++ (k, t) :: m2) with (m1 ++ [(k, t)] ++ m2).
    rewrite app_assoc. apply IH. now rewrite <- app_assoc.
Qed.

Lemma snapshot_nodes_wf st : wf_tasks (tasks st) -> snapshot_nodes st = tasks st.
Proof. intros Hwf. unfold snapshot_nodes. now rewrite (fold_set_wf (tasks st) JsMap.empty). Qed.

Section SnapshotIds.
Variable localeCompare : string -> string -> Z.

Lemma buildNode_task fuel nodes d k t :
  node_task (buildNode localeCompare fuel nodes d k t) = t.
Proof. now destruct fuel. Qed.

Lemma buildNode_ids nodes fuel :
  forall d k t x,
    In x (node_ids (buildNode localeCompare fuel nodes d k t)) ->
    x = TodoistTask.id t \/ exists e, In e nodes /\ x = TodoistTask.id (snd e).
Proof.
  induction fuel as [|fuel IH]; intros d k t x; simpl.
  - intros [<-|[]]. now left.
  - intros [<-|Hin]; [now left|right].
    apply in_flat_map in Hin. destruct Hin as [c [Hc Hx]].
    apply js_sort_In in Hc. apply in_map_iff in Hc. destruct Hc as [e [<- He]].
    unfold linked_children in He. apply filter_In in He. destruct He as [He _].
    apply IH in Hx. destruct Hx as [->|Hx]; [eauto | exact Hx].
Qed.

Lemma snapshot_roots_ids st x :
  wf_tasks (tasks st) ->
  In x (flat_map node_ids (snapshot_roots localeCompare st)) ->
  In x (JsMap.keys (tasks st)).
Proof.
  intros Hwf Hin. unfold snapshot_roots in Hin. rewrite snapshot_nodes_wf in Hin by assumption.
  assert (Hk : forall e, In e (tasks st) -> In (TodoistTask.id (snd e)) (JsMap.keys (tasks st))).
  { intros e He. destruct Hwf as [_ HF]. rewrite Forall_forall in HF.
    rewrite (HF _ He). unfold JsMap.keys. now apply in_map. }
  apply in_flat_map in Hin. destruct Hin as [n [Hn Hx]].
  apply in_map_iff in Hn. destruct Hn as [e [<- He]].
  unfold root_entries in He. apply filter_In in He. destruct He as [He _].
  apply buildNode_ids in Hx. destruct Hx as [->|[e' [He' ->]]]; auto.
Qed.

Lemma flat_map_incl_In (A B : Type) (f : A -> list B) (l l' : list A) x :
  (forall a, In a l -> In a l') -> In x (flat_map f l) -> In x (flat_map f l').
Proof.
  intros Hsub Hin. apply in_flat_map in Hin. destruct Hin as [a [Ha Hx]].
  apply in_flat_map. eauto.
Qed.

Lemma snapshot_ids_stored st x :
  wf_tasks (tasks st) ->
  In x (snapshot_ids (snapshot localeCompare st)) -> In x (JsMap.keys (tasks st)).
Proof.
  intros Hwf Hin. apply snapshot_roots_ids; [assumption|].
  unfold snapshot_ids, snapshot in Hin. simpl in Hin.
  apply in_app_or in Hin. destruct Hin as [Hin|Hin].
  - revert Hin. apply flat_map_incl_In. intros n Hn.
    apply js_sort_In in Hn. now apply filter_In in Hn.
  - apply in_flat_map in Hin. destruct Hin as [sec [Hsec Hin]].
    apply in_map_iff in Hsec. destruct Hsec as [s [<- _]]. simpl in Hin.
    revert Hin. apply flat_map_incl_In. intros n Hn.
    apply js_sort_In in Hn. unfold sectionTasks in Hn. now apply filter_In in Hn.
Qed.
End SnapshotIds.

(** The loop of removeTask returns: as many iterations as there are
    stored tasks empty its queue. *)
Lemma removeTask_loop_returns st taskId :
  wf_tasks (tasks st) -> JsMap.has (tasks st) taskId = true ->
  exists m',
    removeLoop (List.length (tasks st)) [taskId] (tasks st) = Some m'
    /\ removeTask taskId st = with_tasks st m'
    /\ (exists f, m' = filter f (tasks st))
    /\ forall e, In e m' <-> In e (tasks st) /\ ~ Descends (tasks st) [taskId] (fst e).
Proof.
  intros Hwf Hhas.
  destruct (@removeLoop_spec (List.length (tasks st)) [taskId] (tasks st)) as (m' & Hrun & Hf & Hin).
  - assumption.
  - split; [|split].
    + repeat constructor. simpl. tauto.
    + intros x [<-|[]]. now apply has_keys.
    + simpl. tauto.
  - lia.
  - exists m'. split; [exact Hrun|]. split; [|split; assumption].
    unfold removeTask. now rewrite Hhas, Hrun.
Qed.

(** C5: removeTask of an id that is not stored changes nothing; otherwise
    the loop returns and leaves, in their order, exactly the stored tasks
    whose chain of parent_id references through stored tasks does not lead
    to the id, so that the next snapshot shows neither the id nor any
    task that descended from it; project and sections are untouched. *)
Theorem removeTask_cascade :
  forall (localeCompare : string -> string -> Z) (st : TaskStore) (taskId : string),
    wf_store st ->
    (JsMap.has (tasks st) taskId = false -> removeTask taskId st = st)
    /\ (JsMap.has (tasks st) taskId = true ->
        removeLoop (List.length (tasks st)) [taskId] (tasks st)
        = Some (tasks (removeTask taskId st))
        /\ project (removeTask taskId st) = project st
        /\ sections (removeTask taskId st) = sections st
        /\ (exists f, tasks (removeTask taskId st) = filter f (tasks st))
        /\ (forall e, In e (tasks (removeTask taskId st)) <->
                      In e (tasks st) /\ ~ Descends (tasks st) [taskId] (fst e))
        /\ (forall x, Descends (tasks st) [taskId] x ->
                      ~ In x (snapshot_ids (snapshot localeCompare (removeTask taskId st))))).
Proof.
  intros localeCompare st taskId [Hwf _]. split.
  - intros H. unfold removeTask. now rewrite H.
  - intros Hhas.
    destruct (removeTask_loop_returns st taskId Hwf Hhas) as (m' & Hrun & Hrm & [f Hf] & Hin).
    rewrite Hrm. simpl.
    split; [exact Hrun|]. split; [reflexivity|]. split; [reflexivity|].
    split; [now exists f|]. split; [exact Hin|].
    intros x HD Hshown.
    {
      apply snapshot_ids_stored in Hshown; simpl.
      * unfold JsMap.keys in Hshown. apply in_map_iff in Hshown.
        destruct Hshown as [e [<- He]]. apply Hin in He. tauto.
      * rewrite Hf. now apply wf_tasks_filter. }
Qed.

Lemma removeTask_cascade_witness :
  tasks (removeTask "p" exStoreFamily)
  = [("q", exTask "q" None None 2 "1"); ("r", exTask "r" (Some "q") None 1 "1")]
  /\ ~ In "p" (snapshot_ids (snapshot codeCompare (removeTask "p" exStoreFamily)))
  /\ ~ In "c" (snapshot_ids (snapshot codeCompare (removeTask "p" exStoreFamily)))
  /\ ~ In "g" (snapshot_ids (snapshot codeCompare (removeTask "p" exStoreFamily)))
  /\ removeTask "zz" exStoreFamily = exStoreFamily.
Proof.
  assert (Hwf : wf_store exStoreFamily).
  { repeat split; simpl; repeat constructor; simpl; intuition discriminate. }
  pose proof (@removeTask_cascade codeCompare exStoreFamily "p" Hwf) as [_ Hp].
  pose proof (@removeTask_cascade codeCompare exStoreFamily "zz" Hwf) as [Hz _].
  specialize (Hp eq_refl). destruct Hp as (_ & _ & _ & _ & _ & Hsnap).
  assert (Dp : Descends (tasks exStoreFamily) ["p"] "p").
  { apply Descends_start; simpl; tauto. }
  assert (Dc : Descends (tasks exStoreFamily) ["p"] "c").
  { eapply Descends_child; [reflexivity | reflexivity | exact Dp]. }
  assert (Dg : Descends (tasks exStoreFamily) ["p"] "g").
  { eapply Descends_child; [reflexivity | reflexivity | exact Dc]. }
  split; [reflexivity|].
  split; [exact (Hsnap _ Dp)|].
  split; [exact (Hsnap _ Dc)|].
  split; [exact (Hsnap _ Dg)|].
  exact (Hz eq_refl).
Defined.

(* ------------------------------------------------------------------ *)
(** ** The cascade of removeSection *)

Lemma removeTask_tasks_spec st taskId :
  wf_tasks (tasks st) ->
  project (removeTask taskId st) = project st
  /\ sections (removeTask taskId st) = sections st
  /\ (exists f, tasks (removeTask taskId st) = filter f (tasks st))
  /\ forall e, In e (tasks (removeTask taskId st)) <->
               In e (tasks st) /\ ~ Descends (tasks st) [taskId] (fst e).
Proof.
  intros Hwf. destruct (JsMap.has (tasks st) taskId) eqn:Hhas.
  - destruct (removeTask_loop_returns st taskId Hwf Hhas) as (m' & _ & Hrm & Hf & Hin).
    rewrite Hrm. simpl. auto.
  - unfold removeTask. rewrite Hhas. simpl.
    split; [reflexivity|]. split; [reflexivity|]. split.
    + exists (fun _ => true). symmetry. apply filter_all_true.
    + intros e. split; [|tauto]. intros He. split; [assumption|].
      intros HD. assert (In taskId (JsMap.keys (tasks st))).
      { clear He. induction HD as [x [<-|[]] Hk|]; assumption. }
      apply has_keys in H. congruence.
Qed.

Lemma removeTask_wf st taskId : wf_tasks (tasks st) -> wf_tasks (tasks (removeTask taskId st)).
Proof.
  intros Hwf. destruct (removeTask_tasks_spec st taskId Hwf) as (_ & _ & [f ->] & _).
  now apply wf_tasks_filter.
Qed.

Lemma Descends_cons m a Q x :
  Descends m (a :: Q) x <-> Descends m [a] x \/ Descends m Q x.
Proof.
  split.
  - induction 1 as [x [<-|HQ] Hk | x t p Hg Hp HD IH].
    + left. apply Descends_start; simpl; auto.
    + right. now apply Descends_start.
    + destruct IH; [left|right]; eapply Descends_child; eauto.
  - intros [H|H].
    + induction H as [x [<-|[]] Hk | x t p Hg Hp HD IH].
      * apply Descends_start; simpl; auto.
      * eapply Descends_child; eauto.
    + induction H as [x HQ Hk | x t p Hg Hp HD IH].
      * apply Descends_start; simpl; auto.
      * eapply Descends_child; eauto.
Qed.

(** Descent in a map from which the descendants of [a] were removed. *)
Lemma Descends_after_removal m m' a Q x :
  NoDup (JsMap.keys m) ->
  (forall e, In e m' <-> In e m /\ ~ Descends m [a] (fst e)) ->
  NoDup (JsMap.keys m') ->
  Descends m' Q x <-> Descends m Q x /\ ~ Descends m [a] x.
Proof.
  intros ND Hin ND'.
  assert (Hget : forall k t, JsMap.get m' k = Some t ->
                             JsMap.get m k = Some t /\ ~ Descends m [a] k).
  { intros k t Hg. apply get_In in Hg. apply Hin in Hg. simpl in Hg.
    split; [apply In_get; tauto | tauto]. }
  assert (Hkeys : forall k, In k (JsMap.keys m') -> In k (JsMap.keys m) /\ ~ Descends m [a] k).
  { intros k Hk. apply keys_In_get in Hk. destruct Hk as [t Hg].
    apply Hget in Hg. split; [eapply get_keys; apply Hg | tauto]. }
  split.
  - induction 1 as [x HQ Hk | x t p Hg Hp HD IH].
    + apply Hkeys in Hk. split; [apply Descends_start; tauto | tauto].
    + apply Hget in Hg. destruct Hg as [Hg Hn]. destruct IH as [IH _].
      split; [eapply Descends_child; eauto | exact Hn].
  - intros [HD Hna]. induction HD as [x HQ Hk | x t p Hg Hp HD IH].
    + apply Descends_start; [assumption|].
      apply keys_In_get in Hk. destruct Hk as [t Hg].
      apply (@get_keys _ m' x t). apply In_get; [assumption|].
      apply Hin. split; [now apply get_In | exact Hna].
    + assert (Hg' : JsMap.get m' x = Some t).
      { apply In_get; [assumption|]. apply Hin. split; [now apply get_In | exact Hna]. }
      eapply Descends_child; eauto. apply IH.
      intros HDa. apply Hna. eapply Descends_child; eauto.
Qed.

Lemma removeTask_fold_spec ids : forall st,
  wf_tasks (tasks st) ->
  let st' := fold_left (fun s i => removeTask i s) ids st in
  project st' = project st
  /\ sections st' = sections st
  /\ wf_tasks (tasks st')
  /\ (exists f, tasks st' = filter f (tasks st))
  /\ forall e, In e (tasks st') <-> In e (tasks st) /\ ~ Descends (tasks st) ids (fst e).
Proof.
  induction ids as [|a ids IH]; intros st Hwf; simpl.
  - repeat split; try assumption; try apply Hwf; try tauto.
    + exists (fun _ => true). symmetry. apply filter_all_true.
    + apply Descends_nil.
  - destruct (removeTask_tasks_spec st a Hwf) as (Hp & Hs & [f Hf] & Hin).
    pose proof (removeTask_wf st a Hwf) as Hwf'.
    destruct (IH (removeTask a st) Hwf') as (Hp' & Hs' & Hwf'' & [g Hg] & Hin').
    split; [congruence|]. split; [congruence|]. split; [assumption|]. split.
    + exists (fun e => f e && g e)%bool. rewrite Hg, Hf.
      clear. induction (tasks st) as [|e m IHm]; simpl; [reflexivity|].
      destruct (f e); simpl; [destruct (g e)|]; now rewrite IHm.
    + intros e. rewrite Hin', Hin.
      rewrite (@Descends_after_removal (tasks st) (tasks (removeTask a st)) a ids (fst e)
                 (proj1 Hwf) Hin (proj1 Hwf')).
      rewrite (@Descends_cons (tasks st) a ids (fst e)).
      tauto.
Qed.

Lemma fold_left_map_arg (S A B : Type) (f : B -> S -> S) (g : A -> B) (l : list A) :
  forall s, fold_left (fun s a => f (g a) s) l s = fold_left (fun s b => f b s) (map g l) s.
Proof. induction l as [|a l IH]; intros s; simpl; [reflexivity | apply IH]. Qed.

Lemma strict_eq_Some o k : strict_eq o k = true <-> o = Some k.
Proof.
  destruct o as [s|]; simpl; [|split; discriminate].
  rewrite String.eqb_eq. split; congruence.
Qed.

(** C2 (as the code has it): removeSection of a section that is not
    stored changes nothing; otherwise it cascades removeTask over every
    stored task whose section_id is the given id, whether or not the task
    has a parent, and then deletes the section record: what is left are
    the tasks that descend from none of the selected ones, and no task
    carrying the section_id is left. *)
Theorem removeSection_cascade :
  forall (st : TaskStore) (sectionId : string),
    wf_store st ->
    (JsMap.has (sections st) sectionId = false -> removeSection sectionId st = st)
    /\ (JsMap.has (sections st) sectionId = true ->
        (forall t, In t (removeSection_roots sectionId st) <->
                   In t (JsMap.values (tasks st))
                   /\ TodoistTask.section_id t = Some sectionId)
        /\ project (removeSection sectionId st) = project st
        /\ sections (removeSection sectionId st) = JsMap.delete (sections st) sectionId
        /\ JsMap.has (sections (removeSection sectionId st)) sectionId = false
        /\ (exists f, tasks (removeSection sectionId st) = filter f (tasks st))
        /\ (forall e, In e (tasks (removeSection sectionId st)) <->
                      In e (tasks st)
                      /\ ~ Descends (tasks st)
                                    (map TodoistTask.id (removeSection_roots sectionId st))
                                    (fst e))
        /\ (forall t, In t (JsMap.values (tasks st)) ->
                      TodoistTask.section_id t = Some sectionId ->
                      JsMap.has (tasks (removeSection sectionId st)) (TodoistTask.id t) = false)).
Proof.
  intros st sectionId [Hwf Hwfs]. split.
  - intros H. unfold removeSection. now rewrite H.
  - intros Hhas.
    assert (Hsel : forall t, In t (removeSection_roots sectionId st) <->
                             In t (JsMap.values (tasks st))
                             /\ TodoistTask.section_id t = Some sectionId).
    { intros t. unfold removeSection_roots. now rewrite filter_In, strict_eq_Some. }
    unfold removeSection. rewrite Hhas. simpl.
    rewrite fold_left_map_arg.
    destruct (@removeTask_fold_spec (map TodoistTask.id (removeSection_roots sectionId st)) st Hwf)
      as (Hp & Hs & Hwf' & Hf & Hin).
    split; [exact Hsel|]. split; [exact Hp|]. split; [now rewrite Hs|].
    split; [unfold JsMap.has; now rewrite get_delete_same|].
    split; [exact Hf|]. split; [exact Hin|].
    intros t Ht Hsec.
    destruct (JsMap.has _ (TodoistTask.id t)) eqn:E; [exfalso|reflexivity].
    apply has_keys in E. apply keys_In_get in E. destruct E as [t' Hg].
    apply get_In in Hg. apply Hin in Hg. destruct Hg as [_ Hn]. apply Hn. simpl.
    apply Descends_start.
    + apply in_map. apply Hsel. auto.
    + apply wf_values_In in Ht; [|assumption].
      unfold JsMap.keys. change (TodoistTask.id t) with (fst (TodoistTask.id t, t)).
      now apply in_map.
Qed.

Lemma removeSection_cascade_witness :
  tasks (removeSection "s1" exStoreA) = []
  /\ sections (removeSection "s1" exStoreA) = []
  /\ JsMap.has (tasks (removeSection "s1" exStoreStray)) "c" = false
  /\ removeSection "s7" exStoreStray = exStoreStray.
Proof.
  assert (HwfA : wf_store exStoreA).
  { repeat split; simpl; repeat constructor; simpl; intuition discriminate. }
  assert (HwfS : wf_store exStoreStray).
  { repeat split; simpl; repeat constructor; simpl; intuition discriminate. }
  pose proof (@removeSection_cascade exStoreA "s1" HwfA) as [_ HA].
  pose proof (@removeSection_cascade exStoreStray "s1" HwfS) as [_ HS].
  pose proof (@removeSection_cascade exStoreStray "s7" HwfS) as [HN _].
  specialize (HA eq_refl). specialize (HS eq_refl).
  destruct HA as (_ & _ & HAs & _).
  destruct HS as (_ & _ & _ & _ & _ & _ & HSt).
  split; [reflexivity|]. split; [exact HAs|]. split.
  - apply (HSt (exTask "c" (Some "p") (Some "s1") 1 "1")); simpl; auto.
  - exact (HN eq_refl).
Defined.

(** C2, as stated, fails: the selection is by section_id alone. In
    [exStoreStray] the subtask [c] carries the section's id and is selected
    and removed, although it is not a root task; a cascade over the root
    tasks of the section only would have kept it. *)
Lemma removeSection_selects_subtask :
  In (exTask "c" (Some "p") (Some "s1") 1 "1") (removeSection_roots "s1" exStoreStray)
  /\ ~ In (exTask "c" (Some "p") (Some "s1") 1 "1") (spec_removeSection_roots "s1" exStoreStray)
  /\ tasks (removeSection "s1" exStoreStray) = [("p", exTask "p" None None 1 "1")]
  /\ tasks (spec_removeSection "s1" exStoreStray)
     = [("p", exTask "p" None None 1 "1"); ("c", exTask "c" (Some "p") (Some "s1") 1 "1")]
  /\ removeSection "s1" exStoreStray <> spec_removeSection "s1" exStoreStray.
Proof.
  split; [simpl; auto|]. split; [simpl; tauto|].
  split; [reflexivity|]. split; [reflexivity|].
  intros H. apply (f_equal tasks) in H. vm_compute in H. discriminate.
Qed.

(* ------------------------------------------------------------------ *)
(** ** The fuel of buildNode *)

Lemma RootPath_head_stored nodes k l : RootPath nodes (k :: l) -> In k (JsMap.keys nodes).
Proof. inversion 1; subst; eapply get_keys; eauto. Qed.

Lemma RootPath_incl nodes l : RootPath nodes l -> incl l (JsMap.keys nodes).
Proof.
  induction 1 as [k t Hg Hr | k t p rest Hg Hp HR IH].
  - intros x [<-|[]]. eapply get_keys; eauto.
  - intros x [<-|Hx]; [eapply get_keys; eauto | now apply IH].
Qed.

Lemma RootPath_unique nodes k l1 :
  RootPath nodes (k :: l1) -> forall l2, RootPath nodes (k :: l2) -> l1 = l2.
Proof.
  remember (k :: l1) as l eqn:E. intros H. revert k l1 E.
  induction H as [k t Hg Hr | k t p rest Hg Hp HR IH]; intros k0 l1 E l2 H2;
    inversion E; subst; clear E.
  - inversion H2; subst; [reflexivity | congruence].
  - inversion H2; subst; [congruence|].
    assert (p0 = p) by congruence. subst p0.
    f_equal. eapply IH; eauto.
Qed.

Lemma RootPath_suffix nodes l1 : forall k l2,
  RootPath nodes (l1 ++ k :: l2) -> RootPath nodes (k :: l2).
Proof.
  induction l1 as [|a l1 IH]; intros k l2 H; simpl in H; [assumption|].
  remember (a :: l1 ++ k :: l2) as l eqn:E.
  destruct H as [k0 t Hg Hr | k0 t p rest Hg Hp HR].
  - destruct l1; discriminate.
  - injection E as _ E. apply IH. now rewrite <- E.
Qed.

Lemma RootPath_NoDup nodes l : RootPath nodes l -> NoDup l.
Proof.
  induction 1 as [k t Hg Hr | k t p rest Hg Hp HR IH].
  - repeat constructor. simpl. tauto.
  - constructor; [|assumption]. intros Hin.
    apply in_split in Hin. destruct Hin as (l1 & l2 & E).
    assert (HS : RootPath nodes (k :: l2)).
    { apply RootPath_suffix with (l1 := l1). now rewrite <- E. }
    assert (HF : RootPath nodes (k :: p :: rest)) by (econstructor; eauto).
    pose proof (@RootPath_unique nodes k (p :: rest) HF l2 HS) as E2.
    apply (f_equal (@List.length string)) in E. rewrite E2 in E.
    rewrite length_app in E. simpl in E. lia.
Qed.

Lemma RootPath_length nodes l :
  RootPath nodes l -> (List.length l <= List.length nodes)%nat.
Proof.
  intros H. replace (List.length nodes) with (List.length (JsMap.keys nodes))
    by apply length_map.
  apply NoDup_incl_length;
    [exact (@RootPath_NoDup nodes l H) | exact (@RootPath_incl nodes l H)].
Qed.

Section FuelStable.
Variable localeCompare : string -> string -> Z.
Variable nodes : JsMap.t TodoistTask.t.
Hypothesis nodes_NoDup : NoDup (JsMap.keys nodes).

Lemma buildNode_fuel_step fuel :
  forall d k t l,
    RootPath nodes (k :: l) -> JsMap.get nodes k = Some t ->
    (List.length nodes < List.length (k :: l) + fuel)%nat ->
    buildNode localeCompare (S fuel) nodes d k t = buildNode localeCompare fuel nodes d k t.
Proof.
  induction fuel as [|fuel IH]; intros d k t l HR Hg Hlen.
  - apply RootPath_length in HR. lia.
  - change (buildNode localeCompare (S (S fuel)) nodes d k t)
      with (mkNode t
              (js_sort (sortByOrder localeCompare)
                 (map (fun e => buildNode localeCompare (S fuel) nodes (S d) (fst e) (snd e))
                      (linked_children nodes k))) d).
    change (buildNode localeCompare (S fuel) nodes d k t)
      with (mkNode t
              (js_sort (sortByOrder localeCompare)
                 (map (fun e => buildNode localeCompare fuel nodes (S d) (fst e) (snd e))
                      (linked_children nodes k))) d).
    f_equal. f_equal. apply map_ext_in. intros [k' t'] He.
    unfold linked_children in He. apply filter_In in He. destruct He as [He Hp]. simpl in *.
    destruct (parent_key nodes t') as [p|] eqn:Ep; [|discriminate].
    apply String.eqb_eq in Hp. subst p.
    apply IH with (l := k :: l).
    + econstructor; eauto. now apply In_get.
    + now apply In_get.
    + simpl in *. lia.
Qed.

(** Any fuel from the number of nodes on builds the same tree from a root. *)
Lemma buildNode_fuel_stable k t d extra :
  JsMap.get nodes k = Some t -> parent_key nodes t = None ->
  buildNode localeCompare (List.length nodes + extra) nodes d k t
  = buildNode localeCompare (List.length nodes) nodes d k t.
Proof.
  intros Hg Hr. induction extra as [|extra IH].
  - now rewrite Nat.add_0_r.
  - rewrite Nat.add_succ_r, <- IH.
    apply buildNode_fuel_step with (l := []).
    + econstructor; eauto.
    + assumption.
    + simpl. lia.
Qed.
End FuelStable.

(* ------------------------------------------------------------------ *)
(** ** Sibling lists are sorted *)

Lemma StronglySorted_impl (A : Type) (R R' : A -> A -> Prop) (l : list A) :
  (forall a b, R a b -> R' a b) -> StronglySorted R l -> StronglySorted R' l.
Proof.
  intros HR. induction 1 as [|a l Hs IH Hall]; constructor; [assumption|].
  rewrite Forall_forall in *. auto.
Qed.

Section SiblingOrder.
Variable localeCompare : string -> string -> Z.
Hypothesis consistent : consistent_comparator localeCompare.

Lemma sortByOrder_sibling_le a b :
  (sortByOrder localeCompare a b <= 0)%Z <-> sibling_le localeCompare a b.
Proof.
  unfold sortByOrder, sibling_le.
  destruct (Z.eqb_spec (TodoistTask.child_order (node_task a))
                       (TodoistTask.child_order (node_task b))) as [E|E].
  - split; [intros H; right; auto | intros [H|[_ H]]; [lia | assumption]].
  - split; [intros H; left; lia | intros [H|[H _]]; [lia | contradiction]].
Qed.

Lemma sortByOrder_total a b :
  (0 < sortByOrder localeCompare a b)%Z -> (sortByOrder localeCompare b a <= 0)%Z.
Proof.
  destruct consistent as [Htot _]. unfold sortByOrder.
  destruct (Z.eqb_spec (TodoistTask.child_order (node_task a))
                       (TodoistTask.child_order (node_task b))) as [E|E].
  - rewrite E, Z.eqb_refl. apply Htot.
  - destruct (Z.eqb_spec (TodoistTask.child_order (node_task b))
                         (TodoistTask.child_order (node_task a))); [congruence | lia].
Qed.

Lemma sortByOrder_trans a b c :
  (sortByOrder localeCompare a b <= 0)%Z -> (sortByOrder localeCompare b c <= 0)%Z ->
  (sortByOrder localeCompare a c <= 0)%Z.
Proof.
  destruct consistent as [_ Htr]. rewrite !sortByOrder_sibling_le. unfold sibling_le.
  intros [H1|[E1 H1]] [H2|[E2 H2]].
  - left. lia.
  - left. lia.
  - left. lia.
  - right. split; [congruence | eapply Htr; eauto].
Qed.

Lemma js_sort_sibling_sorted l :
  StronglySorted (sibling_le localeCompare) (js_sort (sortByOrder localeCompare) l).
Proof.
  apply StronglySorted_impl with (R := cmp_le (sortByOrder localeCompare)).
  - intros a b. apply sortByOrder_sibling_le.
  - apply js_sort_sorted; [apply sortByOrder_total | apply sortByOrder_trans].
Qed.

Lemma buildNode_siblings_sorted nodes fuel :
  forall d k t l,
    In l (sibling_lists (buildNode localeCompare fuel nodes d k t)) ->
    StronglySorted (sibling_le localeCompare) l.
Proof.
  induction fuel as [|fuel IH]; intros d k t l; simpl.
  - intros [<-|[]]. constructor.
  - intros [<-|Hin]; [apply js_sort_sibling_sorted|].
    apply in_flat_map in Hin. destruct Hin as [c [Hc Hl]].
    apply js_sort_In in Hc. apply in_map_iff in Hc. destruct Hc as [e [<- _]].
    eapply IH; eauto.
Qed.

Lemma roots_siblings_sorted st l roots :
  (forall r, In r roots -> In r (snapshot_roots localeCompare st)) ->
  In l (flat_map sibling_lists roots) ->
  StronglySorted (sibling_le localeCompare) l.
Proof.
  intros Hsub Hin. apply in_flat_map in Hin. destruct Hin as [r [Hr Hl]].
  apply Hsub in Hr. unfold snapshot_roots in Hr. apply in_map_iff in Hr.
  destruct Hr as [e [<- _]]. eapply buildNode_siblings_sorted; eauto.
Qed.

Lemma snapshot_siblings_sorted st l :
  In l (snapshot_sibling_lists (snapshot localeCompare st)) ->
  StronglySorted (sibling_le localeCompare) l.
Proof.
  unfold snapshot_sibling_lists, snapshot. simpl. intros [<-|Hin].
  - apply js_sort_sibling_sorted.
  - apply in_app_or in Hin. destruct Hin as [Hin|Hin].
    + revert Hin. apply roots_siblings_sorted with (st := st). intros r Hr.
      apply js_sort_In in Hr. now apply filter_In in Hr.
    + apply in_flat_map in Hin. destruct Hin as [sec [Hsec Hin]].
      apply in_map_iff in Hsec. destruct Hsec as [s [<- _]]. simpl in Hin.
      destruct Hin as [<-|Hin]; [apply js_sort_sibling_sorted|].
      revert Hin. apply roots_siblings_sorted with (st := st). intros r Hr.
      apply js_sort_In in Hr. unfold sectionTasks in Hr. now apply filter_In in Hr.
Qed.
End SiblingOrder.

(* ------------------------------------------------------------------ *)
(** ** Snapshots do not depend on the insertion order of the tasks *)

Lemma sorted_perm_unique (A : Type) (R : A -> A -> Prop) (l1 : list A) :
  forall l2,
    StronglySorted R l1 -> StronglySorted R l2 -> Permutation l1 l2 ->
    (forall x y, In x l1 -> In y l1 -> R x y -> R y x -> x = y) ->
    l1 = l2.
Proof.
  induction l1 as [|a l1 IH]; intros l2 S1 S2 HP Hanti.
  - apply Permutation_nil in HP. now subst.
  - destruct l2 as [|b l2]; [apply Permutation_sym, Permutation_nil in HP; discriminate|].
    inversion S1 as [|? ? S1' F1]; subst. inversion S2 as [|? ? S2' F2]; subst.
    rewrite Forall_forall in F1, F2.
    assert (Hab : a = b).
    { assert (Ha : In a (b :: l2)) by (eapply Permutation_in; [exact HP | now left]).
      assert (Hb : In b (a :: l1))
        by (eapply Permutation_in; [apply Permutation_sym; exact HP | now left]).
      destruct Ha as [->|Ha]; [reflexivity|].
      destruct Hb as [->|Hb]; [reflexivity|].
      apply Hanti; [now left | now right | now apply F1 | now apply F2]. }
    subst b. f_equal. apply IH; try assumption.
    + eapply Permutation_cons_inv; eauto.
    + intros x y Hx Hy. apply Hanti; now right.
Qed.

Lemma js_sort_perm_unique (A : Type) (cmp : A -> A -> Z) (l1 l2 : list A) :
  (forall x y, (0 < cmp x y)%Z -> (cmp y x <= 0)%Z) ->
  (forall x y z, (cmp x y <= 0)%Z -> (cmp y z <= 0)%Z -> (cmp x z <= 0)%Z) ->
  Permutation l1 l2 ->
  (forall x y, In x l1 -> In y l1 -> (cmp x y <= 0)%Z -> (cmp y x <= 0)%Z -> x = y) ->
  js_sort cmp l1 = js_sort cmp l2.
Proof.
  intros Htot Htr HP Hanti.
  apply sorted_perm_unique with (R := cmp_le cmp).
  - now apply js_sort_sorted.
  - now apply js_sort_sorted.
  - rewrite (js_sort_perm cmp l1), (js_sort_perm cmp l2). exact HP.
  - intros x y Hx Hy. apply js_sort_In in Hx. apply js_sort_In in Hy. now apply Hanti.
Qed.

Lemma filter_perm_ext (A : Type) (f g : A -> bool) (l1 l2 : list A) :
  (forall x, f x = g x) -> Permutation l1 l2 -> Permutation (filter f l1) (filter g l2).
Proof.
  intros Hfg HP. rewrite <- (filter_ext f g Hfg l2).
  induction HP as [|x l l' HP IH|x y l|l l' l'' HP1 IH1 HP2 IH2]; simpl.
  - constructor.
  - destruct (f x); [now constructor | assumption].
  - destruct (f x), (f y); try reflexivity. apply perm_swap.
  - etransitivity; eassumption.
Qed.

Lemma has_perm (V : Type) (m1 m2 : JsMap.t V) k :
  Permutation m1 m2 -> JsMap.has m1 k = JsMap.has m2 k.
Proof.
  intros HP.
  assert (HK : Permutation (JsMap.keys m1) (JsMap.keys m2)) by now apply Permutation_map.
  destruct (JsMap.has m1 k) eqn:E1, (JsMap.has m2 k) eqn:E2; try reflexivity.
  - apply has_keys in E1. apply (Permutation_in _ HK) in E1. apply has_keys in E1. congruence.
  - apply has_keys in E2. apply (Permutation_in _ (Permutation_sym HK)) in E2.
    apply has_keys in E2. congruence.
Qed.

Lemma parent_key_perm nodes1 nodes2 t :
  Permutation nodes1 nodes2 -> parent_key nodes1 t = parent_key nodes2 t.
Proof.
  intros HP. unfold parent_key. destruct (TodoistTask.parent_id t) as [p|]; [|reflexivity].
  now rewrite (has_perm p HP).
Qed.

Lemma wf_tasks_perm m1 m2 : Permutation m1 m2 -> wf_tasks m1 -> wf_tasks m2.
Proof.
  intros HP [ND HF]. split.
  - eapply Permutation_NoDup; [|exact ND]. now apply Permutation_map.
  - eapply Permutation_Forall; eauto.
Qed.

Lemma wf_entry_eq m (e1 e2 : string * TodoistTask.t) :
  wf_tasks m -> In e1 m -> In e2 m ->
  TodoistTask.id (snd e1) = TodoistTask.id (snd e2) -> e1 = e2.
Proof.
  intros [ND HF] H1 H2 Hid. rewrite Forall_forall in HF.
  rewrite (HF _ H1), (HF _ H2) in Hid.
  destruct e1 as [k1 t1], e2 as [k2 t2]. simpl in *. subst k2.
  apply (In_get _ _ _ ND) in H1. apply (In_get _ _ _ ND) in H2. congruence.
Qed.

Section InsertionOrder.
Variable localeCompare : string -> string -> Z.
Hypothesis consistent : consistent_comparator localeCompare.
Hypothesis separates : separates_ids localeCompare.

Lemma sortByOrder_antisym a b :
  (sortByOrder localeCompare a b <= 0)%Z -> (sortByOrder localeCompare b a <= 0)%Z ->
  TodoistTask.id (node_task a) = TodoistTask.id (node_task b).
Proof.
  rewrite !sortByOrder_sibling_le. unfold sibling_le.
  intros [H1|[E1 H1]] [H2|[E2 H2]]; try lia. now apply separates.
Qed.

(** Sorting two arrangements of nodes built from distinct entries. *)
Lemma js_sort_built (build1 build2 : string * TodoistTask.t -> TodoistTaskNode)
      (m : JsMap.t TodoistTask.t) (l1 l2 : list (string * TodoistTask.t)) :
  wf_tasks m -> (forall e, In e l1 -> In e m) ->
  (forall e, node_task (build2 e) = snd e) ->
  (forall e, In e l1 -> build1 e = build2 e) ->
  Permutation l1 l2 ->
  js_sort (sortByOrder localeCompare) (map build1 l1)
  = js_sort (sortByOrder localeCompare) (map build2 l2).
Proof.
  intros Hwf Hsub Htask Hext HP.
  rewrite (map_ext_in build1 build2 l1 Hext).
  apply js_sort_perm_unique.
  - now apply sortByOrder_total.
  - now apply sortByOrder_trans.
  - now apply Permutation_map.
  - intros x y Hx Hy H1 H2.
    apply in_map_iff in Hx. destruct Hx as [e1 [<- He1]].
    apply in_map_iff in Hy. destruct Hy as [e2 [<- He2]].
    pose proof (sortByOrder_antisym _ _ H1 H2) as Hid. rewrite !Htask in Hid.
    f_equal. eapply wf_entry_eq; eauto.
Qed.

Lemma linked_children_perm nodes1 nodes2 k :
  Permutation nodes1 nodes2 ->
  Permutation (linked_children nodes1 k) (linked_children nodes2 k).
Proof.
  intros HP. unfold linked_children. apply filter_perm_ext; [|assumption].
  intros e. now rewrite (parent_key_perm (snd e) HP).
Qed.

Lemma buildNode_perm nodes1 nodes2 fuel :
  wf_tasks nodes1 -> Permutation nodes1 nodes2 ->
  forall d k t,
    buildNode localeCompare fuel nodes1 d k t = buildNode localeCompare fuel nodes2 d k t.
Proof.
  intros Hwf HP. induction fuel as [|fuel IH]; intros d k t; simpl; [reflexivity|].
  f_equal. apply js_sort_built with (m := nodes1).
  - assumption.
  - intros e He. unfold linked_children in He. now apply filter_In in He.
  - intros e. apply buildNode_task.
  - intros e _. apply IH.
  - now apply linked_children_perm.
Qed.

Lemma snapshot_roots_perm st1 st2 :
  wf_tasks (tasks st1) -> Permutation (tasks st1) (tasks st2) ->
  Permutation (snapshot_roots localeCompare st1) (snapshot_roots localeCompare st2).
Proof.
  intros Hwf HP. pose proof (wf_tasks_perm HP Hwf) as Hwf2.
  unfold snapshot_roots. rewrite !snapshot_nodes_wf by assumption.
  rewrite (Permutation_length HP).
  rewrite (map_ext _ _ (fun e => buildNode_perm (List.length (tasks st2)) Hwf HP 0 (fst e) (snd e))).
  apply Permutation_map. unfold root_entries. apply filter_perm_ext; [|assumption].
  intros e. unfold is_root. now rewrite (parent_key_perm (snd e) HP).
Qed.

Lemma snapshot_roots_distinct st r1 r2 :
  wf_tasks (tasks st) ->
  In r1 (snapshot_roots localeCompare st) -> In r2 (snapshot_roots localeCompare st) ->
  TodoistTask.id (node_task r1) = TodoistTask.id (node_task r2) -> r1 = r2.
Proof.
  intros Hwf H1 H2 Hid. unfold snapshot_roots in *.
  rewrite snapshot_nodes_wf in * by assumption.
  apply in_map_iff in H1. destruct H1 as [e1 [<- He1]].
  apply in_map_iff in H2. destruct H2 as [e2 [<- He2]].
  rewrite !buildNode_task in Hid.
  unfold root_entries in *. apply filter_In in He1. apply filter_In in He2.
  assert (e1 = e2) by (eapply wf_entry_eq; eauto; tauto). now subst.
Qed.

Lemma js_sort_roots st (l1 l2 : list TodoistTaskNode) :
  wf_tasks (tasks st) ->
  (forall r, In r l1 -> In r (snapshot_roots localeCompare st)) ->
  Permutation l1 l2 ->
  js_sort (sortByOrder localeCompare) l1 = js_sort (sortByOrder localeCompare) l2.
Proof.
  intros Hwf Hsub HP. apply js_sort_perm_unique.
  - now apply sortByOrder_total.
  - now apply sortByOrder_trans.
  - assumption.
  - intros x y Hx Hy H1 H2. eapply snapshot_roots_distinct; eauto.
    now apply sortByOrder_antisym.
Qed.

Lemma snapshot_perm st1 st2 :
  wf_tasks (tasks st1) -> Permutation (tasks st1) (tasks st2) ->
  sections st2 = sections st1 -> project st2 = project st1 ->
  snapshot localeCompare st2 = snapshot localeCompare st1.
Proof.
  intros Hwf HP Hs Hp. pose proof (@snapshot_roots_perm st1 st2 Hwf HP) as HR.
  unfold snapshot. rewrite Hs, Hp. f_equal.
  - apply map_ext. intros s. f_equal. symmetry.
    apply js_sort_roots with (st := st1); [assumption | |].
    + intros r Hr. unfold sectionTasks in Hr. now apply filter_In in Hr.
    + unfold sectionTasks. rewrite Hs. apply filter_perm_ext; [reflexivity | assumption].
  - symmetry. apply js_sort_roots with (st := st1); [assumption | |].
    + intros r Hr. now apply filter_In in Hr.
    + apply filter_perm_ext; [reflexivity | assumption].
Qed.
End InsertionOrder.

(* ------------------------------------------------------------------ *)
(** ** The comparator of the examples *)

Lemma codeCompare_le x y :
  (codeCompare x y <= 0)%Z <-> String.compare x y = Lt \/ x = y.
Proof.
  unfold codeCompare. destruct (String.compare x y) eqn:E.
  - apply String_as_OT.cmp_eq in E. split; [auto | lia].
  - split; [auto | lia].
  - split; [lia|]. intros [H|H]; [discriminate|].
    apply String_as_OT.cmp_eq in H. unfold String_as_OT.cmp in H. congruence.
Qed.

Lemma codeCompare_consistent : consistent_comparator codeCompare.
Proof.
  split.
  - intros x y H. unfold codeCompare in *.
    pose proof (String_as_OT.cmp_antisym y x) as HA. unfold String_as_OT.cmp in HA.
    rewrite HA. destruct (String.compare x y); simpl in *; lia.
  - intros x y z. rewrite !codeCompare_le.
    intros [H1 | ->] [H2 | ->]; auto. left.
    apply String_as_OT.cmp_lt. eapply String_as_OT.lt_trans; apply String_as_OT.cmp_lt; eauto.
Qed.

Lemma codeCompare_separates : separates_ids codeCompare.
Proof.
  intros x y. rewrite !codeCompare_le. intros [H1|H1] [H2|H2]; auto.
  pose proof (String_as_OT.cmp_antisym x y) as HA. unfold String_as_OT.cmp in HA.
  rewrite H1, H2 in HA. discriminate.
Qed.

(** C6: every sibling list of a snapshot (the unsectioned roots, the root
    tasks of each section and the children of each node) is sorted by
    child_order ascending, equal child_order by ascending id in the order
    of localeCompare; and as long as localeCompare never ranks two
    different ids equal, the snapshot is the same whatever the order in
    which the tasks were inserted. *)
Theorem sibling_lists_sorted_by_order_then_id :
  forall (localeCompare : string -> string -> Z) (st : TaskStore),
    consistent_comparator localeCompare ->
    (forall l, In l (snapshot_sibling_lists (snapshot localeCompare st)) ->
               StronglySorted (sibling_le localeCompare) l)
    /\ (forall st',
           separates_ids localeCompare -> wf_store st ->
           Permutation (tasks st) (tasks st') ->
           sections st' = sections st -> project st' = project st ->
           snapshot localeCompare st' = snapshot localeCompare st).
Proof.
  intros localeCompare st Hc. split.
  - intros l. now apply snapshot_siblings_sorted.
  - intros st' Hsep [Hwf _] HP Hs Hp. now apply snapshot_perm.
Qed.

Lemma sibling_lists_sorted_by_order_then_id_witness :
  map (fun n => TodoistTask.id (node_task n))
      (data_unsectioned (snapshot codeCompare exStoreOrderABC)) = ["b"; "c"; "a"]
  /\ StronglySorted (sibling_le codeCompare)
                    (data_unsectioned (snapshot codeCompare exStoreOrderABC))
  /\ snapshot codeCompare exStoreOrderCAB = snapshot codeCompare exStoreOrderABC
  /\ map (fun n => TodoistTask.id (node_task n))
         (data_unsectioned (snapshot codeCompare exStoreTie)) = ["x"; "y"].
Proof.
  pose proof (@sibling_lists_sorted_by_order_then_id codeCompare exStoreOrderABC
                codeCompare_consistent) as [Hsorted Hperm].
  split; [reflexivity|]. split; [|split; [|reflexivity]].
  - apply Hsorted. now left.
  - apply Hperm.
    + exact codeCompare_separates.
    + repeat split; simpl; repeat constructor; simpl; intuition discriminate.
    + apply Permutation_sym.
      apply (Permutation_cons_app
               [("a", exTask "a" None None 3 "1"); ("b", exTask "b" None None 1 "1")] []).
      reflexivity.
    + reflexivity.
    + reflexivity.
Defined.

(* ------------------------------------------------------------------ *)
(** ** Grouping of the roots *)

Lemma wf_sections_has m s :
  wf_sections m -> In s (JsMap.values m) -> JsMap.has m (SectionRecord.id s) = true.
Proof.
  intros [_ HF] Hin. unfold JsMap.values in Hin. apply in_map_iff in Hin.
  destruct Hin as [[k v] [Hv He]]. simpl in Hv. subst v.
  rewrite Forall_forall in HF. specialize (HF _ He). simpl in HF. rewrite HF.
  apply has_keys. unfold JsMap.keys. change k with (fst (k, s)). now apply in_map.
Qed.

Lemma has_In_values (V : Type) (m : JsMap.t V) k :
  JsMap.has m k = true -> exists v, JsMap.get m k = Some v /\ In v (JsMap.values m).
Proof.
  unfold JsMap.has. destruct (JsMap.get m k) eqn:E; [|discriminate].
  intros _. exists v. split; [reflexivity | eapply get_values; eauto].
Qed.

Lemma wf_sections_get_id m k s :
  wf_sections m -> JsMap.get m k = Some s -> SectionRecord.id s = k.
Proof.
  intros [_ HF] Hg. apply get_In in Hg. rewrite Forall_forall in HF. now apply HF in Hg.
Qed.

(** C1 (as the code has it): the unsectioned list of a snapshot holds
    exactly the root tasks without section_id (null or empty), sorted by
    the sibling order; a root whose section_id names a stored section is
    in the task list of that section; a root whose section_id names a
    section that is not stored is in neither. *)
Theorem roots_grouped_by_section :
  forall (localeCompare : string -> string -> Z) (st : TaskStore),
    consistent_comparator localeCompare -> wf_store st ->
    (forall r, In r (data_unsectioned (snapshot localeCompare st)) <->
               In r (snapshot_roots localeCompare st)
               /\ truthy (TodoistTask.section_id (node_task r)) = false)
    /\ StronglySorted (sibling_le localeCompare) (data_unsectioned (snapshot localeCompare st))
    /\ (forall r s,
           In r (snapshot_roots localeCompare st) ->
           TodoistTask.section_id (node_task r) = Some s -> s <> "" ->
           JsMap.has (sections st) s = true ->
           exists sec, In sec (data_sections (snapshot localeCompare st))
                       /\ SectionRecord.id (section_record sec) = s
                       /\ In r (section_tasks sec))
    /\ (forall r s,
           In r (snapshot_roots localeCompare st) ->
           TodoistTask.section_id (node_task r) = Some s -> s <> "" ->
           JsMap.has (sections st) s = false ->
           ~ In r (data_unsectioned (snapshot localeCompare st))
           /\ forall sec, In sec (data_sections (snapshot localeCompare st)) ->
                          ~ In r (section_tasks sec)).
Proof.
  intros localeCompare st Hc [Hwf Hwfs].
  assert (Hun : forall r, In r (data_unsectioned (snapshot localeCompare st)) <->
                          In r (snapshot_roots localeCompare st)
                          /\ truthy (TodoistTask.section_id (node_task r)) = false).
  { intros r. unfold snapshot. simpl. rewrite js_sort_In, filter_In.
    now rewrite negb_true_iff. }
  assert (Hsec : forall sec r,
             In sec (data_sections (snapshot localeCompare st)) ->
             In r (section_tasks sec) <->
             In r (snapshot_roots localeCompare st)
             /\ exists s, TodoistTask.section_id (node_task r) = Some s
                          /\ truthy (Some s) = true
                          /\ JsMap.has (sections st) s = true
                          /\ s = SectionRecord.id (section_record sec)).
  { intros sec r Hin. unfold snapshot in Hin. simpl in Hin.
    apply in_map_iff in Hin. destruct Hin as [s0 [<- _]]. simpl.
    rewrite js_sort_In. unfold sectionTasks. rewrite filter_In.
    destruct (TodoistTask.section_id (node_task r)) as [s|].
    - rewrite !andb_true_iff, String.eqb_eq. split.
      + intros [Hr [[Ht Hh] He]]. split; [assumption|]. exists s. auto.
      + intros [Hr [s' [E [Ht [Hh He]]]]]. inversion E; subst s'. auto.
    - split; [intros [_ H]; discriminate | intros [_ [s' [E _]]]; discriminate]. }
  split; [exact Hun|]. split; [|split].
  - unfold snapshot. simpl. now apply js_sort_sibling_sorted.
  - intros r s Hr Hs Hne Hhas.
    destruct (has_In_values _ _ Hhas) as [rec [Hg Hv]].
    pose proof (wf_sections_get_id _ Hwfs Hg) as Hid.
    assert (Hin : In (mkSection rec (js_sort (sortByOrder localeCompare)
                                             (sectionTasks localeCompare st (SectionRecord.id rec))))
                     (data_sections (snapshot localeCompare st))).
    { unfold snapshot. simpl.
      apply (in_map (fun section =>
                       mkSection section
                         (js_sort (sortByOrder localeCompare)
                                  (sectionTasks localeCompare st (SectionRecord.id section))))).
      now apply js_sort_In. }
    eexists. split; [exact Hin|]. split; [exact Hid|].
    apply (Hsec _ r Hin). split; [assumption|]. exists s. simpl.
    repeat split; auto. destruct (String.eqb_spec s ""); simpl; congruence.
  - intros r s Hr Hs Hne Hhas. split.
    + rewrite Hun. rewrite Hs. simpl. destruct (String.eqb_spec s ""); simpl; [congruence|].
      intros [_ H]. discriminate.
    + intros sec Hin Hr'. apply (Hsec _ r Hin) in Hr'.
      destruct Hr' as [_ [s' [E [_ [Hh _]]]]]. congruence.
Qed.

Lemma roots_grouped_by_section_witness :
  In (mkNode (exTask "t3" None None 1 "1") [] 0)
     (data_unsectioned (snapshot codeCompare exStoreOrphanSection))
  /\ (exists sec,
         In sec (data_sections (snapshot codeCompare exStoreOrphanSection))
         /\ SectionRecord.id (section_record sec) = "s1"
         /\ In (mkNode (exTask "t2" None (Some "s1") 1 "1") [] 0) (section_tasks sec))
  /\ ~ In (mkNode (exTask "t1" None (Some "s9") 1 "1") [] 0)
          (data_unsectioned (snapshot codeCompare exStoreOrphanSection)).
Proof.
  assert (Hwf : wf_store exStoreOrphanSection).
  { repeat split; simpl; repeat constructor; simpl; intuition discriminate. }
  pose proof (@roots_grouped_by_section codeCompare exStoreOrphanSection
                codeCompare_consistent Hwf) as (Hun & _ & Hin & Hout).
  split; [|split].
  - apply Hun. split; [simpl; tauto | reflexivity].
  - apply (Hin _ "s1"); [simpl; tauto | reflexivity | discriminate | reflexivity].
  - apply (Hout _ "s9"); [simpl; tauto | reflexivity | discriminate | reflexivity].
Defined.

(** C1, as stated, fails: in [exStoreOrphanSection] the root task [t1]
    names the section [s9], which is not stored; it is not in the
    unsectioned list, nor anywhere else in the snapshot. *)
Lemma orphan_section_root_not_unsectioned :
  In (mkNode (exTask "t1" None (Some "s9") 1 "1") [] 0)
     (snapshot_roots codeCompare exStoreOrphanSection)
  /\ JsMap.has (sections exStoreOrphanSection) "s9" = false
  /\ data_unsectioned (snapshot codeCompare exStoreOrphanSection)
     = [mkNode (exTask "t3" None None 1 "1") [] 0]
  /\ ~ In (mkNode (exTask "t1" None (Some "s9") 1 "1") [] 0)
          (data_unsectioned (snapshot codeCompare exStoreOrphanSection))
  /\ snapshot_ids (snapshot codeCompare exStoreOrphanSection) = ["t3"; "t2"].
Proof.
  split; [simpl; tauto|]. split; [reflexivity|]. split; [reflexivity|].
  split; [|reflexivity].
  simpl. intros [H|[]]. discriminate.
Qed.

(* ------------------------------------------------------------------ *)
(** ** The project:updated event *)

(** C3 (as the code has it): processing [project:updated] completes
    normally and sets the text of the title element to the name of the
    payload; the TaskTree is not touched, so the stored Project header,
    the stored tasks and sections and any later snapshot are what they
    were: the project of the snapshot keeps its previous name. *)
Theorem project_updated_sets_title_only :
  forall (Date_parse : string -> option Z) (localeCompare : string -> string -> Z)
         (hooks : TaskTreeHooks) (now : nat) (w : ProjectWidgetScript) (data : EventData.t),
    processEvent Date_parse localeCompare hooks (mkMessage "project:updated" data) now w
    = (Normal tt, mkWidget (EventData.name data) (taskTree w))
    /\ store (taskTree (snd (processEvent Date_parse localeCompare hooks
                                          (mkMessage "project:updated" data) now w)))
       = store (taskTree w)
    /\ data_project
         (snapshot localeCompare
            (store (taskTree (snd (processEvent Date_parse localeCompare hooks
                                                (mkMessage "project:updated" data) now w)))))
       = project (store (taskTree w)).
Proof. intros. repeat split. Qed.

(** C3, as stated, fails: after [project:updated] with the name "New" the
    title element reads "New", but the stored Project header and the
    project of the next snapshot still carry the name "Old". *)
Lemma project_updated_keeps_stored_name :
  projectTitle (snd (processEvent exampleParse codeCompare allHooks exRename 0 exWidget)) = "New"
  /\ project (store (taskTree (snd (processEvent exampleParse codeCompare allHooks
                                                 exRename 0 exWidget))))
     = Some (TodoistProject.mk "Old" [("color", "red")])
  /\ data_project
       (snapshot codeCompare
          (store (taskTree (snd (processEvent exampleParse codeCompare allHooks
                                              exRename 0 exWidget)))))
     <> Some (TodoistProject.mk "New" [("color", "red")]).
Proof.
  split; [reflexivity|]. split; [reflexivity|].
  simpl. intros H. discriminate.
Qed.

(* ------------------------------------------------------------------ *)
(** ** Render requests are debounced *)

Lemma set_store_same t : set_store (store t) t = t.
Proof. now destruct t. Qed.

Lemma renders_emit e t :
  renders (emit e t) = renders t ++ match e with Render data _ _ => [data] | _ => [] end.
Proof. unfold renders, emit. simpl. rewrite flat_map_app. simpl. now rewrite app_nil_r. Qed.

Section Debounce.
Variable Date_parse : string -> option Z.
Variable localeCompare : string -> string -> Z.
Variable hooks : TaskTreeHooks.

Lemma queueRender_deferred now data cb t :
  schedulable t ->
  let t' := queueRender hooks now data false cb t in
  renderTimer t' = Some (timer_after now t)
  /\ pendingSnapshot t' = Some data
  /\ schedulable t'
  /\ store t' = store t /\ trace t' = trace t /\ dom t' = dom t.
Proof.
  intros (Ha & Hr). unfold queueRender, queueRender_with, schedulable, timer_after.
  destruct cb as [cb|]; simpl; rewrite Hr; simpl;
    (replace (0 <? animationsInProgress t)%Z with false by (symmetry; apply Z.ltb_ge; lia));
    destruct (renderTimer t) eqn:Ht; simpl; rewrite ?Ht; auto 10.
Qed.

Lemma runAfterRender_frame cb t :
  let t' := runAfterRender hooks cb t in
  renders t' = renders t /\ store t' = store t /\ renderTimer t' = renderTimer t
  /\ pendingSnapshot t' = pendingSnapshot t
  /\ animationsInProgress t' = animationsInProgress t
  /\ isRendering t' = isRendering t /\ dom t' = dom t.
Proof.
  destruct cb as [taskId|sectionId]; simpl.
  - destruct (findTaskElement taskId t && onTaskAdd hooks); simpl;
      rewrite ?renders_emit, ?app_nil_r; auto 10.
    unfold renders. simpl. rewrite flat_map_app. simpl. rewrite app_nil_r. auto 10.
  - destruct (findSectionElement sectionId t && onSectionAdd hooks); simpl;
      rewrite ?renders_emit, ?app_nil_r; auto 10.
    unfold renders. simpl. rewrite flat_map_app. simpl. rewrite app_nil_r. auto 10.
Qed.

Lemma runAfterRender_fold_frame cbs : forall t,
  let t' := fold_left (fun t cb => runAfterRender hooks cb t) cbs t in
  renders t' = renders t /\ store t' = store t /\ renderTimer t' = renderTimer t
  /\ pendingSnapshot t' = pendingSnapshot t
  /\ animationsInProgress t' = animationsInProgress t
  /\ isRendering t' = isRendering t /\ dom t' = dom t.
Proof.
  induction cbs as [|cb cbs IH]; intros t; simpl; [auto 10|].
  destruct (IH (runAfterRender hooks cb t)) as (H1 & H2 & H3 & H4 & H5 & H6 & H7).
  destruct (runAfterRender_frame cb t) as (G1 & G2 & G3 & G4 & G5 & G6 & G7).
  repeat split; congruence.
Qed.

(** flushRender with a pending snapshot and no animation in flight
    renders that snapshot, once, and leaves nothing pending. *)
Lemma flushRender_renders now data t :
  pendingSnapshot t = Some data -> (animationsInProgress t <= 0)%Z ->
  let t' := flushRender hooks now t in
  renders t' = renders t ++ [data]
  /\ dom t' = Some data
  /\ store t' = store t
  /\ renderTimer t' = renderTimer t
  /\ pendingSnapshot t' = None
  /\ animationsInProgress t' = animationsInProgress t
  /\ isRendering t' = false.
Proof.
  intros Hp Ha. unfold flushRender. rewrite Hp.
  replace (0 <? animationsInProgress t)%Z with false by (symmetry; apply Z.ltb_ge; lia).
  match goal with
  | |- context [fold_left ?f ?cbs ?t0] =>
      destruct (runAfterRender_fold_frame cbs t0) as (H1 & H2 & H3 & H4 & H5 & H6 & H7);
      set (t1 := fold_left f cbs t0) in *
  end.
  unfold renders in *. simpl in H1, H2, H3, H4, H5, H6, H7.
  rewrite flat_map_app in H1. simpl in H1.
  assert (Hnone : pendingSnapshot
                    (if onTreeChange hooks
                     then emit OnTreeChange (set_isRendering false t1)
                     else set_isRendering false t1) = None).
  { destruct (onTreeChange hooks); simpl; exact H4. }
  rewrite Hnone.
  destruct (onTreeChange hooks); simpl; rewrite ?flat_map_app; simpl; rewrite ?app_nil_r;
    repeat split; auto.
Qed.
Lemma advance_add a : forall b w,
  advance hooks (a + b) w = advance hooks b (advance hooks a w).
Proof. induction a as [|a IH]; intros b w; simpl; [reflexivity | apply IH]. Qed.

(** Until its deadline a timer does not fire. *)
Lemma advance_waiting k : forall w D cb,
  renderTimer (tree w) = Some (mkTimer D cb) -> (clock w + k < D)%nat ->
  advance hooks k w = mkClocked (clock w + k) (tree w).
Proof.
  induction k as [|k IH]; intros w D cb Ht Hlt; simpl.
  - rewrite Nat.add_0_r. now destruct w.
  - assert (Htick : tick hooks w = mkClocked (S (clock w)) (tree w)).
    { unfold tick. rewrite Ht. simpl.
      destruct (Nat.leb_spec D (S (clock w))); [lia | reflexivity]. }
    rewrite Htick. rewrite (IH _ D cb); simpl; [f_equal; lia | assumption | lia].
Qed.

(** Without a timer nothing happens as time passes. *)
Lemma advance_quiet k : forall w,
  renderTimer (tree w) = None ->
  advance hooks k w = mkClocked (clock w + k) (tree w).
Proof.
  induction k as [|k IH]; intros w Ht; simpl.
  - rewrite Nat.add_0_r. now destruct w.
  - assert (Htick : tick hooks w = mkClocked (S (clock w)) (tree w)).
    { unfold tick. now rewrite Ht. }
    rewrite Htick, IH; simpl; [f_equal; lia | assumption].
Qed.




End Debounce.




(* ------------------------------------------------------------------ *)
(** ** The reorder queue *)

Lemma NoDup_map_In_eq (A B : Type) (key : A -> B) (xs : list A) (x y : A) :
  NoDup (map key xs) -> In x xs -> In y xs -> key x = key y -> x = y.
Proof.
  induction xs as [|a xs IH]; simpl; intros ND Hx Hy E; [tauto|].
  inversion ND as [|? ? Hn ND']; subst.
  destruct Hx as [->|Hx], Hy as [->|Hy]; auto.
  - exfalso. apply Hn. rewrite E. now apply in_map.
  - exfalso. apply Hn. rewrite <- E. now apply in_map.
Qed.

Section QueueAtRest.
Variable Event : Type.
Variable Handled : Type.
Variable processEvent : Event -> Handled -> Completion unit * Handled.

(** While no timer is due, time passing changes nothing but the clock. *)
Lemma queue_advance_waiting k : forall (q : EventQueue Event Handled),
  (forall tm, In tm (timers q) -> (now q + k < deadline tm)%nat) ->
  queue_advance processEvent k q
  = mkQueue (pendingEvents q) (pendingEventTimers q) (handled q) (errors q) (replays q)
            (now q + k) (timers q) (nextHandle q).
Proof.
  induction k as [|k IH]; intros q Hlate; simpl.
  - rewrite Nat.add_0_r. now destruct q.
  - assert (Hdue : filter (fun tm => (deadline tm <=? S (now q))%nat) (timers q) = []).
    { assert (G : forall l, (forall tm, In tm l -> (S (now q) < deadline tm)%nat) ->
                            filter (fun tm => (deadline tm <=? S (now q))%nat) l = []).
      { induction l as [|x l IHl]; intros Hl; simpl; [reflexivity|].
        destruct (Nat.leb_spec (deadline x) (S (now q))) as [L|L].
        - specialize (Hl x (or_introl eq_refl)). lia.
        - apply IHl. intros tm Htm. apply Hl. now right. }
      apply G. intros tm Htm. specialize (Hlate tm Htm). lia. }
    assert (Hlater : filter (fun tm => negb (deadline tm <=? S (now q))%nat) (timers q)
                     = timers q).
    { assert (G : forall l, (forall tm, In tm l -> (S (now q) < deadline tm)%nat) ->
                            filter (fun tm => negb (deadline tm <=? S (now q))%nat) l = l).
      { induction l as [|x l IHl]; intros Hl; simpl; [reflexivity|].
        destruct (Nat.leb_spec (deadline x) (S (now q))) as [L|L]; simpl.
        - specialize (Hl x (or_introl eq_refl)). lia.
        - f_equal. apply IHl. intros tm Htm. apply Hl. now right. }
      apply G. intros tm Htm. specialize (Hlate tm Htm). lia. }
    unfold queue_tick. rewrite Hdue, Hlater. cbn [fold_left].
    rewrite IH.
    + cbn [pendingEvents pendingEventTimers handled errors replays now timers nextHandle].
      f_equal. lia.
    + cbn [timers now]. intros tm Htm. specialize (Hlate tm Htm). lia.
Qed.

(** Without timers nothing happens as time passes. *)
Lemma queue_advance_no_timers k : forall (q : EventQueue Event Handled),
  timers q = [] ->
  queue_advance processEvent k q
  = mkQueue (pendingEvents q) (pendingEventTimers q) (handled q) (errors q) (replays q)
            (now q + k) [] (nextHandle q).
Proof.
  intros q Ht. rewrite queue_advance_waiting.
  - now rewrite Ht.
  - rewrite Ht. intros tm [].
Qed.

(** The loop of processPending gives each event to the handler in the
    state the events before it left, and records what came of it. *)
Lemma replayEvents_spec (l : list (Pending Event)) : forall h,
  fst (replayEvents processEvent l h) = handled_after processEvent l h
  /\ forall before p after,
       l = before ++ p :: after ->
       nth_error (snd (replayEvents processEvent l h)) (List.length before)
       = Some (pending_event p,
               fst (processEvent (pending_event p) (handled_after processEvent before h))).
Proof.
  induction l as [|x l IH]; intros h.
  - split; [reflexivity|]. intros [|b before] p after E; discriminate.
  - destruct (IH (snd (processEvent (pending_event x) h))) as [I1 I2].
    split; [exact I1|].
    intros [|b before] p after E.
    + injection E as E1 E2. subst x. reflexivity.
    + injection E as E1 E2. subst b. exact (I2 before p after E2).
Qed.

Lemma replayErrors_reports (attempts : list (Event * Completion unit)) :
  replayErrors attempts = failure_reports attempts.
Proof.
  unfold replayErrors, failure_reports.
  induction attempts as [|[ev [u|message]] attempts IH]; simpl; [reflexivity|exact IH|].
  now rewrite IH.
Qed.

(** processPending for an entity with buffered events, written out. *)
Lemma processPending_pass e (q : EventQueue Event Handled) :
  buffer e q <> [] ->
  processPending processEvent e q
  = mkQueue (JsMap.delete (pendingEvents q) e) (JsMap.delete (pendingEventTimers q) e)
            (fst (replayEvents processEvent (js_sort (@byTimestamp Event) (buffer e q))
                               (handled q)))
            (errors q
             ++ replayErrors (snd (replayEvents processEvent
                                     (js_sort (@byTimestamp Event) (buffer e q)) (handled q))))
            (replays q
             ++ [mkReplay e (now q)
                   (snd (replayEvents processEvent
                           (js_sort (@byTimestamp Event) (buffer e q)) (handled q)))])
            (now q) (timers q) (nextHandle q).
Proof.
  unfold buffer, processPending.
  destruct (JsMap.get (pendingEvents q) e) as [[|p l]|]; intros H;
    [congruence | reflexivity | congruence].
Qed.
End QueueAtRest.

Section ReorderQueue.
Variable Event : Type.
Variable Handled : Type.
Variable processEvent : Event -> Handled -> Completion unit * Handled.
Variable entityId : Event -> option string.
Variable updatedAt : Event -> option string.
Variable Date_parse : string -> option Z.
Variable reorderDelayMs : nat.
Hypothesis delay_positive : (0 < reorderDelayMs)%nat.

Implicit Types (q : EventQueue Event Handled) (e : string).

Lemma replayEvents_events (l : list (Pending Event)) : forall h,
  map fst (snd (replayEvents processEvent l h)) = map (@pending_event Event) l.
Proof. induction l as [|p l IH]; intros h; simpl; [reflexivity | now rewrite IH]. Qed.

Lemma replayErrors_In (attempts : list (Event * Completion unit)) ev message :
  In (ev, Throw message) attempts ->
  In ("Error while handling event", message) (replayErrors attempts).
Proof.
  intros H. unfold replayErrors. apply in_flat_map. exists (ev, Throw message).
  split; [assumption | simpl; auto].
Qed.

(** A pass for another entity leaves [e] alone. *)
Lemma processPending_other e e' q :
  e' <> e ->
  let q' := processPending processEvent e' q in
  buffer e q' = buffer e q
  /\ replays_for e q' = replays_for e q
  /\ JsMap.get (pendingEventTimers q') e = JsMap.get (pendingEventTimers q) e
  /\ timers q' = timers q /\ now q' = now q /\ nextHandle q' = nextHandle q
  /\ incl (errors q) (errors q').
Proof.
  intros Hne. unfold processPending.
  destruct (JsMap.get (pendingEvents q) e') as [[|p l]|]; simpl;
    try (repeat split; auto using incl_refl).
  - unfold buffer. simpl. now rewrite get_delete_other.
  - unfold replays_for. simpl. rewrite filter_app. simpl.
    destruct (String.eqb_spec e' e); [contradiction|]. now rewrite app_nil_r.
  - now rewrite get_delete_other.
  - apply incl_appl, incl_refl.
Qed.

(** The pass for [e]: its events are replayed in sorted order, the
    failures reported, the buffer and the timer entry deleted. *)
Lemma processPending_same e q :
  buffer e q <> [] ->
  let attempts := snd (replayEvents processEvent (js_sort (@byTimestamp Event) (buffer e q))
                                    (handled q)) in
  let q' := processPending processEvent e q in
  buffer e q' = []
  /\ replays_for e q' = replays_for e q ++ [mkReplay e (now q) attempts]
  /\ JsMap.get (pendingEventTimers q') e = None
  /\ errors q' = errors q ++ replayErrors attempts
  /\ timers q' = timers q /\ now q' = now q /\ nextHandle q' = nextHandle q.
Proof.
  unfold buffer, processPending.
  destruct (JsMap.get (pendingEvents q) e) as [[|p l]|]; simpl; try congruence.
  intros _. repeat split.
  - unfold buffer. simpl. now rewrite get_delete_same.
  - unfold replays_for. simpl. rewrite filter_app. simpl. now rewrite String.eqb_refl.
  - apply get_delete_same.
Qed.

(** Passes for other entities, one after the other. *)
Lemma fold_pending_other e (due : list WindowTimer) : forall q,
  (forall tm, In tm due -> target tm <> e) ->
  let q' := fold_left (fun q tm => processPending processEvent (target tm) q) due q in
  buffer e q' = buffer e q
  /\ replays_for e q' = replays_for e q
  /\ JsMap.get (pendingEventTimers q') e = JsMap.get (pendingEventTimers q) e
  /\ timers q' = timers q /\ now q' = now q /\ nextHandle q' = nextHandle q
  /\ incl (errors q) (errors q').
Proof.
  induction due as [|tm due IH]; intros q Hne; simpl.
  - repeat split; auto using incl_refl.
  - destruct (@processPending_other e (target tm) q) as (A1 & A2 & A3 & A4 & A5 & A6 & A7);
      [apply Hne; now left|].
    destruct (IH (processPending processEvent (target tm) q)) as (B1 & B2 & B3 & B4 & B5 & B6 & B7);
      [intros; apply Hne; now right|].
    repeat split; try congruence. eapply incl_tran; eauto.
Qed.

(** A registered timer is the only one of its entity. *)
Lemma wf_queue_one_timer q tm1 tm2 :
  wf_queue q -> In tm1 (timers q) -> In tm2 (timers q) ->
  target tm1 = target tm2 -> tm1 = tm2.
Proof.
  intros (ND & Hreg & _) H1 H2 E.
  apply (NoDup_map_In_eq handle (timers q)); try assumption.
  destruct (Hreg _ H1) as (_ & _ & G1 & _). destruct (Hreg _ H2) as (_ & _ & G2 & _).
  rewrite E in G1. congruence.
Qed.
Lemma filter_filter_implied (A : Type) (f g : A -> bool) (l : list A) :
  (forall x, In x l -> f x = true -> g x = true) -> filter f (filter g l) = filter f l.
Proof.
  induction l as [|a l IH]; simpl; intros H; [reflexivity|].
  destruct (f a) eqn:Ef.
  - rewrite (H a (or_introl eq_refl) Ef). simpl. rewrite Ef. f_equal. apply IH. auto.
  - destruct (g a); simpl; rewrite ?Ef; apply IH; auto.
Qed.

Lemma timers_for_In e q tm :
  In tm (timers_for e q) <-> In tm (timers q) /\ target tm = e.
Proof. unfold timers_for. rewrite filter_In. now rewrite String.eqb_eq. Qed.

Lemma fold_pending_host (due : list WindowTimer) : forall q,
  let q' := fold_left (fun q tm => processPending processEvent (target tm) q) due q in
  timers q' = timers q /\ now q' = now q /\ nextHandle q' = nextHandle q.
Proof.
  induction due as [|tm due IH]; intros q; simpl; [auto|].
  destruct (IH (processPending processEvent (target tm) q)) as (A1 & A2 & A3).
  rewrite A1, A2, A3. unfold processPending.
  destruct (JsMap.get (pendingEvents q) (target tm)) as [[|p l]|]; simpl; auto.
Qed.

(** The passes of the due timers delete the registrations of their
    entities. *)
Lemma fold_pending_deletes (due : list WindowTimer) : forall q,
  NoDup (map target due) ->
  (forall tm, In tm due -> buffer (target tm) q <> []) ->
  forall tm, In tm due ->
    JsMap.get (pendingEventTimers
                 (fold_left (fun q tm => processPending processEvent (target tm) q) due q))
              (target tm) = None.
Proof.
  induction due as [|tm0 due IH]; intros q ND Hbuf tm Hin; simpl in *; [tauto|].
  inversion ND as [|? ? Hn ND']; subst.
  destruct Hin as [->|Hin].
  - destruct (@fold_pending_other (target tm) due (processPending processEvent (target tm) q))
      as (_ & _ & A & _).
    { intros x Hx E. apply Hn. rewrite <- E. now apply in_map. }
    rewrite A.
    destruct (@processPending_same (target tm) q) as (_ & _ & B & _); [apply Hbuf; now left|].
    exact B.
  - apply IH; try assumption.
    intros x Hx.
    destruct (@processPending_other (target x) (target tm0) q) as (A & _).
    { intros E. apply Hn. rewrite E. now apply in_map. }
    rewrite A. apply Hbuf. now right.
Qed.

Lemma NoDup_targets q (l : list WindowTimer) :
  wf_queue q -> NoDup l -> (forall tm, In tm l -> In tm (timers q)) ->
  NoDup (map target l).
Proof.
  intros Hwf. induction l as [|tm l IH]; simpl; intros ND Hin; [constructor|].
  inversion ND as [|? ? Hn ND']; subst. constructor.
  - intros Ht. apply in_map_iff in Ht. destruct Ht as [x [E Hx]].
    apply Hn. replace tm with x; [assumption|].
    apply (@wf_queue_one_timer q x tm Hwf); auto.
  - apply IH; auto.
Qed.

Lemma tick_wf q : wf_queue q -> wf_queue (queue_tick processEvent q).
Proof.
  intros Hwf. pose proof Hwf as (ND & Hreg & Hback). unfold queue_tick.
  set (due := filter (fun tm => (deadline tm <=? S (now q))%nat) (timers q)).
  set (later := filter (fun tm => negb (deadline tm <=? S (now q))%nat) (timers q)).
  set (q0 := mkQueue _ _ _ _ _ _ _ _).
  assert (Hdue_in : forall tm, In tm due -> In tm (timers q)).
  { intros tm Htm. unfold due in Htm. now apply filter_In in Htm. }
  assert (Hsplit : forall tm, In tm (timers q) -> In tm due \/ In tm later).
  { intros tm Htm. unfold due, later.
    destruct (deadline tm <=? S (now q))%nat eqn:E; [left|right]; apply filter_In;
      rewrite E; auto. }
  assert (NDdue : NoDup (map target due)).
  { apply (@NoDup_targets q due Hwf); [|exact Hdue_in].
    unfold due. apply NoDup_filter. eapply NoDup_map_inv; eauto. }
  assert (Hframe : forall x, (forall tm, In tm due -> target tm <> x) ->
            JsMap.get (pendingEventTimers
                         (fold_left (fun q tm => processPending processEvent (target tm) q) due q0)) x
            = JsMap.get (pendingEventTimers q) x
            /\ buffer x (fold_left (fun q tm => processPending processEvent (target tm) q) due q0)
               = buffer x q).
  { intros x Hx. destruct (@fold_pending_other x due q0 Hx) as (H1 & _ & H & _). auto. }
  assert (Hlater : forall tm tm', In tm later -> In tm' due -> target tm' <> target tm).
  { intros tm tm' Htm Hdue E. unfold later in Htm. apply filter_In in Htm.
    destruct Htm as [Htm Hlate]. pose proof (Hdue_in _ Hdue) as Hin'.
    assert (tm' = tm) by (eapply wf_queue_one_timer; eauto). subst tm'.
    unfold due in Hdue. apply filter_In in Hdue. destruct Hdue as [_ Hd].
    rewrite Hd in Hlate. discriminate. }
  destruct (fold_pending_host due q0) as (HT & HN & HH).
  unfold q0 in HT, HN, HH. simpl in HT, HN, HH. fold q0 in HT, HN, HH.
  split; [|split].
  - rewrite HT. unfold later. now apply NoDup_map_filter.
  - rewrite HT, HN, HH. intros tm Htm.
    destruct (Hframe (target tm)) as [F1 F2]; [intros tm' Hdue; now apply Hlater|].
    unfold later in Htm. apply filter_In in Htm. destruct Htm as [Hin Hlate].
    destruct (Hreg _ Hin) as (G1 & G2 & G3 & G4).
    split; [assumption|]. split.
    + destruct (Nat.leb_spec (deadline tm) (S (now q))); [discriminate | lia].
    + split; [rewrite F1; exact G3 | rewrite F2; exact G4].
  - rewrite HT. intros x h Hx.
    destruct (in_dec string_dec x (map target due)) as [Hd|Hd].
    + apply in_map_iff in Hd. destruct Hd as [tm [E Htm]]. subst x.
      rewrite (@fold_pending_deletes due q0 NDdue) in Hx; [discriminate| |exact Htm].
      intros tm' Htm'. destruct (Hreg _ (Hdue_in _ Htm')) as (_ & _ & _ & G). exact G.
    + destruct (Hframe x) as [F1 _].
      { intros tm Htm E. apply Hd. rewrite <- E. now apply in_map. }
      rewrite F1 in Hx. destruct (Hback _ _ Hx) as (tm & Hin & Eh & Et).
      exists tm. split; [|auto].
      destruct (Hsplit _ Hin) as [Hdue|Hl]; [|exact Hl].
      exfalso. apply Hd. rewrite <- Et. now apply in_map.
Qed.

(** A tick before the timer of [e] is due does not concern [e]. *)
Lemma tick_other e q :
  wf_queue q ->
  (forall tm, In tm (timers_for e q) -> (S (now q) < deadline tm)%nat) ->
  let q' := queue_tick processEvent q in
  buffer e q' = buffer e q
  /\ replays_for e q' = replays_for e q
  /\ timers_for e q' = timers_for e q
  /\ now q' = S (now q)
  /\ incl (errors q) (errors q').
Proof.
  intros Hwf Hlate. unfold queue_tick.
  set (due := filter (fun tm => (deadline tm <=? S (now q))%nat) (timers q)).
  set (q0 := mkQueue _ _ _ _ _ _ _ _).
  destruct (@fold_pending_other e due q0) as (A1 & A2 & A3 & A4 & A5 & A6 & A7).
  { intros tm Hdue E. unfold due in Hdue. apply filter_In in Hdue. destruct Hdue as [Hin Hd].
    assert (S (now q) < deadline tm)%nat by (apply Hlate, timers_for_In; auto).
    apply Nat.leb_le in Hd. lia. }
  split; [exact A1|]. split; [exact A2|]. split; [|split; [exact A5 | exact A7]].
  unfold timers_for at 1. rewrite A4. unfold q0. simpl.
  apply filter_filter_implied. intros tm Hin Ht. apply String.eqb_eq in Ht.
  assert (S (now q) < deadline tm)%nat by (apply Hlate, timers_for_In; auto).
  destruct (Nat.leb_spec (deadline tm) (S (now q))); [lia | reflexivity].
Qed.

Lemma advance_other e k : forall q,
  wf_queue q ->
  (forall tm, In tm (timers_for e q) -> (now q + k < deadline tm)%nat) ->
  let q' := queue_advance processEvent k q in
  wf_queue q'
  /\ buffer e q' = buffer e q
  /\ replays_for e q' = replays_for e q
  /\ timers_for e q' = timers_for e q
  /\ now q' = (now q + k)%nat
  /\ incl (errors q) (errors q').
Proof.
  induction k as [|k IH]; intros q Hwf Hlate; simpl.
  - rewrite Nat.add_0_r. split; [exact Hwf|].
    split; [reflexivity|]. split; [reflexivity|]. split; [reflexivity|].
    split; [reflexivity | apply incl_refl].
  - destruct (@tick_other e q Hwf) as (A1 & A2 & A3 & A4 & A5).
    { intros tm Htm. apply Hlate in Htm. lia. }
    destruct (IH (queue_tick processEvent q)) as (B0 & B1 & B2 & B3 & B4 & B5).
    { now apply tick_wf. }
    { intros tm Htm. rewrite A3 in Htm. apply Hlate in Htm. rewrite A4. lia. }
    split; [exact B0|]. split; [congruence|]. split; [congruence|]. split; [congruence|].
    split; [rewrite B4, A4; lia | eapply incl_tran; eauto].
Qed.
(** The tick at which the timer of [e] expires: one pass for [e], which
    starts in the state [h] of the handler. *)
Lemma tick_expiry e q tm :
  wf_queue q -> timers_for e q = [tm] -> deadline tm = S (now q) -> buffer e q <> [] ->
  let q' := queue_tick processEvent q in
  exists h attempts,
    attempts
    = snd (replayEvents processEvent (js_sort (@byTimestamp Event) (buffer e q)) h)
    /\ replays_for e q' = replays_for e q ++ [mkReplay e (S (now q)) attempts]
    /\ buffer e q' = []
    /\ timers_for e q' = []
    /\ now q' = S (now q)
    /\ incl (errors q) (errors q')
    /\ (forall ev message,
           In (ev, Throw message) attempts ->
           In ("Error while handling event", message) (errors q'))
    /\ (timers q = [tm] ->
        h = handled q
        /\ handled q'
           = fst (replayEvents processEvent (js_sort (@byTimestamp Event) (buffer e q)) h)
        /\ errors q' = errors q ++ replayErrors attempts
        /\ timers q' = []).
Proof.
  intros Hwf Htm Hdl Hbuf. pose proof Hwf as [ND Hreg]. unfold queue_tick.
  set (due := filter (fun tm => (deadline tm <=? S (now q))%nat) (timers q)).
  set (later := filter (fun tm => negb (deadline tm <=? S (now q))%nat) (timers q)).
  set (q0 := mkQueue _ _ _ _ _ _ _ _).
  assert (Hin : In tm (timers q) /\ target tm = e).
  { apply timers_for_In. rewrite Htm. now left. }
  destruct Hin as [Hin Htarget].
  assert (Hdue : In tm due).
  { unfold due. apply filter_In. split; [assumption|]. apply Nat.leb_le. lia. }
  assert (Hunique : forall x, In x (timers q) -> target x = e -> x = tm).
  { intros x Hx Ex. eapply wf_queue_one_timer; eauto. congruence. }
  assert (NDdue : NoDup due).
  { unfold due. apply NoDup_filter. eapply NoDup_map_inv; eauto. }
  pose proof Hdue as Hdue0.
  apply in_split in Hdue. destruct Hdue as (l1 & l2 & Hsplit).
  assert (Hl1 : forall x, In x l1 -> target x <> e).
  { intros x Hx Ex. assert (Hxd : In x due) by (rewrite Hsplit; apply in_or_app; now left).
    unfold due in Hxd. apply filter_In in Hxd. destruct Hxd as [Hxt _].
    pose proof (Hunique x Hxt Ex). subst x.
    rewrite Hsplit in NDdue. apply NoDup_remove_2 in NDdue. apply NDdue.
    apply in_or_app. now left. }
  assert (Hl2 : forall x, In x l2 -> target x <> e).
  { intros x Hx Ex.
    assert (Hxd : In x due) by (rewrite Hsplit; apply in_or_app; right; now right).
    unfold due in Hxd. apply filter_In in Hxd. destruct Hxd as [Hxt _].
    pose proof (Hunique x Hxt Ex). subst x.
    rewrite Hsplit in NDdue. apply NoDup_remove_2 in NDdue. apply NDdue.
    apply in_or_app. now right. }
  assert (Halone : timers q = [tm] -> l1 = [] /\ l2 = [] /\ later = []).
  { intros Ht. unfold due, later in *. rewrite Ht in *. cbn [filter] in *.
    destruct (Nat.leb_spec (deadline tm) (S (now q))) as [_|L]; [|lia].
    cbn [negb]. split; [|split; [|reflexivity]].
    - destruct l1 as [|x l1]; [reflexivity|]. injection Hsplit as _ E.
      destruct l1; discriminate.
    - destruct l1 as [|x l1].
      + injection Hsplit as E. now symmetry.
      + injection Hsplit as _ E. destruct l1; discriminate. }
  rewrite Hsplit, fold_left_app. simpl. rewrite Htarget.
  set (qa := fold_left (fun q tm => processPending processEvent (target tm) q) l1 q0).
  destruct (@fold_pending_other e l1 q0 Hl1) as (A1 & A2 & A3 & A4 & A5 & A6 & A7).
  fold qa in A1, A2, A3, A4, A5, A6, A7.
  assert (Hbufa : buffer e qa <> []) by (rewrite A1; exact Hbuf).
  pose proof (@processPending_pass Event Handled processEvent e qa Hbufa) as Hpass.
  destruct (@processPending_same e qa Hbufa) as (B1 & B2 & B3 & B4 & B5 & B6 & B7).
  set (qb := processPending processEvent e qa) in *.
  destruct (@fold_pending_other e l2 qb Hl2) as (C1 & C2 & C3 & C4 & C5 & C6 & C7).
  set (qc := fold_left (fun q tm => processPending processEvent (target tm) q) l2 qb) in *.
  assert (Ebuf : buffer e qa = buffer e q) by exact A1.
  exists (handled qa),
         (snd (replayEvents processEvent (js_sort (@byTimestamp Event) (buffer e q))
                            (handled qa))).
  rewrite Ebuf in B2, B4, Hpass.
  split; [reflexivity|].
  split; [rewrite C2, B2, A2, A5; reflexivity|].
  split; [rewrite C1; exact B1|].
  split.
  { unfold timers_for. rewrite C4, B5, A4. unfold q0. simpl.
    destruct (filter (fun tm0 => String.eqb (target tm0) e) later) as [|x l] eqn:E;
      [reflexivity|exfalso].
    assert (Hx : In x (filter (fun tm0 => String.eqb (target tm0) e) later))
      by (rewrite E; now left).
    apply filter_In in Hx. destruct Hx as [Hx Ex]. apply String.eqb_eq in Ex.
    unfold later in Hx. apply filter_In in Hx. destruct Hx as [Hxt Hlate].
    pose proof (Hunique x Hxt Ex). subst x.
    destruct (Nat.leb_spec (deadline tm) (S (now q))); [discriminate | lia]. }
  split; [rewrite C5, B6, A5; reflexivity|].
  split.
  { eapply incl_tran; [exact A7|]. eapply incl_tran; [|exact C7].
    rewrite B4. apply incl_appl, incl_refl. }
  split.
  { intros ev message Hatt. apply C7. rewrite B4. apply in_or_app. right.
    eapply replayErrors_In; eauto. }
  intros Ht. destruct (Halone Ht) as (E1 & E2 & E3).
  assert (Eqa : qa = q0) by (unfold qa; rewrite E1; reflexivity).
  assert (Eqc : qc = qb) by (unfold qc; rewrite E2; reflexivity).
  rewrite Eqc, Hpass, Eqa.
  cbn [handled errors timers]. unfold q0. cbn [handled errors timers].
  rewrite E3. auto.
Qed.

(** Once [e] has no timer, time passing leaves it alone. *)
Lemma advance_settled e k q :
  wf_queue q -> timers_for e q = [] ->
  let q' := queue_advance processEvent k q in
  buffer e q' = buffer e q
  /\ replays_for e q' = replays_for e q
  /\ timers_for e q' = []
  /\ incl (errors q) (errors q').
Proof.
  intros Hwf Hnone.
  destruct (@advance_other e k q Hwf) as (_ & A1 & A2 & A3 & _ & A5).
  { intros tm Htm. rewrite Hnone in Htm. destruct Htm. }
  simpl. rewrite A3. auto.
Qed.

Lemma filter_nil_iff (A : Type) (f : A -> bool) (l : list A) :
  (forall x, In x l -> f x = false) -> filter f l = [].
Proof.
  induction l as [|a l IH]; simpl; intros H; [reflexivity|].
  rewrite (H a (or_introl eq_refl)). apply IH. auto.
Qed.

(** What queueForReorder does to the queue, for an entity with an id. *)
Lemma queueForReorder_spec e ev ts q :
  wf_queue q -> e <> "" ->
  let q' := queueForReorder reorderDelayMs e ev ts q in
  wf_queue q'
  /\ buffer e q' = buffer e q ++ [mkPending ev ts]
  /\ timers_for e q' = [mkWindowTimer (nextHandle q) (now q + reorderDelayMs) e]
  /\ (forall x, x <> e -> buffer x q' = buffer x q /\ timers_for x q' = timers_for x q)
  /\ replays q' = replays q /\ now q' = now q /\ errors q' = errors q
  /\ handled q' = handled q.
Proof.
  intros (ND & Hreg & Hback) Hne. unfold queueForReorder. simpl.
  set (cleared := match JsMap.get (pendingEventTimers q) e with
                  | Some h0 => clearTimeout h0 (timers q)
                  | None => timers q
                  end).
  set (pe := JsMap.set _ e _).
  assert (Hbuf_e : JsMap.get pe e = Some (buffer e q ++ [mkPending ev ts])).
  { unfold pe. rewrite get_set_same. f_equal. unfold buffer, JsMap.has.
    destruct (JsMap.get (pendingEvents q) e) eqn:Eg.
    - now rewrite Eg.
    - now rewrite get_set_same. }
  assert (Hbuf_x : forall x, x <> e -> JsMap.get pe x = JsMap.get (pendingEvents q) x).
  { intros x Hx. unfold pe. rewrite get_set_other by congruence.
    destruct (JsMap.has (pendingEvents q) e); [reflexivity|].
    rewrite get_set_other by congruence. reflexivity. }
  assert (Hsub : forall tm, In tm cleared -> In tm (timers q) /\ target tm <> e).
  { intros tm Htm. unfold cleared in Htm.
    destruct (JsMap.get (pendingEventTimers q) e) as [h0|] eqn:Eg.
    - unfold clearTimeout in Htm. apply filter_In in Htm. destruct Htm as [Hin Hh].
      split; [assumption|]. intros Et. destruct (Hreg _ Hin) as (_ & _ & G & _).
      rewrite Et, Eg in G. inversion G; subst h0. rewrite Nat.eqb_refl in Hh. discriminate.
    - split; [assumption|]. intros Et. destruct (Hreg _ Htm) as (_ & _ & G & _).
      rewrite Et, Eg in G. discriminate. }
  assert (Hkeep : forall tm, In tm (timers q) -> target tm <> e -> In tm cleared).
  { intros tm Htm Ht. unfold cleared.
    destruct (JsMap.get (pendingEventTimers q) e) as [h0|] eqn:Eg; [|assumption].
    unfold clearTimeout. apply filter_In. split; [assumption|].
    destruct (Nat.eqb_spec (handle tm) h0) as [Eh|]; [exfalso|reflexivity].
    destruct (Hback _ _ Eg) as (tm' & Hin' & Eh' & Et').
    assert (tm = tm') by (apply (NoDup_map_In_eq handle (timers q)); auto; congruence).
    subst tm'. contradiction. }
  assert (NDc : NoDup (map handle cleared)).
  { unfold cleared. destruct (JsMap.get (pendingEventTimers q) e); [|assumption].
    unfold clearTimeout. now apply NoDup_map_filter. }
  assert (Hfilter : forall x, x <> e ->
            filter (fun tm => String.eqb (target tm) x) cleared
            = filter (fun tm => String.eqb (target tm) x) (timers q)).
  { intros x Hx.
    assert (Hc : forall tm, In tm (timers q) -> target tm = x -> In tm cleared)
      by (intros tm Htm Et; apply Hkeep; [assumption | congruence]).
    revert Hc. unfold cleared.
    destruct (JsMap.get (pendingEventTimers q) e) as [h0|]; [|reflexivity].
    intros Hc. unfold clearTimeout in *. apply filter_filter_implied. intros tm Htm Et.
    apply String.eqb_eq in Et. specialize (Hc tm Htm Et). now apply filter_In in Hc. }
  split; [split; [|split]|]; simpl.
  - rewrite map_app. simpl. apply NoDup_app; [assumption | repeat constructor; simpl; tauto|].
    intros x Hx [<-|[]]. apply in_map_iff in Hx. destruct Hx as [tm [Eh Htm]].
    apply Hsub in Htm. destruct Htm as [Htm _]. destruct (Hreg _ Htm) as (G & _). lia.
  - intros tm Htm. apply in_app_or in Htm. destruct Htm as [Htm|[<-|[]]]; simpl.
    + destruct (Hsub _ Htm) as [Hin Ht]. destruct (Hreg _ Hin) as (G1 & G2 & G3 & G4).
      split; [lia|]. split; [assumption|].
      split; [rewrite get_set_other; [assumption | congruence]|].
      unfold buffer in *. simpl. rewrite Hbuf_x; assumption.
    + split; [lia|]. split; [lia|]. split; [apply get_set_same|].
      unfold buffer. simpl. rewrite Hbuf_e. intros H. apply app_eq_nil in H.
      destruct H; discriminate.
  - intros x h Hx. destruct (String.eqb_spec x e) as [->|Hxe].
    + rewrite get_set_same in Hx. inversion Hx; subst h.
      eexists. split; [apply in_or_app; right; left; reflexivity | simpl; auto].
    + rewrite get_set_other in Hx by congruence.
      destruct (Hback _ _ Hx) as (tm & Hin & Eh & Et).
      exists tm. split; [|auto]. apply in_or_app. left. apply Hkeep; congruence.
  - split; [unfold buffer; simpl; now rewrite Hbuf_e|].
    split.
    + unfold timers_for. simpl. rewrite filter_app. simpl. rewrite String.eqb_refl.
      rewrite filter_nil_iff; [reflexivity|].
      intros tm Htm. apply Hsub in Htm. destruct Htm as [_ Ht].
      destruct (String.eqb_spec (target tm) e); congruence.
    + split; [|auto].
      intros x Hx. split.
      * unfold buffer. simpl. now rewrite Hbuf_x.
      * unfold timers_for. simpl. rewrite filter_app. simpl.
        destruct (String.eqb_spec e x); [congruence|]. rewrite app_nil_r. now apply Hfilter.
Qed.

Lemma fails_for_true e ev q :
  fails_for processEvent entityId e ev q = true ->
  exists message h, processEvent ev (handled q) = (Throw message, h) /\ entityId ev = Some e.
Proof.
  unfold fails_for. rewrite andb_true_iff, strict_eq_Some. intros [Ht He].
  destruct (processEvent ev (handled q)) as [[u|message] h]; [discriminate|]. eauto.
Qed.

(** A failed event with an entity id is buffered and (re)arms the one
    timer of the entity. *)
Lemma process_failing e ev q :
  wf_queue q -> e <> "" -> fails_for processEvent entityId e ev q = true ->
  let q' := process processEvent entityId updatedAt Date_parse reorderDelayMs ev q in
  wf_queue q'
  /\ buffer e q' = buffer e q ++ [mkPending ev (timestampOf updatedAt Date_parse ev q)]
  /\ timers_for e q' = [mkWindowTimer (nextHandle q) (now q + reorderDelayMs) e]
  /\ replays q' = replays q
  /\ now q' = now q
  /\ errors q' = errors q.
Proof.
  intros Hwf Hne Hfail. destruct (fails_for_true e ev q Hfail) as (message & h & Hp & Hid).
  unfold process. rewrite Hp, Hid. simpl. destruct (String.eqb_spec e ""); [contradiction|].
  simpl.
  set (q0 := mkQueue (pendingEvents q) (pendingEventTimers q) h (errors q) (replays q)
                     (now q) (timers q) (nextHandle q)).
  assert (Hwf0 : wf_queue q0) by exact Hwf.
  destruct (@queueForReorder_spec e ev (timestampOf updatedAt Date_parse ev q) q0 Hwf0 Hne)
    as (A0 & A1 & A2 & _ & A4 & A5 & A6 & _).
  unfold timestampOf in *. simpl in *. auto 10.
Qed.

(** Any other event leaves the entity [e] alone. *)
Lemma process_unrelated e ev q :
  wf_queue q -> fails_for processEvent entityId e ev q = false ->
  let q' := process processEvent entityId updatedAt Date_parse reorderDelayMs ev q in
  wf_queue q'
  /\ buffer e q' = buffer e q
  /\ timers_for e q' = timers_for e q
  /\ replays q' = replays q
  /\ now q' = now q
  /\ incl (errors q) (errors q').
Proof.
  intros Hwf Hfail. unfold fails_for in Hfail. unfold process.
  destruct (processEvent ev (handled q)) as [[u|message] h] eqn:Hp; simpl in Hfail.
  - split; [exact Hwf|]. repeat split; auto using incl_refl.
  - destruct (entityId ev) as [x|] eqn:Hid; simpl in Hfail.
    + simpl. destruct (String.eqb_spec x "") as [->|Hx]; simpl.
      * split; [exact Hwf|]. repeat split; auto. apply incl_appl, incl_refl.
      * set (q0 := mkQueue (pendingEvents q) (pendingEventTimers q) h (errors q) (replays q)
                           (now q) (timers q) (nextHandle q)).
        assert (Hwf0 : wf_queue q0) by exact Hwf.
        match goal with
        | |- context [queueForReorder _ x ev ?ts q0] =>
            destruct (@queueForReorder_spec x ev ts q0 Hwf0 Hx)
              as (A0 & _ & _ & A3 & A4 & A5 & A6 & _)
        end.
        destruct (A3 e) as [B1 B2].
        { intros ->. rewrite String.eqb_refl in Hfail. discriminate. }
        split; [exact A0|]. split; [exact B1|]. split; [exact B2|].
        split; [exact A4|]. split; [exact A5|].
        unfold queueForReorder. simpl. apply incl_refl.
    + simpl. split; [exact Hwf|]. repeat split; auto. apply incl_appl, incl_refl.
Qed.

Lemma queue_advance_add a : forall b q,
  queue_advance processEvent (a + b) q
  = queue_advance processEvent b (queue_advance processEvent a q).
Proof. induction a as [|a IH]; intros b q; simpl; [reflexivity | apply IH]. Qed.

(** A burst of events, each before the timer of [e] expires: the failures
    for [e] are buffered, the timer of [e] is the last one armed, and no
    pass is made for [e] meanwhile. *)
Lemma deliver_window e burst : forall q tm budget,
  wf_queue q -> e <> "" ->
  timers_for e q = [tm] -> deadline tm = (now q + budget)%nat ->
  within_window processEvent entityId updatedAt Date_parse reorderDelayMs e budget burst q ->
  let q1 := deliver processEvent entityId updatedAt Date_parse reorderDelayMs burst q in
  let left := budget_after processEvent entityId updatedAt Date_parse reorderDelayMs
                           e budget burst q in
  wf_queue q1
  /\ (exists tm1, timers_for e q1 = [tm1] /\ deadline tm1 = (now q1 + left)%nat)
  /\ buffer e q1
     = buffer e q
       ++ burst_entries processEvent entityId updatedAt Date_parse reorderDelayMs e burst q
  /\ replays_for e q1 = replays_for e q
  /\ incl (errors q) (errors q1).
Proof.
  induction burst as [|[d ev] burst IH]; intros q tm budget Hwf Hne Htm Hdl Hwin; simpl.
  - split; [exact Hwf|]. split; [eauto|]. rewrite app_nil_r.
    split; [reflexivity|]. split; [reflexivity | apply incl_refl].
  - simpl in Hwin. destruct Hwin as (Hd & Hwin).
    destruct (@advance_other e d q Hwf) as (A0 & A1 & A2 & A3 & A4 & A5).
    { intros x Hx. rewrite Htm in Hx. destruct Hx as [<-|[]]. lia. }
    set (qa := queue_advance processEvent d q) in *.
    destruct (fails_for processEvent entityId e ev qa) eqn:Hfail.
    + destruct (@process_failing e ev qa A0 Hne Hfail) as (B0 & B1 & B2 & B3 & B4 & B5).
      set (qb := process processEvent entityId updatedAt Date_parse reorderDelayMs ev qa) in *.
      destruct (IH qb _ reorderDelayMs B0 Hne B2) as (C0 & C1 & C2 & C3 & C4);
        [simpl; lia | exact Hwin|].
      split; [exact C0|]. split; [exact C1|].
      split; [rewrite C2, B1, A1, <- app_assoc; reflexivity|].
      split.
      * rewrite C3. unfold replays_for. rewrite B3. exact A2.
      * eapply incl_tran; [exact A5|]. rewrite <- B5. exact C4.
    + destruct (@process_unrelated e ev qa A0 Hfail) as (B0 & B1 & B2 & B3 & B4 & B5).
      set (qb := process processEvent entityId updatedAt Date_parse reorderDelayMs ev qa) in *.
      destruct (IH qb tm (budget - d)%nat B0 Hne) as (C0 & C1 & C2 & C3 & C4);
        [rewrite B2, A3; exact Htm | rewrite B4, A4; lia | exact Hwin|].
      split; [exact C0|]. split; [exact C1|].
      split; [rewrite C2, B1, A1; reflexivity|].
      split.
      * rewrite C3. unfold replays_for. rewrite B3. exact A2.
      * eapply incl_tran; [exact A5|]. eapply incl_tran; [exact B5 | exact C4].
Qed.

Lemma sort_insert_ext_in (A : Type) (c1 c2 : A -> A -> Z) (x : A) (l : list A) :
  (forall y, In y l -> c1 x y = c2 x y) -> sort_insert c1 x l = sort_insert c2 x l.
Proof.
  induction l as [|y l IH]; simpl; intros H; [reflexivity|].
  rewrite (H y (or_introl eq_refl)). destruct (c2 x y <=? 0)%Z; [reflexivity|].
  f_equal. apply IH. auto.
Qed.

Lemma js_sort_ext_in (A : Type) (c1 c2 : A -> A -> Z) (l : list A) :
  (forall x y, In x l -> In y l -> c1 x y = c2 x y) -> js_sort c1 l = js_sort c2 l.
Proof.
  induction l as [|x l IH]; simpl; intros H; [reflexivity|].
  rewrite IH by auto. apply sort_insert_ext_in.
  intros y Hy. apply js_sort_In in Hy. auto.
Qed.

(** With timestamps that are numbers the replay order is ascending. *)
Lemma js_sort_timestamps_ascending (l : list (Pending Event)) :
  (forall p, In p l -> pending_timestamp p <> None) ->
  StronglySorted (@timestamp_le Event) (js_sort (@byTimestamp Event) l).
Proof.
  intros Hnum.
  assert (Hext : js_sort (@byTimestamp Event) l = js_sort (@byNumber Event) l).
  { apply js_sort_ext_in. intros x y Hx Hy. unfold byTimestamp, byNumber, timestampNumber.
    destruct (pending_timestamp x) eqn:Ex; [|now apply Hnum in Hx].
    destruct (pending_timestamp y) eqn:Ey; [reflexivity | now apply Hnum in Hy]. }
  rewrite Hext.
  assert (Hs : StronglySorted (cmp_le (@byNumber Event)) (js_sort (@byNumber Event) l)).
  { apply js_sort_sorted; unfold byNumber; intros; lia. }
  assert (Hin : forall p, In p (js_sort (@byNumber Event) l) -> pending_timestamp p <> None).
  { intros p Hp. apply js_sort_In in Hp. auto. }
  revert Hs Hin. generalize (js_sort (@byNumber Event) l). intros s Hs.
  induction Hs as [|a s Hs IH Hall]; intros Hin; constructor.
  - apply IH. intros p Hp. apply Hin. now right.
  - rewrite Forall_forall in *. intros b Hb. specialize (Hall b Hb).
    unfold cmp_le, byNumber, timestampNumber, timestamp_le in *.
    destruct (pending_timestamp a) eqn:Ea; [|exfalso; apply (Hin a); simpl; auto].
    destruct (pending_timestamp b) eqn:Eb; [lia | exfalso; apply (Hin b); simpl; auto].
Qed.

(** C7: once a failed event carrying an entity id has been buffered, and
    whatever events are processed next, each before the timer of the
    entity expires (a further failure for the entity cancels the timer and
    arms it anew, any other event lets it run), no replay pass is made for
    the entity before the last-armed timer expires.  At its expiry exactly
    one pass is made.  It gives the buffered events of the entity to the
    handler, each once and each in the state the events before it left:
    in ascending order of their timestamps when these are numbers.  Every
    event that still fails is reported through onError.  After the pass
    the buffer and the timer of the entity are gone, and as time passes no
    further pass is made.  When no other entity has a timer pending, the
    state of the handler and the errors reported are exactly those of this
    one pass. *)
Theorem failed_events_replayed_once :
  forall (e : string) (ev0 : Event) (burst : list (nat * Event))
         (q : EventQueue Event Handled),
    wf_queue q -> e <> "" ->
    fails_for processEvent entityId e ev0 q = true ->
    within_window processEvent entityId updatedAt Date_parse reorderDelayMs e reorderDelayMs
                  burst (process processEvent entityId updatedAt Date_parse reorderDelayMs ev0 q) ->
    let q0 := process processEvent entityId updatedAt Date_parse reorderDelayMs ev0 q in
    let q1 := deliver processEvent entityId updatedAt Date_parse reorderDelayMs burst q0 in
    let left := budget_after processEvent entityId updatedAt Date_parse reorderDelayMs
                             e reorderDelayMs burst q0 in
    let buffered :=
      buffer e q
      ++ mkPending ev0 (timestampOf updatedAt Date_parse ev0 q)
         :: burst_entries processEvent entityId updatedAt Date_parse reorderDelayMs e burst q0 in
    buffer e q1 = buffered
    /\ (forall k, (k < left)%nat ->
                  replays_for e (queue_advance processEvent k q1) = replays_for e q
                  /\ buffer e (queue_advance processEvent k q1) = buffered)
    /\ (exists (order : list (Pending Event)) (h : Handled)
               (attempts : list (Event * Completion unit)),
           Permutation order buffered
           /\ ((forall p, In p buffered -> pending_timestamp p <> None) ->
               order = js_sort (@byTimestamp Event) buffered
               /\ StronglySorted (@timestamp_le Event) order)
           /\ map fst attempts = map (@pending_event Event) order
           /\ (forall before p after,
                  order = before ++ p :: after ->
                  nth_error attempts (List.length before)
                  = Some (pending_event p,
                          fst (processEvent (pending_event p)
                                            (handled_after processEvent before h))))
           /\ (forall k, (left <= k)%nat ->
                  replays_for e (queue_advance processEvent k q1)
                  = replays_for e q ++ [mkReplay e (now q1 + left) attempts]
                  /\ buffer e (queue_advance processEvent k q1) = []
                  /\ timers_for e (queue_advance processEvent k q1) = []
                  /\ forall ev message,
                       In (ev, Throw message) attempts ->
                       In ("Error while handling event", message)
                          (errors (queue_advance processEvent k q1)))
           /\ (timers q1 = timers_for e q1 ->
               h = handled q1
               /\ forall k, (left <= k)%nat ->
                    handled (queue_advance processEvent k q1)
                    = handled_after processEvent order h
                    /\ errors (queue_advance processEvent k q1)
                       = errors q1 ++ failure_reports attempts)).
Proof.
  intros e ev0 burst q Hwf Hne Hfail Hwin q0 q1 left buffered.
  destruct (@process_failing e ev0 q Hwf Hne Hfail) as (A0 & A1 & A2 & A3 & A4 & A5).
  fold q0 in A0, A1, A2, A3, A4, A5.
  destruct (@deliver_window e burst q0 _ reorderDelayMs A0 Hne A2)
    as (B0 & (tm1 & B1 & B1d) & B2 & B3 & B4); [simpl; lia | exact Hwin|].
  fold q1 in B0, B1, B1d, B2, B3, B4. fold left in B1d.
  assert (Hleft : (0 < left)%nat).
  { destruct B0 as (_ & Hreg & _). destruct (Hreg tm1) as (_ & G & _); [|lia].
    apply (timers_for_In e q1 tm1). rewrite B1. now left. }
  assert (Hbuf : buffer e q1 = buffered).
  { rewrite B2, A1. unfold buffered. rewrite <- app_assoc. reflexivity. }
  assert (Hrep : replays_for e q1 = replays_for e q).
  { rewrite B3. unfold replays_for. now rewrite A3. }
  clearbody q1 left buffered.
  split; [exact Hbuf|]. split.
  - intros k Hk.
    destruct (@advance_other e k q1 B0) as (_ & C1 & C2 & _).
    { intros x Hx. rewrite B1 in Hx. destruct Hx as [<-|[]]. lia. }
    split; congruence.
  - destruct (@advance_other e (left - 1) q1 B0) as (C0 & C1 & C2 & C3 & C4 & C5).
    { intros x Hx. rewrite B1 in Hx. destruct Hx as [<-|[]]. lia. }
    set (qx := queue_advance processEvent (left - 1) q1) in *.
    assert (Hbx : buffer e qx <> []).
    { rewrite C1, Hbuf. intros H. rewrite <- Hbuf, B2, A1 in H.
      apply app_eq_nil in H. destruct H as [H _].
      apply app_eq_nil in H. destruct H as [_ H]. discriminate. }
    destruct (@tick_expiry e qx tm1 C0) as (h & attempts & D0 & D2 & D3 & D4 & D5 & D6 & D7 & D8);
      [rewrite C3; exact B1 | rewrite C4; lia | exact Hbx |].
    rewrite C1, Hbuf in D0, D8.
    destruct (replayEvents_spec processEvent (js_sort (@byTimestamp Event) buffered) h)
      as [R1 R2].
    rewrite <- D0 in R2.
    assert (Hadv : forall k, (left <= k)%nat ->
               queue_advance processEvent k q1
               = queue_advance processEvent (k - left) (queue_tick processEvent qx)).
    { intros k Hk. replace k with ((left - 1) + (1 + (k - left)))%nat at 1 by lia.
      rewrite !queue_advance_add. reflexivity. }
    exists (js_sort (@byTimestamp Event) buffered), h, attempts.
    split; [apply js_sort_perm|].
    split; [intros Hnum; split; [reflexivity | now apply js_sort_timestamps_ascending]|].
    split; [rewrite D0; apply replayEvents_events|].
    split; [exact R2|].
    split.
    + intros k Hk. rewrite (Hadv k Hk).
      destruct (@advance_settled e (k - left) (queue_tick processEvent qx)
                  (tick_wf C0) D4) as (E1 & E2 & E3 & E4).
      split; [|split; [|split]].
      * rewrite E2, D2, C2, Hrep, C4. repeat f_equal. lia.
      * rewrite E1. exact D3.
      * exact E3.
      * intros ev message Hatt. apply E4. eapply D7; eauto.
    + intros Halone. rewrite B1 in Halone.
      assert (Ex : qx = mkQueue (pendingEvents q1) (pendingEventTimers q1) (handled q1)
                                (errors q1) (replays q1) (now q1 + (left - 1)) (timers q1)
                                (nextHandle q1)).
      { unfold qx. apply queue_advance_waiting. rewrite Halone.
        intros tm [<-|[]]. lia. }
      destruct D8 as (F1 & F2 & F3 & F4).
      { rewrite Ex. exact Halone. }
      assert (Hh : h = handled q1) by (rewrite F1, Ex; reflexivity).
      split; [exact Hh|].
      intros k Hk. rewrite (Hadv k Hk).
      rewrite (queue_advance_no_timers processEvent (k - left) _ F4).
      cbn [handled errors]. rewrite F2, F3, R1, replayErrors_reports.
      rewrite Ex. cbn [errors]. split; reflexivity.
Qed.
End ReorderQueue.

Lemma failed_events_replayed_once_witness :
  replays_for "x"
    (queue_advance exHandler 2499
       (deliver exHandler exEntityId exUpdatedAt exampleParse 3000
                [(1000, exUpdateEarly); (500, exAddOther)]
                (process exHandler exEntityId exUpdatedAt exampleParse 3000
                         exUpdateLate exQueue))) = []
  /\ exists attempts,
       map fst attempts = [exUpdateEarly; exUpdateLate]
       /\ replays_for "x"
            (queue_advance exHandler 2500
               (deliver exHandler exEntityId exUpdatedAt exampleParse 3000
                        [(1000, exUpdateEarly); (500, exAddOther)]
                        (process exHandler exEntityId exUpdatedAt exampleParse 3000
                                 exUpdateLate exQueue)))
          = [mkReplay "x" 4000 attempts]
       /\ replays_for "x"
            (queue_advance exHandler 4500
               (deliver exHandler exEntityId exUpdatedAt exampleParse 3000
                        [(1000, exUpdateEarly); (500, exAddOther)]
                        (process exHandler exEntityId exUpdatedAt exampleParse 3000
                                 exUpdateLate exQueue)))
          = [mkReplay "x" 4000 attempts]
       /\ buffer "x"
            (queue_advance exHandler 4500
               (deliver exHandler exEntityId exUpdatedAt exampleParse 3000
                        [(1000, exUpdateEarly); (500, exAddOther)]
                        (process exHandler exEntityId exUpdatedAt exampleParse 3000
                                 exUpdateLate exQueue))) = []
       /\ errors
            (queue_advance exHandler 4500
               (deliver exHandler exEntityId exUpdatedAt exampleParse 3000
                        [(1000, exUpdateEarly); (500, exAddOther)]
                        (process exHandler exEntityId exUpdatedAt exampleParse 3000
                                 exUpdateLate exQueue)))
          = failure_reports attempts
       /\ nth_error attempts 0
          = Some (exUpdateEarly,
                  fst (exHandler exUpdateEarly
                         (handled
                            (deliver exHandler exEntityId exUpdatedAt exampleParse 3000
                                     [(1000, exUpdateEarly); (500, exAddOther)]
                                     (process exHandler exEntityId exUpdatedAt exampleParse 3000
                                              exUpdateLate exQueue))))).
Proof.
  assert (Hpos : (0 < 3000)%nat) by lia.
  assert (Hwf : wf_queue exQueue).
  { split; [|split]; simpl; [constructor | tauto | discriminate]. }
  assert (Hne : "x" <> "") by discriminate.
  assert (Hwin : within_window exHandler exEntityId exUpdatedAt exampleParse 3000 "x" 3000
                               [(1000, exUpdateEarly); (500, exAddOther)]
                               (process exHandler exEntityId exUpdatedAt exampleParse 3000
                                        exUpdateLate exQueue)).
  { vm_compute. repeat split; repeat constructor. }
  pose proof (@failed_events_replayed_once Message TaskStore exHandler exEntityId exUpdatedAt
                exampleParse 3000 Hpos "x" exUpdateLate
                [(1000, exUpdateEarly); (500, exAddOther)] exQueue
                Hwf Hne eq_refl Hwin)
    as (_ & Hbefore & (order & h & attempts & _ & Hnum & Hfst & Hnth & Hafter & Halone)).
  assert (Hleft : budget_after exHandler exEntityId exUpdatedAt exampleParse 3000 "x" 3000
                     [(1000, exUpdateEarly); (500, exAddOther)]
                     (process exHandler exEntityId exUpdatedAt exampleParse 3000
                              exUpdateLate exQueue) = 2500%nat) by (vm_compute; reflexivity).
  rewrite Hleft in Hbefore, Hafter, Halone.
  assert (Hb : buffer "x" exQueue
               ++ mkPending exUpdateLate (timestampOf exUpdatedAt exampleParse exUpdateLate exQueue)
                  :: burst_entries exHandler exEntityId exUpdatedAt exampleParse 3000 "x"
                       [(1000, exUpdateEarly); (500, exAddOther)]
                       (process exHandler exEntityId exUpdatedAt exampleParse 3000
                                exUpdateLate exQueue)
               = [mkPending exUpdateLate (Some 500%Z); mkPending exUpdateEarly (Some 400%Z)])
    by (vm_compute; reflexivity).
  rewrite Hb in Hnum.
  assert (Horder : order = [mkPending exUpdateEarly (Some 400%Z);
                            mkPending exUpdateLate (Some 500%Z)]).
  { destruct Hnum as [Ho _]; [intros p [<-|[<-|[]]]; discriminate|].
    rewrite Ho. vm_compute. reflexivity. }
  clear Hnum Hb. subst order.
  assert (Hone : timers (deliver exHandler exEntityId exUpdatedAt exampleParse 3000
                           [(1000, exUpdateEarly); (500, exAddOther)]
                           (process exHandler exEntityId exUpdatedAt exampleParse 3000
                                    exUpdateLate exQueue))
                 = timers_for "x"
                     (deliver exHandler exEntityId exUpdatedAt exampleParse 3000
                        [(1000, exUpdateEarly); (500, exAddOther)]
                        (process exHandler exEntityId exUpdatedAt exampleParse 3000
                                 exUpdateLate exQueue))) by (vm_compute; reflexivity).
  destruct (Halone Hone) as [Hh Hquiet]. clear Halone Hone.
  split; [apply (Hbefore 2499%nat); lia|].
  exists attempts.
  destruct (Hafter 2500%nat (Nat.le_refl _)) as (H1 & _).
  destruct (Hafter 4500%nat) as (H2 & H3 & _); [lia|].
  destruct (Hquiet 4500%nat) as (_ & H5); [lia|].
  split; [exact Hfst|].
  split; [exact H1|]. split; [exact H2|]. split; [exact H3|]. split; [exact H5|].
  pose proof (Hnth [] (mkPending exUpdateEarly (Some 400%Z))
                   [mkPending exUpdateLate (Some 500%Z)] eq_refl) as Hfirst.
  unfold handled_after in Hfirst. cbn [List.length fold_left pending_event] in Hfirst.
  rewrite Hfirst, Hh. reflexivity.
Defined.

(* ------------------------------------------------------------------ *)
(** ** The invariants hold in every state the methods produce *)

Lemma wf_sections_set m (s : SectionRecord.t) :
  wf_sections m -> wf_sections (JsMap.set m (SectionRecord.id s) s).
Proof.
  intros [ND HF]. split; [now apply NoDup_keys_set|].
  clear ND. induction m as [|[k v] m IH]; simpl.
  - repeat constructor.
  - inversion HF; subst. destruct (String.eqb (SectionRecord.id s) k).
    + constructor; [reflexivity | assumption].
    + constructor; [assumption | now apply IH].
Qed.

Lemma wf_sections_delete m k : wf_sections m -> wf_sections (JsMap.delete m k).
Proof.
  intros [ND HF]. split.
  - now apply NoDup_keys_delete.
  - unfold JsMap.delete. rewrite Forall_forall in *. intros e He.
    apply filter_In in He. now apply HF.
Qed.

Lemma emptyStore_wf : wf_store emptyStore.
Proof. repeat split; simpl; constructor. Qed.

Lemma organize_wf data st : wf_store (organize data st).
Proof.
  split; simpl.
  - assert (H : forall l acc, wf_tasks acc ->
                  wf_tasks (fold_left (fun m t => JsMap.set m (TodoistTask.id t) t) l acc)).
    { induction l as [|t l IH]; intros acc Hacc; simpl; [assumption|].
      apply IH. now apply wf_tasks_set. }
    apply H. split; constructor.
  - assert (H : forall l acc, wf_sections acc ->
                  wf_sections (fold_left (fun m s => JsMap.set m (SectionRecord.id s) s) l acc)).
    { induction l as [|s l IH]; intros acc Hacc; simpl; [assumption|].
      apply IH. now apply wf_sections_set. }
    apply H. split; constructor.
Qed.

Lemma addTask_wf task st : wf_store st -> wf_store (snd (addTask task st)).
Proof.
  intros [Ht Hs]. unfold addTask.
  destruct (JsMap.has (tasks st) (TodoistTask.id task)); simpl; split; auto.
  now apply wf_tasks_set.
Qed.

Lemma updateTask_wf Date_parse task st :
  wf_store st -> wf_store (snd (updateTask Date_parse task st)).
Proof.
  intros [Ht Hs]. unfold updateTask.
  destruct (JsMap.get (tasks st) (TodoistTask.id task)); simpl; [|split; auto].
  destruct (isStale _ _ _); simpl; split; auto. now apply wf_tasks_set.
Qed.

Lemma addSection_wf section st : wf_store st -> wf_store (snd (addSection section st)).
Proof. intros [Ht Hs]. split; simpl; [assumption | now apply wf_sections_set]. Qed.

Lemma updateSection_wf Date_parse section st :
  wf_store st -> wf_store (snd (updateSection Date_parse section st)).
Proof.
  intros [Ht Hs]. unfold updateSection.
  destruct (JsMap.get (sections st) (SectionRecord.id section)); simpl; [|split; auto].
  destruct (isStale _ _ _); simpl; split; auto. now apply wf_sections_set.
Qed.

Lemma removeTask_store_wf taskId st : wf_store st -> wf_store (removeTask taskId st).
Proof.
  intros [Ht Hs]. split; [now apply removeTask_wf|].
  destruct (removeTask_tasks_spec st taskId Ht) as (_ & E & _). now rewrite E.
Qed.

Lemma removeSection_wf sectionId st : wf_store st -> wf_store (removeSection sectionId st).
Proof.
  intros [Ht Hs]. unfold removeSection.
  destruct (JsMap.has (sections st) sectionId); simpl; [|split; auto].
  rewrite fold_left_map_arg.
  destruct (@removeTask_fold_spec (map TodoistTask.id (removeSection_roots sectionId st)) st Ht)
    as (_ & E & Hwf & _).
  split; simpl; [assumption|]. rewrite E. now apply wf_sections_delete.
Qed.

Lemma store_mutate_wf Date_parse m st : wf_store st -> wf_store (store_mutate Date_parse m st).
Proof.
  intros Hwf. destruct m; simpl.
  - apply organize_wf.
  - now apply addTask_wf.
  - now apply updateTask_wf.
  - now apply removeTask_store_wf.
  - now apply addSection_wf.
  - now apply updateSection_wf.
  - now apply removeSection_wf.
Qed.

Section QueueInvariant.
Variable Event : Type.
Variable Handled : Type.
Variable processEvent : Event -> Handled -> Completion unit * Handled.
Variable entityId : Event -> option string.
Variable updatedAt : Event -> option string.
Variable Date_parse : string -> option Z.
Variable reorderDelayMs : nat.
Hypothesis delay_positive : (0 < reorderDelayMs)%nat.

Lemma newQueue_wf (h : Handled) (t : nat) :
  wf_queue (mkQueue (Event := Event) JsMap.empty JsMap.empty h [] [] t [] 0).
Proof. split; [|split]; simpl; [constructor | tauto | discriminate]. Qed.

Lemma process_wf (ev : Event) (q : EventQueue Event Handled) :
  wf_queue q ->
  wf_queue (process processEvent entityId updatedAt Date_parse reorderDelayMs ev q).
Proof.
  intros Hwf.
  destruct (fails_for processEvent entityId "" ev q) eqn:Hfail.
  - destruct (fails_for_true processEvent entityId "" ev q Hfail) as (message & h & Hp & Hid).
    unfold process. rewrite Hp, Hid. simpl. exact Hwf.
  - now apply (@process_unrelated Event Handled processEvent entityId updatedAt Date_parse
                 reorderDelayMs delay_positive "" ev q Hwf Hfail).
Qed.

Lemma clearTimeout_fold_In (hs : list nat) : forall (ts : list WindowTimer) tm,
  In tm (fold_left (fun ts h => clearTimeout h ts) hs ts) ->
  In tm ts /\ ~ In (handle tm) hs.
Proof.
  induction hs as [|h hs IH]; intros ts tm Hin; simpl in *; [tauto|].
  apply IH in Hin. destruct Hin as [Hin Hn]. unfold clearTimeout in Hin.
  apply filter_In in Hin. destruct Hin as [Hin Hh]. split; [assumption|].
  intros [E|H]; [|contradiction]. subst h. rewrite Nat.eqb_refl in Hh. discriminate.
Qed.

Lemma clear_wf (q : EventQueue Event Handled) : wf_queue q -> wf_queue (clear q).
Proof.
  intros (ND & Hreg & _). unfold clear.
  assert (Hnone : fold_left (fun ts h => clearTimeout h ts)
                            (JsMap.values (pendingEventTimers q)) (timers q) = []).
  { destruct (fold_left _ _ _) as [|tm l] eqn:E; [reflexivity|exfalso].
    assert (Hin : In tm (fold_left (fun ts h => clearTimeout h ts)
                                   (JsMap.values (pendingEventTimers q)) (timers q)))
      by (rewrite E; now left).
    apply clearTimeout_fold_In in Hin. destruct Hin as [Hin Hn].
    destruct (Hreg _ Hin) as (_ & _ & G & _). apply Hn. eapply get_values; eauto. }
  split; [|split]; simpl; rewrite ?Hnone; simpl; [constructor | tauto | discriminate].
Qed.
End QueueInvariant.

(* ------------------------------------------------------------------ *)
(** ** Scenarios *)

(** A bulk load with one section holding one task. *)
Example snapshot_after_bulk_load :
  snapshot codeCompare (organize exPayload emptyStore)
  = mkData (Some (TodoistProject.mk "P" []))
           [mkSection (SectionRecord.mk "s1" "S1" 0 "10")
                      [mkNode (TodoistTask.mk "t1" None (Some "s1") 0 "Buy milk" "10") [] 0]]
           [].
Proof. reflexivity. Qed.

(** Depths follow the links: root 0, child 1, grandchild 2. *)
Example snapshot_depths :
  data_unsectioned (snapshot codeCompare exStoreFamily)
  = [mkNode (exTask "p" None None 1 "1")
            [mkNode (exTask "c" (Some "p") None 1 "1")
                    [mkNode (exTask "g" (Some "c") None 1 "1") [] 2] 1] 0;
     mkNode (exTask "q" None None 2 "1")
            [mkNode (exTask "r" (Some "q") None 1 "1") [] 1] 0].
Proof. reflexivity. Qed.

(** An update of [x] arrives before [x] is created: it fails and is
    buffered; the creation then succeeds; when the window has elapsed the
    update is replayed and succeeds, nothing is reported and nothing stays
    buffered. *)
Example reorder_update_before_creation :
  JsMap.get
    (tasks (handled
              (queue_advance exHandler 3000
                 (process exHandler exEntityId exUpdatedAt exampleParse 3000 exAddX
                    (queue_advance exHandler 100
                       (process exHandler exEntityId exUpdatedAt exampleParse 3000
                                exUpdateLate exQueue)))))) "x"
  = Some (asTodoistTask (event_data exUpdateLate))
  /\ errors (queue_advance exHandler 3000
               (process exHandler exEntityId exUpdatedAt exampleParse 3000 exAddX
                  (queue_advance exHandler 100
                     (process exHandler exEntityId exUpdatedAt exampleParse 3000
                              exUpdateLate exQueue)))) = []
  /\ pendingEvents (queue_advance exHandler 3000
                      (process exHandler exEntityId exUpdatedAt exampleParse 3000 exAddX
                         (queue_advance exHandler 100
                            (process exHandler exEntityId exUpdatedAt exampleParse 3000
                                     exUpdateLate exQueue)))) = [].
Proof. vm_compute. repeat split. Qed.

(** A failed event without an entity id is reported at once and not
    buffered. *)
Example process_without_entity_id :
  let q := process exHandler (fun _ => None) exUpdatedAt exampleParse 3000
                   exUpdateLate exQueue in
  errors q = [("Error while handling event", "Task with ID x does not exist.")]
  /\ pendingEvents q = [] /\ timers q = [].
Proof. vm_compute. repeat split. Qed.

(* ------------------------------------------------------------------ *)
(** ** organize replaces the contents of the store *)

Lemma find_app_first (A : Type) (f : A -> bool) (l1 l2 : list A) :
  find f (l1 ++ l2) = match find f l1 with Some x => Some x | None => find f l2 end.
Proof.
  induction l1 as [|a l1 IH]; simpl; [reflexivity|]. now destruct (f a).
Qed.

Lemma get_set_eqb (V : Type) (m : JsMap.t V) k k' v :
  JsMap.get (JsMap.set m k v) k' = if String.eqb k' k then Some v else JsMap.get m k'.
Proof.
  destruct (String.eqb_spec k' k) as [->|Hk].
  - apply get_set_same.
  - apply get_set_other. congruence.
Qed.

Lemma get_fold_set (V : Type) (key : V -> string) (l : list V) :
  forall (m : JsMap.t V) k,
    JsMap.get (fold_left (fun m v => JsMap.set m (key v) v) l m) k
    = match find (fun v => String.eqb k (key v)) (rev l) with
      | Some v => Some v
      | None => JsMap.get m k
      end.
Proof.
  induction l as [|a l IH]; intros m k; simpl; [reflexivity|].
  rewrite IH, find_app_first. simpl.
  destruct (find _ (rev l)); [reflexivity|].
  rewrite get_set_eqb. now destruct (String.eqb k (key a)).
Qed.

Lemma fold_set_fresh (V : Type) (key : V -> string) (l : list V) :
  forall (m : JsMap.t V),
    NoDup (map key l) ->
    (forall v, In v l -> JsMap.get m (key v) = None) ->
    fold_left (fun m v => JsMap.set m (key v) v) l m = m ++ map (fun v => (key v, v)) l.
Proof.
  induction l as [|a l IH]; intros m ND Hfresh; simpl.
  - now rewrite app_nil_r.
  - inversion ND as [|? ? Hn ND']; subst.
    rewrite set_absent by (apply Hfresh; now left).
    rewrite IH; [now rewrite <- app_assoc | assumption |].
    intros v Hv. rewrite <- set_absent by (apply Hfresh; now left).
    rewrite get_set_other; [apply Hfresh; now right|].
    intros E. apply Hn. rewrite E. now apply in_map.
Qed.

Lemma values_map_pair (V : Type) (key : V -> string) (l : list V) :
  JsMap.values (map (fun v => (key v, v)) l) = l.
Proof.
  unfold JsMap.values. rewrite map_map. simpl. apply map_id.
Qed.

(** X1: organize discards what the store held and keeps the payload: the
    project is the payload's; a task or section id is stored exactly when
    the payload has a record with that id, and when it has several the
    last one is stored; the store is well formed; a payload without
    repeated ids is stored in its own order. *)
Theorem organize_replaces_store :
  forall (data : TodoistProjectResponse) (st : TaskStore) (k : string),
    project (organize data st) = resp_project data
    /\ JsMap.get (tasks (organize data st)) k
       = find (fun t => String.eqb k (TodoistTask.id t)) (rev (resp_tasks data))
    /\ JsMap.get (sections (organize data st)) k
       = find (fun s => String.eqb k (SectionRecord.id s)) (rev (resp_sections data))
    /\ wf_store (organize data st)
    /\ (NoDup (map TodoistTask.id (resp_tasks data)) ->
        JsMap.values (tasks (organize data st)) = resp_tasks data)
    /\ (NoDup (map SectionRecord.id (resp_sections data)) ->
        JsMap.values (sections (organize data st)) = resp_sections data).
Proof.
  intros data st k. unfold organize. simpl.
  split; [reflexivity|].
  split; [rewrite get_fold_set; simpl; now destruct (find _ _)|].
  split; [rewrite get_fold_set; simpl; now destruct (find _ _)|].
  split; [exact (organize_wf data st)|].
  split; intros ND.
  - rewrite fold_set_fresh; [apply values_map_pair | assumption | reflexivity].
  - rewrite fold_set_fresh; [apply values_map_pair | assumption | reflexivity].
Qed.

(* ------------------------------------------------------------------ *)
(** ** Every store the methods produce is well formed *)

(** X2: whatever sequence of TaskStore methods is called on a new store,
    throwing or not, the store has no repeated key and holds every record
    under its own id. *)
Theorem reachable_store_well_formed :
  forall (Date_parse : string -> option Z) (ms : list Mutation),
    wf_store (fold_left (fun s m => store_mutate Date_parse m s) ms emptyStore).
Proof.
  intros Date_parse ms.
  assert (H : forall st, wf_store st ->
                wf_store (fold_left (fun s m => store_mutate Date_parse m s) ms st)).
  { induction ms as [|m ms IH]; intros st Hwf; simpl; [assumption|].
    apply IH. now apply store_mutate_wf. }
  apply H. exact emptyStore_wf.
Qed.

(* ------------------------------------------------------------------ *)
(** ** A repeated call changes nothing more *)

Lemma set_set_same (V : Type) (m : JsMap.t V) k v v' :
  JsMap.set (JsMap.set m k v) k v' = JsMap.set m k v'.
Proof.
  induction m as [|[k0 v0] m IH]; simpl.
  - now rewrite String.eqb_refl.
  - destruct (String.eqb k k0) eqn:E; simpl.
    + now rewrite String.eqb_refl.
    + now rewrite E, IH.
Qed.

Lemma isStale_irrefl Date_parse u : isStale Date_parse u u = false.
Proof.
  unfold isStale. destruct (Date_parse u); [apply Z.ltb_irrefl | reflexivity].
Qed.

Lemma removeTask_gone st taskId :
  wf_tasks (tasks st) -> JsMap.has (tasks (removeTask taskId st)) taskId = false.
Proof.
  intros Hwf. destruct (JsMap.has (tasks (removeTask taskId st)) taskId) eqn:E; [|reflexivity].
  exfalso. apply has_keys in E. apply keys_In_get in E. destruct E as [t Hg].
  apply get_In in Hg.
  destruct (removeTask_tasks_spec st taskId Hwf) as (_ & _ & _ & Hin).
  apply Hin in Hg. destruct Hg as [Hst Hn]. apply Hn. simpl.
  apply Descends_start; [now left|].
  unfold JsMap.keys. change taskId with (fst (taskId, t)). now apply in_map.
Qed.

Lemma removeTask_fold_sections ids : forall st,
  sections (fold_left (fun s (task : TodoistTask.t) => removeTask (TodoistTask.id task) s) ids st)
  = sections st.
Proof.
  induction ids as [|a ids IH]; intros st; simpl; [reflexivity|].
  rewrite IH. unfold removeTask.
  destruct (negb _); [reflexivity|]. now destruct (removeLoop _ _ _).
Qed.

(** X3: every mutation of the store is idempotent: delivered twice in a
    row (the second call may throw) it leaves the store as delivered
    once. *)
Theorem store_mutations_idempotent :
  forall (Date_parse : string -> option Z) (m : Mutation) (st : TaskStore),
    wf_store st ->
    store_mutate Date_parse m (store_mutate Date_parse m st) = store_mutate Date_parse m st.
Proof.
  intros Date_parse m st [Hwf Hwfs].
  destruct m as [data|task|task|taskId|section|section|sectionId]; simpl.
  - reflexivity.
  - unfold addTask. destruct (JsMap.has (tasks st) (TodoistTask.id task)) eqn:H; simpl.
    + now rewrite H.
    + unfold JsMap.has. now rewrite get_set_same.
  - unfold updateTask.
    destruct (JsMap.get (tasks st) (TodoistTask.id task)) as [existing|] eqn:Hg; simpl.
    + destruct (isStale Date_parse _ _) eqn:Hs; simpl.
      * now rewrite Hg, Hs.
      * rewrite get_set_same, isStale_irrefl. simpl. unfold with_tasks. simpl.
        now rewrite set_set_same.
    + now rewrite Hg.
  - unfold removeTask at 1. now rewrite removeTask_gone.
  - unfold with_sections. simpl. now rewrite set_set_same.
  - unfold updateSection.
    destruct (JsMap.get (sections st) (SectionRecord.id section)) as [existing|] eqn:Hg; simpl.
    + destruct (isStale Date_parse _ _) eqn:Hs; simpl.
      * now rewrite Hg, Hs.
      * rewrite get_set_same, isStale_irrefl. simpl. unfold with_sections. simpl.
        now rewrite set_set_same.
    + now rewrite Hg.
  - destruct (JsMap.has (sections st) sectionId) eqn:H.
    + assert (G : JsMap.has (sections (removeSection sectionId st)) sectionId = false).
      { unfold removeSection. rewrite H. simpl.
        unfold JsMap.has. now rewrite get_delete_same. }
      unfold removeSection at 1. now rewrite G.
    + unfold removeSection. rewrite H. simpl. now rewrite H.
Qed.

Lemma store_mutations_idempotent_witness :
  store_mutate exampleParse (RemoveTask "p")
               (store_mutate exampleParse (RemoveTask "p") exStoreFamily)
  = store_mutate exampleParse (RemoveTask "p") exStoreFamily
  /\ tasks (store_mutate exampleParse (RemoveTask "p") exStoreFamily)
     = [("q", exTask "q" None None 2 "1"); ("r", exTask "r" (Some "q") None 1 "1")].
Proof.
  split; [|reflexivity].
  apply (@store_mutations_idempotent exampleParse (RemoveTask "p") exStoreFamily).
  repeat split; simpl; repeat constructor; simpl; intuition discriminate.
Defined.

(* ------------------------------------------------------------------ *)
(** ** A removed task can be added again, not updated *)

(** X4: once removeTask has run for an id, addTask of a task with that id
    returns normally and appends it, while updateTask of it throws. *)
Theorem removed_task_added_again_not_updated :
  forall (Date_parse : string -> option Z) (st : TaskStore) (task : TodoistTask.t),
    wf_store st ->
    addTask task (removeTask (TodoistTask.id task) st)
    = (Normal tt,
       with_tasks (removeTask (TodoistTask.id task) st)
                  (tasks (removeTask (TodoistTask.id task) st) ++ [(TodoistTask.id task, task)]))
    /\ updateTask Date_parse task (removeTask (TodoistTask.id task) st)
       = (Throw ("Task with ID " ++ TodoistTask.id task ++ " does not exist.")%string,
          removeTask (TodoistTask.id task) st).
Proof.
  intros Date_parse st task [Hwf _].
  pose proof (removeTask_gone st (TodoistTask.id task) Hwf) as Hgone.
  split.
  - unfold addTask. rewrite Hgone. rewrite set_absent; [reflexivity|].
    now apply has_false_get.
  - unfold updateTask. apply has_false_get in Hgone. now rewrite Hgone.
Qed.

Lemma removed_task_added_again_not_updated_witness :
  fst (addTask (exTask "a" None None 7 "900") (removeTask "a" exStoreA)) = Normal tt
  /\ tasks (snd (addTask (exTask "a" None None 7 "900") (removeTask "a" exStoreA)))
     = [("a", exTask "a" None None 7 "900")]
  /\ is_throw (fst (updateTask exampleParse (exTask "a" None None 7 "900")
                               (removeTask "a" exStoreA))) = true.
Proof.
  assert (Hwf : wf_store exStoreA).
  { repeat split; simpl; repeat constructor; simpl; intuition discriminate. }
  destruct (@removed_task_added_again_not_updated exampleParse exStoreA
              (exTask "a" None None 7 "900") Hwf) as [Ha Hu].
  simpl in Ha, Hu. rewrite Ha, Hu. repeat split.
Defined.

(* ------------------------------------------------------------------ *)
(** ** Updates of one task converge on the later one *)

(** X5: two updates of a stored task whose timestamps parse to different
    times leave the same store in either order of arrival: the later one
    is stored, unless the stored task is newer than both, and neither call
    throws. *)
Theorem updates_converge_on_later :
  forall (Date_parse : string -> option Z) (st : TaskStore)
         (u1 u2 existing : TodoistTask.t) (t0 t1 t2 : Z),
    TodoistTask.id u1 = TodoistTask.id u2 ->
    JsMap.get (tasks st) (TodoistTask.id u1) = Some existing ->
    Date_parse (TodoistTask.updated_at existing) = Some t0 ->
    Date_parse (TodoistTask.updated_at u1) = Some t1 ->
    Date_parse (TodoistTask.updated_at u2) = Some t2 ->
    (t1 < t2)%Z ->
    let later := if (t2 <? t0)%Z then st
                 else with_tasks st (JsMap.set (tasks st) (TodoistTask.id u2) u2) in
    updateTask Date_parse u2 (snd (updateTask Date_parse u1 st)) = (Normal tt, later)
    /\ updateTask Date_parse u1 (snd (updateTask Date_parse u2 st)) = (Normal tt, later).
Proof.
  intros Date_parse st u1 u2 existing t0 t1 t2 Hid Hg H0 H1 H2 Hlt later.
  assert (Hg2 : JsMap.get (tasks st) (TodoistTask.id u2) = Some existing) by congruence.
  assert (S10 : isStale Date_parse (TodoistTask.updated_at u1) (TodoistTask.updated_at existing)
                = (t1 <? t0)%Z) by (now apply isStale_times).
  assert (S20 : isStale Date_parse (TodoistTask.updated_at u2) (TodoistTask.updated_at existing)
                = (t2 <? t0)%Z) by (now apply isStale_times).
  assert (S21 : isStale Date_parse (TodoistTask.updated_at u2) (TodoistTask.updated_at u1)
                = false).
  { rewrite (@isStale_times Date_parse _ _ t2 t1) by assumption. apply Z.ltb_ge. lia. }
  assert (S12 : isStale Date_parse (TodoistTask.updated_at u1) (TodoistTask.updated_at u2)
                = true).
  { rewrite (@isStale_times Date_parse _ _ t1 t2) by assumption. now apply Z.ltb_lt. }
  split.
  - unfold updateTask at 2. rewrite Hg, S10.
    destruct (Z.ltb_spec t1 t0) as [L|L]; simpl.
    + unfold updateTask. rewrite Hg2, S20. unfold later. now destruct (t2 <? t0)%Z.
    + unfold updateTask. simpl. rewrite <- Hid at 1. rewrite get_set_same, S21.
      unfold later. destruct (Z.ltb_spec t2 t0); [lia|].
      unfold with_tasks. simpl. rewrite Hid at 1. now rewrite set_set_same.
  - unfold updateTask at 2. rewrite Hg2, S20. unfold later.
    destruct (Z.ltb_spec t2 t0) as [L|L]; simpl.
    + unfold updateTask. rewrite Hg, S10.
      destruct (Z.ltb_spec t1 t0); [reflexivity | lia].
    + unfold updateTask. simpl. rewrite Hid at 1. now rewrite get_set_same, S12.
Qed.

Lemma updates_converge_on_later_witness :
  snd (updateTask exampleParse (exTask "a" None None 9 "400")
         (snd (updateTask exampleParse (exTask "a" None None 5 "300") exStoreA)))
  = snd (updateTask exampleParse (exTask "a" None None 5 "300")
         (snd (updateTask exampleParse (exTask "a" None None 9 "400") exStoreA)))
  /\ JsMap.get (tasks (snd (updateTask exampleParse (exTask "a" None None 5 "300")
                  (snd (updateTask exampleParse (exTask "a" None None 9 "400") exStoreA)))))
               "a"
     = Some (exTask "a" None None 9 "400").
Proof.
  destruct (@updates_converge_on_later exampleParse exStoreA
              (exTask "a" None None 5 "300") (exTask "a" None None 9 "400")
              (exTask "a" None (Some "s1") 1 "200") 200 300 400
              eq_refl eq_refl eq_refl eq_refl eq_refl eq_refl) as [H12 H21].
  rewrite H12, H21. split; reflexivity.
Defined.

(* ------------------------------------------------------------------ *)
(** ** The sections of a snapshot *)

Lemma sort_insert_keeps_ties (A : Type) (key : A -> Z) (o : Z) (x : A) (l : list A) :
  filter (fun s => (key s =? o)%Z) (sort_insert (fun a b => (key a - key b)%Z) x l)
  = filter (fun s => (key s =? o)%Z) (x :: l).
Proof.
  induction l as [|y l IH]; [reflexivity|].
  cbn [sort_insert]. destruct (Z.leb_spec (key x - key y) 0) as [L|L]; [reflexivity|].
  cbn [filter] in *. rewrite IH.
  destruct (Z.eqb_spec (key y) o) as [Ey|Ey], (Z.eqb_spec (key x) o) as [Ex|Ex];
    try reflexivity.
  lia.
Qed.

Lemma js_sort_keeps_ties (A : Type) (key : A -> Z) (o : Z) (l : list A) :
  filter (fun s => (key s =? o)%Z) (js_sort (fun a b => (key a - key b)%Z) l)
  = filter (fun s => (key s =? o)%Z) l.
Proof.
  induction l as [|x l IH]; [reflexivity|].
  cbn [js_sort]. rewrite sort_insert_keeps_ties. cbn [filter]. now rewrite IH.
Qed.

(** X6: a snapshot lists every stored section exactly once, also one
    without tasks, in ascending section_order; sections of equal
    section_order keep the order in which the store holds them. *)
Theorem snapshot_sections_sorted_and_complete :
  forall (localeCompare : string -> string -> Z) (st : TaskStore),
    let listed := map section_record (data_sections (snapshot localeCompare st)) in
    Permutation listed (JsMap.values (sections st))
    /\ StronglySorted
         (fun a b => (SectionRecord.section_order a <= SectionRecord.section_order b)%Z) listed
    /\ (forall o : Z,
          filter (fun s => (SectionRecord.section_order s =? o)%Z) listed
          = filter (fun s => (SectionRecord.section_order s =? o)%Z) (JsMap.values (sections st))).
Proof.
  intros localeCompare st listed.
  assert (E : listed
              = js_sort (fun a b => (SectionRecord.section_order a - SectionRecord.section_order b)%Z)
                        (JsMap.values (sections st))).
  { unfold listed, snapshot. simpl. rewrite map_map. simpl. apply map_id. }
  rewrite E. split; [apply js_sort_perm|]. split.
  - apply StronglySorted_impl
      with (R := cmp_le (fun a b => (SectionRecord.section_order a
                                     - SectionRecord.section_order b)%Z)).
    + unfold cmp_le. intros a b. lia.
    + apply js_sort_sorted; intros; lia.
  - intros o. apply (js_sort_keeps_ties SectionRecord.section_order).
Qed.

(* ------------------------------------------------------------------ *)
(** ** The depths of a snapshot *)

Lemma depths_from_children d t cs d' :
  depths_from d (mkNode t cs d')
  <-> d' = d /\ forall c, In c cs -> depths_from (S d) c.
Proof.
  cbn [depths_from]. split; intros [E H]; (split; [exact E|]); clear E.
  - induction cs as [|c cs IH]; [intros c []|].
    destruct H as [Hc Hcs]. intros c' [<-|Hin]; [exact Hc | now apply IH].
  - induction cs as [|c cs IH]; [exact I|].
    split; [apply H; now left | apply IH; intros c' Hc'; apply H; now right].
Qed.

Lemma buildNode_depths localeCompare nodes fuel :
  forall d k t, depths_from d (buildNode localeCompare fuel nodes d k t).
Proof.
  induction fuel as [|fuel IH]; intros d k t; cbn [buildNode];
    apply depths_from_children; (split; [reflexivity|]).
  - intros c [].
  - intros c Hc. apply js_sort_In in Hc. apply in_map_iff in Hc.
    destruct Hc as [e [<- _]]. apply IH.
Qed.

(** X7: in a snapshot every root task, unsectioned or of a section, has
    depth 0 and every subtask one more than its parent. *)
Theorem snapshot_depths_follow_nesting :
  forall (localeCompare : string -> string -> Z) (st : TaskStore) (n : TodoistTaskNode),
    (In n (data_unsectioned (snapshot localeCompare st)) -> depths_from 0 n)
    /\ (forall sec, In sec (data_sections (snapshot localeCompare st)) ->
                    In n (section_tasks sec) -> depths_from 0 n).
Proof.
  intros localeCompare st n.
  assert (R : forall r, In r (snapshot_roots localeCompare st) -> depths_from 0 r).
  { intros r Hr. unfold snapshot_roots in Hr. apply in_map_iff in Hr.
    destruct Hr as [e [<- _]]. apply buildNode_depths. }
  split.
  - unfold snapshot. simpl. intros Hn. apply js_sort_In in Hn.
    apply filter_In in Hn. now apply R.
  - intros sec Hsec Hn. unfold snapshot in Hsec. simpl in Hsec.
    apply in_map_iff in Hsec. destruct Hsec as [s [<- _]]. simpl in Hn.
    apply js_sort_In in Hn. unfold sectionTasks in Hn. apply filter_In in Hn. now apply R.
Qed.

(* ------------------------------------------------------------------ *)
(** ** The timer of a TaskTree is always the debounce timer *)

Section TreeHistory.
Variable Date_parse : string -> option Z.
Variable localeCompare : string -> string -> Z.
Variable hooks : TaskTreeHooks.

Lemma queueRender_debounce_only now data cb t :
  debounce_only t -> debounce_only (queueRender hooks now data false cb t).
Proof.
  intros [Hr Ht]. unfold queueRender, queueRender_with, debounce_only.
  destruct cb as [cb|]; simpl; rewrite Hr; simpl;
    destruct (0 <? animationsInProgress t)%Z; simpl; auto;
    destruct (renderTimer t) eqn:E; simpl; rewrite ?E; auto.
Qed.

Lemma flushRender_not_rendering now t :
  isRendering t = false -> isRendering (flushRender hooks now t) = false.
Proof.
  intros Hr. destruct (pendingSnapshot t) as [data|] eqn:Hp.
  - destruct (Z.ltb_spec 0 (animationsInProgress t)) as [L|L].
    + unfold flushRender. rewrite Hp.
      replace (0 <? animationsInProgress t)%Z with true by (symmetry; now apply Z.ltb_lt).
      now destruct (renderTimer t).
    + now destruct (@flushRender_renders hooks now data t Hp L) as (_ & _ & _ & _ & _ & _ & H).
  - unfold flushRender. now rewrite Hp.
Qed.

Lemma mutate_debounce_only m now t :
  debounce_only t -> debounce_only (snd (mutate Date_parse localeCompare hooks m now t)).
Proof.
  intros Hd. destruct m as [data|task|task|taskId|section|section|sectionId]; simpl.
  - unfold tree_organize. now apply queueRender_debounce_only.
  - unfold tree_addTask. destruct (addTask task (store t)) as [[u|e] s]; simpl; [|assumption].
    now apply queueRender_debounce_only.
  - unfold tree_updateTask.
    destruct (updateTask Date_parse task (store t)) as [[u|e] s]; simpl; [|assumption].
    now apply queueRender_debounce_only.
  - unfold tree_removeTask. destruct (findTaskElement taskId t && onTaskRemove hooks).
    + exact Hd.
    + now apply queueRender_debounce_only.
  - unfold tree_addSection. simpl. now apply queueRender_debounce_only.
  - unfold tree_updateSection.
    destruct (updateSection Date_parse section (store t)) as [[skipped|e] s]; simpl;
      [|assumption].
    destruct skipped; simpl; [exact Hd|]. now apply queueRender_debounce_only.
  - unfold tree_removeSection. destruct (findSectionElement sectionId t && onSectionRemove hooks).
    + exact Hd.
    + now apply queueRender_debounce_only.
Qed.

Lemma act_debounce_only a w :
  debounce_only (tree w) -> debounce_only (tree (act Date_parse localeCompare hooks w a)).
Proof.
  intros Hd. destruct a as [m| |]; simpl.
  - now apply mutate_debounce_only.
  - unfold tick. destruct Hd as [Hr Ht].
    destruct (renderTimer (tree w)) as [timer|] eqn:E; simpl; [|split; [assumption|now rewrite E]].
    destruct (timer_deadline timer <=? S (clock w))%nat; simpl;
      [|split; [assumption|now rewrite E]].
    rewrite Ht. simpl. split; [|exact I]. simpl. now apply flushRender_not_rendering.
  - unfold animationDone. now apply queueRender_debounce_only.
Qed.

Lemma run_actions_debounce_only acts : forall w,
  debounce_only (tree w) ->
  debounce_only (tree (run_actions Date_parse localeCompare hooks acts w)).
Proof.
  induction acts as [|a acts IH]; intros w Hd; simpl; [assumption|].
  apply IH. now apply act_debounce_only.
Qed.
End TreeHistory.

(** X10: whatever public methods are called on a new TaskTree with plain
    ids, however time passes and whenever the host calls back from a
    remove hook, no render is left running and the only timer ever pending
    is the debounce timer of queueRender: the 50 ms poll of flushRender is
    never armed. *)
Theorem only_the_debounce_timer_is_armed :
  forall (Date_parse : string -> option Z) (localeCompare : string -> string -> Z)
         (hooks : TaskTreeHooks) (acts : list TreeAction) (start : nat),
    forallb plain_mutation (mutations_of acts) = true ->
    debounce_only
      (tree (run_actions Date_parse localeCompare hooks acts (mkClocked start newTaskTree))).
Proof.
  intros. apply run_actions_debounce_only. split; [reflexivity | exact I].
Qed.

Lemma only_the_debounce_timer_is_armed_witness :
  forallb plain_mutation
          (mutations_of [Call (Organize exPayload); Tick; Call (RemoveTask "t1"); Tick;
                         Call (AddTask exAdded); Done; Tick]) = true
  /\ debounce_only
       (tree (run_actions exampleParse codeCompare allHooks
                [Call (Organize exPayload); Tick; Call (RemoveTask "t1"); Tick;
                 Call (AddTask exAdded); Done; Tick]
                (mkClocked 0 newTaskTree))).
Proof.
  split; [reflexivity|].
  exact (@only_the_debounce_timer_is_armed exampleParse codeCompare allHooks
           [Call (Organize exPayload); Tick; Call (RemoveTask "t1"); Tick;
            Call (AddTask exAdded); Done; Tick] 0 eq_refl).
Defined.

(* ------------------------------------------------------------------ *)
(** ** Nothing is rendered while an exit animation is in flight *)

Section ExitAnimation.
Variable Date_parse : string -> option Z.
Variable localeCompare : string -> string -> Z.
Variable hooks : TaskTreeHooks.

Lemma queueRender_animating now data cb t :
  (0 < animationsInProgress t)%Z ->
  let t' := queueRender hooks now data false cb t in
  renders t' = renders t /\ dom t' = dom t /\ store t' = store t
  /\ animationsInProgress t' = animationsInProgress t.
Proof.
  intros Ha. unfold queueRender, queueRender_with.
  apply Z.ltb_lt in Ha.
  destruct cb as [cb|]; simpl; rewrite Ha, orb_true_r; simpl; auto.
Qed.

Lemma flushRender_animating now t :
  (0 < animationsInProgress t)%Z ->
  let t' := flushRender hooks now t in
  renders t' = renders t /\ dom t' = dom t /\ store t' = store t
  /\ animationsInProgress t' = animationsInProgress t.
Proof.
  intros Ha. unfold flushRender. apply Z.ltb_lt in Ha.
  destruct (pendingSnapshot t); [|auto]. rewrite Ha.
  destruct (renderTimer t); simpl; auto.
Qed.

Lemma mutate_store m now t :
  store (snd (mutate Date_parse localeCompare hooks m now t))
  = store_mutate Date_parse m (store t).
Proof.
  assert (Q : forall data cb t0, store (queueRender hooks now data false cb t0) = store t0).
  { intros data cb t0. unfold queueRender, queueRender_with.
    destruct cb as [cb|]; simpl;
      destruct (isRendering t0 || (0 <? animationsInProgress t0)%Z); simpl; auto;
      destruct (renderTimer t0); simpl; auto. }
  destruct m as [data|task|task|taskId|section|section|sectionId]; simpl.
  - unfold tree_organize. now rewrite Q.
  - unfold tree_addTask, addTask.
    destruct (JsMap.has (tasks (store t)) (TodoistTask.id task)); simpl; [reflexivity|].
    now rewrite Q.
  - unfold tree_updateTask, updateTask.
    destruct (JsMap.get (tasks (store t)) (TodoistTask.id task)); simpl; [|reflexivity].
    destruct (isStale Date_parse _ _); simpl; now rewrite Q.
  - unfold tree_removeTask. destruct (findTaskElement taskId t && onTaskRemove hooks); simpl;
      [reflexivity | now rewrite Q].
  - unfold tree_addSection. simpl. now rewrite Q.
  - unfold tree_updateSection, updateSection.
    destruct (JsMap.get (sections (store t)) (SectionRecord.id section)); simpl; [|reflexivity].
    destruct (isStale Date_parse _ _); simpl; [reflexivity | now rewrite Q].
  - unfold tree_removeSection.
    destruct (findSectionElement sectionId t && onSectionRemove hooks); simpl;
      [reflexivity | now rewrite Q].
Qed.

Lemma mutate_animating m now t :
  (0 < animationsInProgress t)%Z ->
  let t' := snd (mutate Date_parse localeCompare hooks m now t) in
  renders t' = renders t /\ dom t' = dom t
  /\ (animationsInProgress t <= animationsInProgress t')%Z.
Proof.
  intros Ha.
  assert (Q : forall data cb t0,
             (0 < animationsInProgress t0)%Z ->
             renders t0 = renders t -> dom t0 = dom t ->
             animationsInProgress t0 = animationsInProgress t ->
             let t' := queueRender hooks now data false cb t0 in
             renders t' = renders t /\ dom t' = dom t
             /\ (animationsInProgress t <= animationsInProgress t')%Z).
  { intros data cb t0 H0 Hr Hd Hn.
    destruct (@queueRender_animating now data cb t0 H0) as (Q1 & Q2 & _ & Q4).
    simpl. rewrite Q1, Q2, Q4. repeat split; auto. lia. }
  destruct m as [data|task|task|taskId|section|section|sectionId]; simpl.
  - unfold tree_organize. now apply Q.
  - unfold tree_addTask, addTask.
    destruct (JsMap.has (tasks (store t)) (TodoistTask.id task)); simpl;
      [repeat split; auto; lia|].
    now apply Q.
  - unfold tree_updateTask, updateTask.
    destruct (JsMap.get (tasks (store t)) (TodoistTask.id task)); simpl;
      [|repeat split; auto; lia].
    destruct (isStale Date_parse _ _); simpl; now apply Q.
  - unfold tree_removeTask. destruct (findTaskElement taskId t && onTaskRemove hooks); simpl.
    + rewrite renders_emit, app_nil_r. simpl. repeat split; auto. lia.
    + now apply Q.
  - unfold tree_addSection. simpl. now apply Q.
  - unfold tree_updateSection, updateSection.
    destruct (JsMap.get (sections (store t)) (SectionRecord.id section)); simpl;
      [|repeat split; auto; lia].
    destruct (isStale Date_parse _ _); simpl; [repeat split; auto; lia|]. now apply Q.
  - unfold tree_removeSection.
    destruct (findSectionElement sectionId t && onSectionRemove hooks); simpl.
    + rewrite renders_emit, app_nil_r. simpl. repeat split; auto. lia.
    + now apply Q.
Qed.

Lemma tick_animating w :
  (0 < animationsInProgress (tree w))%Z ->
  let w' := tick hooks w in
  renders (tree w') = renders (tree w) /\ dom (tree w') = dom (tree w)
  /\ store (tree w') = store (tree w)
  /\ animationsInProgress (tree w') = animationsInProgress (tree w).
Proof.
  intros Ha. unfold tick.
  destruct (renderTimer (tree w)) as [timer|]; simpl; [|auto].
  destruct (timer_deadline timer <=? S (clock w))%nat; simpl; [|auto].
  destruct (timer_callback timer); simpl.
  - now apply flushRender_animating.
  - destruct (@flushRender_animating (S (clock w)) (set_renderTimer None (tree w)) Ha)
      as (H1 & H2 & H3 & H4).
    simpl in *. auto.
Qed.

Lemma tick_store w : store (tree (tick hooks w)) = store (tree w).
Proof.
  assert (F : forall now t, store (flushRender hooks now t) = store t).
  { intros now t. destruct (pendingSnapshot t) as [data|] eqn:Hp.
    - destruct (Z.ltb_spec 0 (animationsInProgress t)) as [L|L].
      + now destruct (@flushRender_animating now t L) as (_ & _ & H & _).
      + now destruct (@flushRender_renders hooks now data t Hp L) as (_ & _ & H & _).
    - unfold flushRender. now rewrite Hp. }
  unfold tick. destruct (renderTimer (tree w)) as [timer|]; simpl; [|reflexivity].
  destruct (timer_deadline timer <=? S (clock w))%nat; simpl; [|reflexivity].
  destruct (timer_callback timer); simpl; now rewrite F.
Qed.

Lemma run_actions_animating acts : forall w,
  (0 < animationsInProgress (tree w))%Z ->
  existsb is_done acts = false ->
  let w' := run_actions Date_parse localeCompare hooks acts w in
  renders (tree w') = renders (tree w) /\ dom (tree w') = dom (tree w)
  /\ (animationsInProgress (tree w) <= animationsInProgress (tree w'))%Z
  /\ store (tree w')
     = fold_left (fun s m => store_mutate Date_parse m s) (mutations_of acts) (store (tree w)).
Proof.
  induction acts as [|a acts IH]; intros w Ha Hn; simpl in *.
  - repeat split; auto. lia.
  - apply orb_false_iff in Hn. destruct Hn as [Hd Hn].
    destruct a as [m| |]; simpl in *; [| |discriminate].
    + destruct (@mutate_animating m (clock w) (tree w) Ha) as (M1 & M2 & M3).
      destruct (IH (call Date_parse localeCompare hooks m w)) as (H1 & H2 & H3 & H4);
        [simpl; lia | assumption |].
      simpl in *. rewrite H1, H2, H4, M1, M2, mutate_store. repeat split; auto. lia.
    + destruct (tick_animating w Ha) as (T1 & T2 & T3 & T4).
      destruct (IH (tick hooks w)) as (H1 & H2 & H3 & H4); [lia | assumption |].
      rewrite H1, H2, H4, T1, T2, T3. repeat split; auto. lia.
Qed.
End ExitAnimation.

(** X11: while an exit animation is in flight (the host has not called
    back from the remove hook), no mutation with plain ids and no lapse of
    time makes the TaskTree render: the displayed tree stays as it was,
    although the store follows every mutation called. *)
Theorem nothing_renders_during_exit_animation :
  forall (Date_parse : string -> option Z) (localeCompare : string -> string -> Z)
         (hooks : TaskTreeHooks) (acts : list TreeAction) (w : Clocked),
    (0 < animationsInProgress (tree w))%Z ->
    existsb is_done acts = false ->
    forallb plain_mutation (mutations_of acts) = true ->
    renders (tree (run_actions Date_parse localeCompare hooks acts w)) = renders (tree w)
    /\ dom (tree (run_actions Date_parse localeCompare hooks acts w)) = dom (tree w)
    /\ (0 < animationsInProgress (tree (run_actions Date_parse localeCompare hooks acts w)))%Z
    /\ store (tree (run_actions Date_parse localeCompare hooks acts w))
       = fold_left (fun s m => store_mutate Date_parse m s) (mutations_of acts) (store (tree w)).
Proof.
  intros Date_parse localeCompare hooks acts w Ha Hn _.
  destruct (@run_actions_animating Date_parse localeCompare hooks acts w Ha Hn)
    as (H1 & H2 & H3 & H4).
  repeat split; auto. lia.
Qed.

Lemma nothing_renders_during_exit_animation_witness :
  renders (tree (run_actions exampleParse codeCompare allHooks
                   [Call (AddTask exAdded); Tick; Tick; Call (RemoveSection "s1"); Tick]
                   exAnimating)) = []
  /\ JsMap.keys (tasks (store (tree (run_actions exampleParse codeCompare allHooks
                   [Call (AddTask exAdded); Tick; Tick; Call (RemoveSection "s1"); Tick]
                   exAnimating)))) = ["n"].
Proof.
  destruct (@nothing_renders_during_exit_animation exampleParse codeCompare allHooks
              [Call (AddTask exAdded); Tick; Tick; Call (RemoveSection "s1"); Tick]
              exAnimating eq_refl eq_refl eq_refl) as (H1 & _ & _ & H4).
  split; [exact H1|]. rewrite H4. reflexivity.
Defined.

(* ------------------------------------------------------------------ *)
(** ** The render that follows an exit animation *)

Section AfterAnimation.
Variable Date_parse : string -> option Z.
Variable localeCompare : string -> string -> Z.
Variable hooks : TaskTreeHooks.

(** An armed debounce timer renders the snapshot of the store once, at
    its deadline, when nothing else happens. *)
Lemma armed_renders_once w D :
  armed localeCompare D (tree w) -> (clock w < D)%nat ->
  (forall j, (clock w + j < D)%nat ->
             renders (tree (advance hooks j w)) = renders (tree w))
  /\ (forall j, (D <= clock w + j)%nat ->
                renders (tree (advance hooks j w))
                = renders (tree w) ++ [snapshot localeCompare (store (tree w))]
                /\ dom (tree (advance hooks j w)) = Some (snapshot localeCompare (store (tree w)))
                /\ renderTimer (tree (advance hooks j w)) = None).
Proof.
  intros Harm Hlt. split.
  - intros j Hj.
    rewrite (@advance_waiting hooks j w D DebounceCallback); [reflexivity | apply Harm | lia].
  - intros j Hj.
    set (gap := (D - clock w - 1)%nat).
    replace j with (gap + (1 + (j - (D - clock w))))%nat by (unfold gap; lia).
    rewrite !advance_add.
    rewrite (@advance_waiting hooks gap w D DebounceCallback);
      [| apply Harm | unfold gap; lia].
    set (w2 := mkClocked (clock w + gap) (tree w)).
    assert (Harm2 : armed localeCompare D (tree w2)) by exact Harm.
    destruct Harm as (Ht & Hp & Ha & Hr).
    assert (Hfire : tick hooks w2
                    = mkClocked (S (clock w2))
                                (set_renderTimer None (flushRender hooks (S (clock w2)) (tree w)))).
    { unfold tick. simpl. rewrite Ht. simpl.
      destruct (Nat.leb_spec D (S (clock w + gap))); [reflexivity | unfold gap in *; lia]. }
    destruct (@flushRender_renders hooks (S (clock w2)) _ (tree w) Hp Ha)
      as (F1 & F2 & F3 & F4 & F5 & F6 & F7).
    change (advance hooks 1 w2) with (tick hooks w2).
    rewrite Hfire. rewrite advance_quiet by reflexivity.
    cbn [tree]. split; [exact F1|]. split; [exact F2 | reflexivity].
Qed.

Lemma animationDone_arms now t :
  renderTimer t = None -> isRendering t = false -> (animationsInProgress t <= 1)%Z ->
  armed localeCompare (now + renderDelayMs) (animationDone localeCompare hooks now t)
  /\ trace (animationDone localeCompare hooks now t) = trace t
  /\ store (animationDone localeCompare hooks now t) = store t.
Proof.
  intros Ht Hr Ha. unfold animationDone.
  set (t1 := set_animationsInProgress (animationsInProgress t - 1) t).
  assert (Hs : schedulable t1) by (split; simpl; [lia | assumption]).
  destruct (@queueRender_deferred hooks now (snapshotOf localeCompare t1) None t1 Hs)
    as (H1 & H2 & (H3 & H4) & H5 & H6 & _).
  unfold timer_after in H1. simpl in H1. rewrite Ht in H1.
  split; [|split; assumption].
  split; [exact H1|]. split; [rewrite H2, H5; reflexivity|]. split; assumption.
Qed.

Lemma starts_animation_call m w :
  starts_animation hooks m (tree w) = true ->
  let t' := tree (call Date_parse localeCompare hooks m w) in
  store t' = store_mutate Date_parse m (store (tree w))
  /\ trace t' = trace (tree w) ++ exit_events m
  /\ animationsInProgress t' = (animationsInProgress (tree w) + 1)%Z
  /\ renderTimer t' = renderTimer (tree w)
  /\ isRendering t' = isRendering (tree w)
  /\ dom t' = dom (tree w).
Proof.
  intros Hs. destruct m as [data|task|task|taskId|section|section|sectionId];
    simpl in Hs; try discriminate; unfold call; simpl.
  - unfold tree_removeTask. rewrite Hs. simpl. auto 10.
  - unfold tree_removeSection. rewrite Hs. simpl. auto 10.
Qed.
End AfterAnimation.

(** X12: removing a displayed task or section with a plain id, for which
    the host supplies a remove hook, changes the store at once and calls
    the hook, and renders nothing for as long as the host takes to call
    back; from the call-back on, the tree without the removed items is
    rendered exactly once, 150 ms later. *)
Theorem exit_animation_defers_render :
  forall (Date_parse : string -> option Z) (localeCompare : string -> string -> Z)
         (hooks : TaskTreeHooks) (w : Clocked) (m : Mutation) (k : nat),
    idle (tree w) ->
    forallb plain_callback (afterRenderCallbacks (tree w)) = true ->
    plain_mutation m = true ->
    starts_animation hooks m (tree w) = true ->
    let w1 := advance hooks k (call Date_parse localeCompare hooks m w) in
    let w2 := act Date_parse localeCompare hooks w1 Done in
    store (tree w1) = store_mutate Date_parse m (store (tree w))
    /\ trace (tree w1) = trace (tree w) ++ exit_events m
    /\ (forall j, (j < renderDelayMs)%nat ->
                  renders (tree (advance hooks j w2)) = renders (tree w))
    /\ (forall j, (renderDelayMs <= j)%nat ->
                  renders (tree (advance hooks j w2))
                  = renders (tree w)
                    ++ [snapshot localeCompare (store_mutate Date_parse m (store (tree w)))]).
Proof.
  intros Date_parse localeCompare hooks w m k (Ht & Ha & Hr) _ _ Hs w1 w2.
  destruct (@starts_animation_call Date_parse localeCompare hooks m w Hs)
    as (S1 & S2 & S3 & S4 & S5 & S6).
  assert (E1 : w1 = mkClocked (clock w + k) (tree (call Date_parse localeCompare hooks m w))).
  { unfold w1. rewrite advance_quiet; [reflexivity | now rewrite S4]. }
  assert (Hrend : renders (tree (call Date_parse localeCompare hooks m w)) = renders (tree w)).
  { unfold renders. rewrite S2, flat_map_app.
    destruct m; simpl; now rewrite app_nil_r. }
  destruct (@animationDone_arms localeCompare hooks (clock w + k)
              (tree (call Date_parse localeCompare hooks m w)))
    as (Harm & Htr & Hst); [congruence | congruence | lia |].
  assert (E2 : w2 = mkClocked (clock w + k)
                      (animationDone localeCompare hooks (clock w + k)
                         (tree (call Date_parse localeCompare hooks m w)))).
  { unfold w2. rewrite E1. reflexivity. }
  destruct (@armed_renders_once localeCompare hooks w2 (clock w + k + renderDelayMs))
    as (Hbefore & Hafter).
  { rewrite E2. exact Harm. }
  { rewrite E2. unfold renderDelayMs. cbn [clock]. lia. }
  assert (Hr2 : renders (tree w2) = renders (tree w)).
  { rewrite E2. cbn [tree]. unfold renders. rewrite Htr. exact Hrend. }
  assert (Hs2 : store (tree w2) = store_mutate Date_parse m (store (tree w))).
  { rewrite E2. cbn [tree]. now rewrite Hst. }
  assert (Hc2 : clock w2 = (clock w + k)%nat) by (rewrite E2; reflexivity).
  split; [rewrite E1; exact S1|]. split; [rewrite E1; exact S2|]. split.
  - intros j Hj. rewrite Hbefore; [exact Hr2 | rewrite Hc2; lia].
  - intros j Hj. destruct (Hafter j) as (H & _); [rewrite Hc2; lia|].
    now rewrite H, Hr2, Hs2.
Qed.

Lemma exit_animation_defers_render_witness :
  renders (tree (advance allHooks 149
             (act exampleParse codeCompare allHooks
                  (advance allHooks 2000
                           (call exampleParse codeCompare allHooks (RemoveTask "a") exShown))
                  Done))) = []
  /\ renders (tree (advance allHooks 150
                (act exampleParse codeCompare allHooks
                     (advance allHooks 2000
                              (call exampleParse codeCompare allHooks (RemoveTask "a") exShown))
                     Done)))
     = [mkData (project exStoreA)
               [mkSection (exSection "s1" 0 "200") []] []].
Proof.
  assert (Hidle : idle (tree exShown)) by (repeat split; simpl; lia).
  destruct (@exit_animation_defers_render exampleParse codeCompare allHooks exShown
              (RemoveTask "a") 2000 Hidle eq_refl eq_refl eq_refl)
    as (_ & _ & Hbefore & Hafter).
  split.
  - apply (Hbefore 149%nat). unfold renderDelayMs. lia.
  - rewrite (Hafter 150%nat) by (unfold renderDelayMs; lia). reflexivity.
Defined.

(* ------------------------------------------------------------------ *)
(** ** Stale updates and rendering *)

(** X13: a stale update of a stored section leaves the TaskTree as it
    was, with no render requested; a stale update of a stored task leaves
    the store as it was but still requests a render: on an idle tree it
    arms the debounce timer with the snapshot of the unchanged store. *)
Theorem stale_task_update_still_requests_render :
  forall (Date_parse : string -> option Z) (localeCompare : string -> string -> Z)
         (hooks : TaskTreeHooks) (t : TaskTree) (now : nat),
    idle t ->
    (forall section existing,
        JsMap.get (sections (store t)) (SectionRecord.id section) = Some existing ->
        isStale Date_parse (SectionRecord.updated_at section) (SectionRecord.updated_at existing)
        = true ->
        tree_updateSection Date_parse localeCompare hooks section now t = (Normal tt, t))
    /\ (forall task existing,
        JsMap.get (tasks (store t)) (TodoistTask.id task) = Some existing ->
        isStale Date_parse (TodoistTask.updated_at task) (TodoistTask.updated_at existing)
        = true ->
        tree_updateTask Date_parse localeCompare hooks task now t
        = (Normal tt,
           set_renderTimer (Some (mkTimer (now + renderDelayMs) DebounceCallback))
                           (set_pendingSnapshot (Some (snapshot localeCompare (store t))) t))).
Proof.
  intros Date_parse localeCompare hooks t now (Ht & Ha & Hr). split.
  - intros section existing Hg Hs. unfold tree_updateSection, updateSection.
    rewrite Hg, Hs. now rewrite set_store_same.
  - intros task existing Hg Hs. unfold tree_updateTask, updateTask.
    rewrite Hg, Hs. rewrite set_store_same.
    unfold queueRender, queueRender_with, snapshotOf. simpl. rewrite Hr, Ht. simpl.
    replace (0 <? animationsInProgress t)%Z with false by (symmetry; apply Z.ltb_ge; lia).
    reflexivity.
Qed.

Lemma stale_task_update_still_requests_render_witness :
  tree_updateSection exampleParse codeCompare allHooks (exSection "s1" 3 "100") 1000
                     (tree exClocked)
  = (Normal tt, tree exClocked)
  /\ renderTimer (snd (tree_updateTask exampleParse codeCompare allHooks
                                       (exTask "a" None None 9 "100") 1000 (tree exClocked)))
     = Some (mkTimer 1150 DebounceCallback)
  /\ store (snd (tree_updateTask exampleParse codeCompare allHooks
                                 (exTask "a" None None 9 "100") 1000 (tree exClocked)))
     = exStoreA.
Proof.
  assert (Hidle : idle (tree exClocked)) by (repeat split; simpl; lia).
  destruct (@stale_task_update_still_requests_render exampleParse codeCompare allHooks
              (tree exClocked) 1000 Hidle) as [Hsec Htask].
  split.
  - exact (Hsec (exSection "s1" 3 "100") (exSection "s1" 0 "200") eq_refl eq_refl).
  - rewrite (Htask (exTask "a" None None 9 "100") (exTask "a" None (Some "s1") 1 "200")
                   eq_refl eq_refl).
    split; reflexivity.
Defined.

(* ------------------------------------------------------------------ *)
(** ** The enter animation of an added task *)

(** X14: a task with a plain id added to an idle TaskTree with nothing
    pending is
    rendered 150 ms later, marked as a pending addition (it is drawn
    hidden); right after that render the onTaskAdd hook is called for it,
    when the host supplies the hook and the task is displayed, then
    onTreeChange; afterwards no addition is pending and the tree is idle
    again. *)
Theorem added_task_rendered_hidden_then_announced :
  forall (localeCompare : string -> string -> Z) (Date_parse : string -> option Z)
         (hooks : TaskTreeHooks) (w : Clocked) (task : TodoistTask.t),
    idle (tree w) ->
    afterRenderCallbacks (tree w) = [] ->
    pendingTaskAddIds (tree w) = [] ->
    plain_id (TodoistTask.id task) = true ->
    JsMap.has (tasks (store (tree w))) (TodoistTask.id task) = false ->
    let w1 := advance hooks renderDelayMs
                      (call Date_parse localeCompare hooks (AddTask task) w) in
    let shown := snapshot localeCompare (snd (addTask task (store (tree w)))) in
    trace (tree w1)
    = trace (tree w)
      ++ [Render shown [TodoistTask.id task] (pendingSectionAddIds (tree w))]
      ++ (if existsb (String.eqb (TodoistTask.id task)) (snapshot_ids shown) && onTaskAdd hooks
          then [OnTaskAdd (TodoistTask.id task)] else [])
      ++ (if onTreeChange hooks then [OnTreeChange] else [])
    /\ dom (tree w1) = Some shown
    /\ pendingTaskAddIds (tree w1) = []
    /\ afterRenderCallbacks (tree w1) = []
    /\ idle (tree w1).
Proof.
  intros localeCompare Date_parse hooks w task (Ht & Ha & Hr) Hcb Hpa _ Hhas w1 shown.
  assert (Hlt : (0 <? animationsInProgress (tree w))%Z = false) by (apply Z.ltb_ge; lia).
  set (t1 := tree (call Date_parse localeCompare hooks (AddTask task) w)).
  assert (E1 : t1
               = mkTree (snd (addTask task (store (tree w)))) (dom (tree w))
                        (Some (mkTimer (clock w + renderDelayMs) DebounceCallback))
                        (Some shown) [AfterTaskAdd (TodoistTask.id task)]
                        [TodoistTask.id task] (pendingSectionAddIds (tree w))
                        (animationsInProgress (tree w)) false (trace (tree w))).
  { unfold t1, call, mutate, tree_addTask, shown, addTask. cbn [tree snd]. rewrite Hhas.
    unfold queueRender, queueRender_with, snapshotOf. cbn.
    rewrite Hr, Hlt, Ht, Hcb, Hpa. cbn.
    unfold set_renderTimer, set_afterRenderCallbacks, set_pendingSnapshot,
      set_pendingTaskAddIds, set_store. cbn. now rewrite Hr. }
  clearbody shown.
  set (gap := (renderDelayMs - 1)%nat).
  assert (Hw1 : w1 = tick hooks (mkClocked (clock w + gap) t1)).
  { unfold w1. replace renderDelayMs with (gap + 1)%nat at 1 by (unfold gap, renderDelayMs; lia).
    rewrite advance_add.
    rewrite (@advance_waiting hooks gap _ (clock w + renderDelayMs) DebounceCallback).
    - reflexivity.
    - fold t1. rewrite E1. reflexivity.
    - unfold call. cbn [clock]. unfold gap, renderDelayMs. lia. }
  assert (Hfire : tick hooks (mkClocked (clock w + gap) t1)
                  = mkClocked (S (clock w + gap))
                              (set_renderTimer None (flushRender hooks (S (clock w + gap)) t1))).
  { unfold tick. cbn [tree clock]. rewrite E1 at 1. cbn [renderTimer timer_deadline].
    destruct (Nat.leb_spec (clock w + renderDelayMs) (S (clock w + gap))) as [_|L];
      [reflexivity | unfold gap, renderDelayMs in L; lia]. }
  rewrite Hw1, Hfire. cbn [tree]. clearbody gap t1. subst t1.
  unfold flushRender. cbn. rewrite Hlt. cbn.
  unfold findTaskElement. cbn.
  destruct (existsb (String.eqb (TodoistTask.id task)) (snapshot_ids shown) && onTaskAdd hooks);
    destruct (onTreeChange hooks); cbn; rewrite ?String.eqb_refl; cbn;
    rewrite <- ?app_assoc; cbn; repeat split; auto.
Qed.

Lemma added_task_rendered_hidden_then_announced_witness :
  trace (tree (advance allHooks renderDelayMs
                 (call exampleParse codeCompare allHooks (AddTask exAdded) exClocked)))
  = [Render (snapshot codeCompare
               (mkStore (project exStoreA) (sections exStoreA)
                        (tasks exStoreA ++ [("n", exAdded)])))
            ["n"] [];
     OnTaskAdd "n"; OnTreeChange]
  /\ pendingTaskAddIds
       (tree (advance allHooks renderDelayMs
                (call exampleParse codeCompare allHooks (AddTask exAdded) exClocked))) = [].
Proof.
  assert (Hidle : idle (tree exClocked)) by (repeat split; simpl; lia).
  destruct (@added_task_rendered_hidden_then_announced codeCompare exampleParse allHooks
              exClocked exAdded Hidle eq_refl eq_refl eq_refl eq_refl) as (H1 & _ & H3 & _).
  split; [rewrite H1; reflexivity | exact H3].
Defined.

(* ------------------------------------------------------------------ *)
(** ** EventQueue: clear, ties, and what becomes of an event *)

Section QueueExtras.
Variable Event : Type.
Variable Handled : Type.
Variable processEvent : Event -> Handled -> Completion unit * Handled.
Variable entityId : Event -> option string.
Variable updatedAt : Event -> option string.
Variable Date_parse : string -> option Z.
Variable reorderDelayMs : nat.

Implicit Types (q : EventQueue Event Handled).

Lemma clear_timers_nil q : wf_queue q -> timers (clear q) = [].
Proof.
  intros (ND & Hreg & _). unfold clear. simpl.
  destruct (fold_left _ _ _) as [|tm l] eqn:E; [reflexivity|exfalso].
  assert (Hin : In tm (fold_left (fun ts h => clearTimeout h ts)
                                 (JsMap.values (pendingEventTimers q)) (timers q)))
    by (rewrite E; now left).
  apply clearTimeout_fold_In in Hin. destruct Hin as [Hin Hn].
  destruct (Hreg _ Hin) as (_ & _ & G & _). apply Hn. eapply get_values; eauto.
Qed.

(** X18: clear empties every buffer and cancels every timer of the
    queue: however much time passes afterwards, no buffered event is
    replayed and no error is reported. *)
Theorem clear_cancels_every_replay :
  forall q (k : nat),
    wf_queue q ->
    let q' := queue_advance processEvent k (clear q) in
    replays q' = replays q
    /\ errors q' = errors q
    /\ handled q' = handled q
    /\ timers q' = []
    /\ pendingEvents q' = JsMap.empty
    /\ pendingEventTimers q' = JsMap.empty
    /\ now q' = (now q + k)%nat.
Proof.
  intros q k Hwf q'. unfold q'.
  rewrite queue_advance_no_timers by (now apply clear_timers_nil).
  simpl. repeat split.
Qed.

Lemma js_sort_all_ties (A : Type) (cmp : A -> A -> Z) (l : list A) :
  (forall a b, In a l -> In b l -> cmp a b = 0%Z) -> js_sort cmp l = l.
Proof.
  induction l as [|x l IH]; intros H; simpl; [reflexivity|].
  rewrite IH by (intros; apply H; now right).
  destruct l as [|y l]; simpl; [reflexivity|].
  rewrite (H x y); simpl; auto.
Qed.

(** X19: buffered events whose timestamps do not tell them apart (equal
    times, or times that are not numbers) are replayed in the order in
    which they arrived. *)
Theorem ties_replayed_in_arrival_order :
  forall q (entity : string) (p : Pending Event) (l : list (Pending Event)),
    JsMap.get (pendingEvents q) entity = Some (p :: l) ->
    (forall a b, In a (p :: l) -> In b (p :: l) -> byTimestamp a b = 0%Z) ->
    let r := replayEvents processEvent (p :: l) (handled q) in
    processPending processEvent entity q
    = mkQueue (JsMap.delete (pendingEvents q) entity)
              (JsMap.delete (pendingEventTimers q) entity)
              (fst r)
              (errors q ++ replayErrors (snd r))
              (replays q ++ [mkReplay entity (now q) (snd r)])
              (now q) (timers q) (nextHandle q)
    /\ map fst (snd r) = map (@pending_event Event) (p :: l).
Proof.
  intros q entity p l Hg Hties r. split.
  - unfold processPending. rewrite Hg.
    now rewrite (js_sort_all_ties (@byTimestamp Event) (p :: l) Hties).
  - apply replayEvents_events.
Qed.

Hypothesis delay_positive : (0 < reorderDelayMs)%nat.

(** X20: process loses no event. An event the handler accepts changes
    nothing in the queue; one it rejects is, when it carries an id,
    appended to the buffer of that id with a single timer armed for it
    [reorderDelayMs] from now and no error reported, and otherwise
    reported at once through [onError] and not buffered. *)
Theorem process_handles_buffers_or_reports :
  forall q (event : Event),
    wf_queue q ->
    let q' := process processEvent entityId updatedAt Date_parse reorderDelayMs event q in
    handled q' = snd (processEvent event (handled q))
    /\ replays q' = replays q
    /\ now q' = now q
    /\ match fst (processEvent event (handled q)) with
       | Normal _ =>
           pendingEvents q' = pendingEvents q /\ timers q' = timers q
           /\ errors q' = errors q
       | Throw message =>
           if truthy (entityId event)
           then exists entity,
               entityId event = Some entity
               /\ buffer entity q'
                  = buffer entity q ++ [mkPending event (timestampOf updatedAt Date_parse event q)]
               /\ timers_for entity q'
                  = [mkWindowTimer (nextHandle q) (now q + reorderDelayMs) entity]
               /\ errors q' = errors q
           else pendingEvents q' = pendingEvents q /\ timers q' = timers q
                /\ errors q' = errors q ++ [("Error while handling event", message)]
       end.
Proof.
  intros q event Hwf q'.
  destruct (processEvent event (handled q)) as [[u|message] h] eqn:Hp; cbn [fst snd].
  - unfold q', process. rewrite Hp. simpl. auto 10.
  - destruct (truthy (entityId event)) eqn:Ht.
    + destruct (entityId event) as [entity|] eqn:Hid; [|discriminate].
      assert (Hne : entity <> "").
      { intros ->. simpl in Ht. discriminate. }
      set (q0 := mkQueue (pendingEvents q) (pendingEventTimers q) h (errors q) (replays q)
                         (now q) (timers q) (nextHandle q)).
      assert (Hwf0 : wf_queue q0) by exact Hwf.
      destruct (@queueForReorder_spec Event Handled processEvent entityId updatedAt Date_parse
                  reorderDelayMs delay_positive entity event
                  (timestampOf updatedAt Date_parse event q) q0 Hwf0 Hne)
        as (_ & A1 & A2 & _ & A4 & A5 & A6 & A7).
      assert (E : q' = queueForReorder reorderDelayMs entity event
                                       (timestampOf updatedAt Date_parse event q) q0).
      { unfold q', process. rewrite Hp, Hid, Ht. reflexivity. }
      rewrite E. split; [exact A7|]. split; [exact A4|]. split; [exact A5|].
      exists entity. auto.
    + unfold q', process. rewrite Hp, Ht. simpl. auto 10.
Qed.
End QueueExtras.

Lemma clear_cancels_every_replay_witness :
  replays (queue_advance exHandler 4500
             (clear (process exHandler exEntityId exUpdatedAt exampleParse 3000
                             exUpdateLate exQueue))) = []
  /\ timers (process exHandler exEntityId exUpdatedAt exampleParse 3000 exUpdateLate exQueue)
     = [mkWindowTimer 0 3000 "x"].
Proof.
  assert (Hwf : wf_queue (process exHandler exEntityId exUpdatedAt exampleParse 3000
                                   exUpdateLate exQueue)).
  { apply process_wf; [lia | apply newQueue_wf]. }
  destruct (@clear_cancels_every_replay Message TaskStore exHandler
              (process exHandler exEntityId exUpdatedAt exampleParse 3000 exUpdateLate exQueue)
              4500 Hwf) as (H1 & _).
  split; [exact H1 | reflexivity].
Defined.

Lemma ties_replayed_in_arrival_order_witness :
  map fst (snd (replayEvents exHandler
                  [mkPending exUpdateTieB (Some 400%Z); mkPending exUpdateTieA (Some 400%Z)]
                  exStoreA))
  = [exUpdateTieB; exUpdateTieA]
  /\ replays (processPending exHandler "x"
                (process exHandler exEntityId exUpdatedAt exampleParse 3000 exUpdateTieA
                   (process exHandler exEntityId exUpdatedAt exampleParse 3000 exUpdateTieB
                            exQueue)))
     = [mkReplay "x" 0
          [(exUpdateTieB, Throw "Task with ID x does not exist.");
           (exUpdateTieA, Throw "Task with ID x does not exist.")]].
Proof.
  assert (Hties : forall a b : Pending Message,
             In a [mkPending exUpdateTieB (Some 400%Z); mkPending exUpdateTieA (Some 400%Z)] ->
             In b [mkPending exUpdateTieB (Some 400%Z); mkPending exUpdateTieA (Some 400%Z)] ->
             byTimestamp a b = 0%Z).
  { intros a b [<-|[<-|[]]] [<-|[<-|[]]]; reflexivity. }
  destruct (@ties_replayed_in_arrival_order Message TaskStore exHandler
              (process exHandler exEntityId exUpdatedAt exampleParse 3000 exUpdateTieA
                 (process exHandler exEntityId exUpdatedAt exampleParse 3000 exUpdateTieB
                          exQueue))
              "x" (mkPending exUpdateTieB (Some 400%Z)) [mkPending exUpdateTieA (Some 400%Z)]
              eq_refl Hties) as [Hpass Horder].
  split; [exact Horder|]. rewrite Hpass. reflexivity.
Defined.

Lemma process_handles_buffers_or_reports_witness :
  buffer "x" (process exHandler exEntityId exUpdatedAt exampleParse 3000 exUpdateLate exQueue)
  = [mkPending exUpdateLate (Some 500%Z)]
  /\ errors (process exHandler exEntityId exUpdatedAt exampleParse 3000 exUpdateLate exQueue)
     = [].
Proof.
  assert (Hpos : (0 < 3000)%nat) by lia.
  destruct (@process_handles_buffers_or_reports Message TaskStore exHandler exEntityId
              exUpdatedAt exampleParse 3000 Hpos exQueue exUpdateLate
              (@newQueue_wf Message TaskStore exStoreA 0)) as (_ & _ & _ & H).
  simpl in H. destruct H as (entity & Hid & Hbuf & _ & Herr).
  injection Hid as <-. split; [exact Hbuf | exact Herr].
Defined.

(* ------------------------------------------------------------------ *)
(** ** Which events processEvent rejects *)

Lemma tree_updateTask_throw Date_parse localeCompare hooks task now t :
  is_throw (fst (tree_updateTask Date_parse localeCompare hooks task now t))
  = negb (JsMap.has (tasks (store t)) (TodoistTask.id task))
  /\ (is_throw (fst (tree_updateTask Date_parse localeCompare hooks task now t)) = true ->
      snd (tree_updateTask Date_parse localeCompare hooks task now t) = t).
Proof.
  unfold tree_updateTask, updateTask, JsMap.has.
  destruct (JsMap.get (tasks (store t)) (TodoistTask.id task)); simpl.
  - destruct (isStale Date_parse _ _); simpl; split; auto; discriminate.
  - auto.
Qed.

Lemma tree_addTask_throw localeCompare hooks task now t :
  is_throw (fst (tree_addTask localeCompare hooks task now t))
  = JsMap.has (tasks (store t)) (TodoistTask.id task)
  /\ (is_throw (fst (tree_addTask localeCompare hooks task now t)) = true ->
      snd (tree_addTask localeCompare hooks task now t) = t).
Proof.
  unfold tree_addTask, addTask.
  destruct (JsMap.has (tasks (store t)) (TodoistTask.id task)); simpl; split; auto; discriminate.
Qed.

Lemma tree_updateSection_throw Date_parse localeCompare hooks section now t :
  is_throw (fst (tree_updateSection Date_parse localeCompare hooks section now t))
  = negb (JsMap.has (sections (store t)) (SectionRecord.id section))
  /\ (is_throw (fst (tree_updateSection Date_parse localeCompare hooks section now t)) = true ->
      snd (tree_updateSection Date_parse localeCompare hooks section now t) = t).
Proof.
  unfold tree_updateSection, updateSection, JsMap.has.
  destruct (JsMap.get (sections (store t)) (SectionRecord.id section)); simpl.
  - destruct (isStale Date_parse _ _); simpl; split; auto; discriminate.
  - auto.
Qed.

Lemma with_taskTree_same w c : with_taskTree w (c, taskTree w) = (c, w).
Proof. unfold with_taskTree. simpl. now destruct w. Qed.

(** X21: for an event whose id is plain, processEvent throws in three
    cases only: an update of a task
    that is not stored, the addition (or uncompletion) of a task that is
    stored, and an update of a section that is not stored; when it throws
    the widget is as it was. Removals, section additions and project
    updates always return, and an event with any other name is ignored. *)
Theorem processEvent_rejects_exactly_three_cases :
  forall (Date_parse : string -> option Z) (localeCompare : string -> string -> Z)
         (hooks : TaskTreeHooks) (message : Message) (now : nat) (w : ProjectWidgetScript),
    plain_id (EventData.id (event_data message)) = true ->
    let name := event_name message in
    let id := EventData.id (event_data message) in
    let st := store (taskTree w) in
    let r := processEvent Date_parse localeCompare hooks message now w in
    is_throw (fst r)
    = (String.eqb name "item:updated" && negb (JsMap.has (tasks st) id))
      || ((String.eqb name "item:added" || String.eqb name "item:uncompleted")
          && JsMap.has (tasks st) id)
      || (String.eqb name "section:updated" && negb (JsMap.has (sections st) id))
    /\ (is_throw (fst r) = true -> snd r = w)
    /\ (existsb (String.eqb name) handled_event_names = false -> r = (Normal tt, w)).
Proof.
  intros Date_parse localeCompare hooks [name data] now w _. cbn zeta.
  cbn [event_name event_data].
  unfold processEvent. cbn [event_name event_data].
  destruct (String.eqb_spec name "item:completed") as [->|N1];
    [cbn; repeat split; try discriminate|].
  destruct (String.eqb_spec name "item:deleted") as [->|N2];
    [cbn; repeat split; try discriminate|].
  destruct (String.eqb_spec name "section:archived") as [->|N3];
    [cbn; repeat split; try discriminate|].
  destruct (String.eqb_spec name "section:deleted") as [->|N4];
    [cbn; repeat split; try discriminate|].
  destruct (String.eqb_spec name "item:updated") as [->|N5].
  { cbn [orb andb]. change (String.eqb "item:updated" "item:added") with false.
    change (String.eqb "item:updated" "item:uncompleted") with false.
    change (String.eqb "item:updated" "section:updated") with false.
    cbn [orb andb]. rewrite !orb_false_r.
    destruct (tree_updateTask_throw Date_parse localeCompare hooks (asTodoistTask data) now
                                    (taskTree w)) as [Hi Hs].
    unfold with_taskTree. cbn [fst snd]. split; [exact Hi|split].
    - intros H. rewrite (Hs H). now destruct w.
    - cbn. discriminate. }
  destruct (String.eqb_spec name "project:updated") as [->|N6];
    [cbn; repeat split; try discriminate|].
  destruct (String.eqb_spec name "item:added") as [->|N7].
  { cbn [orb andb]. change (String.eqb "item:added" "section:updated") with false.
    cbn [orb andb]. rewrite !orb_false_r.
    destruct (tree_addTask_throw localeCompare hooks (asTodoistTask data) now (taskTree w))
      as [Hi Hs].
    unfold with_taskTree. cbn [fst snd]. split; [exact Hi|split].
    - intros H. rewrite (Hs H). now destruct w.
    - cbn. discriminate. }
  destruct (String.eqb_spec name "item:uncompleted") as [->|N8].
  { cbn [orb andb]. change (String.eqb "item:uncompleted" "section:updated") with false.
    cbn [orb andb]. rewrite !orb_false_r.
    destruct (tree_addTask_throw localeCompare hooks (asTodoistTask data) now (taskTree w))
      as [Hi Hs].
    unfold with_taskTree. cbn [fst snd]. split; [exact Hi|split].
    - intros H. rewrite (Hs H). now destruct w.
    - cbn. discriminate. }
  destruct (String.eqb_spec name "section:added") as [->|N9];
    [cbn; repeat split; try discriminate|].
  destruct (String.eqb_spec name "section:unarchived") as [->|N10];
    [cbn; repeat split; try discriminate|].
  destruct (String.eqb_spec name "section:updated") as [->|N11].
  { cbn [orb andb].
    destruct (tree_updateSection_throw Date_parse localeCompare hooks
                (asTodoistSectionInput data) now (taskTree w)) as [Hi Hs].
    unfold with_taskTree. cbn [fst snd]. split; [exact Hi|split].
    - intros H. rewrite (Hs H). now destruct w.
    - cbn. discriminate. }
  cbn. repeat split; discriminate.
Qed.

Lemma processEvent_rejects_exactly_three_cases_witness :
  plain_id (EventData.id (event_data exUpdateLate)) = true
  /\ is_throw (fst (processEvent exampleParse codeCompare allHooks exUpdateLate 0 exWidget))
     = true
  /\ snd (processEvent exampleParse codeCompare allHooks exUpdateLate 0 exWidget) = exWidget.
Proof.
  split; [reflexivity|].
  destruct (@processEvent_rejects_exactly_three_cases exampleParse codeCompare allHooks
              exUpdateLate 0 exWidget eq_refl) as (H1 & H2 & _).
  assert (Ht : is_throw (fst (processEvent exampleParse codeCompare allHooks exUpdateLate 0
                                           exWidget)) = true)
    by (rewrite H1; reflexivity).
  split; [exact Ht | exact (H2 Ht)].
Defined.

(* ------------------------------------------------------------------ *)
(** ** Which tasks a snapshot shows, and how often *)

Lemma hd_app_last (A : Type) (k c : A) (pre : list A) : hd k (pre ++ [c]) = hd c pre.
Proof. now destruct pre. Qed.

Lemma hd_error_app_cons (A : Type) (k : A) (pre l : list A) :
  hd_error (pre ++ k :: l) = Some (hd k pre).
Proof. now destruct pre. Qed.

Lemma RootPath_same_head nodes p1 p2 :
  RootPath nodes p1 -> RootPath nodes p2 -> hd_error p1 = hd_error p2 -> p1 = p2.
Proof.
  intros H1 H2 E.
  destruct p1 as [|a p1]; [inversion H1|]. destruct p2 as [|b p2]; [inversion H2|].
  simpl in E. injection E as <-. f_equal. eapply RootPath_unique; eauto.
Qed.

Lemma NoDup_flat_map_keyed (A B : Type) (f : A -> list B) (l : list A) :
  NoDup l ->
  (forall a, In a l -> NoDup (f a)) ->
  (forall a b x, In a l -> In b l -> In x (f a) -> In x (f b) -> a = b) ->
  NoDup (flat_map f l).
Proof.
  induction l as [|a l IH]; intros ND Heach Hdisj; simpl; [constructor|].
  inversion ND as [|? ? Hn ND']; subst.
  apply NoDup_app.
  - apply Heach. now left.
  - apply IH; [assumption | intros; apply Heach; now right |].
    intros a0 b0 x Ha Hb. apply Hdisj; now right.
  - intros x Hx Hin. apply in_flat_map in Hin. destruct Hin as [b [Hb Hxb]].
    assert (a = b) by (apply (Hdisj a b x); simpl; auto). subst b. contradiction.
Qed.

Section ShownTasks.
Variable localeCompare : string -> string -> Z.
Variable nodes : JsMap.t TodoistTask.t.
Hypothesis nodes_wf : wf_tasks nodes.

Lemma linked_children_spec k c tc :
  In (c, tc) (linked_children nodes k) <->
  JsMap.get nodes c = Some tc /\ parent_key nodes tc = Some k.
Proof.
  unfold linked_children. rewrite filter_In. simpl. split.
  - intros [Hin Hp]. split; [apply In_get; [apply nodes_wf | assumption]|].
    destruct (parent_key nodes tc) as [p|]; [|discriminate].
    apply String.eqb_eq in Hp. now subst.
  - intros [Hg Hp]. split; [now apply get_In|]. rewrite Hp. apply String.eqb_refl.
Qed.

(** What hangs from the node of [k] has a chain of parent links up to
    [k]. *)
Lemma buildNode_ids_path fuel :
  forall d k t l x,
    RootPath nodes (k :: l) -> JsMap.get nodes k = Some t ->
    In x (node_ids (buildNode localeCompare fuel nodes d k t)) ->
    exists pre, RootPath nodes (pre ++ k :: l) /\ hd k pre = x.
Proof.
  induction fuel as [|fuel IH]; intros d k t l x HR Hg Hin.
  - simpl in Hin. destruct Hin as [<-|[]]. exists []. split; [assumption|].
    simpl. symmetry. eapply wf_get_id; eauto.
  - cbn [buildNode node_ids] in Hin. destruct Hin as [<-|Hin].
    + exists []. split; [assumption|]. simpl. symmetry. eapply wf_get_id; eauto.
    + apply in_flat_map in Hin. destruct Hin as [n [Hn Hx]].
      apply js_sort_In in Hn. apply in_map_iff in Hn. destruct Hn as [[c tc] [<- Hc]].
      apply linked_children_spec in Hc. destruct Hc as [Hgc Hpc]. simpl in Hx.
      destruct (IH (S d) c tc (k :: l) x) as (pre & Hpre & Hhd);
        [econstructor; eauto | assumption | assumption |].
      exists (pre ++ [c]). rewrite <- app_assoc. simpl. split; [assumption|].
      now rewrite hd_app_last.
Qed.

(** With fuel for the length of the chain, the task at its lower end
    hangs from the node at its upper end. *)
Lemma buildNode_path_ids pre :
  forall fuel d k t l,
    RootPath nodes (pre ++ k :: l) -> JsMap.get nodes k = Some t ->
    (List.length pre <= fuel)%nat ->
    In (hd k pre) (node_ids (buildNode localeCompare fuel nodes d k t)).
Proof.
  induction pre as [|c pre IH] using rev_ind; intros fuel d k t l HR Hg Hlen.
  - simpl. destruct fuel; simpl; left; eapply wf_get_id; eauto.
  - rewrite length_app in Hlen. simpl in Hlen.
    destruct fuel as [|fuel]; [lia|].
    rewrite <- app_assoc in HR. simpl in HR.
    pose proof (RootPath_suffix _ _ _ HR) as HRc.
    inversion HRc as [|c0 tc p rest Hgc Hpc HRk]; subst.
    cbn [buildNode node_ids]. right. apply in_flat_map.
    exists (buildNode localeCompare fuel nodes (S d) c tc). split.
    + apply js_sort_In. apply in_map_iff. exists (c, tc). split; [reflexivity|].
      now apply linked_children_spec.
    + rewrite hd_app_last. apply IH with (l := k :: l); [assumption | assumption | lia].
Qed.

Lemma built_nodes_distinct (build : string * TodoistTask.t -> TodoistTaskNode)
      (entries : list (string * TodoistTask.t)) :
  (forall e, node_task (build e) = snd e) ->
  (forall e, In e entries -> In e nodes) ->
  NoDup (map fst entries) ->
  NoDup (map build entries).
Proof.
  intros Hb Hsub ND.
  apply NoDup_map_inv with (f := fun n => TodoistTask.id (node_task n)).
  rewrite map_map.
  replace (map (fun e => TodoistTask.id (node_task (build e))) entries) with (map fst entries);
    [assumption|].
  apply map_ext_in. intros e He. rewrite Hb.
  destruct nodes_wf as [_ HF]. rewrite Forall_forall in HF. symmetry. now apply HF, Hsub.
Qed.

(** The tree built for a node shows no task twice. *)
Lemma buildNode_ids_NoDup fuel :
  forall d k t l,
    RootPath nodes (k :: l) -> JsMap.get nodes k = Some t ->
    NoDup (node_ids (buildNode localeCompare fuel nodes d k t)).
Proof.
  induction fuel as [|fuel IH]; intros d k t l HR Hg.
  - simpl. repeat constructor. simpl. tauto.
  - cbn [buildNode node_ids].
    assert (Hid : TodoistTask.id t = k) by (eapply wf_get_id; eauto).
    constructor.
    + intros Hin. apply in_flat_map in Hin. destruct Hin as [n [Hn Hx]].
      apply js_sort_In in Hn. apply in_map_iff in Hn. destruct Hn as [[c tc] [<- Hc]].
      apply linked_children_spec in Hc. destruct Hc as [Hgc Hpc]. simpl in Hx.
      destruct (@buildNode_ids_path fuel (S d) c tc (k :: l) (TodoistTask.id t))
        as (pre & Hpre & Hhd); [econstructor; eauto | assumption | assumption |].
      apply RootPath_NoDup in Hpre. rewrite Hid in Hhd.
      destruct pre as [|a pre]; simpl in Hhd; subst.
      * simpl in Hpre. inversion Hpre as [|? ? Hn _]; subst. apply Hn. now left.
      * simpl in Hpre. inversion Hpre as [|? ? Hn _]; subst. apply Hn.
        apply in_or_app. right. right. now left.
    + apply NoDup_flat_map_keyed.
      * apply (Permutation_NoDup (l := map (fun e => buildNode localeCompare fuel nodes (S d)
                                                                  (fst e) (snd e))
                                           (linked_children nodes k))).
        { symmetry. apply js_sort_perm. }
        apply built_nodes_distinct.
        -- intros e. apply buildNode_task.
        -- intros e He. unfold linked_children in He. now apply filter_In in He.
        -- unfold linked_children. apply NoDup_map_filter. apply nodes_wf.
      * intros n Hn. apply js_sort_In in Hn. apply in_map_iff in Hn.
        destruct Hn as [[c tc] [<- Hc]].
        apply linked_children_spec in Hc. destruct Hc as [Hgc Hpc]. simpl.
        apply IH with (l := k :: l); [econstructor; eauto | assumption].
      * intros n1 n2 x Hn1 Hn2 Hx1 Hx2.
        apply js_sort_In in Hn1. apply in_map_iff in Hn1. destruct Hn1 as [[c1 t1] [<- Hc1]].
        apply js_sort_In in Hn2. apply in_map_iff in Hn2. destruct Hn2 as [[c2 t2] [<- Hc2]].
        apply linked_children_spec in Hc1. destruct Hc1 as [Hg1 Hp1].
        apply linked_children_spec in Hc2. destruct Hc2 as [Hg2 Hp2]. simpl in *.
        destruct (@buildNode_ids_path fuel (S d) c1 t1 (k :: l) x)
          as (pre1 & HR1 & Hh1); [econstructor; eauto | assumption | assumption |].
        destruct (@buildNode_ids_path fuel (S d) c2 t2 (k :: l) x)
          as (pre2 & HR2 & Hh2); [econstructor; eauto | assumption | assumption |].
        assert (E : pre1 ++ c1 :: k :: l = pre2 ++ c2 :: k :: l).
        { apply (RootPath_same_head HR1 HR2). rewrite !hd_error_app_cons. congruence. }
        change (pre1 ++ c1 :: k :: l) with (pre1 ++ [c1] ++ k :: l) in E.
        change (pre2 ++ c2 :: k :: l) with (pre2 ++ [c2] ++ k :: l) in E.
        rewrite !app_assoc in E. apply app_inv_tail in E. apply app_inj_tail in E.
        destruct E as [_ ->]. assert (t1 = t2) by congruence. now subst.
Qed.
End ShownTasks.

Lemma flat_map_of_map (A B C : Type) (f : B -> list C) (g : A -> B) (l : list A) :
  flat_map f (map g l) = flat_map (fun a => f (g a)) l.
Proof. induction l as [|a l IH]; simpl; [reflexivity | now rewrite IH]. Qed.

Lemma flat_map_of_flat_map (A B C : Type) (f : B -> list C) (g : A -> list B) (l : list A) :
  flat_map f (flat_map g l) = flat_map (fun a => flat_map f (g a)) l.
Proof.
  induction l as [|a l IH]; simpl; [reflexivity|]. now rewrite flat_map_app, IH.
Qed.

Lemma RootPath_last_root nodes p :
  RootPath nodes p ->
  forall d, exists t, JsMap.get nodes (last p d) = Some t /\ parent_key nodes t = None.
Proof.
  induction 1 as [k t Hg Hr | k t p rest Hg Hp HR IH]; intros d.
  - exists t. auto.
  - destruct (IH d) as (t' & Hg' & Hr'). exists t'. split; [|assumption].
    simpl in *. exact Hg'.
Qed.

Lemma app_removelast_hd (A : Type) (x : A) (l : list A) :
  x :: l = removelast (x :: l) ++ [last (x :: l) x]
  /\ hd (last (x :: l) x) (removelast (x :: l)) = x.
Proof.
  split.
  - apply app_removelast_last. discriminate.
  - destruct l; reflexivity.
Qed.

Section ShownInSnapshot.
Variable localeCompare : string -> string -> Z.
Variable st : TaskStore.
Hypothesis st_wf : wf_store st.

Lemma root_entry_spec k t :
  In (k, t) (root_entries (tasks st)) <->
  JsMap.get (tasks st) k = Some t /\ parent_key (tasks st) t = None.
Proof.
  destruct st_wf as [Hwf _].
  unfold root_entries, is_root. rewrite filter_In. simpl. split.
  - intros [Hin Hr]. split; [apply In_get; [apply Hwf | assumption]|].
    now destruct (parent_key (tasks st) t).
  - intros [Hg Hr]. split; [now apply get_In | now rewrite Hr].
Qed.

Lemma snapshot_root_spec r :
  In r (snapshot_roots localeCompare st) <->
  exists k t, JsMap.get (tasks st) k = Some t /\ parent_key (tasks st) t = None
              /\ r = buildNode localeCompare (List.length (tasks st)) (tasks st) 0 k t.
Proof.
  destruct st_wf as [Hwf _].
  unfold snapshot_roots. rewrite snapshot_nodes_wf by assumption. rewrite in_map_iff. split.
  - intros [[k t] [<- He]]. apply root_entry_spec in He. exists k, t. tauto.
  - intros (k & t & Hg & Hr & ->). exists (k, t). split; [reflexivity|].
    apply root_entry_spec. tauto.
Qed.

Lemma snapshot_roots_NoDup : NoDup (snapshot_roots localeCompare st).
Proof.
  destruct st_wf as [Hwf _].
  unfold snapshot_roots. rewrite snapshot_nodes_wf by assumption.
  apply built_nodes_distinct with (nodes := tasks st).
  - assumption.
  - intros e. apply buildNode_task.
  - intros e He. unfold root_entries in He. now apply filter_In in He.
  - unfold root_entries. apply NoDup_map_filter. apply Hwf.
Qed.

Lemma snapshot_ids_listed :
  snapshot_ids (snapshot localeCompare st) = flat_map node_ids (listed_nodes localeCompare st).
Proof.
  unfold snapshot_ids, listed_nodes. now rewrite flat_map_app, flat_map_of_flat_map.
Qed.

Lemma stored_section_spec s :
  JsMap.has (sections st) s = true <->
  exists rec, In rec (JsMap.values (sections st)) /\ SectionRecord.id rec = s.
Proof.
  destruct st_wf as [_ [ND HF]]. rewrite Forall_forall in HF. split.
  - intros H. apply has_keys in H. apply keys_In_get in H. destruct H as [rec Hg].
    exists rec. split; [eapply get_values; eauto|].
    apply get_In in Hg. now apply HF in Hg.
  - intros (rec & Hin & Hid). unfold JsMap.values in Hin. apply in_map_iff in Hin.
    destruct Hin as [[k v] [Hv He]]. simpl in Hv. subst v.
    apply has_keys. pose proof (HF _ He) as Hk. simpl in Hk.
    unfold JsMap.keys. apply in_map_iff. exists (k, rec). simpl. split; [congruence|assumption].
Qed.

Lemma listed_nodes_spec r :
  In r (listed_nodes localeCompare st) <->
  In r (snapshot_roots localeCompare st) /\ listed_root st (node_task r) = true.
Proof.
  unfold listed_nodes, snapshot, listed_root. simpl. rewrite in_app_iff. split.
  - intros [Hu|Hs].
    + apply js_sort_In in Hu. apply filter_In in Hu. destruct Hu as [Hr Hf].
      split; [assumption|]. now rewrite Hf.
    + apply in_flat_map in Hs. destruct Hs as [sec [Hsec Hr]].
      apply in_map_iff in Hsec. destruct Hsec as [rec [<- Hrec]]. simpl in Hr.
      apply js_sort_In in Hr. unfold sectionTasks in Hr. apply filter_In in Hr.
      destruct Hr as [Hr Hp]. split; [assumption|].
      destruct (TodoistTask.section_id (node_task r)) as [s|]; [|discriminate].
      apply andb_true_iff in Hp. destruct Hp as [Hp _].
      apply andb_true_iff in Hp. destruct Hp as [_ Hh]. rewrite Hh. apply orb_true_r.
  - intros [Hr Hl].
    destruct (truthy (TodoistTask.section_id (node_task r))) eqn:Ht; simpl in Hl.
    + right. destruct (TodoistTask.section_id (node_task r)) as [s|] eqn:Hs; [|discriminate].
      destruct (proj1 (stored_section_spec s) Hl) as (rec & Hrec & Hid).
      apply in_flat_map. exists (mkSection rec (js_sort (sortByOrder localeCompare)
                                                  (sectionTasks localeCompare st
                                                                (SectionRecord.id rec)))).
      split.
      * apply in_map_iff. exists rec. split; [reflexivity|]. now apply js_sort_In.
      * simpl. apply js_sort_In. unfold sectionTasks. apply filter_In. split; [assumption|].
        rewrite Hs, Ht, Hl, Hid. simpl. apply String.eqb_refl.
    + left. apply js_sort_In. apply filter_In. split; [assumption|]. now rewrite Ht.
Qed.

Lemma listed_nodes_NoDup : NoDup (listed_nodes localeCompare st).
Proof.
  pose proof snapshot_roots_NoDup as NDr.
  destruct st_wf as [_ [NDs HFs]].
  unfold listed_nodes, snapshot. simpl. apply NoDup_app.
  - apply (Permutation_NoDup (l := filter (fun root => negb (truthy (TodoistTask.section_id
                                                                       (node_task root))))
                                          (snapshot_roots localeCompare st))).
    + symmetry. apply js_sort_perm.
    + now apply NoDup_filter.
  - rewrite flat_map_of_map. simpl. apply NoDup_flat_map_keyed.
    + apply (Permutation_NoDup (l := JsMap.values (sections st))).
      * symmetry. apply js_sort_perm.
      * apply NoDup_map_inv with (f := SectionRecord.id).
        unfold JsMap.values. rewrite map_map.
        replace (map (fun e => SectionRecord.id (snd e)) (sections st))
          with (JsMap.keys (sections st)); [assumption|].
        unfold JsMap.keys. apply map_ext_in. intros e He.
        rewrite Forall_forall in HFs. symmetry. now apply HFs.
    + intros rec _.
      apply (Permutation_NoDup (l := sectionTasks localeCompare st (SectionRecord.id rec))).
      * symmetry. apply js_sort_perm.
      * unfold sectionTasks. now apply NoDup_filter.
    + intros a b r Ha Hb Hra Hrb.
      apply js_sort_In in Ha, Hb, Hra, Hrb.
      unfold sectionTasks in Hra, Hrb. apply filter_In in Hra, Hrb.
      destruct Hra as [_ Hpa], Hrb as [_ Hpb].
      destruct (TodoistTask.section_id (node_task r)) as [s|]; [|discriminate].
      apply andb_true_iff in Hpa, Hpb. destruct Hpa as [_ Ea], Hpb as [_ Eb].
      apply String.eqb_eq in Ea, Eb.
      apply (@NoDup_map_In_eq _ _ SectionRecord.id (JsMap.values (sections st))); try assumption.
      * unfold JsMap.values. rewrite map_map.
        replace (map (fun e => SectionRecord.id (snd e)) (sections st))
          with (JsMap.keys (sections st)); [assumption|].
        unfold JsMap.keys. apply map_ext_in. intros e He.
        rewrite Forall_forall in HFs. symmetry. now apply HFs.
      * congruence.
  - intros r Hu Hs. apply js_sort_In in Hu. apply filter_In in Hu. destruct Hu as [_ Hf].
    apply in_flat_map in Hs. destruct Hs as [sec [Hsec Hr]].
    apply in_map_iff in Hsec. destruct Hsec as [rec [<- _]]. simpl in Hr.
    apply js_sort_In in Hr. unfold sectionTasks in Hr. apply filter_In in Hr.
    destruct Hr as [_ Hp].
    destruct (TodoistTask.section_id (node_task r)) as [s|]; [|discriminate].
    apply andb_true_iff in Hp. destruct Hp as [Hp _].
    apply andb_true_iff in Hp. destruct Hp as [Hp _]. rewrite Hp in Hf. discriminate.
Qed.

Lemma snapshot_ids_NoDup : NoDup (snapshot_ids (snapshot localeCompare st)).
Proof.
  destruct st_wf as [Hwf _].
  rewrite snapshot_ids_listed. apply NoDup_flat_map_keyed.
  - exact listed_nodes_NoDup.
  - intros r Hr. apply listed_nodes_spec in Hr. destruct Hr as [Hr _].
    apply snapshot_root_spec in Hr. destruct Hr as (k & t & Hg & Hp & ->).
    apply buildNode_ids_NoDup with (l := []); [assumption | econstructor; eauto | assumption].
  - intros r1 r2 x H1 H2 Hx1 Hx2.
    apply listed_nodes_spec in H1, H2. destruct H1 as [H1 _], H2 as [H2 _].
    apply snapshot_root_spec in H1, H2.
    destruct H1 as (k1 & t1 & Hg1 & Hp1 & ->), H2 as (k2 & t2 & Hg2 & Hp2 & ->).
    destruct (@buildNode_ids_path localeCompare (tasks st) Hwf (List.length (tasks st)) 0 k1 t1 [] x)
      as (pre1 & HR1 & Hh1); [econstructor; eauto | assumption | assumption |].
    destruct (@buildNode_ids_path localeCompare (tasks st) Hwf (List.length (tasks st)) 0 k2 t2 [] x)
      as (pre2 & HR2 & Hh2); [econstructor; eauto | assumption | assumption |].
    assert (E : pre1 ++ [k1] = pre2 ++ [k2]).
    { apply (RootPath_same_head HR1 HR2). rewrite !hd_error_app_cons. congruence. }
    apply app_inj_tail in E. destruct E as [_ ->]. assert (t1 = t2) by congruence. now subst.
Qed.

Lemma snapshot_ids_spec x :
  In x (snapshot_ids (snapshot localeCompare st)) <->
  exists l t, RootPath (tasks st) (x :: l)
              /\ JsMap.get (tasks st) (last (x :: l) x) = Some t
              /\ listed_root st t = true.
Proof.
  destruct st_wf as [Hwf _].
  rewrite snapshot_ids_listed, in_flat_map. split.
  - intros (r & Hr & Hx). apply listed_nodes_spec in Hr. destruct Hr as [Hr Hl].
    apply snapshot_root_spec in Hr. destruct Hr as (k & t & Hg & Hp & ->).
    rewrite buildNode_task in Hl.
    destruct (@buildNode_ids_path localeCompare (tasks st) Hwf (List.length (tasks st)) 0 k t [] x)
      as (pre & HR & Hh); [econstructor; eauto | assumption | assumption |].
    assert (E : pre ++ [k] = x :: tl (pre ++ [k])).
    { destruct pre as [|a pre]; simpl in *; now subst. }
    exists (tl (pre ++ [k])), t. rewrite <- E. rewrite last_last. auto.
  - intros (l & t & HR & Hg & Hl).
    destruct (RootPath_last_root HR x) as (t' & Hg' & Hp').
    assert (t' = t) by congruence. subst t'.
    destruct (app_removelast_hd x l) as [E Hh].
    set (k := last (x :: l) x) in *. set (pre := removelast (x :: l)) in *.
    exists (buildNode localeCompare (List.length (tasks st)) (tasks st) 0 k t). split.
    + apply listed_nodes_spec. rewrite buildNode_task. split; [|assumption].
      apply snapshot_root_spec. eauto.
    + rewrite <- Hh. apply buildNode_path_ids with (l := []).
      * assumption.
      * now rewrite <- E.
      * assumption.
      * rewrite E in HR. apply RootPath_length in HR. rewrite length_app in HR.
        simpl in HR. lia.
Qed.
End ShownInSnapshot.

(** X8: a snapshot of a well-formed store shows no task twice, neither
    within a tree nor across the unsectioned list and the sections. *)
Theorem snapshot_shows_each_task_once :
  forall (localeCompare : string -> string -> Z) (st : TaskStore),
    wf_store st -> NoDup (snapshot_ids (snapshot localeCompare st)).
Proof. intros localeCompare st Hwf. now apply snapshot_ids_NoDup. Qed.

Lemma snapshot_shows_each_task_once_witness :
  NoDup (snapshot_ids (snapshot codeCompare exStoreFamily))
  /\ snapshot_ids (snapshot codeCompare exStoreFamily) = ["p"; "c"; "g"; "q"; "r"].
Proof.
  split; [|reflexivity].
  apply (@snapshot_shows_each_task_once codeCompare exStoreFamily).
  repeat split; simpl; repeat constructor; simpl; intuition discriminate.
Defined.

(** X9: a snapshot shows a stored task exactly when the chain of parent
    links from it (a parent that is not stored ends the chain) ends in a
    task whose section_id is falsy or names a stored section. A task on a
    cycle of parent links, or below a root whose section is not stored, is
    not shown. *)
Theorem snapshot_shows_tasks_under_listed_roots :
  forall (localeCompare : string -> string -> Z) (st : TaskStore) (x : string),
    wf_store st ->
    (In x (snapshot_ids (snapshot localeCompare st)) <->
     exists l t, RootPath (tasks st) (x :: l)
                 /\ JsMap.get (tasks st) (last (x :: l) x) = Some t
                 /\ listed_root st t = true).
Proof. intros localeCompare st x Hwf. now apply snapshot_ids_spec. Qed.

Lemma snapshot_shows_tasks_under_listed_roots_witness :
  In "m" (snapshot_ids (snapshot codeCompare exStoreCycle))
  /\ ~ In "u" (snapshot_ids (snapshot codeCompare exStoreCycle)).
Proof.
  assert (Hwf : wf_store exStoreCycle).
  { repeat split; simpl; repeat constructor; simpl; intuition discriminate. }
  split.
  - apply (@snapshot_shows_tasks_under_listed_roots codeCompare exStoreCycle "m" Hwf).
    exists ["k"], (exTask "k" None None 1 "1"). split; [|split; reflexivity].
    eapply RootPath_link; [reflexivity | reflexivity |].
    eapply RootPath_root; reflexivity.
  - intros Hin.
    apply (@snapshot_shows_tasks_under_listed_roots codeCompare exStoreCycle "u" Hwf) in Hin.
    destruct Hin as (l & t & HR & _).
    pose proof (RootPath_NoDup HR) as ND.
    inversion HR as [k t0 Hg Hp | k t0 p rest Hg Hp HR1]; subst.
    + vm_compute in Hg. injection Hg as <-. vm_compute in Hp. discriminate.
    + vm_compute in Hg. injection Hg as <-. vm_compute in Hp. injection Hp as <-.
      inversion HR1 as [k t1 Hg1 Hp1 | k t1 p1 rest1 Hg1 Hp1 HR2]; subst.
      * vm_compute in Hg1. injection Hg1 as <-. vm_compute in Hp1. discriminate.
      * vm_compute in Hg1. injection Hg1 as <-. vm_compute in Hp1. injection Hp1 as <-.
        inversion ND as [|? ? Hn _]; subst. apply Hn. right. now left.
Defined.

(* ------------------------------------------------------------------ *)
(** ** What TaskView.render puts into the document *)

Lemma TodoistTaskNode_nested_ind (P : TodoistTaskNode -> Prop) :
  (forall t cs d, Forall P cs -> P (mkNode t cs d)) -> forall n, P n.
Proof.
  intros H. fix IH 1. intros [t cs d]. apply H.
  induction cs as [|c cs IHcs]; constructor; [apply IH | exact IHcs].
Qed.


Lemma find_app_none (A : Type) (f : A -> bool) (l1 l2 : list A) :
  find f l1 = None -> find f (l1 ++ l2) = find f l2.
Proof. intros H. now rewrite find_app_first, H. Qed.



Section Rendered.
Variable v : TaskView.

Lemma createTaskElement_subtasks task :
  find_path (has_class "subtasks") (createTaskElement v task) = Some [1%nat].
Proof.
  unfold createTaskElement.
  destruct (existsb _ (view_pendingTaskAddIds v)), (allowCompletingTasks v),
    (view_onTaskCheckboxClick v); reflexivity.
Qed.

Lemma taskElement_shape t cs d :
  taskElement v (mkNode t cs d)
  = update_at [1%nat] (append (map (taskElement v) cs)) (createTaskElement v (mkNode t cs d)).
Proof.
  destruct cs as [|c cs].
  - cbn [taskElement map]. unfold createTaskElement.
    destruct (existsb _ (view_pendingTaskAddIds v)), (allowCompletingTasks v),
      (view_onTaskCheckboxClick v); reflexivity.
  - cbn [taskElement]. now rewrite createTaskElement_subtasks.
Qed.

(** The descendants of a task element: its row with checkbox and
    content, its subtask container, and in it the elements of the
    children. *)
Lemma taskElement_rows_step t cs d :
  flat_map task_row (taskElement v (mkNode t cs d) :: descendants (taskElement v (mkNode t cs d)))
  = (TodoistTask.id t, depth_toString d,
     existsb (String.eqb (TodoistTask.id t)) (view_pendingTaskAddIds v))
    :: flat_map task_row (flat_map (fun k => k :: descendants k) (map (taskElement v) cs)).
Proof.
  rewrite taskElement_shape. generalize (map (taskElement v) cs). intros kids.
  unfold createTaskElement. cbn [node_task depth].
  destruct (existsb _ (view_pendingTaskAddIds v)), (allowCompletingTasks v),
    (view_onTaskCheckboxClick v); cbn; now rewrite app_nil_r.
Qed.

Lemma taskElement_rows :
  forall n, flat_map task_row (taskElement v n :: descendants (taskElement v n))
            = node_rows (view_pendingTaskAddIds v) n.
Proof.
  induction n as [t cs d IH] using TodoistTaskNode_nested_ind.
  rewrite taskElement_rows_step. cbn [node_rows]. f_equal.
  induction IH as [|c cs Hc _ IHcs]; [reflexivity|].
  cbn [map flat_map]. rewrite flat_map_app. rewrite IHcs. f_equal. exact Hc.
Qed.
End Rendered.

Lemma filter_as_flat_map (A : Type) (f : A -> bool) (l : list A) :
  filter f l = flat_map (fun x => if f x then [x] else []) l.
Proof.
  induction l as [|a l IH]; simpl; [reflexivity|]. rewrite IH. now destruct (f a).
Qed.



Lemma node_rows_ids pending n :
  map (fun r => fst (fst r)) (node_rows pending n) = node_ids n.
Proof.
  induction n as [t cs d IH] using TodoistTaskNode_nested_ind.
  cbn [node_rows node_ids map fst]. f_equal.
  induction IH as [|c cs Hc _ IHcs]; [reflexivity|].
  cbn [flat_map]. now rewrite map_app, Hc, IHcs.
Qed.

Section RenderedDocument.
Variable v : TaskView.

(** What an extraction that reads one element at a time finds in a task
    element and below it. *)
Lemma taskElement_extract (B : Type) (g : Element -> list B)
      (head : TodoistTask.t -> nat -> list B) :
  (forall t cs d kids,
      flat_map g (update_at [1%nat] (append kids) (createTaskElement v (mkNode t cs d))
                  :: descendants (update_at [1%nat] (append kids)
                                            (createTaskElement v (mkNode t cs d))))
      = head t d ++ flat_map g (flat_map (fun k => k :: descendants k) kids)) ->
  forall n,
    flat_map g (taskElement v n :: descendants (taskElement v n))
    = (fix all (n : TodoistTaskNode) : list B :=
         match n with mkNode t cs d => head t d ++ flat_map all cs end) n.
Proof.
  intros Hstep. induction n as [t cs d IH] using TodoistTaskNode_nested_ind.
  rewrite taskElement_shape. rewrite (Hstep t cs d (map (taskElement v) cs)). f_equal.
  induction IH as [|c cs Hc _ IHcs]; [reflexivity|].
  cbn [map flat_map]. rewrite flat_map_app. rewrite IHcs. f_equal. exact Hc.
Qed.

Lemma render_descendants (B : Type) (g : Element -> list B) data :
  flat_map g (descendants (rootElement (render v data)))
  = g (appendTasks v (data_unsectioned data) (set_className "tasks" (createElement "div")))
    ++ flat_map g (flat_map (fun k => k :: descendants k)
                            (map (taskElement v) (data_unsectioned data)))
    ++ flat_map (fun sec => flat_map g (renderSection v sec :: descendants (renderSection v sec)))
                (data_sections data).
Proof.
  unfold render. cbn [rootElement append childNodes app descendants flat_map].
  f_equal. rewrite flat_map_app. f_equal.
  rewrite flat_map_of_flat_map, flat_map_of_map. reflexivity.
Qed.
End RenderedDocument.

Section RenderedRows.
Variable v : TaskView.

Lemma taskElements_rows tasks :
  flat_map task_row (flat_map (fun k => k :: descendants k) (map (taskElement v) tasks))
  = flat_map (node_rows (view_pendingTaskAddIds v)) tasks.
Proof.
  induction tasks as [|n tasks IH]; [reflexivity|].
  cbn [map flat_map]. rewrite flat_map_app, IH. f_equal. apply taskElement_rows.
Qed.

Lemma renderSection_rows sec :
  flat_map task_row (renderSection v sec :: descendants (renderSection v sec))
  = flat_map (node_rows (view_pendingTaskAddIds v)) (section_tasks sec).
Proof.
  rewrite <- taskElements_rows. unfold renderSection, appendTasks.
  destruct (existsb _ (view_pendingSectionAddIds v)); cbn; now rewrite app_nil_r.
Qed.

Lemma taskElement_no_section n :
  flat_map section_mark (taskElement v n :: descendants (taskElement v n)) = [].
Proof.
  rewrite (@taskElement_extract v _ section_mark (fun _ _ => [])).
  - set (F := fix all (n : TodoistTaskNode) : list string :=
                match n with mkNode t cs d => [] ++ flat_map all cs end).
    induction n as [t cs d IH] using TodoistTaskNode_nested_ind.
    change (F (mkNode t cs d)) with ([] ++ flat_map F cs). cbn [app].
    induction IH as [|c cs Hc _ IHcs]; [reflexivity|].
    cbn [flat_map]. now rewrite Hc, IHcs.
  - intros t cs d kids. unfold createTaskElement. cbn [node_task depth].
    destruct (existsb _ (view_pendingTaskAddIds v)), (allowCompletingTasks v),
      (view_onTaskCheckboxClick v); cbn; now rewrite app_nil_r.
Qed.

Lemma taskElements_no_section tasks :
  flat_map section_mark (flat_map (fun k => k :: descendants k) (map (taskElement v) tasks))
  = [].
Proof.
  induction tasks as [|n tasks IH]; [reflexivity|].
  cbn [map flat_map]. rewrite flat_map_app, IH, app_nil_r. apply taskElement_no_section.
Qed.

Lemma renderSection_section sec :
  flat_map section_mark (renderSection v sec :: descendants (renderSection v sec))
  = [SectionRecord.id (section_record sec)].
Proof.
  pose proof (taskElements_no_section (section_tasks sec)) as H.
  unfold renderSection, appendTasks.
  destruct (existsb _ (view_pendingSectionAddIds v)); cbn; cbn in H;
    rewrite app_nil_r; now rewrite H.
Qed.
End RenderedRows.

Lemma render_shows_snapshot :
  forall (v : TaskView) (data : OrganizedProjectData),
    task_rows (rootElement (render v data))
    = flat_map (node_rows (view_pendingTaskAddIds v)) (data_unsectioned data)
      ++ flat_map (fun sec => flat_map (node_rows (view_pendingTaskAddIds v)) (section_tasks sec))
                  (data_sections data)
    /\ map (fun r => fst (fst r)) (task_rows (rootElement (render v data))) = snapshot_ids data
    /\ shown_section_ids (rootElement (render v data))
       = map (fun sec => SectionRecord.id (section_record sec)) (data_sections data).
Proof.
  intros v data.
  assert (Hrows : task_rows (rootElement (render v data))
                  = flat_map (node_rows (view_pendingTaskAddIds v)) (data_unsectioned data)
                    ++ flat_map (fun sec => flat_map (node_rows (view_pendingTaskAddIds v))
                                                     (section_tasks sec))
                                (data_sections data)).
  { unfold task_rows. rewrite render_descendants, taskElements_rows.
    change (task_row (appendTasks v (data_unsectioned data)
                                  (set_className "tasks" (createElement "div"))))
      with (@nil (string * string * bool)).
    cbn [app]. f_equal. apply flat_map_ext. intros sec. apply renderSection_rows. }
  split; [exact Hrows|]. split.
  - rewrite Hrows. clear Hrows. unfold snapshot_ids. rewrite map_app.
    assert (L : forall l, map (fun r : string * string * bool => fst (fst r))
                              (flat_map (node_rows (view_pendingTaskAddIds v)) l)
                          = flat_map node_ids l).
    { induction l as [|n l IH]; [reflexivity|].
      cbn [flat_map]. now rewrite map_app, node_rows_ids, IH. }
    rewrite L. f_equal.
    induction (data_sections data) as [|sec l IH]; [reflexivity|].
    cbn [flat_map]. now rewrite map_app, IH, L.
  - unfold shown_section_ids. rewrite render_descendants, taskElements_no_section.
    change (section_mark (appendTasks v (data_unsectioned data)
                                      (set_className "tasks" (createElement "div"))))
      with (@nil string).
    cbn [app]. clear Hrows. induction (data_sections data) as [|sec l IH]; [reflexivity|].
    change (flat_map ?f (sec :: l)) with (f sec ++ flat_map f l). cbv beta.
    rewrite IH, renderSection_section. reflexivity.
Qed.

(** X15: render shows exactly the snapshot it is given: the task
    elements of the document, in document order, are the tasks of the
    unsectioned list and then of each section, every parent directly
    before its subtasks, each with its depth as [--indent] and drawn
    hidden exactly when its id is a pending addition; the section elements
    are the sections of the snapshot in their order. *)
Theorem rendered_document_follows_snapshot :
  forall (v : TaskView) (data : OrganizedProjectData),
    task_rows (rootElement (render v data))
    = flat_map (node_rows (view_pendingTaskAddIds v)) (data_unsectioned data)
      ++ flat_map (fun sec => flat_map (node_rows (view_pendingTaskAddIds v)) (section_tasks sec))
                  (data_sections data)
    /\ map (fun r => fst (fst r)) (task_rows (rootElement (render v data))) = snapshot_ids data
    /\ shown_section_ids (rootElement (render v data))
       = map (fun sec => SectionRecord.id (section_record sec)) (data_sections data).
Proof. exact render_shows_snapshot. Qed.







(* ------------------------------------------------------------------ *)
(** ** Checkboxes and the allowCompletingTasks setting *)

Section Checkboxes.
Variable v : TaskView.

Lemma taskElement_clicks n :
  flat_map click_mark (taskElement v n :: descendants (taskElement v n))
  = if allowCompletingTasks v && view_onTaskCheckboxClick v then node_ids n else [].
Proof.
  rewrite (@taskElement_extract v _ click_mark
             (fun t _ => if allowCompletingTasks v && view_onTaskCheckboxClick v
                         then [TodoistTask.id t] else [])).
  - set (F := fix all (n : TodoistTaskNode) : list string :=
                match n with
                | mkNode t cs d =>
                    (if allowCompletingTasks v && view_onTaskCheckboxClick v
                     then [TodoistTask.id t] else []) ++ flat_map all cs
                end).
    induction n as [t cs d IH] using TodoistTaskNode_nested_ind.
    change (F (mkNode t cs d))
      with ((if allowCompletingTasks v && view_onTaskCheckboxClick v
             then [TodoistTask.id t] else []) ++ flat_map F cs).
    assert (E : flat_map F cs
                = if allowCompletingTasks v && view_onTaskCheckboxClick v
                  then flat_map node_ids cs else []).
    { induction IH as [|c cs Hc _ IHcs];
        [now destruct (allowCompletingTasks v && view_onTaskCheckboxClick v)|].
      cbn [flat_map]. rewrite Hc, IHcs.
      now destruct (allowCompletingTasks v && view_onTaskCheckboxClick v). }
    rewrite E. cbn [node_ids].
    now destruct (allowCompletingTasks v && view_onTaskCheckboxClick v).
  - intros t cs d kids. unfold createTaskElement. cbn [node_task depth].
    destruct (existsb _ (view_pendingTaskAddIds v)), (allowCompletingTasks v),
      (view_onTaskCheckboxClick v); cbn; now rewrite app_nil_r.
Qed.

Lemma taskElement_buttons n :
  flat_map (fun el => if enabled_button el then [tt] else [])
           (taskElement v n :: descendants (taskElement v n))
  = if allowCompletingTasks v then map (fun _ => tt) (node_ids n) else [].
Proof.
  rewrite (@taskElement_extract v _ (fun el => if enabled_button el then [tt] else [])
             (fun _ _ => if allowCompletingTasks v then [tt] else [])).
  - set (F := fix all (n : TodoistTaskNode) : list unit :=
                match n with
                | mkNode t cs d =>
                    (if allowCompletingTasks v then [tt] else []) ++ flat_map all cs
                end).
    induction n as [t cs d IH] using TodoistTaskNode_nested_ind.
    change (F (mkNode t cs d))
      with ((if allowCompletingTasks v then [tt] else []) ++ flat_map F cs).
    assert (E : flat_map F cs
                = if allowCompletingTasks v
                  then map (fun _ => tt) (flat_map node_ids cs) else []).
    { induction IH as [|c cs Hc _ IHcs]; [now destruct (allowCompletingTasks v)|].
      cbn [flat_map]. rewrite Hc, IHcs, map_app. now destruct (allowCompletingTasks v). }
    rewrite E. cbn [node_ids map]. now destruct (allowCompletingTasks v).
  - intros t cs d kids. unfold createTaskElement. cbn [node_task depth].
    destruct (existsb _ (view_pendingTaskAddIds v)), (allowCompletingTasks v),
      (view_onTaskCheckboxClick v); cbn; now rewrite app_nil_r.
Qed.

Lemma render_extract (B : Type) (g : Element -> list B) (h : TodoistTaskNode -> list B) data :
  (forall n, flat_map g (taskElement v n :: descendants (taskElement v n)) = h n) ->
  (forall tag cl at_ st tx,
      String.eqb tag "button" = false -> g (mkElement tag cl at_ st tx None []) = []) ->
  (forall tag cl at_ st tx kids,
      String.eqb tag "button" = false ->
      g (mkElement tag cl at_ st tx None kids) = []) ->
  flat_map g (descendants (rootElement (render v data)))
  = flat_map h (data_unsectioned data)
    ++ flat_map (fun sec => flat_map h (section_tasks sec)) (data_sections data).
Proof.
  intros Htask _ Hplain.
  assert (L : forall ns,
             flat_map g (flat_map (fun k => k :: descendants k) (map (taskElement v) ns))
             = flat_map h ns).
  { induction ns as [|n ns IH]; [reflexivity|].
    cbn [map flat_map]. now rewrite flat_map_app, IH, Htask. }
  rewrite render_descendants, L.
  change (appendTasks v (data_unsectioned data) (set_className "tasks" (createElement "div")))
    with (mkElement "div" ["tasks"] [] [] "" None (map (taskElement v) (data_unsectioned data))).
  rewrite Hplain by reflexivity. cbn [app]. f_equal.
  apply flat_map_ext. intros sec. rewrite <- L.
  unfold renderSection, appendTasks.
  generalize (map (taskElement v) (section_tasks sec)). intros kids.
  destruct (existsb _ (view_pendingSectionAddIds v));
    cbn;
    cbv [append set_textContent set_className createElement classList_add setAttribute
         tagName classList attributes style textContent clickListener childNodes];
    rewrite !Hplain by reflexivity; cbn [app]; now rewrite app_nil_r.
Qed.
End Checkboxes.

(** X17: the checkboxes follow the allowCompletingTasks setting. With it
    off the rendered document has no click listener and no enabled
    button; with it on every shown task has one enabled checkbox, whose
    click listener (attached when the host supplies onTaskCheckboxClick)
    passes the id of that task. *)
Theorem checkboxes_follow_allowCompletingTasks :
  forall (v : TaskView) (data : OrganizedProjectData),
    click_listeners (rootElement (render v data))
    = (if allowCompletingTasks v && view_onTaskCheckboxClick v then snapshot_ids data else [])
    /\ List.length (enabled_buttons (rootElement (render v data)))
       = (if allowCompletingTasks v then List.length (snapshot_ids data) else O).
Proof.
  intros v data. split.
  - unfold click_listeners.
    rewrite (@render_extract v _ click_mark
               (fun n => if allowCompletingTasks v && view_onTaskCheckboxClick v
                         then node_ids n else [])).
    + unfold snapshot_ids.
      destruct (allowCompletingTasks v && view_onTaskCheckboxClick v); [reflexivity|].
      assert (N : forall (A : Type) (l : list A), flat_map (fun _ => @nil string) l = [])
        by (induction l; auto).
      rewrite N. simpl. induction (data_sections data) as [|s l IH]; [reflexivity|].
      cbn [flat_map]. now rewrite N, IH.
    + apply taskElement_clicks.
    + reflexivity.
    + reflexivity.
  - unfold enabled_buttons. rewrite filter_as_flat_map.
    assert (C : forall l : list Element,
               List.length (flat_map (fun x => if enabled_button x then [x] else []) l)
               = List.length (flat_map (fun x => if enabled_button x then [tt] else []) l)).
    { induction l as [|a l IH]; [reflexivity|].
      cbn [flat_map]. rewrite !length_app, IH. now destruct (enabled_button a). }
    rewrite C.
    rewrite (@render_extract v _ (fun x => if enabled_button x then [tt] else [])
               (fun n => if allowCompletingTasks v then map (fun _ => tt) (node_ids n) else [])).
    + unfold snapshot_ids.
      destruct (allowCompletingTasks v).
      * assert (M : forall l : list TodoistTaskNode,
                   List.length (flat_map (fun n => map (fun _ : string => tt) (node_ids n)) l)
                   = List.length (flat_map node_ids l)).
        { induction l as [|n l IH]; [reflexivity|].
          cbn [flat_map]. now rewrite !length_app, length_map, IH. }
        rewrite !length_app, M. f_equal.
        induction (data_sections data) as [|s l IH]; [reflexivity|].
        cbn [flat_map]. now rewrite !length_app, M, IH.
      * assert (N : forall (A : Type) (l : list A), flat_map (fun _ => @nil unit) l = [])
          by (induction l; auto).
        rewrite N. simpl. induction (data_sections data) as [|s l IH]; [reflexivity|].
        cbn [flat_map]. rewrite N. cbn [app]. exact IH.
    + apply taskElement_buttons.
    + intros tag cl at_ st tx Ht. unfold enabled_button. cbn [tagName]. now rewrite Ht.
    + intros tag cl at_ st tx kids Ht. unfold enabled_button. cbn [tagName]. now rewrite Ht.
Qed.

(* ------------------------------------------------------------------ *)
(** ** handleRemove calls done once *)

Lemma removal_run_state (events : list RemovalEvent) :
  let s := removal_run events in
  finished s = existsb ends_removal events
  /\ listening s = negb (existsb ends_removal events)
  /\ doneCalls s = (if existsb ends_removal events then 1 else 0)%nat
  /\ (finished s = false -> heightDone s = false)
  /\ collapseFrames s = (if collapseStarted s then 1 else 0)%nat
  /\ (existsb is_collapse_timeout events = true -> collapseStarted s = true).
Proof.
  unfold removal_run.
  induction events as [|e events IH] using rev_ind.
  - cbn. repeat split; auto; try discriminate.
  - rewrite fold_left_app, !existsb_app. cbn [fold_left existsb].
    set (s := fold_left removal_step events handleRemove) in *.
    cbn zeta in IH. destruct IH as (Hf & Hl & Hd & Hh & Hc & Ht).
    rewrite !orb_false_r.
    destruct s as [f c h l n k]. cbn [finished listening doneCalls heightDone collapseFrames
                                       collapseStarted] in *.
    subst f l n k.
    destruct e as [onEl prop| |]; cbn [ends_removal is_collapse_timeout removal_step].
    + (* transitionend *)
      rewrite orb_false_r.
      destruct (existsb ends_removal events) eqn:Ends; cbn.
      * repeat split; auto; try discriminate.
      * specialize (Hh eq_refl). subst h.
        unfold removal_onTransitionEnd.
        destruct onEl; cbn; [|repeat split; auto].
        destruct (String.eqb prop "height"); cbn; repeat split; auto; try discriminate.
    + (* the 300 ms timeout *)
      rewrite orb_false_r, orb_true_r.
      destruct c; cbn; repeat split; auto.
    + (* the fallback timeout *)
      rewrite orb_true_r, orb_false_r.
      destruct (existsb ends_removal events) eqn:Ends; cbn.
      * repeat split; auto; try discriminate.
      * specialize (Hh eq_refl). subst h.
        destruct c; cbn; repeat split; auto; try discriminate.
Qed.

(** X22: handleRemove calls [done] exactly once, whatever the host
    delivers and in whatever order: at the first [transitionend] event of
    the element itself for the property [height], or at the fallback
    timeout, whichever comes first, and never before; no other event and
    nothing that comes later calls it again. The collapse of the element
    is requested at most once, and it has been requested once the 300 ms
    timeout has fired. *)
Theorem handleRemove_calls_done_once :
  forall (events : list RemovalEvent),
    doneCalls (removal_run events) = (if existsb ends_removal events then 1 else 0)%nat
    /\ finished (removal_run events) = existsb ends_removal events
    /\ (collapseFrames (removal_run events) <= 1)%nat
    /\ (if existsb is_collapse_timeout events
        then collapseStarted (removal_run events) = true
        else True).
Proof.
  intros events. destruct (removal_run_state events) as (Hf & _ & Hd & _ & Hc & Ht).
  split; [exact Hd|]. split; [exact Hf|]. split.
  - rewrite Hc. destruct (collapseStarted (removal_run events)); lia.
  - destruct (existsb is_collapse_timeout events); auto.
Qed.

(* ------------------------------------------------------------------ *)
(** ** The error overlay and the height updates *)

Lemma scheduleHeightUpdate_keeps : forall u,
  visible (scheduleHeightUpdate u) = visible u
  /\ timer_part (scheduleHeightUpdate u) = timer_part u.
Proof.
  intros u. unfold scheduleHeightUpdate.
  destruct (negb (autoAdjustHeight u)); [auto|].
  destruct (heightAnimationFrame u); [auto|]. split; reflexivity.
Qed.

Lemma updateWidgetHeight_keeps : forall nextHeight u,
  visible (updateWidgetHeight nextHeight u) = visible u
  /\ timer_part (updateWidgetHeight nextHeight u) = timer_part u.
Proof.
  intros nh u. unfold updateWidgetHeight.
  destruct (negb (autoAdjustHeight u)); [auto|].
  destruct nh as [n|]; [|auto].
  destruct (n <=? 0)%Z; [auto|]. destruct (lastMeasuredHeight u =? n)%Z; [auto|].
  split; reflexivity.
Qed.

Lemma timer_part_now : forall u v, timer_part u = timer_part v -> ui_now u = ui_now v.
Proof. unfold timer_part. intros u v H. now injection H. Qed.

Lemma visible_message_same : forall u v,
  visible u = visible v -> errorMessageText u = errorMessageText v.
Proof. unfold visible. intros u v H. now injection H. Qed.

Lemma visible_fields : forall u a b message runs,
  visible u = (a, b, message, runs) ->
  errorHidden u = a /\ projectHidden u = b /\ errorMessageText u = message
  /\ autoHideRuns u = runs.
Proof. unfold visible. intros u a b message runs H. injection H as H1 H2 H3 H4. auto. Qed.

Lemma visible_message : forall u a b message runs,
  visible u = (a, b, message, runs) -> errorMessageText u = message.
Proof. unfold visible. intros u a b message runs H. now injection H. Qed.

Lemma quiet_same : forall u v, timer_part v = timer_part u -> quiet u -> quiet v.
Proof.
  unfold timer_part, quiet. intros u v [= E1 E2 E3 E4] [H1 H2].
  rewrite E1, E2, E3. auto.
Qed.

Lemma counting_same : forall h D cb u v,
  timer_part v = timer_part u -> counting h D cb u -> counting h D cb v.
Proof.
  unfold timer_part, counting. intros h D cb u v [= E1 E2 E3 E4] H.
  rewrite E1, E2, E3. exact H.
Qed.

Lemma poke_below_le : forall n m t, n <= m -> poke_below n t -> poke_below m t.
Proof. unfold poke_below. intros n m t Hle [H1 H2]. split; [assumption|lia]. Qed.

Lemma Forall_filter_keeps : forall (A : Type) (P : A -> Prop) (f : A -> bool) (l : list A),
  Forall P l -> Forall P (filter f l).
Proof.
  intros A P f l H. apply Forall_forall. intros x Hx. apply filter_In in Hx.
  rewrite Forall_forall in H. now apply H.
Qed.

Lemma fire_poke_parts : forall u p,
  ut_kind p = HeightPokeTimer ->
  visible (fire_timer u p) = visible u
  /\ ui_now (fire_timer u p) = ui_now u
  /\ errorHideTimer (fire_timer u p) = errorHideTimer u
  /\ ui_nextTimer (fire_timer u p) = ui_nextTimer u
  /\ (ui_timers (fire_timer u p) = ui_timers u
      \/ ui_timers (fire_timer u p)
         = filter (fun t => negb (Nat.eqb (ut_handle t) (ut_handle p))) (ui_timers u)).
Proof.
  intros u p Hk. unfold fire_timer.
  destruct (existsb _ (ui_timers u)); [|now auto 6].
  unfold run_timer. rewrite Hk.
  destruct (scheduleHeightUpdate_keeps (ui_clearTimeout (ut_handle p) u)) as [Hv Ht].
  unfold timer_part in Ht. injection Ht as E1 E2 E3 E4.
  rewrite Hv, E1, E2, E3, E4. repeat split. now right.
Qed.

Lemma fire_poke_quiet : forall u p,
  ut_kind p = HeightPokeTimer -> quiet u -> quiet (fire_timer u p).
Proof.
  intros u p Hk [Hn Hall].
  destruct (@fire_poke_parts u p Hk) as (_ & _ & E1 & E3 & E2).
  unfold quiet. rewrite E1, E3. split; [assumption|].
  destruct E2 as [E2|E2]; rewrite E2; [assumption|]. now apply Forall_filter_keeps.
Qed.

Lemma fold_pokes_quiet : forall l u,
  Forall (fun p => ut_kind p = HeightPokeTimer) l -> quiet u ->
  quiet (fold_left fire_timer l u)
  /\ visible (fold_left fire_timer l u) = visible u
  /\ ui_now (fold_left fire_timer l u) = ui_now u.
Proof.
  induction l as [|p l IH]; intros u Hl Hq; simpl; [now auto|].
  inversion Hl as [|? ? Hp Hl']; subst.
  destruct (@fire_poke_parts u p Hp) as (Hv & Hnow & _).
  destruct (IH (fire_timer u p) Hl' (@fire_poke_quiet u p Hp Hq)) as (H1 & H2 & H3).
  rewrite H2, H3, Hv, Hnow. auto.
Qed.

Lemma fire_poke_counting : forall h D cb u p,
  ut_kind p = HeightPokeTimer -> ut_handle p <> h ->
  counting h D cb u -> counting h D cb (fire_timer u p).
Proof.
  intros h D cb u p Hk Hne (Hn & Hlt & pre & post & Et & Hpre & Hpost).
  destruct (@fire_poke_parts u p Hk) as (_ & _ & E1 & E3 & E2).
  unfold counting. rewrite E1, E3. split; [assumption|]. split; [assumption|].
  destruct E2 as [E2|E2]; rewrite E2.
  - now exists pre, post.
  - exists (filter (fun t => negb (Nat.eqb (ut_handle t) (ut_handle p))) pre),
           (filter (fun t => negb (Nat.eqb (ut_handle t) (ut_handle p))) post).
    split; [|split; now apply Forall_filter_keeps].
    rewrite Et, filter_app. simpl.
    destruct (Nat.eqb_spec h (ut_handle p)) as [E|E]; [now subst|reflexivity].
Qed.

Lemma fold_pokes_counting : forall h D cb l u,
  Forall (fun p => ut_kind p = HeightPokeTimer /\ ut_handle p <> h) l ->
  counting h D cb u ->
  counting h D cb (fold_left fire_timer l u)
  /\ visible (fold_left fire_timer l u) = visible u
  /\ ui_now (fold_left fire_timer l u) = ui_now u.
Proof.
  intros h D cb. induction l as [|p l IH]; intros u Hl Hc; simpl; [now auto|].
  inversion Hl as [|? ? [Hp Hne] Hl']; subst.
  destruct (@fire_poke_parts u p Hp) as (Hv & Hnow & _).
  destruct (IH (fire_timer u p) Hl' (@fire_poke_counting h D cb u p Hp Hne Hc)) as (H1 & H2 & H3).
  rewrite H2, H3, Hv, Hnow. auto.
Qed.

Lemma timer_part_fields : forall u v,
  timer_part u = timer_part v ->
  errorHideTimer u = errorHideTimer v /\ ui_timers u = ui_timers v
  /\ ui_nextTimer u = ui_nextTimer v /\ ui_now u = ui_now v.
Proof. unfold timer_part. intros u v H. injection H as H1 H2 H3 H4. auto. Qed.

Lemma visible_fields_same : forall u v,
  visible u = visible v ->
  errorHidden u = errorHidden v /\ projectHidden u = projectHidden v
  /\ errorMessageText u = errorMessageText v /\ autoHideRuns u = autoHideRuns v.
Proof. unfold visible. intros u v H. injection H as H1 H2 H3 H4. auto. Qed.

Lemma clearErrorAutoHide_parts : forall u,
  errorHideTimer (clearErrorAutoHide u) = None
  /\ ui_nextTimer (clearErrorAutoHide u) = ui_nextTimer u
  /\ ui_now (clearErrorAutoHide u) = ui_now u
  /\ visible (clearErrorAutoHide u) = visible u
  /\ ui_timers (clearErrorAutoHide u)
     = match errorHideTimer u with
       | Some h => filter (fun t => negb (Nat.eqb (ut_handle t) h)) (ui_timers u)
       | None => ui_timers u
       end.
Proof.
  intros u. unfold clearErrorAutoHide.
  destruct (errorHideTimer u) eqn:E; cbn; rewrite ?E; auto 6.
Qed.

Lemma hideError_parts : forall u,
  errorHideTimer (hideError u) = None
  /\ ui_nextTimer (hideError u) = ui_nextTimer u
  /\ ui_now (hideError u) = ui_now u
  /\ ui_timers (hideError u)
     = match errorHideTimer u with
       | Some h => filter (fun t => negb (Nat.eqb (ut_handle t) h)) (ui_timers u)
       | None => ui_timers u
       end
  /\ visible (hideError u) = (true, false, errorMessageText u, autoHideRuns u).
Proof.
  intros u. unfold hideError.
  set (v := set_errorTechnicalHidden true
              (set_errorTechnicalText "" (set_errorHidden true (set_projectHidden false u)))).
  assert (V1 : visible v = (true, false, errorMessageText u, autoHideRuns u)) by reflexivity.
  assert (V2 : errorHideTimer v = errorHideTimer u) by reflexivity.
  assert (V3 : ui_timers v = ui_timers u) by reflexivity.
  assert (V4 : ui_nextTimer v = ui_nextTimer u) by reflexivity.
  assert (V5 : ui_now v = ui_now u) by reflexivity.
  clearbody v.
  destruct (clearErrorAutoHide_parts v) as (C1 & C2 & C3 & C4 & C5).
  destruct (scheduleHeightUpdate_keeps (clearErrorAutoHide v)) as [Sv St].
  destruct (timer_part_fields St) as (T1 & T2 & T3 & T4).
  rewrite T1, T2, T3, T4, Sv, C1, C2, C3, C4, C5, V1, V2, V3, V4, V5. auto 6.
Qed.

(** The auto-hide timer fires: the overlay goes, the callback runs. *)
Lemma fire_autohide : forall h D cb u,
  counting h D cb u ->
  let u' := fire_timer u (mkUiTimer h D (AutoHideTimer cb)) in
  quiet u'
  /\ visible u' = (true, false, errorMessageText u, autoHideRuns u ++ [cb])
  /\ ui_now u' = ui_now u.
Proof.
  intros h D cb u (Hn & Hlt & pre & post & Et & Hpre & Hpost) u'. subst u'.
  unfold fire_timer. cbn [ut_handle].
  assert (Ex : existsb (fun t' => Nat.eqb (ut_handle t') h) (ui_timers u) = true).
  { apply existsb_exists. exists (mkUiTimer h D (AutoHideTimer cb)). split.
    - rewrite Et. apply in_or_app. right. now left.
    - simpl. apply Nat.eqb_refl. }
  rewrite Ex. unfold run_timer. cbn [ut_kind].
  set (w := ui_clearTimeout h u).
  assert (W1 : errorHideTimer w = Some h) by exact Hn.
  assert (W2 : ui_timers w = filter (fun t => negb (Nat.eqb (ut_handle t) h)) (ui_timers u))
    by reflexivity.
  assert (W3 : ui_nextTimer w = ui_nextTimer u) by reflexivity.
  assert (W4 : ui_now w = ui_now u) by reflexivity.
  assert (W5 : errorMessageText w = errorMessageText u) by reflexivity.
  assert (W6 : autoHideRuns w = autoHideRuns u) by reflexivity.
  clearbody w.
  destruct (hideError_parts w) as (P1 & P2 & P3 & P4 & P5).
  destruct (@visible_fields _ _ _ _ _ P5) as (F1 & F2 & F3 & F4).
  set (x := hideError w) in *. clearbody x.
  unfold quiet, visible.
  cbn [set_autoHideRuns errorHideTimer ui_timers ui_nextTimer ui_now errorHidden projectHidden
       errorMessageText autoHideRuns].
  rewrite P1, P2, P3, P4, F1, F2, F3, F4, W1, W2, W3, W4, W5, W6.
  split; [split; [reflexivity|]|split; reflexivity].
  apply Forall_filter_keeps. rewrite Et, filter_app. cbn [filter ut_handle].
  rewrite Nat.eqb_refl. cbn [negb].
  apply Forall_app. split; apply Forall_filter_keeps.
  - eapply Forall_impl; [|exact Hpre]. now intros t [Ht _].
  - eapply Forall_impl; [|exact Hpost]. now intros t [Ht _].
Qed.

Lemma pokes_added_refl : forall u v,
  visible v = visible u -> timer_part v = timer_part u -> pokes_added u v.
Proof.
  intros u v Hv Ht. unfold timer_part in Ht. injection Ht as E1 E2 E3 E4.
  unfold pokes_added. rewrite Hv, E1, E2, E3, E4. repeat split; [lia|].
  exists []. now rewrite app_nil_r.
Qed.

Lemma pokes_added_trans : forall u v w,
  pokes_added u v -> pokes_added v w -> pokes_added u w.
Proof.
  intros u v w (V1 & N1 & H1 & L1 & x1 & T1 & F1) (V2 & N2 & H2 & L2 & x2 & T2 & F2).
  unfold pokes_added. rewrite V2, V1, N2, N1, H2, H1. repeat split; [lia|].
  exists (x1 ++ x2). split; [now rewrite T2, T1, app_assoc|].
  apply Forall_app. split.
  - eapply Forall_impl; [|exact F1]. simpl. intros t (K & A & B). repeat split; [assumption|lia|lia].
  - eapply Forall_impl; [|exact F2]. simpl. intros t (K & A & B). repeat split; [assumption|lia|lia].
Qed.

Lemma run_frame_pokes : forall nextHeight f u, pokes_added u (run_frame nextHeight f u).
Proof.
  intros nh f u. unfold run_frame. destruct (uf_kind f).
  - destruct (updateWidgetHeight_keeps nh (set_heightAnimationFrame None u)) as [Hv Ht].
    apply pokes_added_refl; [now rewrite Hv|now rewrite Ht].
  - destruct (scheduleHeightUpdate_keeps (set_barWidth "100%" u)) as [Hv Ht].
    set (v := scheduleHeightUpdate (set_barWidth "100%" u)) in *.
    unfold timer_part in Ht. injection Ht as E1 E2 E3 E4.
    unfold visible in Hv. injection Hv as V1 V2 V3 V4.
    unfold pokes_added, visible, ui_setTimeout. simpl.
    rewrite V1, V2, V3, V4, E1, E2, E3, E4. simpl. repeat split; [lia|].
    eexists. split; [reflexivity|]. constructor; [|constructor]. simpl. repeat split; lia.
Qed.

Lemma ui_frame_pokes : forall nextHeight u, pokes_added u (ui_frame nextHeight u).
Proof.
  intros nh u. unfold ui_frame.
  assert (G : forall l v, pokes_added v (fold_left (fun u' f => run_frame nh f u') l v)).
  { induction l as [|f l IH]; intros v; simpl.
    - now apply pokes_added_refl.
    - eapply pokes_added_trans; [apply run_frame_pokes|apply IH]. }
  eapply pokes_added_trans; [|apply G]. now apply pokes_added_refl.
Qed.

Lemma quiet_pokes_added : forall u v, pokes_added u v -> quiet u -> quiet v.
Proof.
  intros u v (_ & _ & H1 & L1 & x & T1 & F1) [Hn Hall]. unfold quiet.
  rewrite H1, T1. split; [assumption|]. apply Forall_app. split.
  - eapply Forall_impl; [|exact Hall]. intros t. now apply poke_below_le.
  - eapply Forall_impl; [|exact F1]. simpl. intros t (K & A & B). now split.
Qed.

Lemma counting_pokes_added : forall h D cb u v,
  pokes_added u v -> counting h D cb u -> counting h D cb v.
Proof.
  intros h D cb u v (_ & _ & H1 & L1 & x & T1 & F1) (Hn & Hlt & pre & post & Et & Hpre & Hpost).
  unfold counting. rewrite H1. split; [assumption|]. split; [lia|].
  exists pre, (post ++ x). split; [now rewrite T1, Et, <- app_assoc|]. split.
  - eapply Forall_impl; [|exact Hpre]. simpl. intros t [A B].
    split; [now apply poke_below_le with (n := ui_nextTimer u)|assumption].
  - apply Forall_app. split.
    + eapply Forall_impl; [|exact Hpost]. simpl. intros t [A B].
      split; [now apply poke_below_le with (n := ui_nextTimer u)|assumption].
    + eapply Forall_impl; [|exact F1]. simpl. intros t (K & A & B).
      split; [now split|lia].
Qed.

(** A millisecond passes. *)
Lemma ms_quiet : forall u,
  quiet u ->
  quiet (ui_millisecond u) /\ visible (ui_millisecond u) = visible u
  /\ ui_now (ui_millisecond u) = S (ui_now u).
Proof.
  intros u [Hn Hall]. unfold ui_millisecond.
  set (u1 := set_ui_now (S (ui_now u)) u).
  assert (Hq : quiet u1) by (split; assumption).
  assert (Hd : Forall (fun p => ut_kind p = HeightPokeTimer)
                 (filter (fun t => Nat.leb (ut_deadline t) (ui_now u1)) (ui_timers u1))).
  { apply Forall_filter_keeps. eapply Forall_impl; [|exact Hall]. now intros t [K _]. }
  destruct (@fold_pokes_quiet _ u1 Hd Hq) as (H1 & H2 & H3).
  rewrite H2, H3. auto.
Qed.

Lemma ms_counting : forall h D cb u,
  counting h D cb u -> S (ui_now u) < D ->
  counting h D cb (ui_millisecond u) /\ visible (ui_millisecond u) = visible u
  /\ ui_now (ui_millisecond u) = S (ui_now u).
Proof.
  intros h D cb u Hc Hlt. unfold ui_millisecond.
  set (u1 := set_ui_now (S (ui_now u)) u).
  assert (Hc1 : counting h D cb u1) by exact Hc.
  destruct Hc as (Hn & Hl & pre & post & Et & Hpre & Hpost).
  assert (Hd : Forall (fun p => ut_kind p = HeightPokeTimer /\ ut_handle p <> h)
                 (filter (fun t => Nat.leb (ut_deadline t) (ui_now u1)) (ui_timers u1))).
  { change (ui_timers u1) with (ui_timers u). change (ui_now u1) with (S (ui_now u)).
    rewrite Et, filter_app. simpl ut_deadline.
    cbn [filter ut_deadline].
    destruct (Nat.leb_spec D (S (ui_now u))) as [Hle|_]; [lia|].
    apply Forall_app. split; apply Forall_filter_keeps.
    - eapply Forall_impl; [|exact Hpre]. now intros t [[K _] B].
    - eapply Forall_impl; [|exact Hpost]. now intros t [[K _] B]. }
  destruct (@fold_pokes_counting h D cb _ u1 Hd Hc1) as (H1 & H2 & H3).
  rewrite H2, H3. auto.
Qed.

Lemma ms_fires : forall h D cb u,
  counting h D cb u -> D <= S (ui_now u) ->
  quiet (ui_millisecond u)
  /\ visible (ui_millisecond u) = (true, false, errorMessageText u, autoHideRuns u ++ [cb]).
Proof.
  intros h D cb u Hc Hle. unfold ui_millisecond.
  set (u1 := set_ui_now (S (ui_now u)) u).
  assert (Hc1 : counting h D cb u1) by exact Hc.
  destruct Hc as (Hn & Hl & pre & post & Et & Hpre & Hpost).
  change (ui_timers u1) with (ui_timers u). change (ui_now u1) with (S (ui_now u)).
  rewrite Et, filter_app. cbn [filter ut_deadline].
  destruct (Nat.leb_spec D (S (ui_now u))) as [_|Hlt]; [|lia].
  rewrite fold_left_app. cbn [fold_left].
  set (due := fun t => Nat.leb (ut_deadline t) (S (ui_now u))).
  assert (Hd1 : Forall (fun p => ut_kind p = HeightPokeTimer /\ ut_handle p <> h)
                  (filter due pre)).
  { apply Forall_filter_keeps. eapply Forall_impl; [|exact Hpre]. now intros t [[K _] B]. }
  assert (Hd2 : Forall (fun p => ut_kind p = HeightPokeTimer) (filter due post)).
  { apply Forall_filter_keeps. eapply Forall_impl; [|exact Hpost]. now intros t [[K _] B]. }
  destruct (@fold_pokes_counting h D cb _ u1 Hd1 Hc1) as (H1 & H2 & H3).
  set (u2 := fold_left fire_timer (filter due pre) u1) in *.
  destruct (@fire_autohide h D cb u2 H1) as (Q1 & Q2 & Q3).
  destruct (@fold_pokes_quiet _ _ Hd2 Q1) as (R1 & R2 & R3).
  split; [exact R1|]. rewrite R2, Q2.
  unfold visible in H2. injection H2 as V1 V2 V3 V4. now rewrite V3, V4.
Qed.

Lemma host_quiet : forall e u,
  quiet u -> quiet (ui_host u e) /\ visible (ui_host u e) = visible u.
Proof.
  intros [|nh] u Hq; simpl.
  - destruct (@ms_quiet u Hq) as (H1 & H2 & _). auto.
  - pose proof (ui_frame_pokes nh u) as Hp. split.
    + now apply quiet_pokes_added with (u := u).
    + now destruct Hp.
Qed.

Lemma run_quiet : forall events u,
  quiet u -> quiet (ui_run events u) /\ visible (ui_run events u) = visible u.
Proof.
  unfold ui_run. induction events as [|e events IH]; intros u Hq; simpl; [now auto|].
  destruct (@host_quiet e u Hq) as [H1 H2].
  destruct (IH _ H1) as [H3 H4]. rewrite H4, H2. auto.
Qed.

(** The countdown: before its deadline nothing changes, from the deadline
    on the overlay is hidden and the callback has run, once. *)
Lemma run_counting : forall h D cb events u,
  counting h D cb u -> ui_now u < D ->
  if Nat.ltb (ui_now u + milliseconds events) D
  then counting h D cb (ui_run events u) /\ visible (ui_run events u) = visible u
       /\ ui_now (ui_run events u) = ui_now u + milliseconds events
  else quiet (ui_run events u)
       /\ visible (ui_run events u)
          = (true, false, errorMessageText u, autoHideRuns u ++ [cb]).
Proof.
  intros h D cb. unfold ui_run, milliseconds.
  induction events as [|e events IH]; intros u Hc Hlt.
  - simpl. rewrite Nat.add_0_r. destruct (Nat.ltb_spec (ui_now u) D); [now auto|lia].
  - destruct e as [|nh]; cbn [fold_left ui_host filter is_millisecond List.length].
    + destruct (Nat.lt_ge_cases (S (ui_now u)) D) as [Hs|Hs].
      * destruct (@ms_counting h D cb u Hc Hs) as (H1 & H2 & H3).
        assert (Hlt' : ui_now (ui_millisecond u) < D) by lia.
        specialize (IH _ H1 Hlt'). rewrite H3 in IH.
        replace (ui_now u + S (List.length (filter is_millisecond events)))
          with (S (ui_now u) + List.length (filter is_millisecond events)) by lia.
        destruct (Nat.ltb _ D).
        -- destruct IH as (I1 & I2 & I3). rewrite I2, I3. auto.
        -- destruct IH as (I1 & I2). rewrite I2.
           unfold visible in H2. injection H2 as V1 V2 V3 V4. rewrite V3, V4. auto.
      * destruct (@ms_fires h D cb u Hc Hs) as (H1 & H2).
        destruct (Nat.ltb_spec (ui_now u + S (List.length (filter is_millisecond events))) D)
          as [Hx|_]; [lia|].
        destruct (@run_quiet events _ H1) as [R1 R2]. unfold ui_run in R1, R2.
        rewrite R2. auto.
    + pose proof (ui_frame_pokes nh u) as Hp.
      assert (Hc' : counting h D cb (ui_frame nh u))
        by now apply counting_pokes_added with (u := u).
      destruct Hp as (V & N & _).
      assert (Hlt' : ui_now (ui_frame nh u) < D) by lia.
      specialize (IH _ Hc' Hlt'). rewrite N in IH.
      destruct (Nat.ltb _ D).
      * destruct IH as (I1 & I2 & I3). rewrite I2, I3. auto.
      * destruct IH as (I1 & I2). rewrite I2.
        unfold visible in V. injection V as V1 V2 V3 V4. rewrite V3, V4. auto.
Qed.

Lemma clear_tracked : forall u,
  tracked u ->
  quiet (clearErrorAutoHide u)
  /\ visible (clearErrorAutoHide u) = visible u
  /\ ui_now (clearErrorAutoHide u) = ui_now u
  /\ ui_nextTimer (clearErrorAutoHide u) = ui_nextTimer u.
Proof.
  intros u [[Hn Hall]|(h & D & cb & Hn & Hlt & pre & post & Et & Hpre & Hpost)];
    unfold clearErrorAutoHide, quiet; rewrite Hn; simpl.
  - auto.
  - repeat split. rewrite Et, filter_app. simpl. rewrite Nat.eqb_refl. simpl.
    apply Forall_app. split; apply Forall_filter_keeps.
    + eapply Forall_impl; [|exact Hpre]. now intros t [A _].
    + eapply Forall_impl; [|exact Hpost]. now intros t [A _].
Qed.

Lemma tracked_same : forall u v, timer_part v = timer_part u -> tracked u -> tracked v.
Proof.
  intros u v E [Hq|(h & D & cb & Hc)].
  - left. now apply quiet_same with (u := u).
  - right. exists h, D, cb. now apply counting_same with (u := u).
Qed.

Lemma showError_counting : forall message technical cb u,
  tracked u ->
  let u' := showError message technical (Some cb) u in
  counting (ui_nextTimer u) (ui_now u + errorAutoHideMs) cb u'
  /\ visible u' = (false, true, message, autoHideRuns u)
  /\ ui_now u' = ui_now u /\ errorMessageText u' = message.
Proof.
  intros message technical cb u Ht u'. subst u'. unfold showError.
  match goal with |- context [scheduleErrorAutoHide cb ?X] => set (v := X) end.
  assert (Hv : tracked v) by (apply tracked_same with (u := u); [reflexivity|assumption]).
  destruct (@clear_tracked v Hv) as ([Q1 Q2] & C2 & C3 & C4).
  destruct (scheduleHeightUpdate_keeps (scheduleErrorAutoHide cb v)) as [Sv St].
  assert (K : counting (ui_nextTimer u) (ui_now u + errorAutoHideMs) cb
                (scheduleErrorAutoHide cb v)
              /\ visible (scheduleErrorAutoHide cb v) = (false, true, message, autoHideRuns u)
              /\ ui_now (scheduleErrorAutoHide cb v) = ui_now u).
  { unfold scheduleErrorAutoHide, ui_setTimeout, ui_requestAnimationFrame.
    set (w := clearErrorAutoHide v) in *. clearbody w.
    unfold visible in C2. injection C2 as V1 V2 V3 V4.
    unfold counting, visible. cbn -[errorAutoHideMs].
    rewrite C3, C4, V1, V2, V3, V4. cbn -[errorAutoHideMs].
    repeat split; try lia.
    exists (ui_timers w), []. split; [reflexivity|]. split; [|constructor].
    eapply Forall_impl; [|exact Q2]. rewrite C4. cbn. intros t [A B].
    split; [split; [assumption|lia]|lia]. }
  destruct K as (K1 & K2 & K3).
  assert (E4 : ui_now (scheduleHeightUpdate (scheduleErrorAutoHide cb v))
               = ui_now (scheduleErrorAutoHide cb v)) by (apply timer_part_now; exact St).
  assert (S3 : errorMessageText (scheduleHeightUpdate (scheduleErrorAutoHide cb v))
               = errorMessageText (scheduleErrorAutoHide cb v))
    by (apply visible_message_same; exact Sv).
  assert (K4 : errorMessageText (scheduleErrorAutoHide cb v) = message)
    by exact (@visible_message _ _ _ _ _ K2).
  rewrite Sv, K2, E4, K3, S3, K4.
  split; [|now auto].
  apply counting_same with (u := scheduleErrorAutoHide cb v); assumption.
Qed.

Lemma showError_quiet : forall message technical u,
  tracked u ->
  let u' := showError message technical None u in
  quiet u' /\ visible u' = (false, true, message, autoHideRuns u).
Proof.
  intros message technical u Ht u'. subst u'. unfold showError.
  match goal with |- context [clearErrorAutoHide ?X] => set (v := X) end.
  assert (Hv : tracked v) by (apply tracked_same with (u := u); [reflexivity|assumption]).
  destruct (@clear_tracked v Hv) as (Q & C2 & C3 & C4).
  destruct (scheduleHeightUpdate_keeps (clearErrorAutoHide v)) as [Sv St].
  split; [now apply quiet_same with (u := clearErrorAutoHide v)|].
  now rewrite Sv, C2.
Qed.

Lemma act_tracked : forall a u, tracked u -> tracked (ui_act u a).
Proof.
  intros [[|nh]|message technical [cb|]|] u Ht; simpl.
  - destruct Ht as [Hq|(h & D & cb & Hc)].
    + left. now apply ms_quiet.
    + destruct (Nat.lt_ge_cases (S (ui_now u)) D) as [Hs|Hs].
      * right. exists h, D, cb. now apply ms_counting.
      * left. now apply (@ms_fires h D cb u Hc Hs).
  - pose proof (ui_frame_pokes nh u) as Hp. destruct Ht as [Hq|(h & D & cb & Hc)].
    + left. now apply quiet_pokes_added with (u := u).
    + right. exists h, D, cb. now apply counting_pokes_added with (u := u).
  - right. eexists _, _, cb. now apply showError_counting.
  - left. now apply showError_quiet.
  - apply tracked_same with (u := u); [|assumption]. apply scheduleHeightUpdate_keeps.
Qed.

Lemma history_tracked : forall autoAdjust actions, tracked (ui_history autoAdjust actions).
Proof.
  intros a actions. unfold ui_history.
  assert (G : forall l u, tracked u -> tracked (fold_left ui_act l u)).
  { induction l as [|x l IH]; intros u Hu; simpl; [assumption|].
    apply IH. now apply act_tracked. }
  apply G. left. split; [reflexivity|]. simpl. constructor.
Qed.

(** X23: an error shown with an auto-hide callback covers the project for
    exactly [errorAutoHideMs] = 8000 milliseconds, whatever frames are
    painted meanwhile: before that the overlay is shown, the project is
    hidden and no callback has run; from then on the overlay is hidden, the
    project is shown again and the callback has run, once.  The message
    stays in the element throughout. *)
Theorem error_overlay_hides_after_8000ms :
  forall (autoAdjust : bool) (history : list UiAction) (message : string)
         (technical : option string) (onDone : AutoHideCallback) (events : list HostEvent),
    let u := ui_history autoAdjust history in
    let u' := ui_run events (showError message technical (Some onDone) u) in
    errorMessageText u' = message
    /\ if Nat.ltb (milliseconds events) errorAutoHideMs
       then errorHidden u' = false /\ projectHidden u' = true
            /\ autoHideRuns u' = autoHideRuns u
       else errorHidden u' = true /\ projectHidden u' = false
            /\ autoHideRuns u' = autoHideRuns u ++ [onDone].
Proof.
  intros a history message technical cb events u u'.
  destruct (@showError_counting message technical cb u (history_tracked a history))
    as (Hc & Hv & Hn & Hm).
  set (u1 := showError message technical (Some cb) u) in *.
  assert (Hlt : ui_now u1 < ui_now u + errorAutoHideMs).
  { rewrite Hn. unfold errorAutoHideMs. lia. }
  pose proof (@run_counting _ _ cb events u1 Hc Hlt) as R. rewrite Hn, Hm in R.
  fold u' in R.
  clearbody u'. clear Hc Hlt. clearbody u1. clearbody u.
  destruct (Nat.ltb_spec (milliseconds events) errorAutoHideMs) as [Hk|Hk].
  - destruct (Nat.ltb_spec (ui_now u + milliseconds events) (ui_now u + errorAutoHideMs))
      as [_|Hx]; [|lia].
    destruct R as (_ & R & _). rewrite Hv in R.
    destruct (@visible_fields _ _ _ _ _ R) as (F1 & F2 & F3 & F4). auto.
  - destruct (Nat.ltb_spec (ui_now u + milliseconds events) (ui_now u + errorAutoHideMs))
      as [Hx|_]; [lia|].
    destruct R as (_ & R).
    destruct (@visible_fields _ _ _ _ _ R) as (F1 & F2 & F3 & F4).
    destruct (@visible_fields _ _ _ _ _ Hv) as (_ & _ & _ & V4).
    rewrite F4, V4. auto.
Qed.

(** X24: an error shown without an auto-hide callback, as [synchronize]
    does when fetching fails, stays: however much time passes and whatever
    frames are painted, the overlay is shown with its message and the
    project is hidden.  A countdown that was running is cancelled: its
    callback never runs. *)
Theorem error_without_callback_stays :
  forall (autoAdjust : bool) (history : list UiAction) (message : string)
         (technical : option string) (events : list HostEvent),
    let u := ui_history autoAdjust history in
    let u' := ui_run events (showError message technical None u) in
    errorHidden u' = false /\ projectHidden u' = true
    /\ errorMessageText u' = message /\ autoHideRuns u' = autoHideRuns u.
Proof.
  intros a history message technical events u u'.
  destruct (@showError_quiet message technical u (history_tracked a history)) as (Hq & Hv).
  destruct (@run_quiet events _ Hq) as (_ & R). fold u' in R. rewrite Hv in R.
  clearbody u'. clear Hq Hv. clearbody u.
  destruct (@visible_fields _ _ _ _ _ R) as (F1 & F2 & F3 & F4). auto.
Qed.

(** *** Height updates *)

Lemma last_cons_default : forall (rest : list Z) (h prev : Z),
  last (h :: rest) prev = last rest h.
Proof.
  induction rest as [|x rest IH]; intros h prev; [reflexivity|].
  change (last (h :: x :: rest) prev) with (last (x :: rest) prev).
  now rewrite (IH x prev), (IH x h).
Qed.

Lemma fresh_heights_snoc : forall heights prev n,
  fresh_heights prev (heights ++ [n])
  = fresh_heights prev heights && ((0 <? n)%Z && negb (last heights prev =? n)%Z).
Proof.
  induction heights as [|h rest IH]; intros prev n.
  - simpl. now rewrite andb_true_r.
  - change (fresh_heights prev ((h :: rest) ++ [n]))
      with ((0 <? h)%Z && negb (prev =? h)%Z && fresh_heights h (rest ++ [n])).
    rewrite IH, last_cons_default. cbn [fresh_heights].
    now rewrite !andb_assoc.
Qed.

Lemma height_ok_same : forall a rest u v,
  height_part v = height_part u -> height_ok a rest u -> height_ok a rest v.
Proof.
  unfold height_part, height_ok, pending_height_frames.
  intros a rest u v E H.
  assert (E1 : autoAdjustHeight v = autoAdjustHeight u)
    by exact (f_equal (fun x => fst (fst (fst (fst x)))) E).
  assert (E2 : heightAnimationFrame v = heightAnimationFrame u)
    by exact (f_equal (fun x => snd (fst (fst (fst x)))) E).
  assert (E3 : lastMeasuredHeight v = lastMeasuredHeight u)
    by exact (f_equal (fun x => snd (fst (fst x))) E).
  assert (E4 : filter is_height_frame (ui_frames v) = filter is_height_frame (ui_frames u))
    by exact (f_equal (fun x => snd (fst x)) E).
  assert (E5 : setHeightCalls v = setHeightCalls u) by exact (f_equal snd E).
  rewrite E1, E2, E3, E4, E5. exact H.
Qed.

Lemma scheduleHeightUpdate_height : forall a rest u,
  height_ok a rest u -> height_ok a rest (scheduleHeightUpdate u).
Proof.
  intros a rest u H. unfold scheduleHeightUpdate.
  destruct (autoAdjustHeight u) eqn:Ea; simpl; [|assumption].
  destruct (heightAnimationFrame u) eqn:Ef; [assumption|].
  destruct H as (H1 & H2 & H3 & H4 & H5). rewrite Ef in H4.
  unfold height_ok, pending_height_frames in *. simpl.
  rewrite filter_app, length_app. simpl.
  split; [assumption|]. split; [assumption|]. split; [assumption|]. split; [lia|].
  intros Hf. rewrite Hf in H1. congruence.
Qed.

Lemma clearErrorAutoHide_height : forall u,
  height_part (clearErrorAutoHide u) = height_part u.
Proof. intros u. unfold clearErrorAutoHide. now destruct (errorHideTimer u). Qed.

Lemma scheduleErrorAutoHide_height : forall cb u,
  height_part (scheduleErrorAutoHide cb u) = height_part u.
Proof.
  intros cb u. rewrite <- (clearErrorAutoHide_height u).
  unfold scheduleErrorAutoHide, ui_setTimeout, ui_requestAnimationFrame.
  set (w := clearErrorAutoHide u). clearbody w.
  unfold height_part. cbn -[errorAutoHideMs]. rewrite filter_app. simpl.
  now rewrite app_nil_r.
Qed.

Lemma set_autoHideRuns_height : forall runs v,
  height_part (set_autoHideRuns runs v) = height_part v.
Proof. reflexivity. Qed.

Lemma ui_setTimeout_height : forall kind delay v,
  height_part (snd (ui_setTimeout kind delay v)) = height_part v.
Proof. reflexivity. Qed.

Lemma showError_height : forall a rest message technical onAutoHide u,
  height_ok a rest u -> height_ok a rest (showError message technical onAutoHide u).
Proof.
  intros a rest message technical onAutoHide u H. unfold showError.
  apply scheduleHeightUpdate_height. destruct onAutoHide as [cb|].
  - eapply height_ok_same; [|exact H]. now rewrite scheduleErrorAutoHide_height.
  - eapply height_ok_same; [|exact H]. now rewrite clearErrorAutoHide_height.
Qed.

Lemma hideError_height : forall a rest u,
  height_ok a rest u -> height_ok a rest (hideError u).
Proof.
  intros a rest u H. unfold hideError. apply scheduleHeightUpdate_height.
  eapply height_ok_same; [|exact H]. now rewrite clearErrorAutoHide_height.
Qed.

Lemma fire_timer_height : forall a rest t u,
  height_ok a rest u -> height_ok a rest (fire_timer u t).
Proof.
  intros a rest t u H. unfold fire_timer.
  destruct (existsb _ (ui_timers u)); [|assumption].
  assert (H' : height_ok a rest (ui_clearTimeout (ut_handle t) u))
    by (eapply height_ok_same; [|exact H]; reflexivity).
  unfold run_timer. destruct (ut_kind t) as [cb|].
  - eapply height_ok_same; [apply set_autoHideRuns_height|].
    apply hideError_height. exact H'.
  - now apply scheduleHeightUpdate_height.
Qed.

Lemma run_frame_height : forall a rest nextHeight f u,
  height_ok a (f :: rest) u -> height_ok a rest (run_frame nextHeight f u).
Proof.
  intros a rest nh f u H. unfold run_frame.
  unfold height_ok in H. cbn [filter] in H. unfold is_height_frame at 1 in H.
  destruct (uf_kind f).
  - destruct H as (H1 & H2 & H3 & H4 & H5). cbn [List.length] in H4.
    destruct (heightAnimationFrame u) as [frame|] eqn:Ef; [|lia].
    assert (Base : height_ok a rest (set_heightAnimationFrame None u)).
    { unfold height_ok, pending_height_frames in *. simpl.
      split; [assumption|]. split; [assumption|]. split; [assumption|]. split; [lia|].
      intros Hf. destruct (H5 Hf) as [A _]. split; [exact A|reflexivity]. }
    unfold updateWidgetHeight. cbn [autoAdjustHeight set_heightAnimationFrame].
    destruct (autoAdjustHeight u) eqn:Ea; cbn [negb]; [|exact Base].
    destruct nh as [measured|]; [|exact Base].
    destruct (Z.leb_spec measured 0) as [Hn|Hn]; [exact Base|].
    cbn [lastMeasuredHeight set_heightAnimationFrame].
    destruct (Z.eqb_spec (lastMeasuredHeight u) measured) as [He|He]; [exact Base|].
    clear Base. unfold height_ok, pending_height_frames in *. simpl.
    split; [congruence|]. split; [|split; [|split]].
    + rewrite fresh_heights_snoc, H2, <- H3. cbn [andb].
      destruct (Z.ltb_spec 0 measured) as [_|Hx]; [|lia].
      destruct (Z.eqb_spec (lastMeasuredHeight u) measured) as [Hx|_]; [contradiction|reflexivity].
    + now rewrite last_last.
    + lia.
    + intros Hf. congruence.
  - cbn [List.length] in H.
    eapply height_ok_same with (u := scheduleHeightUpdate (set_barWidth "100%" u)).
    + apply ui_setTimeout_height.
    + apply scheduleHeightUpdate_height. exact H.
Qed.

Lemma act_height : forall a x u, height_ok a [] u -> height_ok a [] (ui_act u x).
Proof.
  intros a [[|nh]|message technical onAutoHide|] u H; simpl.
  - unfold ui_millisecond.
    assert (G : forall l v, height_ok a [] v -> height_ok a [] (fold_left fire_timer l v)).
    { induction l as [|t l IH]; intros v Hv; simpl; [assumption|].
      apply IH. now apply fire_timer_height. }
    apply G. exact H.
  - unfold ui_frame.
    assert (G : forall l v, height_ok a l v
                -> height_ok a [] (fold_left (fun u' f => run_frame nh f u') l v)).
    { induction l as [|f l IH]; intros v Hv; simpl; [assumption|].
      apply IH. now apply run_frame_height. }
    apply G. unfold height_ok, pending_height_frames in *. simpl in *.
    destruct H as (H1 & H2 & H3 & H4 & H5).
    split; [assumption|]. split; [assumption|]. split; [assumption|]. split; [lia|exact H5].
  - now apply showError_height.
  - now apply scheduleHeightUpdate_height.
Qed.

(** X25: the heights the widget reports to the host.  Whatever happens
    after the constructor, every height passed to [homey.setHeight] is
    positive and differs from the one passed before it, the script's
    [lastMeasuredHeight] is the last of them, and at most one height update
    waits for the next frame however often one was requested.  With
    [autoAdjustHeight] off no height is ever reported and no height update
    is ever pending. *)
Theorem reported_heights_positive_and_change :
  forall (autoAdjust : bool) (actions : list UiAction),
    let u := ui_history autoAdjust actions in
    fresh_heights 0 (setHeightCalls u) = true
    /\ lastMeasuredHeight u = last (setHeightCalls u) 0%Z
    /\ pending_height_frames u <= 1
    /\ (if autoAdjust then True
        else setHeightCalls u = [] /\ pending_height_frames u = 0).
Proof.
  intros a actions u.
  assert (H : height_ok a [] u).
  { subst u. unfold ui_history.
    assert (G : forall l v, height_ok a [] v -> height_ok a [] (fold_left ui_act l v)).
    { induction l as [|x l IH]; intros v Hv; simpl; [assumption|].
      apply IH. now apply act_height. }
    apply G. unfold height_ok, pending_height_frames.
    destruct a; simpl;
      (split; [reflexivity|]; split; [reflexivity|]; split; [reflexivity|];
       split; [reflexivity|]); intros Hf; [discriminate Hf|split; reflexivity]. }
  clearbody u. destruct H as (H1 & H2 & H3 & H4 & H5). simpl in H4.
  split; [assumption|]. split; [assumption|]. split; [|].
  - destruct (heightAnimationFrame u); lia.
  - destruct a; [exact I|]. destruct (H5 eq_refl) as [E1 E2]. rewrite E2 in H4.
    split; [assumption|lia].
Qed.

(* ------------------------------------------------------------------ *)
(** ** TodoistClient *)

Section TodoistClientProperties.

Variable Item : Type.

Lemma getPaginatedResults_loop_pages :
  forall (pages : list (list Item * string)) (tail : list (Completion (PageResponse Item)))
         (results : list Item) (cursor : option string) (sent : list (option string)),
    getPaginatedResults_loop
      (map (fun p => Normal (mkPage (Some (fst p)) (Some (snd p)))) pages ++ tail)
      results cursor sent
    = match pages with
      | [] => getPaginatedResults_loop tail results cursor sent
      | _ :: _ =>
          getPaginatedResults_loop tail (results ++ List.concat (map fst pages))
            (Some (snd (last pages ([], ""))))
            (sent ++ get_query cursor
                  :: map (fun p => get_query (Some (snd p))) (removelast pages))
      end.
Proof.
  induction pages as [|[page c] pages IH]; intros tail results cursor sent; [reflexivity|].
  cbn [map app getPaginatedResults_loop page_results page_next_cursor fst snd].
  rewrite IH. destruct pages as [|q pages].
  - cbn. now rewrite app_nil_r.
  - cbn [map List.concat fst]. rewrite <- !app_assoc.
    change (last ((page, c) :: q :: pages) ([], "")) with (last (q :: pages) ([]:list Item, "")).
    change (removelast ((page, c) :: q :: pages)) with ((page, c) :: removelast (q :: pages)).
    reflexivity.
Qed.

Lemma asked_cursors : forall (pages : list (list Item * string)),
  match pages with
  | [] => [get_query None]
  | _ :: _ =>
      get_query None :: map (fun p => get_query (Some (snd p))) (removelast pages)
        ++ [get_query (Some (snd (last pages ([], ""))))]
  end
  = None :: map (fun p => get_query (Some (snd p))) pages.
Proof.
  intros pages. destruct pages as [|p pages]; [reflexivity|].
  cbn [get_query]. f_equal. revert p.
  induction pages as [|q pages IH]; intros p; [reflexivity|].
  change (removelast (p :: q :: pages)) with (p :: removelast (q :: pages)).
  change (last (p :: q :: pages) ([], "")) with (last (q :: pages) ([]:list Item, "")).
  cbn [map app]. f_equal. apply IH.
Qed.

(** X26: [getPaginatedResults] asks for the first page without a cursor
    and for every further page with the [next_cursor] of the page before it
    (an empty [next_cursor] is sent as no cursor).  It returns the items of
    all pages, in order, when a page comes without [next_cursor]; it
    returns the empty list, dropping the pages collected so far, when a
    response has no [results] array; it rejects with the error of a request
    that fails; and it does not return while every page names a next one. *)
Theorem getPaginatedResults_collects_pages :
  forall (pages : list (list Item * string)) (rest : list (Completion (PageResponse Item))),
    let served := map (fun p => Normal (mkPage (Some (fst p)) (Some (snd p)))) pages in
    let asked := None :: map (fun p => get_query (Some (snd p))) pages in
    (forall last_page,
        getPaginatedResults (served ++ Normal (mkPage (Some last_page) None) :: rest)
        = (Some (Normal (List.concat (map fst pages) ++ last_page)), asked))
    /\ (forall next,
        getPaginatedResults (served ++ Normal (mkPage None next) :: rest)
        = (Some (Normal []), asked))
    /\ (forall e,
        getPaginatedResults (served ++ Throw e :: rest) = (Some (Throw e), asked))
    /\ getPaginatedResults served = (None, asked).
Proof.
  intros pages rest served asked. subst served asked.
  rewrite <- (asked_cursors pages). unfold getPaginatedResults.
  split; [|split; [|split]].
  - intros last_page. rewrite getPaginatedResults_loop_pages.
    destruct pages as [|p pages]; reflexivity.
  - intros next. rewrite getPaginatedResults_loop_pages.
    destruct pages as [|p pages]; reflexivity.
  - intros e. rewrite getPaginatedResults_loop_pages.
    destruct pages as [|p pages]; reflexivity.
  - pose proof (getPaginatedResults_loop_pages pages [] [] None []) as E.
    rewrite app_nil_r in E. rewrite E.
    destruct pages as [|p pages]; reflexivity.
Qed.

(** The cache invariant. *)
Lemma cache_ok_step : forall (c : Client Item) (e : ClientEvent Item),
  cache_ok c -> cache_ok (client_step c e).
Proof.
  intros c [caller|outcome|] H; unfold cache_ok in *; simpl.
  - unfold getProjects. destruct (_projects c) as [[[v|msg]|]|]; simpl; assumption.
  - unfold settle. destruct (_projects c) as [[[v|msg]|]|] eqn:E; simpl; try (rewrite E; assumption).
    destruct outcome as [v|msg]; simpl; [|assumption].
    rewrite H. exists (client_nextHandle c), (client_now c + projectsCacheMs).
    split; [now destruct (_timeout c)|]. unfold projectsCacheMs. lia.
  - unfold client_millisecond. simpl.
    destruct (_projects c) as [[[v|msg]|]|] eqn:E; try (rewrite H; reflexivity).
    destruct H as (h & D & Ht & Hlt & Hle). rewrite Ht. simpl.
    destruct (Nat.leb_spec D (S (client_now c))); simpl; [reflexivity|].
    exists h, D. repeat split; [assumption|lia].
Qed.

Lemma cache_ok_run : forall (events : list (ClientEvent Item)) (c : Client Item),
  cache_ok c -> cache_ok (client_run events c).
Proof.
  unfold client_run. induction events as [|e events IH]; intros c H; simpl; [assumption|].
  apply IH. now apply cache_ok_step.
Qed.

Lemma cache_ok_history : forall (history : list (ClientEvent Item)),
  cache_ok (client_run history (newClient Item)).
Proof. intros history. apply cache_ok_run. reflexivity. Qed.

(** While a fulfilled promise is cached and its timer is not due. *)
Lemma cached_until_deadline :
  forall (v : list Item) (h D : nat) (events : list (ClientEvent Item)) (c : Client Item),
    _projects c = Some (Some (Normal v)) -> client_timers c = [(h, D)] ->
    client_now c + client_milliseconds events < D ->
    let c' := client_run events c in
    _projects c' = Some (Some (Normal v)) /\ client_timers c' = [(h, D)]
    /\ client_now c' = client_now c + client_milliseconds events
    /\ fetches c' = fetches c
    /\ answers c' = answers c ++ map (fun caller => (caller, Normal v)) (callers events).
Proof.
  intros v h D. unfold client_run, client_milliseconds, callers.
  induction events as [|e events IH]; intros c Hp Ht Hlt.
  - simpl. rewrite Nat.add_0_r, app_nil_r. auto.
  - destruct e as [caller|outcome|]; cbn [fold_left client_step filter List.length flat_map] in *.
    + assert (E : getProjects caller c
                  = mkClient (_projects c) (_timeout c) (client_timers c) (client_nextHandle c)
                      (client_now c) (fetches c) (waiting c)
                      (answers c ++ [(caller, Normal v)])).
      { unfold getProjects. now rewrite Hp. }
      rewrite E.
      specialize (IH (mkClient (_projects c) (_timeout c) (client_timers c) (client_nextHandle c)
                        (client_now c) (fetches c) (waiting c)
                        (answers c ++ [(caller, Normal v)])) Hp Ht Hlt).
      cbn [_projects client_timers client_now fetches answers] in IH.
      destruct IH as (I1 & I2 & I3 & I4 & I5). rewrite I5.
      cbn [app map]. rewrite <- app_assoc. auto.
    + assert (E : settle outcome c = c) by (unfold settle; now rewrite Hp).
      rewrite E. apply IH; assumption.
    + assert (E : client_millisecond c
                  = mkClient (_projects c) (_timeout c) [(h, D)] (client_nextHandle c)
                      (S (client_now c)) (fetches c) (waiting c) (answers c)).
      { unfold client_millisecond. rewrite Ht. cbn [filter snd].
        destruct (Nat.leb_spec D (S (client_now c))); [lia|reflexivity]. }
      rewrite E.
      assert (Hlt' : S (client_now c)
                     + List.length (filter (fun e => match e with
                                                     | ClientMillisecond _ => true
                                                     | _ => false
                                                     end) events) < D) by lia.
      specialize (IH (mkClient (_projects c) (_timeout c) [(h, D)] (client_nextHandle c)
                        (S (client_now c)) (fetches c) (waiting c) (answers c))
                     Hp eq_refl Hlt').
      cbn [_projects client_timers client_now fetches answers] in IH.
      destruct IH as (I1 & I2 & I3 & I4 & I5). rewrite I3. repeat split; try assumption. lia.
Qed.

(** X27: a fetched list of projects is cached for [projectsCacheMs] =
    60000 milliseconds.  When the pending fetch is fulfilled with [v], every
    call of [getProjects] made before 60000 ms have passed is answered with
    [v] and starts no fetch; the 60000th millisecond clears the cache, so
    that the next call starts a new fetch. *)
Theorem projects_cached_for_60000ms :
  forall (history : list (ClientEvent Item)) (v : list Item),
    let pending := client_run history (newClient Item) in
    _projects pending = Some None ->
    let c := settle (Normal v) pending in
    forall (events : list (ClientEvent Item)),
      let c' := client_run events c in
      (client_milliseconds events < projectsCacheMs ->
         fetches c' = fetches c
         /\ answers c' = answers c ++ map (fun caller => (caller, Normal v)) (callers events))
      /\ (S (client_milliseconds events) = projectsCacheMs ->
          forall caller,
            let c'' := getProjects caller (client_millisecond c') in
            _projects (client_millisecond c') = None
            /\ _projects c'' = Some None /\ fetches c'' = S (fetches c)).
Proof.
  intros history v pending Hp c events c'.
  pose proof (cache_ok_history history) as Hok. fold pending in Hok.
  unfold cache_ok in Hok. rewrite Hp in Hok.
  assert (Ec : c = mkClient (Some (Some (Normal v))) (Some (client_nextHandle pending))
                     [(client_nextHandle pending, client_now pending + projectsCacheMs)]
                     (S (client_nextHandle pending)) (client_now pending) (fetches pending) []
                     (answers pending
                      ++ map (fun w => (w, Normal v))
                             (answer_order (Normal v) (waiting pending)))).
  { subst c. unfold settle. rewrite Hp, Hok. now destruct (_timeout pending). }
  assert (W : client_milliseconds events < projectsCacheMs ->
              _projects c' = Some (Some (Normal v))
              /\ client_timers c'
                 = [(client_nextHandle pending, client_now pending + projectsCacheMs)]
              /\ client_now c' = client_now c + client_milliseconds events
              /\ fetches c' = fetches c
              /\ answers c' = answers c ++ map (fun caller => (caller, Normal v)) (callers events)).
  { intros Hlt. apply cached_until_deadline; rewrite Ec;
      cbn [_projects client_timers client_now]; [reflexivity|reflexivity|lia]. }
  split.
  - intros Hlt. destruct (W Hlt) as (_ & _ & _ & W4 & W5). split; assumption.
  - intros Heq caller c''.
    assert (Hlt : client_milliseconds events < projectsCacheMs) by lia.
    destruct (W Hlt) as (W1 & W2 & W3 & W4 & W5).
    assert (En : _projects (client_millisecond c') = None
                 /\ fetches (client_millisecond c') = fetches c).
    { unfold client_millisecond. rewrite W2, W3, W4. cbn [filter snd _projects fetches].
      replace (client_now c) with (client_now pending) by (rewrite Ec; reflexivity).
      destruct (Nat.leb_spec (client_now pending + projectsCacheMs)
                             (S (client_now pending + client_milliseconds events)));
        [now split|lia]. }
    destruct En as [En Ef]. split; [assumption|].
    subst c''. unfold getProjects. rewrite En. cbn [_projects fetches]. rewrite Ef.
    split; reflexivity.
Qed.

(** X28: a failed fetch is never retried.  Once the cached promise is
    rejected no timer clears it: whatever time passes, every later call of
    [getProjects] is answered with the same error and no fetch is started
    again. *)
Theorem failed_projects_fetch_is_kept :
  forall (history : list (ClientEvent Item)) (message : string),
    let c := client_run history (newClient Item) in
    _projects c = Some (Some (Throw message)) ->
    forall (events : list (ClientEvent Item)),
      let c' := client_run events c in
      _projects c' = Some (Some (Throw message))
      /\ fetches c' = fetches c
      /\ answers c' = answers c ++ map (fun caller => (caller, Throw message)) (callers events).
Proof.
  intros history message c Hp events.
  pose proof (cache_ok_history history) as Hok. fold c in Hok.
  unfold cache_ok in Hok. rewrite Hp in Hok. clearbody c. revert c Hp Hok.
  unfold client_run, callers.
  induction events as [|e events IH]; intros c Hp Hok; cbn [fold_left flat_map].
  - cbn. now rewrite app_nil_r.
  - destruct e as [caller|outcome|]; cbn [client_step].
    + assert (E : getProjects caller c
                  = mkClient (_projects c) (_timeout c) (client_timers c) (client_nextHandle c)
                      (client_now c) (fetches c) (waiting c)
                      (answers c ++ [(caller, Throw message)])).
      { unfold getProjects. now rewrite Hp. }
      rewrite E.
      specialize (IH (mkClient (_projects c) (_timeout c) (client_timers c) (client_nextHandle c)
                        (client_now c) (fetches c) (waiting c)
                        (answers c ++ [(caller, Throw message)])) Hp Hok).
      cbn [_projects fetches answers] in IH.
      destruct IH as (I1 & I2 & I3). rewrite I3. cbn [app map]. rewrite <- app_assoc. auto.
    + assert (E : settle outcome c = c) by (unfold settle; now rewrite Hp).
      rewrite E. now apply IH.
    + assert (E : client_millisecond c
                  = mkClient (_projects c) (_timeout c) [] (client_nextHandle c)
                      (S (client_now c)) (fetches c) (waiting c) (answers c)).
      { unfold client_millisecond. now rewrite Hok. }
      rewrite E.
      specialize (IH (mkClient (_projects c) (_timeout c) [] (client_nextHandle c)
                        (S (client_now c)) (fetches c) (waiting c) (answers c)) Hp eq_refl).
      cbn [_projects fetches answers] in IH. exact IH.
Qed.

End TodoistClientProperties.

Lemma projects_cached_for_60000ms_witness :
  _projects exClientPending = Some None
  /\ fetches (client_run [GetProjects nat 2; ClientMillisecond nat; GetProjects nat 3]
                         exClientCached) = 1
  /\ answers (client_run [GetProjects nat 2; ClientMillisecond nat; GetProjects nat 3]
                         exClientCached)
     = [(1, Normal [7]); (2, Normal [7]); (3, Normal [7])].
Proof.
  split; [reflexivity|].
  apply (@projects_cached_for_60000ms nat [GetProjects nat 1] [7] eq_refl
           [GetProjects nat 2; ClientMillisecond nat; GetProjects nat 3]).
  unfold projectsCacheMs, client_milliseconds. cbn [filter List.length]. lia.
Defined.

Lemma failed_projects_fetch_is_kept_witness :
  _projects exClientFailed = Some (Some (Throw "Unauthorized"))
  /\ _projects (client_run [ClientMillisecond nat; GetProjects nat 2] exClientFailed)
     = Some (Some (Throw "Unauthorized"))
  /\ fetches (client_run [ClientMillisecond nat; GetProjects nat 2] exClientFailed) = 1
  /\ answers (client_run [ClientMillisecond nat; GetProjects nat 2] exClientFailed)
     = [(1, Throw "Unauthorized"); (2, Throw "Unauthorized")].
Proof.
  split; [reflexivity|].
  exact (@failed_projects_fetch_is_kept nat [GetProjects nat 1; Settled (Throw "Unauthorized")]
           "Unauthorized" eq_refl [ClientMillisecond nat; GetProjects nat 2]).
Defined.

(* ------------------------------------------------------------------ *)
(** ** UserDriver: the realtime event name and the due date *)

Lemma event_name_parts : forall (u1 u2 p1 p2 : string),
  free_of 58 u1 = true -> free_of 58 u2 = true ->
  homeyEventName u1 p1 = homeyEventName u2 p2 -> u1 = u2 /\ p1 = p2.
Proof.
  unfold homeyEventName.
  induction u1 as [|c u1 IH]; intros [|d u2] p1 p2 H1 H2 E; simpl in *.
  - injection E as E. now split.
  - injection E as Ec E. subst d. discriminate H2.
  - injection E as Ec E. subst c. discriminate H1.
  - injection E as Ec E. subst d.
    apply andb_true_iff in H1. apply andb_true_iff in H2.
    destruct (IH u2 p1 p2 (proj2 H1) (proj2 H2) E) as [-> ->]. now split.
Qed.

(** X29: a widget gets the webhook events of its own project only.  For
    user ids without a colon, the event name the driver emits for a
    webhook body is the name the widget listens to exactly when the body's
    user id and project id are those of the widget's settings. *)
Theorem widget_receives_only_its_project :
  forall (userId projectId body_user_id body_project_id : string),
    free_of 58 userId = true -> free_of 58 body_user_id = true ->
    (widget_receives userId projectId body_user_id body_project_id = true
     <-> body_user_id = userId /\ body_project_id = projectId).
Proof.
  intros userId projectId bu bp H1 H2. unfold widget_receives. rewrite String.eqb_eq. split.
  - intros E. now apply event_name_parts.
  - now intros [-> ->].
Qed.

Lemma widget_receives_only_its_project_witness :
  free_of 58 "2671355" = true /\ free_of 58 "2671355" = true
  /\ (widget_receives "2671355" "6Xc3" "2671355" "6Xc4" = true
      <-> "2671355" = "2671355" /\ "6Xc4" = "6Xc3").
Proof.
  split; [reflexivity|]. split; [reflexivity|].
  exact (@widget_receives_only_its_project "2671355" "6Xc3" "2671355" "6Xc4" eq_refl eq_refl).
Defined.

Lemma split_hyphen_cons : forall s, exists piece pieces, split_hyphen s = piece :: pieces.
Proof.
  induction s as [|c s [piece [pieces E]]]; simpl; [now eauto|].
  destruct (is_char 45 c); [now eauto|]. rewrite E. now eauto.
Qed.

Lemma split_hyphen_prefix : forall (part rest : string),
  free_of 45 part = true ->
  split_hyphen (part ++ "-" ++ rest) = part :: split_hyphen rest.
Proof.
  induction part as [|c part IH]; intros rest H; simpl in *; [reflexivity|].
  apply andb_true_iff in H. destruct H as [Hc H].
  apply negb_true_iff in Hc. rewrite Hc. now rewrite (IH rest H).
Qed.

Lemma split_hyphen_free : forall (part : string),
  free_of 45 part = true -> split_hyphen part = [part].
Proof.
  induction part as [|c part IH]; intros H; simpl in *; [reflexivity|].
  apply andb_true_iff in H. destruct H as [Hc H].
  apply negb_true_iff in Hc. rewrite Hc. now rewrite (IH H).
Qed.

Lemma split_join_hyphen : forall (parts : list string),
  parts <> [] -> Forall (fun part => free_of 45 part = true) parts ->
  split_hyphen (join_hyphen parts) = parts.
Proof.
  induction parts as [|part parts IH]; intros Hne Hall; [contradiction|].
  inversion Hall as [|? ? Hp Hps]; subst.
  destruct parts as [|q parts]; [now apply split_hyphen_free|].
  change (join_hyphen (part :: q :: parts))
    with (part ++ "-" ++ join_hyphen (q :: parts))%string.
  rewrite split_hyphen_prefix by assumption. f_equal. apply IH; [discriminate|assumption].
Qed.

Lemma join_split_hyphen : forall s, join_hyphen (split_hyphen s) = s.
Proof.
  induction s as [|c s IH]; [reflexivity|]. simpl.
  destruct (split_hyphen_cons s) as [piece [pieces E]]. rewrite E in *.
  destruct (is_char 45 c) eqn:Ec.
  - change (join_hyphen (EmptyString :: piece :: pieces))
      with (String (Ascii.ascii_of_nat 45) (join_hyphen (piece :: pieces))).
    rewrite IH. f_equal. unfold is_char in Ec. apply Nat.eqb_eq in Ec.
    now rewrite <- (Ascii.ascii_nat_embedding c), Ec.
  - rewrite <- IH. destruct pieces; reflexivity.
Qed.

Lemma split_hyphen_pieces_free : forall s,
  Forall (fun part => free_of 45 part = true) (split_hyphen s).
Proof.
  induction s as [|c s IH]; simpl; [now repeat constructor|].
  destruct (is_char 45 c) eqn:Ec; [now constructor|].
  destruct (split_hyphen s) as [|piece pieces]; [repeat constructor; simpl; now rewrite Ec|].
  inversion IH; subst. constructor; [|assumption]. simpl. now rewrite Ec.
Qed.

(** X30: the due date action turns the order of the date's parts around.
    A date made of hyphen-free parts joined by hyphens, such as
    day-month-year, is sent to Todoist with the same parts in reverse
    order, year-month-day; the due date and time action reads year, month
    and day from the same reversed parts.  Turning around twice gives the
    text back, whatever it is. *)
Theorem due_date_parts_are_reversed :
  forall (parts : list string),
    parts <> [] -> Forall (fun part => free_of 45 part = true) parts ->
    due_date (join_hyphen parts) = join_hyphen (rev parts)
    /\ due_date_parts (join_hyphen parts) = rev parts
    /\ forall text, due_date (due_date text) = text.
Proof.
  intros parts Hne Hall. unfold due_date, due_date_parts.
  rewrite split_join_hyphen by assumption. repeat split.
  intros text. rewrite split_join_hyphen.
  - rewrite rev_involutive. apply join_split_hyphen.
  - destruct (split_hyphen_cons text) as [piece [pieces E]]. rewrite E. simpl.
    now destruct (rev pieces).
  - apply Forall_rev. apply split_hyphen_pieces_free.
Qed.

Lemma due_date_parts_are_reversed_witness :
  ["24"; "12"; "2025"] <> []
  /\ Forall (fun part => free_of 45 part = true) ["24"; "12"; "2025"]
  /\ due_date "24-12-2025" = "2025-12-24"
  /\ due_date_parts "24-12-2025" = ["2025"; "12"; "24"].
Proof.
  assert (Hne : ["24"; "12"; "2025"] <> []) by discriminate.
  assert (Hall : Forall (fun part => free_of 45 part = true) ["24"; "12"; "2025"])
    by (repeat constructor).
  split; [exact Hne|]. split; [exact Hall|].
  destruct (@due_date_parts_are_reversed ["24"; "12"; "2025"] Hne Hall) as (H1 & H2 & _).
  split; [exact H1|exact H2].
Defined.
